(** * fftGen: a generator of unrolled radix-2 FFT code

    Shallow embedding of [fftGen.c] (the option parser, [main], the planner
    of the binary-inversion swaps, the permutation emitter and the butterfly
    emitter) and of the test program [test/fftTest.c] (the reference
    algorithm [fftRef], the two tests of [main] and [conv]), together with
    the properties proved about them.

    Conventions of the embedding.
    - A C [int] is a [Z]; [/] and [%] on ints are [Z.quot] and [Z.rem].  For
      a power of two [n] every intermediate value of [fftGen] stays between
      [0] and [2*n], so the only place where 32-bit wrap-around can be seen
      is the test [n & (n-1)] of [main], where it is written out.
    - A C [double] is a real number of [R]; [sin], [cos] and [M_PI] are the
      functions and the constant of the Reals library.
    - [stdout] and [stderr] are strings that only grow.
    - The code printed by [fftGen] is kept as a list of lines, one
      constructor for each [printf] format of the source, and [render] gives
      the characters of a line.
    - The lines are run as the C assignments they are on arrays of real
      numbers ([memory]); a literal printed with [NUMBER_FORMAT] stands for
      the value that was handed to [printf], so that nothing is rounded.
      This is the reading in which the generated code is shown to compute
      the transform.
    - [run_text] reads the characters that were printed back into C
      statements ([lex], [read_code]) and runs them: this ties the text to
      the lines, up to the [2^30] points that an [int] holds.
    - The module [Doubles] runs the same lines on the numbers of IEEE 754
      binary64, every operation rounded, and [printed_value] is the number
      that the 15 digits printed for a literal stand for: this is the
      reading in which the bounds of the specification are tested. *)

From Stdlib Require Import ZArith List Bool Lia String Ascii Reals Lra DecimalString
  Permutation FinFun.
From Stdlib Require DecimalPos DecimalZ DecimalFacts.
From Corelib Require PrimFloat.
Import ListNotations.
Local Open Scope string_scope.
Local Open Scope list_scope.
Local Open Scope Z_scope.

Local Infix "+++" := String.append (at level 60, right associativity).

(** ** C integers *)

(** A C condition [if (x)] on an int. *)
Definition truthy (x : Z) : bool := negb (x =? 0).

Definition INT_MIN : Z := - 2 ^ 31.
Definition INT_MAX : Z := 2 ^ 31 - 1.

(** Two's complement wrap-around of a 32-bit int. *)
Definition wrap32 (x : Z) : Z := (x + 2 ^ 31) mod 2 ^ 32 - 2 ^ 31.

(** [printf ("%d", x)]. *)
Definition fmt_d (x : Z) : string := NilZero.string_of_int (Z.to_int x).

(** ** The swap commands of the binary inversion *)

(** [struct SwapSt]. *)
Record SWAP : Type := mkSWAP {
  swap_m      : Z;   (* m and mr will have to be swapped *)
  swap_mr     : Z;
  swap_m_new  : Z;   (* source index used instead of m at symmIn *)
  swap_mr_new : Z;   (* source index used instead of mr at symmIn *)
  swap_symmIn : Z    (* flag: use the input symmetry for this element *)
}.

Definition set_m (v : Z) (r : SWAP) : SWAP :=
  mkSWAP v (swap_mr r) (swap_m_new r) (swap_mr_new r) (swap_symmIn r).
Definition set_mr (v : Z) (r : SWAP) : SWAP :=
  mkSWAP (swap_m r) v (swap_m_new r) (swap_mr_new r) (swap_symmIn r).
Definition set_m_new (v : Z) (r : SWAP) : SWAP :=
  mkSWAP (swap_m r) (swap_mr r) v (swap_mr_new r) (swap_symmIn r).
Definition set_mr_new (v : Z) (r : SWAP) : SWAP :=
  mkSWAP (swap_m r) (swap_mr r) (swap_m_new r) v (swap_symmIn r).
Definition set_symmIn (v : Z) (r : SWAP) : SWAP :=
  mkSWAP (swap_m r) (swap_mr r) (swap_m_new r) (swap_mr_new r) v.

(** ** Arrays

    An array is a list; [aget] reads a cell and [aupd] changes one.  An
    access outside of the array is undefined in C; here a read gives the
    default value and a write is lost, and the accesses of [fftGen] are
    inside for a power of two [n]. *)

Section Arrays.
Context {A : Type}.

Fixpoint list_upd (i : nat) (f : A -> A) (l : list A) : list A :=
  match l, i with
  | [], _ => []
  | x :: l', O => f x :: l'
  | x :: l', S i' => x :: list_upd i' f l'
  end.

Definition aget (d : A) (a : list A) (i : Z) : A := nth (Z.to_nat i) a d.

Definition aupd (a : list A) (i : Z) (f : A -> A) : list A :=
  list_upd (Z.to_nat i) f a.

Definition aset (a : list A) (i : Z) (v : A) : list A := aupd a i (fun _ => v).

End Arrays.

(** ** The planner: binary inversion by the Gold-Rader recurrence *)

(** [do { k /= 2; } while (mr+k > nn);] gives the final [k].  The loop does
    not end when [k] has reached 0 and [mr > nn]; [None] stands for that. *)
Fixpoint halve_loop (fuel : nat) (k mr nn : Z) : option Z :=
  match fuel with
  | O => None
  | S fuel' =>
      let k' := Z.quot k 2 in
      if mr + k' >? nn then halve_loop fuel' k' mr nn else Some k'
  end.

(** Enough turns for [k] to reach 0 from [n]. *)
Definition halve_fuel (n : Z) : nat := S (S (Z.to_nat (Z.log2 n))).

(** One turn of the recurrence: the loop above, then [mr = mr%k + k].
    [None] also stands for the division by zero of [mr%k]. *)
Definition next_mr (n mr : Z) : option Z :=
  match halve_loop (halve_fuel n) n mr (n - 1) with
  | Some k => if k =? 0 then None else Some (Z.rem mr k + k)
  | None => None
  end.

(** The cell of [swap[]] as [fftGen] initialises it: four fields are set to
    zero, [symmIn] is left as [malloc] gave it ([junk]). *)
Definition swap_cell0 (junk : Z) : SWAP := mkSWAP 0 0 0 0 junk.

Definition swap_init (n junk : Z) : list SWAP :=
  repeat (swap_cell0 junk) (Z.to_nat n).

Definition sget (a : list SWAP) (i : Z) : SWAP := aget (swap_cell0 0) a i.

(** [for (i=start; i>0; --i) { if (v == swap[i].m || v == swap[i].mr) break; }]
    gives the final [i]. *)
Fixpoint scan_back (a : list SWAP) (v : Z) (fuel : nat) (i : Z) : Z :=
  match fuel with
  | O => i
  | S fuel' =>
      if i >? 0 then
        if (v =? swap_m (sget a i)) || (v =? swap_mr (sget a i)) then i
        else scan_back a v fuel' (i - 1)
      else i
  end.

(** [for (ii=nSwap; ii>i_mr; --ii) swap[ii] = swap[ii-1];] (the five fields
    are copied one by one in the source). *)
Fixpoint shift_right (a : list SWAP) (fuel : nat) (ii i_mr : Z) : list SWAP :=
  match fuel with
  | O => a
  | S fuel' =>
      if ii >? i_mr then shift_right (aset a ii (sget a (ii - 1))) fuel' (ii - 1) i_mr
      else a
  end.

(** The state of the loop over [m]. *)
Record plan_state : Type := mkPlan {
  pl_mr    : Z;
  pl_nSwap : Z;
  pl_swap  : list SWAP
}.

(** The part of the loop body under [if (mr > m)], before [++nSwap]. *)
Definition plan_record (n symmIn m mr nSwap : Z) (swap : list SWAP) : list SWAP :=
  if negb (truthy symmIn) then
    let swap := aupd swap nSwap (set_m m) in
    let swap := aupd swap nSwap (set_mr mr) in
    aupd swap nSwap (set_symmIn 0)
  else
    let swap := aupd swap nSwap (set_m m) in
    let swap := aupd swap nSwap (set_mr mr) in
    if (m <=? Z.quot n 2) && (mr <=? Z.quot n 2) then
      aupd swap nSwap (set_symmIn 0)
    else
      let i_m := 0 in
      let i_mr := 0 in
      let m_new := m in
      let mr_new := mr in
      let m_new := if m >? Z.quot n 2 then n - m else m_new in
      let mr_new := if mr >? Z.quot n 2 then n - mr else mr_new in
      let swap := aupd swap nSwap (set_m_new m_new) in
      let swap := aupd swap nSwap (set_mr_new mr_new) in
      let swap := aupd swap nSwap (set_symmIn 1) in
      let i_m :=
        if m >? Z.quot n 2
        then scan_back swap m_new (Z.to_nat (nSwap - 1)) (nSwap - 1) else i_m in
      let i_mr :=
        if mr >? Z.quot n 2
        then scan_back swap mr_new (Z.to_nat (nSwap - 1)) (nSwap - 1) else i_mr in
      let i_mr :=
        if (i_mr >? 0) && (i_m >? 0) then (if i_mr >? i_m then i_m else i_mr)
        else if i_m >? 0 then i_m else i_mr in
      if i_mr >? 0 then
        let swap := shift_right swap (Z.to_nat (nSwap - i_mr)) nSwap i_mr in
        let swap := aupd swap i_mr (set_m m) in
        let swap := aupd swap i_mr (set_mr mr) in
        let swap := aupd swap i_mr (set_m_new m_new) in
        let swap := aupd swap i_mr (set_mr_new mr_new) in
        aupd swap i_mr (set_symmIn 1)
      else swap.

(** The body of [for (nSwap=0,m=1; m<=nn; ++m)]. *)
Definition plan_body (n symmIn : Z) (st : plan_state) (m : Z) : option plan_state :=
  match next_mr n (pl_mr st) with
  | None => None
  | Some mr =>
      if mr >? m then
        Some (mkPlan mr (pl_nSwap st + 1)
                (plan_record n symmIn m mr (pl_nSwap st) (pl_swap st)))
      else Some (mkPlan mr (pl_nSwap st) (pl_swap st))
  end.

Fixpoint plan_loop (n symmIn : Z) (turns : nat) (m : Z) (st : plan_state)
  : option plan_state :=
  match turns with
  | O => Some st
  | S turns' =>
      match plan_body n symmIn st m with
      | Some st' => plan_loop n symmIn turns' (m + 1) st'
      | None => None
      end
  end.

(** The whole loop, from [mr = 0], [nSwap = 0], [m = 1] to [m = nn]. *)
Definition planner (n symmIn junk : Z) : option plan_state :=
  plan_loop n symmIn (Z.to_nat (n - 1)) 1 (mkPlan 0 0 (swap_init n junk)).

(** The commands [swap[0..nSwap-1]] the emitter goes through. *)
Definition records (st : plan_state) : list SWAP :=
  firstn (Z.to_nat (pl_nSwap st)) (pl_swap st).

(** ** The generated code

    One constructor for each [printf] of the permutation phase; [render_perm]
    is the text the source prints with [INDENT] empty. *)
Inductive perm_line : Type :=
| FillXr  (i j : Z)   (* xr[i] =  xr[j]; *)
| NegXi   (i j : Z)   (* xi[i] = -xi[j]; *)
| TrGetXr (i : Z)     (* tr = xr[i]; *)
| CopyXr  (i j : Z)   (* xr[i] = xr[j]; *)
| XrPutTr (i : Z)     (* xr[i] = tr; *)
| TiGetXi (i : Z)     (* ti = xi[i]; *)
| CopyXi  (i j : Z)   (* xi[i] = xi[j]; *)
| XiPutTi (i : Z).    (* xi[i] = ti; *)

Definition nl : string := String (ascii_of_nat 10) EmptyString.

Definition render_perm (l : perm_line) : string :=
  match l with
  | FillXr i j => "xr[" +++ fmt_d i +++ "] =  xr[" +++ fmt_d j +++ "];" +++ nl
  | NegXi i j  => "xi[" +++ fmt_d i +++ "] = -xi[" +++ fmt_d j +++ "];" +++ nl
  | TrGetXr i  => "tr = xr[" +++ fmt_d i +++ "];" +++ nl
  | CopyXr i j => "xr[" +++ fmt_d i +++ "] = xr[" +++ fmt_d j +++ "];" +++ nl
  | XrPutTr i  => "xr[" +++ fmt_d i +++ "] = tr;" +++ nl
  | TiGetXi i  => "ti = xi[" +++ fmt_d i +++ "];" +++ nl
  | CopyXi i j => "xi[" +++ fmt_d i +++ "] = xi[" +++ fmt_d j +++ "];" +++ nl
  | XiPutTi i  => "xi[" +++ fmt_d i +++ "] = ti;" +++ nl
  end.

(** *** The symmetry fill-ins printed before the swaps *)

(** [for (ii=start; ii>=0; --ii) { if (swap[ii].m==i || swap[ii].mr==i) break; }]
    gives the final [ii]. *)
Fixpoint scan_listed (a : list SWAP) (i : Z) (fuel : nat) (ii : Z) : Z :=
  match fuel with
  | O => ii
  | S fuel' =>
      if ii >=? 0 then
        if (swap_m (sget a ii) =? i) || (swap_mr (sget a ii) =? i) then ii
        else scan_listed a i fuel' (ii - 1)
      else ii
  end.

(** The body of [for (i=n/2+1; i<n; ++i)]. *)
Definition fill_body (n nSwap : Z) (swap : list SWAP) (i : Z) : list perm_line :=
  let ii := scan_listed swap i (Z.to_nat nSwap) (nSwap - 1) in
  if ii <? 0 then [FillXr i (n - i); NegXi i (n - i)] else [].

(** The integers [lo], [lo+1], ... below [hi]: the values of a loop counter. *)
Definition zrange (lo hi : Z) : list Z :=
  map (fun j => lo + Z.of_nat j) (seq 0 (Z.to_nat (hi - lo))).

Definition emit_fill (n symmIn nSwap : Z) (swap : list SWAP) : list perm_line :=
  if truthy symmIn
  then flat_map (fill_body n nSwap swap) (zrange (Z.quot n 2 + 1) n)
  else [].

(** *** Conduct swapping *)

(** The body of [for (k=0; k<nSwap; ++k)]. *)
Definition emit_swap (n realIn : Z) (s : SWAP) : list perm_line :=
  if negb (truthy (swap_symmIn s)) then
    [TrGetXr (swap_m s); CopyXr (swap_m s) (swap_mr s); XrPutTr (swap_mr s)]
    ++ (if negb (truthy realIn)
        then [TiGetXi (swap_m s); CopyXi (swap_m s) (swap_mr s); XiPutTi (swap_mr s)]
        else [])
  else
    [CopyXr (swap_mr s) (swap_m_new s); CopyXr (swap_m s) (swap_mr_new s)]
    ++ (if negb (truthy realIn) then
          [if swap_m s <=? Z.quot n 2
           then CopyXi (swap_mr s) (swap_m_new s)
           else NegXi (swap_mr s) (swap_m_new s);
           if swap_mr s <=? Z.quot n 2
           then CopyXi (swap_m s) (swap_mr_new s)
           else NegXi (swap_m s) (swap_mr_new s)]
        else []).

Definition emit_swaps (n realIn nSwap : Z) (swap : list SWAP) : list perm_line :=
  flat_map (fun k => emit_swap n realIn (sget swap k)) (zrange 0 nSwap).

(** The lines of the permutation phase, in the order they are printed. *)
Definition emit_perm (n realIn symmIn : Z) (st : plan_state) : list perm_line :=
  emit_fill n symmIn (pl_nSwap st) (pl_swap st)
  ++ emit_swaps n realIn (pl_nSwap st) (pl_swap st).

(** ** The butterflies *)

(** The comparisons of doubles the source makes. *)
Definition Rgtb (x y : R) : bool := if Rlt_dec y x then true else false.
Definition Rltb (x y : R) : bool := if Rlt_dec x y then true else false.
Definition Rgeb (x y : R) : bool := if Rle_dec y x then true else false.

(** The tolerances of [fftGen]; [n/2] is the division of ints. *)
Definition eps (n : Z) : R := (0.5 * sin (PI / IZR (Z.quot n 2)))%R.
Definition epsOne (n : Z) : R :=
  (1.0 - 0.5 * (1.0 - cos (PI / IZR (Z.quot n 2))))%R.
Definition epsMOne (n : Z) : R :=
  (-1.0 + 0.5 * (1.0 - cos (PI / IZR (Z.quot n 2))))%R.

(** What is printed after [tr =] or [ti =] for the first summand. *)
Inductive term1 : Type :=
| T1Lit (w : R)   (* " <w>*x[jj]" *)
| T1Neg           (* " -x[jj]" *)
| T1Id            (* " x[jj]" *)
| T1Zero.         (* nothing: firstOpZero = 1 *)

(** What is printed for the second summand. *)
Inductive term2 : Type :=
| T2SubLit (w : R)   (* " - <w>*x[jj]" *)
| T2AddLit (w : R)   (* " + <w>*x[jj]" *)
| T2Lit (w : R)      (* " <w>*x[jj]" *)
| T2Add              (* " + x[jj]" *)
| T2Sub              (* " - x[jj]" *)
| T2Id               (* " x[jj]" *)
| T2Zero.            (* nothing *)

(** One constructor for each line the butterfly loop prints. *)
Inductive bfly_line : Type :=
| TrLine (t1 : term1) (t2 : term2) (jj : Z)   (* tr = <xr[jj] term> <xi[jj] term>; *)
| TiLine (t1 : term1) (t2 : term2) (jj : Z)   (* ti = <xi[jj] term> <xr[jj] term>; *)
| XrSubTr (jj ii : Z)   (* xr[jj] = xr[ii] - tr; *)
| XrCopy  (jj ii : Z)   (* xr[jj] = xr[ii]; *)
| XiSubTi (jj ii : Z)   (* xi[jj] = xi[ii] - ti; *)
| XiNegTi (jj : Z)      (* xi[jj] = - ti; *)
| XiCopy  (jj ii : Z)   (* xi[jj] = xi[ii]; *)
| XiZero  (i : Z)       (* xi[i] = 0.0; *)
| XrAddTr (ii : Z)      (* xr[ii] += tr; *)
| XiAddTi (ii : Z)      (* xi[ii] += ti; *)
| XiSetTi (ii : Z).     (* xi[ii] = ti; *)

Definition is_T1Zero (t : term1) : bool :=
  match t with T1Zero => true | _ => false end.
Definition is_T2Zero (t : term2) : bool :=
  match t with T2Zero => true | _ => false end.

(** *** [tr = wr*xr[jj] - wi*xi[jj]] *)

(** Part [wr*xr[jj]]. *)
Definition tr_part1 (n : Z) (wr : R) : term1 :=
  if Rgtb (Rabs wr) (eps n) then
    if Rltb wr (epsOne n) then
      if Rgtb wr (epsMOne n) then T1Lit wr
      else T1Neg
    else T1Id
  else T1Zero.

(** Part [-wi*xi[jj]]; [nzi_jj] is [nzi[jj]]. *)
Definition tr_part2 (n : Z) (wi : R) (nzi_jj : Z) (firstOpZero : bool) : term2 :=
  if Rgtb (Rabs wi) (eps n) && truthy nzi_jj then
    if Rltb wi (epsOne n) then
      if Rgtb wi (epsMOne n) then
        if negb firstOpZero then
          if Rgeb wi 0.0 then T2SubLit wi else T2AddLit (- wi)
        else T2Lit (- wi)
      else
        if negb firstOpZero then T2Add else T2Id
    else T2Sub
  else T2Zero.

(** *** [ti = wr*xi[jj] + wi*xr[jj]] *)

(** Part [wr*xi[jj]]. *)
Definition ti_part1 (n : Z) (wr : R) (nzi_jj : Z) : term1 :=
  if Rgtb (Rabs wr) (eps n) && truthy nzi_jj then
    if Rltb wr (epsOne n) then
      if Rgtb wr (epsMOne n) then T1Lit wr
      else T1Neg
    else T1Id
  else T1Zero.

(** Part [+wi*xr[jj]]. *)
Definition ti_part2 (n : Z) (wi : R) (firstOpZero : bool) : term2 :=
  if Rgtb (Rabs wi) (eps n) then
    if Rltb wi (epsOne n) then
      if Rgtb wi (epsMOne n) then
        if negb firstOpZero then
          if Rgeb wi 0.0 then T2AddLit wi else T2SubLit (- wi)
        else T2Lit wi
      else T2Sub
    else T2Id
  else T2Zero.

(** The zero-imag vector [nzi]: an array of ints. *)
Definition nzi_get (nzi : list Z) (i : Z) : Z := aget 0 nzi i.

(** [fftGen]'s arguments other than [n]. *)
Record flags : Type := mkFlags {
  inv     : Z;   (* !=0: inverse FFT *)
  realIn  : Z;   (* !=0: optimize for real only input *)
  realOut : Z;   (* !=0: optimize for real only output *)
  symmIn  : Z;   (* !=0: optimize for symmetry at input *)
  symmOut : Z    (* !=0: optimize for symmetry at output *)
}.

(** The body of the innermost loop [for (i=m; i<=nm; ++i)], without the
    final [ii += istep]: the lines printed and the new [nzi]. *)
Definition butterfly (n : Z) (f : flags) (k lastKCycle : Z) (wr wi : R)
    (ii : Z) (nzi : list Z) : list bfly_line * list Z :=
  let jj := ii + k in
  (* tr *)
  let t1 := tr_part1 n wr in
  let t2 := tr_part2 n wi (nzi_get nzi jj) (is_T1Zero t1) in
  let trz := is_T1Zero t1 && is_T2Zero t2 in
  let tr_out := if trz then [] else [TrLine t1 t2 jj] in
  (* ti *)
  let skip_imag := truthy (realOut f) && truthy lastKCycle in
  let u1 := ti_part1 n wr (nzi_get nzi jj) in
  let u2 := ti_part2 n wi (is_T1Zero u1) in
  let tiz := if skip_imag then false else is_T1Zero u1 && is_T2Zero u2 in
  let ti_out := if skip_imag || tiz then [] else [TiLine u1 u2 jj] in
  (* xr[jj], xi[jj] *)
  let '(jj_out, nzi) :=
    if negb (truthy (symmOut f) && truthy lastKCycle && negb (jj =? Z.quot n 2)) then
      let xr_out := if negb trz then [XrSubTr jj ii] else [XrCopy jj ii] in
      if negb skip_imag then
        if negb tiz then
          ((xr_out ++ [if truthy (nzi_get nzi ii) then XiSubTi jj ii else XiNegTi jj]),
           aset nzi jj 1)
        else if truthy (nzi_get nzi ii) then
          (xr_out ++ [XiCopy jj ii], aset nzi jj 1)
        else if truthy (realIn f) && truthy lastKCycle then
          (xr_out ++ [XiZero jj], nzi)
        else (xr_out, nzi)
      else (xr_out, nzi)
    else ([], nzi) in
  (* xr[ii] += tr *)
  let xr_ii := if negb trz then [XrAddTr ii] else [] in
  (* xi[ii] += ti *)
  let '(xi_ii, nzi) :=
    if negb skip_imag then
      if negb tiz then
        if truthy (nzi_get nzi ii) then ([XiAddTi ii], nzi)
        else ([XiSetTi ii], aset nzi ii 1)
      else if truthy (realIn f) && truthy lastKCycle then ([XiZero ii], nzi)
      else ([], nzi)
    else ([], nzi) in
  (tr_out ++ ti_out ++ jj_out ++ xr_ii ++ xi_ii, nzi).

(** A loop that prints: the lines of every turn, in order, and the state
    after the last one. *)
Fixpoint emit_for {S L : Type} (body : Z -> S -> list L * S) (turns : list Z) (s : S)
  : list L * S :=
  match turns with
  | [] => ([], s)
  | i :: turns' =>
      let '(l1, s1) := body i s in
      let '(l2, s2) := emit_for body turns' s1 in
      (l1 ++ l2, s2)
  end.

(** [for (i=m; i<=nm; ++i) { ...; ii += istep; }]; the state is [(ii, nzi)]. *)
Definition point_loop (n : Z) (f : flags) (k istep lastKCycle : Z) (wr wi : R)
    (m nm : Z) (s : Z * list Z) : list bfly_line * (Z * list Z) :=
  emit_for
    (fun _ '(ii, nzi) =>
       let '(out, nzi') := butterfly n f k lastKCycle wr wi ii nzi in
       (out, (ii + istep, nzi')))
    (zrange m (nm + 1)) s.

(** The body of [for (m=0; m<k; ++m)]. *)
Definition group (n : Z) (f : flags) (k istep lastKCycle : Z) (m : Z)
    (nzi : list Z) : list bfly_line * list Z :=
  let a := (PI * IZR (- m) / IZR k)%R in
  let wr := cos a in
  let wi := sin a in
  let wi := if truthy (inv f) then (- wi)%R else wi in
  let ii := m in
  let nm := Z.quot ((n - 1) - m) istep + m in
  let '(out, (_, nzi')) := point_loop n f k istep lastKCycle wr wi m nm (ii, nzi) in
  (out, nzi').

(** [for (k=1; k<n; k=istep)]; the state is [(lastKCycle, nzi)]. *)
Fixpoint stage_loop (n : Z) (f : flags) (fuel : nat) (k : Z) (s : Z * list Z)
  : list bfly_line * (Z * list Z) :=
  match fuel with
  | O => ([], s)
  | S fuel' =>
      if k <? n then
        let '(lastKCycle, nzi) := s in
        let istep := 2 * k in
        let lastKCycle := if istep =? n then 1 else lastKCycle in
        let '(l1, nzi1) := emit_for (group n f k istep lastKCycle) (zrange 0 k) nzi in
        let '(l2, s2) := stage_loop n f fuel' istep (lastKCycle, nzi1) in
        (l1 ++ l2, s2)
      else ([], s)
  end.

(** [k] is doubled from 1: after [stage_fuel n] turns it is above [n]. *)
Definition stage_fuel (n : Z) : nat := S (S (Z.to_nat (Z.log2 n))).

(** [nzi] as [fftGen] fills it after [malloc]. *)
Definition nzi_init (n realIn : Z) : list Z :=
  if negb (truthy realIn) then repeat 1 (Z.to_nat n) else repeat 0 (Z.to_nat n).

(** The lines of the transform and the final [nzi]. *)
Definition emit_bfly (n : Z) (f : flags) : list bfly_line * (Z * list Z) :=
  stage_loop n f (stage_fuel n) 1 (0, nzi_init n (realIn f)).

(** ** What the program gets from the C library and the system *)

Record environment : Type := mkEnv {
  (** [printf] of a double with [NUMBER_FORMAT], "%21.14e" *)
  number_format : R -> string;
  (** [sscanf (s, "%i", &v)]: [Some v] when it returns 1 *)
  scan_i : string -> option Z;
  (** does the [malloc] of [nzi], of [swap], give memory *)
  nzi_allocated : bool;
  swap_allocated : bool;
  (** the int found in fresh memory where [swap[i].symmIn] lies *)
  heap_junk : Z;
  (** [strerror (errno)] after a failed [malloc] *)
  strerror_errno : string
}.

(** *** The text of the butterfly lines *)

Definition LINELEN : nat := 200.

(** [snprintf (line+len, LINELEN-len, ...)] with [len = strlen (line)]:
    what does not fit in [line] is cut. *)
Definition snprintf_cat (line s : string) : string :=
  substring 0 (LINELEN - 1) (line +++ s).

Definition render_term1 (E : environment) (x : string) (jj : Z) (t : term1) : string :=
  match t with
  | T1Lit w => " " +++ number_format E w +++ "*" +++ x +++ "[" +++ fmt_d jj +++ "]"
  | T1Neg   => " -" +++ x +++ "[" +++ fmt_d jj +++ "]"
  | T1Id    => " " +++ x +++ "[" +++ fmt_d jj +++ "]"
  | T1Zero  => EmptyString
  end.

Definition render_term2 (E : environment) (x : string) (jj : Z) (t : term2) : string :=
  match t with
  | T2SubLit w => " - " +++ number_format E w +++ "*" +++ x +++ "[" +++ fmt_d jj +++ "]"
  | T2AddLit w => " + " +++ number_format E w +++ "*" +++ x +++ "[" +++ fmt_d jj +++ "]"
  | T2Lit w    => " " +++ number_format E w +++ "*" +++ x +++ "[" +++ fmt_d jj +++ "]"
  | T2Add      => " + " +++ x +++ "[" +++ fmt_d jj +++ "]"
  | T2Sub      => " - " +++ x +++ "[" +++ fmt_d jj +++ "]"
  | T2Id       => " " +++ x +++ "[" +++ fmt_d jj +++ "]"
  | T2Zero     => EmptyString
  end.

Definition render_bfly (E : environment) (l : bfly_line) : string :=
  match l with
  | TrLine t1 t2 jj =>
      snprintf_cat (snprintf_cat "tr =" (render_term1 E "xr" jj t1))
                   (render_term2 E "xi" jj t2) +++ ";" +++ nl
  | TiLine t1 t2 jj =>
      snprintf_cat (snprintf_cat "ti =" (render_term1 E "xi" jj t1))
                   (render_term2 E "xr" jj t2) +++ ";" +++ nl
  | XrSubTr jj ii => "xr[" +++ fmt_d jj +++ "] = xr[" +++ fmt_d ii +++ "] - tr;" +++ nl
  | XrCopy jj ii  => "xr[" +++ fmt_d jj +++ "] = xr[" +++ fmt_d ii +++ "];" +++ nl
  | XiSubTi jj ii => "xi[" +++ fmt_d jj +++ "] = xi[" +++ fmt_d ii +++ "] - ti;" +++ nl
  | XiNegTi jj    => "xi[" +++ fmt_d jj +++ "] = - ti;" +++ nl
  | XiCopy jj ii  => "xi[" +++ fmt_d jj +++ "] = xi[" +++ fmt_d ii +++ "];" +++ nl
  | XiZero i      => "xi[" +++ fmt_d i +++ "] = 0.0;" +++ nl
  | XrAddTr ii    => "xr[" +++ fmt_d ii +++ "] += tr;" +++ nl
  | XiAddTi ii    => "xi[" +++ fmt_d ii +++ "] += ti;" +++ nl
  | XiSetTi ii    => "xi[" +++ fmt_d ii +++ "] = ti;" +++ nl
  end.

(** ** Running the program: the two streams and the ways to stop *)

Record streams : Type := mkStreams {
  stdout : string;
  stderr : string
}.

Inductive outcome (A : Type) : Type :=
| Ret (a : A) (w : streams)        (* goes on with a value *)
| Exit (status : Z) (w : streams)  (* exit (status), or main returned *)
| Undef.                           (* no defined behaviour: a division by zero,
                                      a loop without end, a wrong store *)
Arguments Ret {A} a w.
Arguments Exit {A} status w.
Arguments Undef {A}.

Definition proc (A : Type) : Type := streams -> outcome A.

Definition ret {A} (a : A) : proc A := fun w => Ret a w.
Definition bind {A B} (p : proc A) (k : A -> proc B) : proc B :=
  fun w =>
    match p w with
    | Ret a w' => k a w'
    | Exit s w' => Exit s w'
    | Undef => Undef
    end.
Definition exit {A} (status : Z) : proc A := fun w => Exit status w.
Definition undef {A} : proc A := fun _ => Undef.
Definition to_stdout (s : string) : proc unit :=
  fun w => Ret tt (mkStreams (stdout w +++ s) (stderr w)).
Definition to_stderr (s : string) : proc unit :=
  fun w => Ret tt (mkStreams (stdout w) (stderr w +++ s)).

Notation "x <- p ;; k" := (bind p (fun x => k))
  (at level 61, p at next level, right associativity).
Notation "p ;; k" := (bind p (fun _ => k))
  (at level 61, right associativity).

Definition EXIT_SUCCESS : Z := 0.
Definition EXIT_FAILURE : Z := 1.

Definition LOGO : string := "fftGen".
Definition VERSION : string := "V1".

(** ** The code generating function *)

Definition fftGen (E : environment) (n : Z) (f : flags) : proc unit :=
  if negb (nzi_allocated E) then
    to_stderr (nl +++ LOGO +++ ": Error allocating memory: " +++ strerror_errno E +++ nl) ;;
    exit EXIT_FAILURE
  else if negb (swap_allocated E) then
    to_stderr (nl +++ LOGO +++ ": Error allocating memory: " +++ strerror_errno E +++ nl) ;;
    exit EXIT_FAILURE
  else
    match planner n (symmIn f) (heap_junk E) with
    | None => undef
    | Some st =>
        to_stdout (String.concat EmptyString (map render_perm (emit_perm n (realIn f) (symmIn f) st))) ;;
        to_stdout nl ;;
        to_stdout (String.concat EmptyString (map (render_bfly E) (fst (emit_bfly n f))))
    end.

(** ** The command line *)

Definition licenseText : string :=
  "// This program is free software: you can redistribute it and/or modify it under" +++ nl +++
  "// the terms of the GNU General Public License as published by the Free Software" +++ nl +++
  "// Foundation; either version 3 of the license, or (at your option) any later" +++ nl +++
  "// version." +++ nl +++
  "//" +++ nl +++
  "// This program is distributed in the hope that it will be useful, but WITHOUT" +++ nl +++
  "// ANY WARRANTY; without even the implied warranty of MERCHANTABILITY or FITNESS" +++ nl +++
  "// FOR A PARTICULAR PURPOSE. See the GNU General Public License for more" +++ nl +++
  "// details." +++ nl +++
  "//" +++ nl +++
  "// You should have received a copy of the GNU General Public License along with" +++ nl +++
  "// this program, see file COPYING. If not, see https://www.gnu.org/licenses/." +++ nl.

Definition header : string := EmptyString.   (* starting code of the generated function *)
Definition footer : string := EmptyString.   (* ending of the generated function *)

(** [info (file)]: [to_err] says that [file] is [stderr]. *)
Definition usage : string :=
  "Usage: fftGen [option...]" +++ nl +++
  "Options:" +++ nl +++
  "Mandatory arguments to long options are mandatory for short options too." +++ nl +++
  " -n, --points NUMBER   Number of points, must be a power of 2." +++ nl +++
  " -i, --inverse         Generate code for inverse FFT." +++ nl +++
  " -r, --real-in-opt     Optimize for real only input." +++ nl +++
  " -o, --real-out-opt    Optimize for real only output." +++ nl +++
  " -m, --symm-in-opt     Optimize for symmetry at input sequence." +++ nl +++
  " -s, --symm-out-opt    Optimize for symmetry at output sequence." +++ nl +++
  " -l, --license         Write a GPL 3 note at the beginning of the code." +++ nl +++
  " -v, --verbose         Increase verbosity level." +++ nl +++
  "                       Verbose output is directed to stderr." +++ nl +++
  " -V, --version         Print version and exit." +++ nl +++
  " -h, --help            Print this info." +++ nl +++
  "Note that it is required to specify the number of data points by option -n" +++ nl +++
  "or --points." +++ nl +++
  "Result is written to stdout" +++ nl.

Definition info {A} (to_err : bool) : proc A :=
  if to_err then
    to_stderr usage ;; exit EXIT_FAILURE
  else
    to_stdout (LOGO +++ ": Generate code to compute an FFT or IFFT" +++ nl +++
               "Version: " +++ VERSION +++ nl +++ nl) ;;
    to_stdout usage ;; exit EXIT_SUCCESS.

(** The static ints of [main] the options are stored in. *)
Inductive var : Type :=
| Vn | Vinv | VrealIn | VrealOut | VsymmIn | VsymmOut | Vlicense | Vverbose.

Record config : Type := mkConfig {
  cfg_n       : Z;       (* number of points *)
  cfg_flags   : flags;   (* inv, realIn, realOut, symmIn, symmOut *)
  cfg_verbose : Z;       (* level of verbosity *)
  cfg_license : Z        (* !=0: write a GPL 3 note at the beginning *)
}.

(** Statics start at zero. *)
Definition config0 : config := mkConfig 0 (mkFlags 0 0 0 0 0) 0 0.

Definition get_var (v : var) (c : config) : Z :=
  match v with
  | Vn => cfg_n c
  | Vinv => inv (cfg_flags c)
  | VrealIn => realIn (cfg_flags c)
  | VrealOut => realOut (cfg_flags c)
  | VsymmIn => symmIn (cfg_flags c)
  | VsymmOut => symmOut (cfg_flags c)
  | Vlicense => cfg_license c
  | Vverbose => cfg_verbose c
  end.

Definition set_var (v : var) (x : Z) (c : config) : config :=
  let f := cfg_flags c in
  match v with
  | Vn => mkConfig x f (cfg_verbose c) (cfg_license c)
  | Vinv => mkConfig (cfg_n c) (mkFlags x (realIn f) (realOut f) (symmIn f) (symmOut f))
              (cfg_verbose c) (cfg_license c)
  | VrealIn => mkConfig (cfg_n c) (mkFlags (inv f) x (realOut f) (symmIn f) (symmOut f))
              (cfg_verbose c) (cfg_license c)
  | VrealOut => mkConfig (cfg_n c) (mkFlags (inv f) (realIn f) x (symmIn f) (symmOut f))
              (cfg_verbose c) (cfg_license c)
  | VsymmIn => mkConfig (cfg_n c) (mkFlags (inv f) (realIn f) (realOut f) x (symmOut f))
              (cfg_verbose c) (cfg_license c)
  | VsymmOut => mkConfig (cfg_n c) (mkFlags (inv f) (realIn f) (realOut f) (symmIn f) x)
              (cfg_verbose c) (cfg_license c)
  | Vlicense => mkConfig (cfg_n c) f (cfg_verbose c) x
  | Vverbose => mkConfig (cfg_n c) f x (cfg_license c)
  end.

(** [struct Option]; [fmt = None] is the NULL of the source. *)
Record OPTION : Type := mkOPTION {
  shOpt : string;          (* name of short option *)
  lgOpt : string;          (* name of long option (w/ one "-" before) *)
  fmt   : option string;   (* scanf format spec to read the value *)
  val   : var              (* destination of the value of the option *)
}.

Definition pOptions : list OPTION :=
  [ mkOPTION "n" "-points"       (Some "%i") Vn;
    mkOPTION "i" "-inverse"      None Vinv;
    mkOPTION "r" "-real-in-opt"  None VrealIn;
    mkOPTION "o" "-real-out-opt" None VrealOut;
    mkOPTION "m" "-symm-in-opt"  None VsymmIn;
    mkOPTION "s" "-symm-out-opt" None VsymmOut;
    mkOPTION "l" "-license"      None Vlicense;
    mkOPTION "v" "-verbose"      None Vverbose ].

(** [s + k] for a C string. *)
Definition str_skip (k : nat) (s : string) : string :=
  substring k (String.length s - k) s.

(** [sscanf (s, format, &v) == 1] with the value read, for a format made of
    plain characters followed by the conversion "%i", the only conversion
    in [pOptions]: the plain characters have to be the first ones of [s]. *)
Definition sscanf (E : environment) (s format : string) : option Z :=
  let k := (String.length format - 2)%nat in
  if String.eqb (str_skip k format) "%i" then
    let lit := substring 0 k format in
    if String.prefix lit s then scan_i E (str_skip k s) else None
  else None.

(** The second character of a format is 's'. *)
Definition is_str_format (f : string) : bool :=
  match String.get 1 f with
  | Some c => Ascii.eqb c "s"
  | None => false
  end.

(** [printf ("%s", argv[i])], where [argv[argc]] is the null pointer,
    shown by the C library as "(null)". *)
Definition fmt_arg (a : option string) : string :=
  match a with
  | Some s => s
  | None => "(null)"
  end.

(** [checkOption]: [arg] is [argv[*pi]] as [main] has advanced it, [rest]
    are the entries after it.  The result is the returned int, the statics
    and the entries left after [argv[*pi]]. *)
Definition checkOption (E : environment) (arg : string) (rest : list string)
    (pOp : OPTION) (c : config) : proc (Z * config * list string) :=
  if match fmt pOp with Some f => is_str_format f | None => false end then
    if String.prefix (shOpt pOp) arg || String.prefix (lgOpt pOp) arg then
      let len := if String.prefix (shOpt pOp) arg
                 then String.length (shOpt pOp) else String.length (lgOpt pOp) in
      match String.get len arg, rest with
      | None, [] =>
          to_stderr (nl +++ LOGO +++ ": Missing option argument" +++ nl) ;;
          info true
      | _, _ =>
          (* a char pointer is stored into a static int *)
          undef
      end
    else ret (0, c, rest)
  else
    let scanned :=
      match fmt pOp with
      | None => None
      | Some f =>
          match sscanf E arg (shOpt pOp +++ "=" +++ f) with
          | Some v => Some v
          | None =>
          match sscanf E arg (shOpt pOp +++ f) with
          | Some v => Some v
          | None =>
          match sscanf E arg (lgOpt pOp +++ "=" +++ f) with
          | Some v => Some v
          | None => sscanf E arg (lgOpt pOp +++ f)
          end end end
      end in
    match scanned with
    | Some v => ret (1, set_var (val pOp) v c, rest)
    | None =>
        if String.prefix (shOpt pOp) arg
           && match fmt pOp with None => true | Some _ => false end then
          ret (-1, set_var (val pOp) (get_var (val pOp) c + 1) c, rest)
        else if String.eqb arg (shOpt pOp) || String.eqb arg (lgOpt pOp) then
          match fmt pOp with
          | None => ret (1, set_var (val pOp) (get_var (val pOp) c + 1) c, rest)
          | Some f =>
              match rest with
              | [] =>
                  to_stderr (nl +++ LOGO +++ ": Invalid option argument "
                             +++ fmt_arg None +++ nl +++ nl) ;;
                  info true
              | a :: rest' =>
                  match sscanf E a f with
                  | Some v => ret (1, set_var (val pOp) v c, rest')
                  | None =>
                      to_stderr (nl +++ LOGO +++ ": Invalid option argument "
                                 +++ fmt_arg (Some a) +++ nl +++ nl) ;;
                      info true
                  end
              end
          end
        else ret (0, c, rest)
    end.

(** [checkOptions]: the first option of the array that fits, with its
    index [*po]. *)
Fixpoint checkOptions (E : environment) (arg : string) (rest : list string)
    (pOp : list OPTION) (po : Z) (c : config) : proc (Z * Z * config * list string) :=
  match pOp with
  | [] => ret (0, po, c, rest)
  | op :: pOp' =>
      r <- checkOption E arg rest op c ;;
      let '(r_ret, c', rest') := r in
      if r_ret =? 0 then checkOptions E arg rest pOp' (po + 1) c'
      else ret (r_ret, po, c', rest')
  end.

(** The loop [while ( *++argv[i] )] of [main] over the characters of one
    entry: [cur] is [argv[i]] before the [++], [rest] are the entries after
    it.  The loop ends after at most [String.length cur] turns; reading
    past the end of the entry would be undefined. *)
Fixpoint option_loop (E : environment) (fuel : nat) (cur : string) (rest : list string)
    (c : config) : proc (config * list string) :=
  match fuel with
  | O => undef
  | S fuel' =>
      let arg := str_skip 1 cur in
      if String.eqb arg EmptyString then ret (c, rest)
      else
        r <- checkOptions E arg rest pOptions 0 c ;;
        let '(r_ret, o, c', rest') := r in
        if r_ret =? 1 then
          (* a param. option, or a long option w/o parameter *)
          ret (c', rest')
        else if r_ret =? -1 then
          (* boolean short option: advance past its name *)
          let sh := shOpt (nth (Z.to_nat o) pOptions (mkOPTION "n" "-points" None Vn)) in
          option_loop E fuel' (str_skip (String.length sh - 1) arg) rest' c'
        else if String.eqb arg "-version" || String.prefix "V" arg then
          to_stdout (LOGO +++ " " +++ VERSION +++ nl) ;;
          exit EXIT_SUCCESS
        else if String.eqb arg "h" || String.eqb arg "-help" || String.prefix "?" arg then
          info false
        else
          to_stderr (nl +++ LOGO +++ ": Unknown option -" +++ arg +++ nl +++ nl) ;;
          info true
  end.

(** Is the entry a non-stand-alone '-' followed by something. *)
Definition is_option_arg (a : string) : bool :=
  match String.get 0 a, String.get 1 a with
  | Some c0, Some _ => Ascii.eqb c0 "-"
  | _, _ => false
  end.

(** The loop [for (i=1; i<argc; i++)] of [main]: [args] are the entries
    from [argv[i]] on.  Every turn uses up one entry or two. *)
Fixpoint arg_loop (E : environment) (fuel : nat) (args : list string) (c : config)
  : proc config :=
  match fuel with
  | O => ret c
  | S fuel' =>
      match args with
      | [] => ret c
      | a :: rest =>
          if is_option_arg a then
            r <- option_loop E (String.length a) a rest c ;;
            let '(c', rest') := r in
            arg_loop E fuel' rest' c'
          else
            to_stderr (nl +++ LOGO +++ ": Unknown argument " +++ a +++ nl +++ nl) ;;
            info true
      end
  end.

Definition when (b : bool) (p : proc unit) : proc unit := if b then p else ret tt.

(** The block [if (verbose > 0) { ... }] of [main]. *)
Definition report_options (c : config) : proc unit :=
  let f := cfg_flags c in
  when (cfg_verbose c >? 0)
    (to_stderr ("Number of points " +++ fmt_d (cfg_n c) +++ nl) ;;
     (if truthy (inv f)
      then to_stderr ("Generating code for inverse FFT" +++ nl)
      else to_stderr ("Generating code for standard (not inverse) FFT" +++ nl)) ;;
     when (truthy (realIn f)) (to_stderr ("Optimize for real only input" +++ nl)) ;;
     when (truthy (realOut f)) (to_stderr ("Optimize for real only output" +++ nl)) ;;
     when (truthy (symmIn f)) (to_stderr ("Optimize for symmetry at input" +++ nl)) ;;
     when (truthy (symmOut f)) (to_stderr ("Optimize for symmetry at output" +++ nl)) ;;
     when (truthy (cfg_license c)) (to_stderr ("Include a GPL 3 note into the code" +++ nl))).

(** The two tests of [n] in [main]; [n-1] wraps around at [INT_MIN]. *)
Definition check_points (n : Z) : proc unit :=
  when (n =? 0)
    (to_stderr (nl +++ LOGO +++ ": No number of points specified." +++ nl) ;;
     info true) ;;
  when (truthy (Z.land n (wrap32 (n - 1))))
    (to_stderr (nl +++ LOGO +++ ": Number of points " +++ fmt_d n
                +++ " is not a power of two." +++ nl) ;;
     info true).

(** [main] from the tests of [n] to [return EXIT_SUCCESS]. *)
Definition generate (E : environment) (c : config) : proc unit :=
  check_points (cfg_n c) ;;
  when (truthy (cfg_license c)) (to_stdout licenseText) ;;
  to_stdout header ;;
  fftGen E (cfg_n c) (cfg_flags c) ;;
  to_stdout footer ;;
  exit EXIT_SUCCESS.

(** [main] after the command line has been read. *)
Definition main_body (E : environment) (c : config) : proc unit :=
  report_options c ;;
  generate E c.

(** [main (argc, argv)], started with nothing written yet; [argv[0]] is the
    name of the program. *)
Definition main (E : environment) (argv : list string) : outcome unit :=
  (c <- arg_loop E (List.length argv) (tl argv) config0 ;;
   main_body E c) (mkStreams EmptyString EmptyString).

(** What can be seen of a run. *)
Definition final_stdout {A} (o : outcome A) : option string :=
  match o with
  | Ret _ w | Exit _ w => Some (stdout w)
  | Undef => None
  end.
Definition final_stderr {A} (o : outcome A) : option string :=
  match o with
  | Ret _ w | Exit _ w => Some (stderr w)
  | Undef => None
  end.
Definition exit_status {A} (o : outcome A) : option Z :=
  match o with
  | Exit s _ => Some s
  | _ => None
  end.

(** ** The planner seen on the list of its commands

    [plan_record] writes into the cell [swap[nSwap]] and, to insert, moves
    the cells after [i_mr] one place up.  On the list of the commands stored
    so far this is an append or an insertion; [plan_record_list] shows that
    both agree. *)
Definition plan_insert (n symmIn m mr : Z) (L : list SWAP) : list SWAP :=
  if negb (truthy symmIn) then L ++ [mkSWAP m mr 0 0 0]
  else if (m <=? Z.quot n 2) && (mr <=? Z.quot n 2) then L ++ [mkSWAP m mr 0 0 0]
  else
    let nSwap := Z.of_nat (List.length L) in
    let m_new := if m >? Z.quot n 2 then n - m else m in
    let mr_new := if mr >? Z.quot n 2 then n - mr else mr in
    let i_m :=
      if m >? Z.quot n 2
      then scan_back L m_new (Z.to_nat (nSwap - 1)) (nSwap - 1) else 0 in
    let i_mr :=
      if mr >? Z.quot n 2
      then scan_back L mr_new (Z.to_nat (nSwap - 1)) (nSwap - 1) else 0 in
    let i_mr :=
      if (i_mr >? 0) && (i_m >? 0) then (if i_mr >? i_m then i_m else i_mr)
      else if i_m >? 0 then i_m else i_mr in
    let new := mkSWAP m mr m_new mr_new 1 in
    if i_mr >? 0
    then firstn (Z.to_nat i_mr) L ++ new :: skipn (Z.to_nat i_mr) L
    else L ++ [new].

(** The loop over [m] on the list of commands: the running [mr] and the
    list after [turns] turns from [m] on. *)
Fixpoint plan_list (n symmIn : Z) (turns : nat) (m mr : Z) (L : list SWAP)
  : option (Z * list SWAP) :=
  match turns with
  | O => Some (mr, L)
  | S turns' =>
      match next_mr n mr with
      | None => None
      | Some mr' =>
          plan_list n symmIn turns' (m + 1) mr'
            (if mr' >? m then plan_insert n symmIn m mr' L else L)
      end
  end.

(** ** Binary inversion, as the claims speak of it *)

(** The number whose [p] low bits are those of [x] in reverse order. *)
Fixpoint bitrev (p : nat) (x : Z) : Z :=
  match p with
  | O => 0
  | S p' => (x mod 2) * 2 ^ Z.of_nat p' + bitrev p' (x / 2)
  end.

(** The commands of the binary inversion of [p] bits in the order of the
    loop over [m], each put into the list by [plan_insert]. *)
Definition plan_fold (p : nat) (symmIn : Z) (ms : list Z) (L : list SWAP) : list SWAP :=
  fold_left
    (fun L m =>
       if bitrev p m >? m then plan_insert (2 ^ Z.of_nat p) symmIn m (bitrev p m) L else L)
    ms L.

(** The pairs the binary inversion swaps, by increasing [m]. *)
Definition bitrev_pairs (p : nat) : list SWAP :=
  map (fun m => mkSWAP m (bitrev p m) 0 0 0)
      (filter (fun m => m <? bitrev p m) (zrange 1 (2 ^ Z.of_nat p))).

(** ** What the lines of the permutation phase do

    The generated code works on the arrays [xr], [xi] and the scalars [tr],
    [ti] of its caller. *)
Record memory : Type := mkMem {
  xr : Z -> R;
  xi : Z -> R;
  tr : R;
  ti : R
}.

Definition fupd (a : Z -> R) (i : Z) (v : R) : Z -> R :=
  fun j => if j =? i then v else a j.

Definition exec_perm (l : perm_line) (s : memory) : memory :=
  match l with
  | FillXr i j => mkMem (fupd (xr s) i (xr s j)) (xi s) (tr s) (ti s)
  | NegXi i j  => mkMem (xr s) (fupd (xi s) i (- xi s j)%R) (tr s) (ti s)
  | TrGetXr i  => mkMem (xr s) (xi s) (xr s i) (ti s)
  | CopyXr i j => mkMem (fupd (xr s) i (xr s j)) (xi s) (tr s) (ti s)
  | XrPutTr i  => mkMem (fupd (xr s) i (tr s)) (xi s) (tr s) (ti s)
  | TiGetXi i  => mkMem (xr s) (xi s) (tr s) (xi s i)
  | CopyXi i j => mkMem (xr s) (fupd (xi s) i (xi s j)) (tr s) (ti s)
  | XiPutTi i  => mkMem (xr s) (fupd (xi s) i (ti s)) (tr s) (ti s)
  end.

Definition run_perm (ls : list perm_line) (s : memory) : memory :=
  fold_left (fun s l => exec_perm l s) ls s.

(** The array [a] after the swaps of the binary inversion for all [m'] below
    [m]: the cells of the pairs met so far are exchanged. *)
Definition perm_upto (p : nat) (m : Z) (a : Z -> R) : Z -> R :=
  fun i => if (i <? m) || (bitrev p i <? m) then a (bitrev p i) else a i.

(** ** An environment for the examples *)

(** The decimal digits at the start of [s], most significant first. *)
Fixpoint leading_digits (s : string) : list Z :=
  match s with
  | EmptyString => []
  | String c s' =>
      let d := Z.of_nat (nat_of_ascii c) - 48 in
      if (0 <=? d) && (d <=? 9) then d :: leading_digits s' else []
  end.

(** A reading of decimal numbers without sign, as "%i" does it for them. *)
Definition scan_decimal (s : string) : option Z :=
  match leading_digits s with
  | [] => None
  | ds => Some (fold_left (fun acc d => 10 * acc + d) ds 0)
  end.

Definition sample_env : environment :=
  mkEnv (fun _ => "1.0e+00") scan_decimal true true 0 "Cannot allocate memory".

(** ** Words of the claims about [nzi] *)

(** The line assigns to [xi[i]] a value that is not known to be zero. *)
Definition writes_unknown_xi (i : Z) (l : bfly_line) : bool :=
  match l with
  | XiSubTi jj _ | XiNegTi jj | XiCopy jj _ => jj =? i
  | XiAddTi ii | XiSetTi ii => ii =? i
  | _ => false
  end.

(** Every cell of [nzi] is 0 or 1. *)
Definition bits (nzi : list Z) : Prop := Forall (fun b => b = 0 \/ b = 1) nzi.

(** ** Words of the claims about the literals *)





(** The five classes of a sine or cosine value, by the cascade of tests
    that [fftGen] repeats for each of the four summands. *)
Inductive twiddle_class : Type := ZERO | PLUS_ONE | MINUS_ONE | POS | NEG.

Definition classify (n : Z) (w : R) : twiddle_class :=
  if Rgtb (Rabs w) (eps n) then
    if Rltb w (epsOne n) then
      if Rgtb w (epsMOne n) then
        if Rgeb w 0.0 then POS else NEG
      else MINUS_ONE
    else PLUS_ONE
  else ZERO.

(** The sine and cosine values of the butterflies of [n] points: the [wr]
    and [wi] that [group] computes for a stage [k = 2^j < n] and [m < k].
    [wi] is the sine, or its opposite for the inverse transform. *)
Definition is_twiddle (n : Z) (w : R) : Prop :=
  exists (j : nat) (m : Z),
    2 ^ Z.of_nat j < n /\ 0 <= m < 2 ^ Z.of_nat j /\
    let a := (PI * IZR (- m) / IZR (2 ^ Z.of_nat j))%R in
    w = cos a \/ w = sin a \/ w = (- sin a)%R.

(** The classes as the specification words them, each by a test of its
    own. *)
Definition classified_as_stated (n : Z) (w : R) : Prop :=
  (classify n w = ZERO <-> (Rabs w <= eps n)%R) /\
  (classify n w = PLUS_ONE <-> (w >= epsOne n)%R) /\
  (classify n w = MINUS_ONE <-> (w <= epsMOne n)%R) /\
  (classify n w = POS <->
   ~ (Rabs w <= eps n)%R /\ ~ (w >= epsOne n)%R /\ ~ (w <= epsMOne n)%R /\ (0 <= w)%R) /\
  (classify n w = NEG <->
   ~ (Rabs w <= eps n)%R /\ ~ (w >= epsOne n)%R /\ ~ (w <= epsMOne n)%R /\ (w < 0)%R).

(** The classes as the cascade of tests gives them: an earlier test wins. *)
Definition classified_in_order (n : Z) (w : R) : Prop :=
  (classify n w = ZERO <-> (Rabs w <= eps n)%R) /\
  (classify n w = PLUS_ONE <-> (Rabs w > eps n)%R /\ (w >= epsOne n)%R) /\
  (classify n w = MINUS_ONE <->
   (Rabs w > eps n)%R /\ (w < epsOne n)%R /\ (w <= epsMOne n)%R) /\
  (classify n w = POS <->
   (Rabs w > eps n)%R /\ (w < epsOne n)%R /\ (w > epsMOne n)%R /\ (0 <= w)%R) /\
  (classify n w = NEG <->
   (Rabs w > eps n)%R /\ (w < epsOne n)%R /\ (w > epsMOne n)%R /\ (w < 0)%R).

(** ** Words of the claims about the order of the commands *)

(** The cells a command reads and the cells it writes: a plain command
    exchanges [m] and [mr]; one that uses the symmetry copies from [m_new]
    and [mr_new] into [mr] and [m]. *)
Definition record_reads (r : SWAP) : list Z :=
  if truthy (swap_symmIn r) then [swap_m_new r; swap_mr_new r]
  else [swap_m r; swap_mr r].

Definition record_writes (r : SWAP) : list Z := [swap_m r; swap_mr r].

(** A command holds the index [s]: it is its [m] or its [mr]. *)
Definition holds (r : SWAP) (s : Z) : Prop := swap_m r = s \/ swap_mr r = s.

(** The later command [r'] reads no cell that the earlier [r] writes. *)
Definition read_clear (r r' : SWAP) : Prop :=
  forall x, In x (record_reads r') -> ~ In x (record_writes r).

(** No command reads a cell that an earlier command of the list has written. *)
Definition safe_order (L : list SWAP) : Prop := ForallOrdPairs read_clear L.

(** The same as a test that can be run. *)
Fixpoint safe_orderb (written : list Z) (L : list SWAP) : bool :=
  match L with
  | [] => true
  | r :: L' =>
      forallb (fun x => negb (existsb (Z.eqb x) written)) (record_reads r)
      && safe_orderb (record_writes r ++ written) L'
  end.

(** The arrays with the upper half filled in by the symmetry
    [x[i] = conj (x[n-i])] for [n/2 < i < n]. *)
Definition hermitian_fill (n : Z) (s : memory) : memory :=
  mkMem (fun i => if (Z.quot n 2 <? i) && (i <? n) then xr s (n - i) else xr s i)
        (fun i => if (Z.quot n 2 <? i) && (i <? n) then (- xi s (n - i))%R else xi s i)
        (tr s) (ti s).

(** The cells of the lower half a command with the indices [m], [mr] reads
    in place of its cells of the upper half. *)
Definition mirror_sources (n m mr : Z) : list Z :=
  (if m >? Z.quot n 2 then [n - m] else [])
  ++ (if mr >? Z.quot n 2 then [n - mr] else []).

(** Every command the planner stores has one of two shapes. *)
Definition record_shape (n symmIn : Z) (r : SWAP) : Prop :=
  1 <= swap_m r < swap_mr r /\
  ((swap_symmIn r = 0 /\ swap_m_new r = 0 /\ swap_mr_new r = 0 /\
    (truthy symmIn = true -> swap_m r <= Z.quot n 2 /\ swap_mr r <= Z.quot n 2))
   \/
   (swap_symmIn r = 1 /\ truthy symmIn = true /\
    ~ (swap_m r <= Z.quot n 2 /\ swap_mr r <= Z.quot n 2) /\
    swap_m_new r = (if swap_m r >? Z.quot n 2 then n - swap_m r else swap_m r) /\
    swap_mr_new r = (if swap_mr r >? Z.quot n 2 then n - swap_mr r else swap_mr r))).

(** What holds of the list of commands when the loop of the planner comes
    to [m], for [n = 2^p] points. *)
Definition rec_ok (p : nat) (symmIn m : Z) (r : SWAP) : Prop :=
  swap_m r < m /\ swap_mr r = bitrev p (swap_m r) /\
  record_shape (2 ^ Z.of_nat p) symmIn r.

Record plan_inv (p : nat) (symmIn m : Z) (L : list SWAP) : Prop := mkPlanInv {
  inv_ok : Forall (rec_ok p symmIn m) L;
  inv_complete :
    forall m', 1 <= m' < m -> m' < bitrev p m' -> exists r, In r L /\ swap_m r = m';
  inv_safe : safe_order L;
  inv_head : forall r, hd_error L = Some r -> swap_m r = 1;
  inv_nodup : NoDup (map swap_m L)
}.

(** The two indices a command exchanges. *)
Definition swap_pair (r : SWAP) : Z * Z := (swap_m r, swap_mr r).

(** ** Words of the claim about the exit codes *)



(** [n] is one of 1, 2, 4, ... *)
Definition power_of_two (n : Z) : Prop := exists k, 0 <= k /\ n = 2 ^ k.

(** ** Words used in the proofs *)

(** A piece of program that writes to [stderr] only and goes on. *)
Definition err_only (p : proc unit) : Prop :=
  forall w, exists e, p w = Ret tt (mkStreams (stdout w) e).

(** Two runs that agree on everything but what went to [stderr]. *)
Definition same_but_stderr {A} (o1 o2 : outcome A) : Prop :=
  match o1, o2 with
  | Ret a1 w1, Ret a2 w2 => a1 = a2 /\ stdout w1 = stdout w2
  | Exit s1 w1, Exit s2 w2 => s1 = s2 /\ stdout w1 = stdout w2
  | Undef, Undef => True
  | _, _ => False
  end.

(** A piece of program whose run does not look at [stderr]. *)
Definition err_blind {A} (p : proc A) : Prop :=
  forall w1 w2, stdout w1 = stdout w2 -> same_but_stderr (p w1) (p w2).

(** What one butterfly does to [nzi]: the cells keep their length and
    stay bits; a cell that is 1 stays 1; a cell that is 0 becomes 1 exactly
    when one of the lines printed assigns to this [xi] a value that is not
    known to be zero. *)
Definition nzi_step_ok (nzi : list Z) (out : list bfly_line) (nzi' : list Z) : Prop :=
  List.length nzi' = List.length nzi /\
  bits nzi' /\
  forall i, 0 <= i < Z.of_nat (List.length nzi) ->
    (nzi_get nzi i = 1 -> nzi_get nzi' i = 1) /\
    (nzi_get nzi i = 0 ->
     (nzi_get nzi' i = 1 <-> existsb (writes_unknown_xi i) out = true)).

(** The same over a piece of the run. *)
Definition nzi_run_ok (nzi : list Z) (out : list bfly_line) (nzi' : list Z) : Prop :=
  List.length nzi' = List.length nzi /\
  bits nzi' /\
  forall i, 0 <= i < Z.of_nat (List.length nzi) ->
    (nzi_get nzi' i = 1 <->
     nzi_get nzi i = 1 \/ existsb (writes_unknown_xi i) out = true).


(** ** Words of the claim about the transform *)


(** ** What the lines of the butterflies do *)







(** ** The plain algorithm

    One stage of the radix-2 transform in place, as the loops of [fftGen]
    go through it without any folding: in every block of [2*k] cells the
    cell [i] of the lower half and the cell [i+k] become
    [x[i] + w*x[i+k]] and [x[i] - w*x[i+k]], [w = wr + I*wi] being the
    twiddle of [m = i mod k]. *)
Definition twiddle_re (k m : Z) : R := cos (PI * IZR (- m) / IZR k).
Definition twiddle_im (inv k m : Z) : R :=
  if truthy inv then (- sin (PI * IZR (- m) / IZR k))%R
  else sin (PI * IZR (- m) / IZR k).

Definition stage_ideal (inv k : Z) (V : memory) : memory :=
  let wr i := twiddle_re k (i mod k) in
  let wi i := twiddle_im inv k (i mod k) in
  mkMem
    (fun i =>
       if i mod (2 * k) <? k
       then (xr V i + (wr i * xr V (i + k) - wi i * xi V (i + k)))%R
       else (xr V (i - k) - (wr i * xr V i - wi i * xi V i))%R)
    (fun i =>
       if i mod (2 * k) <? k
       then (xi V i + (wr i * xi V (i + k) + wi i * xr V (i + k)))%R
       else (xi V (i - k) - (wr i * xi V i + wi i * xr V i))%R)
    (tr V) (ti V).

(** The stages [k = 2^j], [2^(j+1)], ..., [count] of them. *)
Fixpoint stages_ideal (inv : Z) (j : nat) (count : nat) (V : memory) : memory :=
  match count with
  | O => V
  | S count' => stages_ideal inv (S j) count' (stage_ideal inv (2 ^ Z.of_nat j) V)
  end.



(** ** The discrete Fourier transform

    [sum_{u<n} x[u] * exp (-+ 2 PI I t u / n)], real and imaginary part;
    the sign is + for the inverse transform. *)
Definition dft_angle (B e : Z) : R := (2 * PI * IZR (- e) / IZR B)%R.

Definition cis_im (inv : Z) (a : R) : R :=
  if truthy inv then (- sin a)%R else sin a.

Fixpoint rsum (g : Z -> R) (c : nat) : R :=
  match c with
  | O => 0%R
  | S c' => (rsum g c' + g (Z.of_nat c'))%R
  end.

Definition dft_re (inv n : Z) (x : memory) (t : Z) : R :=
  rsum (fun u => (xr x u * cos (dft_angle n (t * u))
                  - xi x u * cis_im inv (dft_angle n (t * u)))%R) (Z.to_nat n).

Definition dft_im (inv n : Z) (x : memory) (t : Z) : R :=
  rsum (fun u => (xr x u * cis_im inv (dft_angle n (t * u))
                  + xi x u * cos (dft_angle n (t * u)))%R) (Z.to_nat n).

(** The transform of the [B] points [x[r]], [x[r + stride]], ... *)
Definition sub_dft_re (inv : Z) (x : memory) (B stride r t : Z) : R :=
  rsum (fun u => (xr x (u * stride + r) * cos (dft_angle B (t * u))
                  - xi x (u * stride + r) * cis_im inv (dft_angle B (t * u)))%R)
       (Z.to_nat B).

Definition sub_dft_im (inv : Z) (x : memory) (B stride r t : Z) : R :=
  rsum (fun u => (xr x (u * stride + r) * cis_im inv (dft_angle B (t * u))
                  + xi x (u * stride + r) * cos (dft_angle B (t * u)))%R)
       (Z.to_nat B).

(** ** The generated code as a whole *)



(** The points in binary inverted order, and the radix-2 transform by
    decimation in time: the stages on the points in that order. *)
Definition bit_reversed (p : nat) (x : memory) : memory :=
  mkMem (fun i => xr x (bitrev p i)) (fun i => xi x (bitrev p i)) (tr x) (ti x).

Definition radix2_fft (inv : Z) (p : nat) (x : memory) : memory :=
  stages_ideal inv 0 p (bit_reversed p x).

(** The text [fftGen] prints for the plan [st]. *)
Definition code_text (E : environment) (n : Z) (f : flags) (st : plan_state) : string :=
  (String.concat EmptyString (map render_perm (emit_perm n (realIn f) (symmIn f) st))
   +++ nl)
  +++ String.concat EmptyString (map (render_bfly E) (fst (emit_bfly n f))).

(** ** The cells the generated code touches *)

(** The indices of [xr] and [xi] a line of the permutation phase reads or
    writes. *)
Definition perm_cells (l : perm_line) : list Z :=
  match l with
  | FillXr i j | NegXi i j | CopyXr i j | CopyXi i j => [i; j]
  | TrGetXr i | XrPutTr i | TiGetXi i | XiPutTi i => [i]
  end.

(** The same for a line of the butterflies. *)
Definition bfly_cells (l : bfly_line) : list Z :=
  match l with
  | TrLine _ _ jj | TiLine _ _ jj => [jj]
  | XrSubTr jj ii | XrCopy jj ii | XiSubTi jj ii | XiCopy jj ii => [jj; ii]
  | XiNegTi i | XiZero i | XrAddTr i | XiAddTi i | XiSetTi i => [i]
  end.

(** All the indices are those of an array of [n] cells. *)
Definition cells_within (n : Z) (cells : list Z) : Prop :=
  Forall (fun i => 0 <= i < n) cells.
(** ** The reference algorithm of the test program: [fftRef]

    [fftTest.c] checks the generated code against [fftRef], the plain
    algorithm on an array of [COMPLEX].  The array is kept as the two
    arrays of its real and imaginary parts, [tr] and [ti] are its locals of
    these names. *)

(** [SWAP(x[m],x[mr])]. *)
Definition ref_swap (m mr : Z) (s : memory) : memory :=
  mkMem (fupd (fupd (xr s) m (xr s mr)) mr (xr s m))
        (fupd (fupd (xi s) m (xi s mr)) mr (xi s m))
        (tr s) (ti s).

(** [for (m=1; m<=nn; ++m) { ...; if (mr > m) SWAP(x[m],x[mr]); }], with
    the recurrence of [next_mr] for [mr]; [None] as there. *)
Fixpoint ref_inversion (n : Z) (turns : nat) (m mr : Z) (s : memory) : option memory :=
  match turns with
  | O => Some s
  | S turns' =>
      match next_mr n mr with
      | None => None
      | Some mr' =>
          ref_inversion n turns' (m + 1) mr'
            (if mr' >? m then ref_swap m mr' s else s)
      end
  end.

(** The body of [for (i=m; i<=nm; ++i)], without [ii += istep]. *)
Definition ref_butterfly (k : Z) (wr wi : R) (ii : Z) (s : memory) : memory :=
  let jj := ii + k in
  let tr1 := (wr * xr s jj - wi * xi s jj)%R in
  let ti1 := (wr * xi s jj + wi * xr s jj)%R in
  let xr1 := fupd (xr s) jj (xr s ii - tr1)%R in
  let xi1 := fupd (xi s) jj (xi s ii - ti1)%R in
  mkMem (fupd xr1 ii (xr1 ii + tr1)%R) (fupd xi1 ii (xi1 ii + ti1)%R) tr1 ti1.

(** [for (i=m; i<=nm; ++i) { ...; ii += istep; }]; the state is [(ii, x)]. *)
Definition ref_points (k istep : Z) (wr wi : R) (turns : list Z) (st : Z * memory)
  : Z * memory :=
  fold_left (fun '(ii, s) (_ : Z) => (ii + istep, ref_butterfly k wr wi ii s)) turns st.

(** The body of [for (m=0; m<k; ++m)]. *)
Definition ref_group (n k istep : Z) (s : memory) (m : Z) : memory :=
  let a := (PI * IZR (- m) / IZR k)%R in
  let wr := cos a in
  let wi := sin a in
  let nm := Z.quot ((n - 1) - m) istep + m in
  snd (ref_points k istep wr wi (zrange m (nm + 1)) (m, s)).

(** [for (k=1; k<n; k=istep)]. *)
Fixpoint ref_stages (n : Z) (fuel : nat) (k : Z) (s : memory) : memory :=
  match fuel with
  | O => s
  | S fuel' =>
      if k <? n then
        let istep := 2 * k in
        ref_stages n fuel' istep (fold_left (ref_group n k istep) (zrange 0 k) s)
      else s
  end.

(** [fftRef (x, n)]. *)
Definition fftRef (n : Z) (s : memory) : option memory :=
  match ref_inversion n (Z.to_nat (n - 1)) 1 0 s with
  | None => None
  | Some s1 => Some (ref_stages n (stage_fuel n) 1 s1)
  end.

(** ** The test program: [main] of [fftTest.c]

    [main] builds an input, transforms a copy of it with [fftRef], runs the
    generated code of the transform ([fft], which includes [fft.c]), compares,
    runs the generated code of the inverse transform ([ffti], which includes
    [ffti.c]), divides by [N] and compares with the input.  The embedding
    starts with the input in [xr], [xi], [xRef] and [xOri]; what [main]
    prints is left out and the value it returns is kept.  The macros of the
    compiler command line are booleans, the values of [rand ()] are any
    real numbers. *)

(** [EPS], the tolerance of the comparisons. *)
Definition EPS : R := (1 / 10 ^ 8)%R.

Record test_macros : Type := mkMacros {
  REAL_IN_OPTIMIZED  : bool;
  REAL_OUT_OPTIMIZED : bool;
  SYMM_IN_OPTIMIZED  : bool;
  SYMM_OUT_OPTIMIZED : bool
}.

(** [for (i=lo; i<hi; ++i) { xr[i] = A; xi[i] = B; }], with the values [A]
    and [B] taken from the arrays as they are when the turn [i] begins. *)
Definition for_cells (lo hi : Z) (A B : memory -> Z -> R) (s : memory) : memory :=
  fold_left (fun s i => mkMem (fupd (xr s) i (A s i)) (fupd (xi s) i (B s i)) (tr s) (ti s))
            (zrange lo hi) s.

(** [for (i=0; i<N; ++i) xi[i] = rand ();] *)
Definition arbitrary_imag (N : Z) (rnd : Z -> R) (s : memory) : memory :=
  for_cells 0 N (fun s i => xr s i) (fun _ i => rnd i) s.

(** [for (i=N/2+1; i<N; ++i) { xr[i] = xr[N-i]; xi[i] = -xi[N-i]; }] *)
Definition reconstruct_upper (N : Z) (s : memory) : memory :=
  for_cells (Z.quot N 2 + 1) N (fun s i => xr s (N - i)) (fun s i => (- xi s (N - i))%R) s.

(** [for (i=N/2+1; i<N; ++i) { xr[i] = rand (); xi[i] = rand (); }] *)
Definition arbitrary_upper (N : Z) (rnd_r rnd_i : Z -> R) (s : memory) : memory :=
  for_cells (Z.quot N 2 + 1) N (fun _ i => rnd_r i) (fun _ i => rnd_i i) s.

(** [for (i=0; i<N; ++i) { xr[i] *= 1./N; xi[i] *= 1./N; }] *)
Definition scale_down (N : Z) (s : memory) : memory :=
  for_cells 0 N (fun s i => (xr s i * (1 / IZR N))%R) (fun s i => (xi s i * (1 / IZR N))%R) s.

(** The loops that compare with a reference: [failed] is set to 1 when a
    component is further than [EPS] from the reference; the imaginary
    parts are looked at when [with_imag] holds. *)
Definition compare (N : Z) (with_imag : bool) (s ref : memory) (failed : Z) : Z :=
  fold_left
    (fun failed i =>
       let failed := if Rgtb (Rabs (xr s i - xr ref i)) EPS then 1 else failed in
       if with_imag && Rgtb (Rabs (xi s i - xi ref i)) EPS then 1 else failed)
    (zrange 0 N) failed.

(** [main] from the call of [fftRef] to its [return]; [x] is the input. *)
Definition test_main (N : Z) (mac : test_macros) (fft ffti : memory -> memory)
    (rnd rnd_r rnd_i : Z -> R) (x : memory) : option Z :=
  match fftRef N x with
  | None => None
  | Some xRef =>
      let failed := 0 in
      (* Standard FFT Test *)
      let s := if REAL_IN_OPTIMIZED mac then arbitrary_imag N rnd x else x in
      let s := fft s in
      let s := if SYMM_OUT_OPTIMIZED mac then reconstruct_upper N s else s in
      let failed := compare N true s xRef failed in
      (* Inverse FFT Test *)
      let s := if SYMM_IN_OPTIMIZED mac then arbitrary_upper N rnd_r rnd_i s else s in
      let s := ffti s in
      let s := scale_down N s in
      let failed := compare N (negb (REAL_OUT_OPTIMIZED mac)) s x failed in
      Some (if truthy failed then 1 else 0)
  end.

(** ** [conv] of the test program: from cartesian to polar coordinates *)

(** [x == y] on doubles. *)
Definition Reqb (x y : R) : bool := if Req_dec_T x y then true else false.

(** [conv (x, &r, &phi)], for the [N] of the test program: the pair of
    [*r] and [*phi]. *)
Definition conv (N : Z) (x_r x_i : R) : R * R :=
  let r := (sqrt (x_r * x_r + x_i * x_i) * (2 / IZR N))%R in
  let phi :=
    if Rltb (Rabs x_i) (Rabs x_r) then
      if Reqb x_r 0 then 0%R
      else
        let phi := atan (x_i / x_r) in
        if Rltb x_r 0 then (phi + (if Rgtb x_i 0 then PI else - PI))%R else phi
    else
      if Reqb x_i 0 then 0%R
      else ((if Rgeb x_i 0 then PI / 2 else - PI / 2) - atan (x_r / x_i))%R in
  (r, phi).
(** ** Words of the properties of the command line *)

(** An option without a parameter counts the int it points to up by one. *)
Definition bump (v : var) (c : config) : config := set_var v (get_var v c + 1) c.

(** [main] goes on with the entries [post] after the entries before them
    have left the settings [c] and the streams [w]. *)
Definition main_from (E : environment) (post : list string) (c : config) (w : streams)
  : outcome unit :=
  (c' <- arg_loop E (List.length post) post c ;; main_body E c') w.

(** The options without a parameter: all of [pOptions] but the first. *)
Definition flag_options : list OPTION := tl pOptions.

(** The ways to write the number of points [x] on the command line. *)
Definition points_spellings (x : string) : list (list string) :=
  [ ["-n"; x]; ["-n" +++ x]; ["-n=" +++ x];
    ["--points"; x]; ["--points" +++ x]; ["--points=" +++ x] ].

(** The first entry of [pOptions]: the number of points. *)
Definition points_option : OPTION := mkOPTION "n" "-points" (Some "%i") Vn.

(** What [info (stdout)] prints. *)
Definition help_text : string :=
  (LOGO +++ ": Generate code to compute an FFT or IFFT" +++ nl +++
   "Version: " +++ VERSION +++ nl +++ nl) +++ usage.

(** What is printed for [-V]. *)
Definition version_text : string := LOGO +++ " " +++ VERSION +++ nl.

(** Two settings of the flags that are zero at the same places. *)
Definition same_flags (f f' : flags) : Prop :=
  truthy (inv f) = truthy (inv f') /\
  truthy (realIn f) = truthy (realIn f') /\
  truthy (realOut f) = truthy (realOut f') /\
  truthy (symmIn f) = truthy (symmIn f') /\
  truthy (symmOut f) = truthy (symmOut f').

(** Two settings of the statics of [main] that [main] cannot tell apart:
    the same number of points, flags that are zero at the same places, and
    verbosities that are both above 0 or both not. *)
Definition same_settings (c c' : config) : Prop :=
  cfg_n c = cfg_n c' /\
  same_flags (cfg_flags c) (cfg_flags c') /\
  truthy (cfg_license c) = truthy (cfg_license c') /\
  (cfg_verbose c >? 0) = (cfg_verbose c' >? 0).

(** Two values of an int that counts the uses of an option: none is below
    0 and they are 0 together. *)
Definition alike (x y : Z) : Prop := 0 <= x /\ 0 <= y /\ (x = 0 <-> y = 0).

(** Two settings of the statics with the same number of points and counts
    that are alike. *)
Definition counts_alike (c c' : config) : Prop :=
  cfg_n c = cfg_n c' /\
  alike (inv (cfg_flags c)) (inv (cfg_flags c')) /\
  alike (realIn (cfg_flags c)) (realIn (cfg_flags c')) /\
  alike (realOut (cfg_flags c)) (realOut (cfg_flags c')) /\
  alike (symmIn (cfg_flags c)) (symmIn (cfg_flags c')) /\
  alike (symmOut (cfg_flags c)) (symmOut (cfg_flags c')) /\
  alike (cfg_verbose c) (cfg_verbose c') /\
  alike (cfg_license c) (cfg_license c').

(** Two outcomes with the same text on the streams and the same exit, and
    with results in the relation [RA]. *)
Definition outcomes_alike {A : Type} (RA : A -> A -> Prop) (o o' : outcome A) : Prop :=
  match o, o' with
  | Ret a w, Ret a' w' => RA a a' /\ w = w'
  | Exit s w, Exit s' w' => s = s' /\ w = w'
  | Undef, Undef => True
  | _, _ => False
  end.

(** An option of the kind [pOptions] holds: with a parameter that is the
    number of points, or without a parameter. *)
Definition option_fits (op : OPTION) : Prop := fmt op = None \/ val op = Vn.

(** The relation on what [checkOption] gives back. *)
Definition checked_alike (r r' : Z * config * list string) : Prop :=
  fst (fst r) = fst (fst r') /\ counts_alike (snd (fst r)) (snd (fst r')) /\ snd r = snd r'.

(** The same for [checkOptions] and for the loop over one entry. *)
Definition options_alike (r r' : Z * Z * config * list string) : Prop :=
  fst (fst (fst r)) = fst (fst (fst r')) /\ snd (fst (fst r)) = snd (fst (fst r')) /\
  counts_alike (snd (fst r)) (snd (fst r')) /\ snd r = snd r'.

Definition entries_alike (r r' : config * list string) : Prop :=
  counts_alike (fst r) (fst r') /\ snd r = snd r'.

(** The two ways to write an option without a parameter. *)
Definition flag_spellings (op : OPTION) : list string :=
  ["-" +++ shOpt op; "-" +++ lgOpt op].






(** ** The text of a literal

    [NUMBER_FORMAT] is "%21.14e": one digit, the point, fourteen digits and
    the exponent.  What is printed is the number rounded to 15 significant
    decimal digits. *)




(** ** The generated code in double precision

    The lines run as the C assignments they are on arrays of [double]: the
    numbers are those of IEEE 754 binary64 and every operation is rounded
    to the nearest of them.  A literal is the double [lit w] that the
    compiler reads from the text printed for [w].  An expression is
    evaluated as it is written, one rounded operation after the other. *)
Module Doubles.

Import PrimFloat.
#[local] Set Warnings "-inexact-float".















End Doubles.

(** ** The generated text read as C

    The text [fftGen] prints is read back the way a C compiler reads it.
    Blanks and line ends separate; [tr], [ti], [xr[i]] and [xi[i]] are the
    operands; a constant starts with a digit or a point, with a sign
    right before it taken in, and runs up to the next blank, [*] or [;].
    A statement is [operand = sum;] or [operand += sum;], a sum is made of
    operands, constants and products [constant*operand] with signs
    between them and possibly before the first.  [lit] gives the value of a
    constant, as [strtod] does. *)




















(** *** The statements run on real numbers *)









(** *** The literals with other values *)




(** *** What is asked of [printf] and of the reading of constants *)


Fixpoint all_chars (P : ascii -> bool) (s : string) : bool :=
  match s with
  | String c s' => P c && all_chars P s'
  | EmptyString => true
  end.




(** *** What the lines are read as *)













(** * Properties *)

(** ** Arrays *)

Lemma list_upd_length {A} (f : A -> A) (l : list A) (i : nat) :
  List.length (list_upd i f l) = List.length l.
Proof.
  revert i; induction l as [|x l IH]; intros [|i]; simpl; auto.
Qed.

Lemma list_upd_app_here {A} (f : A -> A) (l1 l2 : list A) (c : A) :
  list_upd (List.length l1) f (l1 ++ c :: l2) = l1 ++ f c :: l2.
Proof.
  induction l1 as [|x l1 IH]; simpl; [reflexivity | now rewrite IH].
Qed.

Lemma aupd_app_here {A} (f : A -> A) (l1 l2 : list A) (c : A) (i : Z) :
  i = Z.of_nat (List.length l1) ->
  aupd (l1 ++ c :: l2) i f = l1 ++ f c :: l2.
Proof.
  intros ->. unfold aupd. rewrite Nat2Z.id. apply list_upd_app_here.
Qed.

Lemma aget_app_l {A} (d : A) (l1 l2 : list A) (i : Z) :
  0 <= i < Z.of_nat (List.length l1) -> aget d (l1 ++ l2) i = aget d l1 i.
Proof.
  intros H. unfold aget. apply app_nth1. lia.
Qed.

Lemma aget_app_here {A} (d : A) (l1 l2 : list A) (c : A) (i : Z) :
  i = Z.of_nat (List.length l1) -> aget d (l1 ++ c :: l2) i = c.
Proof.
  intros ->. unfold aget. rewrite Nat2Z.id. apply nth_middle.
Qed.

Lemma aget_nth_indep {A} (d d' : A) (l : list A) (i : Z) :
  0 <= i < Z.of_nat (List.length l) -> aget d l i = aget d' l i.
Proof.
  intros H. unfold aget. apply nth_indep. lia.
Qed.

(** ** The planner on arrays and on lists *)

Lemma scan_back_app (L rest : list SWAP) (v : Z) (fuel : nat) (i : Z) :
  i < Z.of_nat (List.length L) ->
  scan_back (L ++ rest) v fuel i = scan_back L v fuel i.
Proof.
  revert i; induction fuel as [|fuel IH]; intros i Hi; simpl; [reflexivity|].
  destruct (i >? 0) eqn:Hpos; [|reflexivity].
  unfold sget. rewrite aget_app_l by lia.
  destruct (_ || _); [reflexivity|]. apply IH. lia.
Qed.

Lemma scan_back_range (a : list SWAP) (v : Z) (fuel : nat) (i : Z) :
  (0 < i -> 0 <= scan_back a v fuel i <= i) /\
  (i <= 0 -> scan_back a v fuel i = i).
Proof.
  revert i; induction fuel as [|fuel IH]; intros i; simpl.
  - split; intros; lia.
  - destruct (i >? 0) eqn:Hpos; [|split; intros; lia].
    destruct (_ || _); [split; intros; lia|].
    destruct (IH (i - 1)) as [H1 H2]. split; intros; [|lia].
    destruct (Z.eq_dec i 1) as [->|Hne].
    + rewrite H2; lia.
    + assert (0 < i - 1) by lia. specialize (H1 H0). lia.
Qed.

Lemma shift_right_S (a : list SWAP) (fuel : nat) (ii i_mr : Z) :
  shift_right a (S fuel) ii i_mr =
  if ii >? i_mr then shift_right (aset a ii (sget a (ii - 1))) fuel (ii - 1) i_mr else a.
Proof. reflexivity. Qed.

Lemma shift_right_app (L1 L2 rest : list SWAP) (c : SWAP) :
  shift_right (L1 ++ L2 ++ c :: rest) (List.length L2)
    (Z.of_nat (List.length L1) + Z.of_nat (List.length L2)) (Z.of_nat (List.length L1))
  = L1 ++ hd c L2 :: L2 ++ rest.
Proof.
  revert c rest; induction L2 as [|l L2 IH] using rev_ind; intros c rest.
  - simpl. reflexivity.
  - rewrite length_app. cbn [List.length]. rewrite Nat.add_1_r.
    rewrite shift_right_S.
    set (ii := Z.of_nat (List.length L1) + Z.of_nat (S (List.length L2))).
    replace (ii >? _) with true by (symmetry; apply Z.gtb_lt; lia).
    assert (Hget : sget (L1 ++ (L2 ++ [l]) ++ c :: rest) (ii - 1) = l).
    { unfold sget. rewrite <- app_assoc. rewrite app_assoc. cbn [app].
      apply aget_app_here. rewrite length_app. lia. }
    rewrite Hget.
    assert (Hset : aset (L1 ++ (L2 ++ [l]) ++ c :: rest) ii l
                   = L1 ++ L2 ++ l :: l :: rest).
    { unfold aset.
      replace (L1 ++ (L2 ++ [l]) ++ c :: rest) with ((L1 ++ L2 ++ [l]) ++ c :: rest)
        by (now rewrite <- !app_assoc).
      rewrite aupd_app_here by (rewrite !length_app; cbn [List.length]; lia).
      rewrite <- !app_assoc. reflexivity. }
    rewrite Hset.
    replace (ii - 1)
      with (Z.of_nat (List.length L1) + Z.of_nat (List.length L2)) by lia.
    rewrite IH. rewrite <- !app_assoc. cbn [app].
    destruct L2; reflexivity.
Qed.

Lemma firstn_skipn_lengths {A} (l : list A) (k : nat) :
  (k <= List.length l)%nat ->
  List.length (firstn k l) = k /\ List.length (skipn k l) = (List.length l - k)%nat.
Proof.
  intros H. rewrite length_firstn, length_skipn. lia.
Qed.

(** The array after [plan_record] holds the list [plan_insert] gives,
    followed by the cells that were not touched. *)
Lemma plan_record_list (n symmIn m mr junk : Z) (L rest : list SWAP) :
  plan_record n symmIn m mr (Z.of_nat (List.length L)) (L ++ swap_cell0 junk :: rest)
  = plan_insert n symmIn m mr L ++ rest.
Proof.
  unfold plan_record, plan_insert. cbv zeta.
  destruct (negb (truthy symmIn)).
  { repeat (rewrite aupd_app_here by reflexivity). rewrite <- app_assoc. reflexivity. }
  repeat (rewrite aupd_app_here by reflexivity).
  destruct ((m <=? Z.quot n 2) && (mr <=? Z.quot n 2)).
  { repeat (rewrite aupd_app_here by reflexivity). rewrite <- app_assoc. reflexivity. }
  repeat (rewrite aupd_app_here by reflexivity).
  cbn [set_m set_mr set_m_new set_mr_new set_symmIn swap_cell0
       swap_m swap_mr swap_m_new swap_mr_new swap_symmIn].
  set (nSwap := Z.of_nat (List.length L)).
  set (m_new := if m >? Z.quot n 2 then n - m else m).
  set (mr_new := if mr >? Z.quot n 2 then n - mr else mr).
  set (new := mkSWAP m mr m_new mr_new 1).
  rewrite !scan_back_app by (subst nSwap; lia).
  set (i_m := if m >? Z.quot n 2 then _ else 0).
  set (i_mr0 := if mr >? Z.quot n 2 then _ else 0).
  set (i_mr := if (i_mr0 >? 0) && (i_m >? 0) then _ else _).
  assert (Hm : i_m <= nSwap - 1 \/ i_m <= 0).
  { subst i_m. destruct (m >? Z.quot n 2); [|lia].
    destruct (scan_back_range L m_new (Z.to_nat (nSwap - 1)) (nSwap - 1)) as [H1 H2].
    destruct (Z_lt_le_dec 0 (nSwap - 1)); [left; apply H1; lia | right; rewrite H2; lia]. }
  assert (Hmr : i_mr0 <= nSwap - 1 \/ i_mr0 <= 0).
  { subst i_mr0. destruct (mr >? Z.quot n 2); [|lia].
    destruct (scan_back_range L mr_new (Z.to_nat (nSwap - 1)) (nSwap - 1)) as [H1 H2].
    destruct (Z_lt_le_dec 0 (nSwap - 1)); [left; apply H1; lia | right; rewrite H2; lia]. }
  destruct (i_mr >? 0) eqn:Hpos; [|rewrite <- app_assoc; reflexivity].
  apply Z.gtb_lt in Hpos.
  assert (Hle : i_mr <= nSwap - 1).
  { subst i_mr. destruct ((i_mr0 >? 0) && (i_m >? 0)) eqn:Hb.
    - apply andb_true_iff in Hb. destruct Hb as [Hb1 Hb2].
      apply Z.gtb_lt in Hb1. apply Z.gtb_lt in Hb2.
      destruct (i_mr0 >? i_m); lia.
    - destruct (i_m >? 0) eqn:Hb2; [apply Z.gtb_lt in Hb2|]; lia. }
  clearbody i_mr. clear i_m i_mr0 Hm Hmr.
  assert (Hk : (Z.to_nat i_mr <= List.length L)%nat) by (subst nSwap; lia).
  destruct (firstn_skipn_lengths L (Z.to_nat i_mr) Hk) as [HL1 HL2].
  pose proof (firstn_skipn (Z.to_nat i_mr) L) as HL.
  remember (firstn (Z.to_nat i_mr) L) as L1 eqn:E1.
  remember (skipn (Z.to_nat i_mr) L) as L2 eqn:E2.
  assert (Hi : i_mr = Z.of_nat (List.length L1)) by lia.
  assert (Hn : nSwap = Z.of_nat (List.length L1) + Z.of_nat (List.length L2))
    by (subst nSwap; lia).
  assert (Hf : Z.to_nat (nSwap - i_mr) = List.length L2) by lia.
  rewrite Hf, Hn. clear Hf Hn E1 E2 HL1 HL2 Hk Hle Hpos. subst i_mr.
  subst L. rewrite <- app_assoc.
  rewrite shift_right_app.
  repeat (rewrite aupd_app_here by reflexivity).
  rewrite <- app_assoc. reflexivity.
Qed.

Lemma plan_insert_length (n symmIn m mr : Z) (L : list SWAP) :
  List.length (plan_insert n symmIn m mr L) = S (List.length L).
Proof.
  unfold plan_insert.
  repeat match goal with
         | |- context [if ?b then _ else _] => destruct b
         end;
    rewrite ?length_app, ?length_firstn; cbn [List.length];
    rewrite ?length_skipn; lia.
Qed.

Lemma plan_list_length (n symmIn : Z) (turns : nat) :
  forall (m mr mr' : Z) (L L' : list SWAP),
    plan_list n symmIn turns m mr L = Some (mr', L') ->
    (List.length L <= List.length L' <= List.length L + turns)%nat.
Proof.
  induction turns as [|turns IH]; intros m mr mr' L L' H; cbn [plan_list] in H.
  - injection H as _ <-. lia.
  - destruct (next_mr n mr) as [mr1|]; [|discriminate].
    apply IH in H. destruct (mr1 >? m); [rewrite plan_insert_length in H|]; lia.
Qed.

(** The loop on the array and the loop on the list go together, as long as
    the array has a free cell for every turn left. *)
Lemma plan_loop_list (n symmIn junk : Z) (turns : nat) :
  forall (m mr : Z) (L : list SWAP) (free : nat),
    (turns <= free)%nat ->
    plan_loop n symmIn turns m
      (mkPlan mr (Z.of_nat (List.length L)) (L ++ repeat (swap_cell0 junk) free))
    = match plan_list n symmIn turns m mr L with
      | Some (mr', L') =>
          Some (mkPlan mr' (Z.of_nat (List.length L'))
                  (L' ++ repeat (swap_cell0 junk)
                           (free - (List.length L' - List.length L))))
      | None => None
      end.
Proof.
  induction turns as [|turns IH]; intros m mr L free Hfree.
  - cbn [plan_loop plan_list]. rewrite Nat.sub_diag, Nat.sub_0_r. reflexivity.
  - cbn [plan_loop plan_list]. unfold plan_body. cbn [pl_mr pl_nSwap pl_swap].
    destruct (next_mr n mr) as [mr'|]; [|reflexivity].
    destruct (mr' >? m).
    + destruct free as [|free]; [lia|]. cbn [repeat].
      rewrite plan_record_list.
      replace (Z.of_nat (List.length L) + 1)
        with (Z.of_nat (List.length (plan_insert n symmIn m mr' L)))
        by (rewrite plan_insert_length; lia).
      rewrite IH by lia.
      destruct (plan_list n symmIn turns (m + 1) mr' (plan_insert n symmIn m mr' L))
        as [[mr2 L2]|] eqn:E2; [|reflexivity].
      apply plan_list_length in E2. rewrite plan_insert_length in E2.
      rewrite plan_insert_length. do 4 f_equal. lia.
    + rewrite IH by lia. reflexivity.
Qed.

(** The commands of [planner] are those of the loop on the list. *)
Lemma planner_records (n symmIn junk : Z) :
  match plan_list n symmIn (Z.to_nat (n - 1)) 1 0 [] with
  | Some (mr, L) =>
      exists st, planner n symmIn junk = Some st /\ records st = L /\
                 pl_nSwap st = Z.of_nat (List.length L) /\
                 pl_swap st = L ++ repeat (swap_cell0 junk) (Z.to_nat n - List.length L)
  | None => planner n symmIn junk = None
  end.
Proof.
  unfold planner, swap_init.
  pose proof (plan_loop_list n symmIn junk (Z.to_nat (n - 1)) 1 0 [] (Z.to_nat n)) as H.
  cbn [List.length app] in H. change (Z.of_nat 0) with 0 in H.
  rewrite H by lia. clear H.
  destruct (plan_list n symmIn (Z.to_nat (n - 1)) 1 0 []) as [[mr L]|] eqn:E; [|reflexivity].
  eexists; split; [reflexivity|]. unfold records. cbn [pl_nSwap pl_swap List.length].
  rewrite Nat2Z.id, Nat.sub_0_r. repeat split.
  rewrite firstn_app, Nat.sub_diag, firstn_all. cbn [firstn]. apply app_nil_r.
Qed.

Lemma Forall_insert {A} (Q : A -> Prop) (k : nat) (x : A) (l : list A) :
  Forall Q l -> Q x -> Forall Q (firstn k l ++ x :: skipn k l).
Proof.
  intros Hl Hx. rewrite <- (firstn_skipn k l) in Hl.
  apply Forall_app in Hl. destruct Hl as [H1 H2].
  apply Forall_app. split; [assumption|]. constructor; assumption.
Qed.

Lemma plan_insert_shape (n symmIn m mr : Z) (L : list SWAP) :
  1 <= m < mr ->
  Forall (record_shape n symmIn) L ->
  Forall (record_shape n symmIn) (plan_insert n symmIn m mr L).
Proof.
  intros Hm HL. unfold plan_insert.
  destruct (negb (truthy symmIn)) eqn:Hs.
  { apply Forall_app. split; [assumption|]. constructor; [|constructor].
    split; [assumption|]. left. cbn.
    split; [reflexivity|]. split; [reflexivity|]. split; [reflexivity|].
    intros Ht; rewrite Ht in Hs; discriminate. }
  apply negb_false_iff in Hs.
  destruct ((m <=? Z.quot n 2) && (mr <=? Z.quot n 2)) eqn:Hll.
  { apply Forall_app. split; [assumption|]. constructor; [|constructor].
    apply andb_true_iff in Hll. destruct Hll as [H1 H2].
    apply Z.leb_le in H1. apply Z.leb_le in H2.
    split; [assumption|]. left. cbn.
    split; [reflexivity|]. split; [reflexivity|]. split; [reflexivity|].
    intros _. split; assumption. }
  assert (Hnew : record_shape n symmIn
            (mkSWAP m mr (if m >? Z.quot n 2 then n - m else m)
                    (if mr >? Z.quot n 2 then n - mr else mr) 1)).
  { split; [assumption|]. right. cbn.
    split; [reflexivity|]. split; [assumption|]. split; [|split; reflexivity].
    intros [H1 H2]. apply Z.leb_le in H1. apply Z.leb_le in H2.
    rewrite H1, H2 in Hll. discriminate. }
  cbv zeta.
  match goal with |- context [if ?b then firstn _ _ ++ _ else _] => destruct b end.
  - apply Forall_insert; assumption.
  - apply Forall_app. split; [assumption|]. constructor; [assumption|constructor].
Qed.

Lemma plan_list_shape (n symmIn : Z) (turns : nat) :
  forall (m mr mr' : Z) (L L' : list SWAP),
    1 <= m ->
    Forall (record_shape n symmIn) L ->
    plan_list n symmIn turns m mr L = Some (mr', L') ->
    Forall (record_shape n symmIn) L'.
Proof.
  induction turns as [|turns IH]; intros m mr mr' L L' Hm HL H; cbn [plan_list] in H.
  - injection H as _ <-. assumption.
  - destruct (next_mr n mr) as [mr1|]; [|discriminate].
    eapply IH in H; [eassumption|lia|].
    destruct (mr1 >? m) eqn:E; [|assumption].
    apply Z.gtb_lt in E. apply plan_insert_shape; [lia|assumption].
Qed.

Lemma planner_shape (n symmIn junk : Z) (st : plan_state) :
  planner n symmIn junk = Some st ->
  Forall (record_shape n symmIn) (records st).
Proof.
  intros H. pose proof (planner_records n symmIn junk) as HR.
  destruct (plan_list n symmIn (Z.to_nat (n - 1)) 1 0 []) as [[mr L]|] eqn:E.
  - destruct HR as (st' & Hst & Hrec & _). rewrite H in Hst. injection Hst as <-.
    rewrite Hrec. eapply plan_list_shape; [| |exact E]; [lia|constructor].
  - congruence.
Qed.

(** ** Binary inversion and the Gold-Rader recurrence *)

Lemma bitrev_range (p : nat) (x : Z) : 0 <= bitrev p x < 2 ^ Z.of_nat p.
Proof.
  revert x; induction p as [|p IH]; intros x.
  - cbn. lia.
  - cbn [bitrev]. rewrite Nat2Z.inj_succ, Z.pow_succ_r by lia.
    pose proof (IH (x / 2)). pose proof (Z.mod_pos_bound x 2 ltac:(lia)).
    assert (x mod 2 = 0 \/ x mod 2 = 1) as [-> | ->] by lia; lia.
Qed.

Lemma testbit_half (x j : Z) : 0 <= j -> Z.testbit (x / 2) j = Z.testbit x (j + 1).
Proof.
  intros Hj. rewrite Z.div2_bits by lia. f_equal; lia.
Qed.

Lemma bitrev_testbit (p : nat) :
  forall x i, 0 <= i < Z.of_nat p ->
    Z.testbit (bitrev p x) i = Z.testbit x (Z.of_nat p - 1 - i).
Proof.
  induction p as [|p IH]; intros x i Hi; [lia|].
  cbn [bitrev]. rewrite Nat2Z.inj_succ.
  pose proof (bitrev_range p (x / 2)) as Hr.
  pose proof (Z.mod_pos_bound x 2 ltac:(lia)) as Hx2.
  destruct (Z.eq_dec i (Z.of_nat p)) as [->|Hne].
  - replace (Z.succ (Z.of_nat p) - 1 - Z.of_nat p) with 0 by lia.
    rewrite !Z.testbit_eqb by lia.
    rewrite Z.div_add_l by lia. rewrite (Z.div_small (bitrev p (x / 2))) by lia.
    rewrite Z.add_0_r, Z.mod_mod by lia.
    rewrite Z.pow_0_r, Z.div_1_r. reflexivity.
  - replace (Z.succ (Z.of_nat p) - 1 - i) with ((Z.of_nat p - 1 - i) + 1) by lia.
    rewrite <- testbit_half by lia.
    rewrite <- (IH (x / 2) i) by lia.
    rewrite !Z.testbit_eqb by lia.
    replace (2 ^ Z.of_nat p) with (2 * 2 ^ (Z.of_nat p - i - 1) * 2 ^ i).
    2:{ rewrite <- Z.pow_succ_r, <- Z.pow_add_r by lia. f_equal. lia. }
    rewrite Z.mul_assoc, Z.div_add_l by lia.
    rewrite (Z.mul_comm (x mod 2)), <- Z.mul_assoc, Z.add_comm, Z.mul_comm.
    rewrite Z.mod_add by lia. reflexivity.
Qed.

Lemma bitrev_involutive (p : nat) (x : Z) :
  0 <= x < 2 ^ Z.of_nat p -> bitrev p (bitrev p x) = x.
Proof.
  intros Hx. apply Z.bits_inj'. intros i Hi.
  destruct (Z_lt_le_dec i (Z.of_nat p)) as [Hlt|Hge].
  - rewrite !bitrev_testbit by lia. f_equal. lia.
  - pose proof (bitrev_range p (bitrev p x)) as Hr.
    rewrite !Z.testbit_eqb by lia.
    assert (Hpow : 2 ^ Z.of_nat p <= 2 ^ i) by (apply Z.pow_le_mono_r; lia).
    rewrite !Z.div_small by lia. reflexivity.
Qed.

Lemma halve_loop_shift (fuel : nat) (k mr nn c : Z) :
  halve_loop fuel k (mr + c) (nn + c) = halve_loop fuel k mr nn.
Proof.
  revert k; induction fuel as [|fuel IH]; intros k; cbn [halve_loop]; [reflexivity|].
  replace (mr + c + Z.quot k 2 >? nn + c) with (mr + Z.quot k 2 >? nn).
  - destruct (_ >? _); [apply IH | reflexivity].
  - rewrite !Z.gtb_ltb. destruct (Z.ltb_spec nn (mr + Z.quot k 2));
      destruct (Z.ltb_spec (nn + c) (mr + c + Z.quot k 2)); lia.
Qed.

Lemma halve_fuel_pow2 (p : nat) : halve_fuel (2 ^ Z.of_nat p) = S (S p).
Proof.
  unfold halve_fuel. rewrite Z.log2_pow2 by lia. now rewrite Nat2Z.id.
Qed.

Lemma quot2_pow2 (p : nat) : Z.quot (2 ^ Z.of_nat (S p)) 2 = 2 ^ Z.of_nat p.
Proof.
  rewrite Nat2Z.inj_succ, Z.pow_succ_r by lia.
  rewrite Z.quot_div_nonneg by lia.
  rewrite Z.mul_comm, Z.div_mul by lia. reflexivity.
Qed.

(** The loop [do k /= 2 while (mr+k > nn)] stops at a power of two [k] below
    [n], and [mr%k + k] is the inversion of the next number. *)
Lemma halve_loop_bitrev (p : nat) :
  forall x, 0 <= x < 2 ^ Z.of_nat p - 1 ->
    exists j : nat,
      (j < p)%nat /\
      halve_loop (S (S p)) (2 ^ Z.of_nat p) (bitrev p x) (2 ^ Z.of_nat p - 1)
      = Some (2 ^ Z.of_nat j) /\
      bitrev p x mod 2 ^ Z.of_nat j + 2 ^ Z.of_nat j = bitrev p (x + 1).
Proof.
  induction p as [|p IH]; intros x Hx.
  - cbn in Hx. lia.
  - assert (Hpow : 2 ^ Z.of_nat (S p) = 2 * 2 ^ Z.of_nat p)
      by (rewrite Nat2Z.inj_succ, Z.pow_succ_r by lia; reflexivity).
    assert (Hpos : 0 < 2 ^ Z.of_nat p) by (apply Z.pow_pos_nonneg; lia).
    pose proof (bitrev_range p (x / 2)) as Hr.
    pose proof (Z.div_mod x 2 ltac:(lia)) as Hdm.
    pose proof (Z.mod_pos_bound x 2 ltac:(lia)) as Hx2.
    change (halve_loop (S (S (S p))) (2 ^ Z.of_nat (S p)) (bitrev (S p) x)
              (2 ^ Z.of_nat (S p) - 1))
      with (let k' := Z.quot (2 ^ Z.of_nat (S p)) 2 in
            if bitrev (S p) x + k' >? 2 ^ Z.of_nat (S p) - 1
            then halve_loop (S (S p)) k' (bitrev (S p) x) (2 ^ Z.of_nat (S p) - 1)
            else Some k').
    cbv zeta. rewrite quot2_pow2. cbn [bitrev].
    assert (x mod 2 = 0 \/ x mod 2 = 1) as [E | E] by lia; rewrite E.
    + (* x even: the first k fits *)
      exists p. split; [lia|].
      replace (0 * 2 ^ Z.of_nat p + bitrev p (x / 2) + 2 ^ Z.of_nat p
               >? 2 ^ Z.of_nat (S p) - 1) with false
        by (symmetry; rewrite Z.gtb_ltb; apply Z.ltb_ge; lia).
      split; [reflexivity|].
      rewrite Z.mul_0_l, Z.add_0_l, Z.mod_small by lia.
      replace ((x + 1) mod 2) with 1.
      2:{ replace (x + 1) with (1 + (x / 2) * 2) by lia.
          now rewrite Z.mod_add by lia. }
      replace ((x + 1) / 2) with (x / 2).
      2:{ replace (x + 1) with (1 + (x / 2) * 2) by lia.
          now rewrite Z.div_add by lia. }
      lia.
    + (* x odd: go on as for the half *)
      replace (1 * 2 ^ Z.of_nat p + bitrev p (x / 2) + 2 ^ Z.of_nat p
               >? 2 ^ Z.of_nat (S p) - 1) with true
        by (symmetry; apply Z.gtb_lt; lia).
      replace (1 * 2 ^ Z.of_nat p + bitrev p (x / 2))
        with (bitrev p (x / 2) + 2 ^ Z.of_nat p) by lia.
      replace (2 ^ Z.of_nat (S p) - 1) with (2 ^ Z.of_nat p - 1 + 2 ^ Z.of_nat p) by lia.
      rewrite halve_loop_shift.
      destruct (IH (x / 2)) as (j & Hj & Hk & Hnext); [lia|].
      exists j. split; [lia|]. split; [exact Hk|].
      replace ((x + 1) mod 2) with 0.
      2:{ replace (x + 1) with (0 + (x / 2 + 1) * 2) by lia.
          now rewrite Z.mod_add by lia. }
      replace ((x + 1) / 2) with (x / 2 + 1).
      2:{ replace (x + 1) with (0 + (x / 2 + 1) * 2) by lia.
          now rewrite Z.div_add by lia. }
      rewrite Z.mul_0_l, Z.add_0_l, <- Hnext. f_equal.
      replace (2 ^ Z.of_nat p) with (2 ^ Z.of_nat (p - j) * 2 ^ Z.of_nat j).
      2:{ rewrite <- Z.pow_add_r by lia. f_equal. lia. }
      apply Z.mod_add. apply Z.pow_nonzero; lia.
Qed.

(** One turn of the recurrence goes from the inversion of [x] to the
    inversion of [x+1]. *)
Lemma next_mr_bitrev (p : nat) (x : Z) :
  0 <= x < 2 ^ Z.of_nat p - 1 ->
  next_mr (2 ^ Z.of_nat p) (bitrev p x) = Some (bitrev p (x + 1)).
Proof.
  intros Hx. unfold next_mr. rewrite halve_fuel_pow2.
  destruct (halve_loop_bitrev p x Hx) as (j & Hj & Hk & Hnext).
  rewrite Hk.
  assert (Hpos : 0 < 2 ^ Z.of_nat j) by (apply Z.pow_pos_nonneg; lia).
  replace (2 ^ Z.of_nat j =? 0) with false by (symmetry; apply Z.eqb_neq; lia).
  pose proof (bitrev_range p x) as Hr.
  rewrite Z.rem_mod_nonneg by lia. now rewrite Hnext.
Qed.

(** ** The loop over [m] for a power of two *)

Lemma zrange_nil (lo hi : Z) : hi <= lo -> zrange lo hi = [].
Proof.
  intros H. unfold zrange. replace (Z.to_nat (hi - lo)) with O by lia. reflexivity.
Qed.

Lemma zrange_cons (lo hi : Z) : lo < hi -> zrange lo hi = lo :: zrange (lo + 1) hi.
Proof.
  intros H. unfold zrange.
  replace (Z.to_nat (hi - lo)) with (S (Z.to_nat (hi - (lo + 1)))) by lia.
  cbn [seq map]. f_equal; [lia|].
  rewrite <- seq_shift, map_map. apply map_ext. intros j. lia.
Qed.

Lemma zrange_snoc (lo hi : Z) : lo <= hi -> zrange lo (hi + 1) = zrange lo hi ++ [hi].
Proof.
  intros H. unfold zrange.
  replace (Z.to_nat (hi + 1 - lo)) with (Z.to_nat (hi - lo) + 1)%nat by lia.
  rewrite seq_app, map_app. cbn [seq map]. do 2 f_equal. lia.
Qed.

Lemma zrange_In (lo hi x : Z) : In x (zrange lo hi) <-> lo <= x < hi.
Proof.
  unfold zrange. rewrite in_map_iff. split.
  - intros (j & <- & Hj). apply in_seq in Hj. lia.
  - intros H. exists (Z.to_nat (x - lo)). split; [lia|]. apply in_seq. lia.
Qed.

Lemma zrange_length (lo hi : Z) : List.length (zrange lo hi) = Z.to_nat (hi - lo).
Proof. unfold zrange. now rewrite length_map, length_seq. Qed.

Lemma plan_list_pow2 (p : nat) (symmIn : Z) (turns : nat) :
  forall (m : Z) (L : list SWAP),
    1 <= m -> m + Z.of_nat turns <= 2 ^ Z.of_nat p ->
    plan_list (2 ^ Z.of_nat p) symmIn turns m (bitrev p (m - 1)) L
    = Some (bitrev p (m - 1 + Z.of_nat turns),
            plan_fold p symmIn (zrange m (m + Z.of_nat turns)) L).
Proof.
  induction turns as [|turns IH]; intros m L Hm Hle.
  - cbn [plan_list]. rewrite zrange_nil by lia.
    replace (m - 1 + Z.of_nat 0) with (m - 1) by lia. reflexivity.
  - cbn [plan_list]. rewrite next_mr_bitrev by lia.
    replace (m - 1 + 1) with m by lia.
    replace (bitrev p m) with (bitrev p (m + 1 - 1)) at 1 by (f_equal; lia).
    rewrite IH by lia.
    rewrite (zrange_cons m (m + Z.of_nat (S turns))) by lia.
    replace (m + 1 - 1 + Z.of_nat turns) with (m - 1 + Z.of_nat (S turns)) by lia.
    replace (m + 1 + Z.of_nat turns) with (m + Z.of_nat (S turns)) by lia.
    replace (m + 1 - 1) with m by lia.
    reflexivity.
Qed.

Lemma bitrev_0 (p : nat) : bitrev p 0 = 0.
Proof. induction p as [|p IH]; cbn [bitrev]; [reflexivity|]. cbn. exact IH. Qed.

(** For a power of two the planner comes to an end, and its commands are
    those of the binary inversion put in by [plan_insert]. *)
Lemma planner_pow2 (p : nat) (symmIn junk : Z) :
  exists st,
    planner (2 ^ Z.of_nat p) symmIn junk = Some st /\
    records st = plan_fold p symmIn (zrange 1 (2 ^ Z.of_nat p)) [] /\
    pl_nSwap st = Z.of_nat (List.length (records st)) /\
    pl_swap st = records st ++
                 repeat (swap_cell0 junk)
                   (Z.to_nat (2 ^ Z.of_nat p) - List.length (records st)).
Proof.
  pose proof (planner_records (2 ^ Z.of_nat p) symmIn junk) as H.
  assert (Hpos : 0 < 2 ^ Z.of_nat p) by (apply Z.pow_pos_nonneg; lia).
  pose proof (plan_list_pow2 p symmIn (Z.to_nat (2 ^ Z.of_nat p - 1)) 1 []) as HL.
  replace (bitrev p (1 - 1)) with 0 in HL by (symmetry; apply bitrev_0).
  rewrite HL in H by lia.
  destruct H as (st & H1 & H2 & H3 & H4). exists st.
  replace (1 + Z.of_nat (Z.to_nat (2 ^ Z.of_nat p - 1))) with (2 ^ Z.of_nat p) in H2, H3, H4
    by lia.
  rewrite H2. repeat split; assumption.
Qed.

(** ** The lines of the swaps *)

Lemma flat_map_ext_in {A B} (f g : A -> list B) (l : list A) :
  (forall x, In x l -> f x = g x) -> flat_map f l = flat_map g l.
Proof.
  induction l as [|x l IH]; intros H; cbn [flat_map]; [reflexivity|].
  rewrite H by (left; reflexivity). f_equal. apply IH. intros y Hy. apply H. now right.
Qed.

Lemma map_nth_seq {A} (d : A) (L : list A) :
  map (fun j => nth j L d) (seq 0 (List.length L)) = L.
Proof.
  induction L as [|x L IH]; [reflexivity|].
  cbn [List.length seq map nth]. f_equal.
  rewrite <- seq_shift, map_map. exact IH.
Qed.

Lemma zrange_nth_map {A} (d : A) (L : list A) :
  map (fun k => nth (Z.to_nat k) L d) (zrange 0 (Z.of_nat (List.length L))) = L.
Proof.
  unfold zrange. rewrite Z.sub_0_r, Nat2Z.id, map_map.
  erewrite map_ext; [apply map_nth_seq|].
  intros j. cbn beta. f_equal. lia.
Qed.

Lemma flat_map_map {A B C} (f : B -> list C) (g : A -> B) (l : list A) :
  flat_map f (map g l) = flat_map (fun x => f (g x)) l.
Proof.
  induction l as [|x l IH]; cbn [map flat_map]; [reflexivity | now rewrite IH].
Qed.

Lemma emit_swaps_records (n realIn : Z) (L rest : list SWAP) :
  emit_swaps n realIn (Z.of_nat (List.length L)) (L ++ rest)
  = flat_map (emit_swap n realIn) L.
Proof.
  unfold emit_swaps.
  transitivity (flat_map (emit_swap n realIn)
                  (map (fun k => nth (Z.to_nat k) L (swap_cell0 0))
                       (zrange 0 (Z.of_nat (List.length L))))).
  - rewrite flat_map_map. apply flat_map_ext_in. intros k Hk. apply zrange_In in Hk.
    f_equal. unfold sget. rewrite aget_app_l by lia. reflexivity.
  - now rewrite zrange_nth_map.
Qed.

Lemma run_perm_app (l1 l2 : list perm_line) (s : memory) :
  run_perm (l1 ++ l2) s = run_perm l2 (run_perm l1 s).
Proof. unfold run_perm. apply fold_left_app. Qed.

(** ** The binary inversion without the input symmetry *)

Lemma plan_fold_plain (p : nat) (ms : list Z) :
  forall L,
    plan_fold p 0 ms L
    = L ++ map (fun m => mkSWAP m (bitrev p m) 0 0 0)
               (filter (fun m => m <? bitrev p m) ms).
Proof.
  unfold plan_fold.
  induction ms as [|m ms IH]; intros L; cbn [fold_left filter map].
  - now rewrite app_nil_r.
  - rewrite Z.gtb_ltb.
    destruct (m <? bitrev p m); rewrite IH; [|reflexivity].
    unfold plan_insert. cbn [truthy Z.eqb negb map]. now rewrite <- app_assoc.
Qed.

Lemma run_swap_plain (n realIn m mr : Z) (s : memory) :
  run_perm (emit_swap n realIn (mkSWAP m mr 0 0 0)) s
  = mkMem (fupd (fupd (xr s) m (xr s mr)) mr (xr s m))
          (if truthy realIn then xi s else fupd (fupd (xi s) m (xi s mr)) mr (xi s m))
          (xr s m)
          (if truthy realIn then ti s else xi s m).
Proof.
  unfold emit_swap. cbn [swap_symmIn swap_m swap_mr truthy Z.eqb negb].
  destruct (truthy realIn); cbn; destruct s; reflexivity.
Qed.

Lemma perm_upto_step (p : nat) (m : Z) (a a0 : Z -> R) :
  0 <= m < 2 ^ Z.of_nat p ->
  (forall i, 0 <= i < 2 ^ Z.of_nat p -> a i = perm_upto p m a0 i) ->
  forall i, 0 <= i < 2 ^ Z.of_nat p ->
    (if m <? bitrev p m
     then fupd (fupd a m (a (bitrev p m))) (bitrev p m) (a m) else a) i
    = perm_upto p (m + 1) a0 i.
Proof.
  intros Hm Ha i Hi.
  pose proof (bitrev_range p m) as Hrm. pose proof (bitrev_range p i) as Hri.
  pose proof (bitrev_involutive p m Hm) as Hinv_m.
  pose proof (bitrev_involutive p i Hi) as Hinv_i.
  assert (Hrev_eq : bitrev p i = m -> i = bitrev p m) by (intros <-; now rewrite Hinv_i).
  assert (Hrev_eq' : i = bitrev p m -> bitrev p i = m) by (intros ->; exact Hinv_m).
  destruct (Z.ltb_spec m (bitrev p m)) as [Hlt|Hge].
  - unfold fupd.
    destruct (Z.eqb_spec i (bitrev p m)) as [->|Hne1].
    + rewrite (Ha m Hm). unfold perm_upto. rewrite Hinv_m.
      replace (m <? m) with false by (symmetry; apply Z.ltb_ge; lia).
      replace (bitrev p m <? m) with false by (symmetry; apply Z.ltb_ge; lia).
      replace (m <? m + 1) with true by (symmetry; apply Z.ltb_lt; lia).
      cbn [orb]. rewrite orb_true_r. reflexivity.
    + destruct (Z.eqb_spec i m) as [->|Hne2].
      * rewrite (Ha (bitrev p m) Hrm). unfold perm_upto. rewrite Hinv_m.
        replace (m <? m) with false by (symmetry; apply Z.ltb_ge; lia).
        replace (bitrev p m <? m) with false by (symmetry; apply Z.ltb_ge; lia).
        replace (m <? m + 1) with true by (symmetry; apply Z.ltb_lt; lia).
        cbn [orb]. reflexivity.
      * rewrite (Ha i Hi). unfold perm_upto.
        assert (bitrev p i <> m) by (intros E; apply Hne1; auto).
        replace (i <? m + 1) with (i <? m)
          by (destruct (Z.ltb_spec i m), (Z.ltb_spec i (m + 1)); lia).
        replace (bitrev p i <? m + 1) with (bitrev p i <? m)
          by (destruct (Z.ltb_spec (bitrev p i) m), (Z.ltb_spec (bitrev p i) (m + 1)); lia).
        reflexivity.
  - rewrite (Ha i Hi). unfold perm_upto.
    destruct (Z.ltb_spec i m), (Z.ltb_spec i (m + 1)),
      (Z.ltb_spec (bitrev p i) m), (Z.ltb_spec (bitrev p i) (m + 1));
      cbn [orb]; try reflexivity; try lia.
    all: assert (E : bitrev p i = i)
      by (destruct (Z.eq_dec i m) as [->|Hne];
          [lia | assert (E' : bitrev p i = m) by lia; pose proof (Hrev_eq E'); lia]).
    all: rewrite E; reflexivity.
Qed.

(** The state after the swaps for [m], [m+1], ... of a range. *)
Lemma run_pairs_upto (p : nat) (realIn : Z) (s0 : memory) (turns : nat) :
  forall (m : Z) (s : memory),
    0 <= m -> m + Z.of_nat turns <= 2 ^ Z.of_nat p ->
    (forall i, 0 <= i < 2 ^ Z.of_nat p ->
       xr s i = perm_upto p m (xr s0) i /\
       xi s i = if truthy realIn then xi s0 i else perm_upto p m (xi s0) i) ->
    let s' := run_perm
                (flat_map (emit_swap (2 ^ Z.of_nat p) realIn)
                   (map (fun m => mkSWAP m (bitrev p m) 0 0 0)
                      (filter (fun m => m <? bitrev p m)
                         (zrange m (m + Z.of_nat turns))))) s in
    forall i, 0 <= i < 2 ^ Z.of_nat p ->
      xr s' i = perm_upto p (m + Z.of_nat turns) (xr s0) i /\
      xi s' i = if truthy realIn then xi s0 i
                else perm_upto p (m + Z.of_nat turns) (xi s0) i.
Proof.
  induction turns as [|turns IH]; intros m s Hm Hle Hs.
  - rewrite zrange_nil by lia. cbn. rewrite Z.add_0_r. exact Hs.
  - rewrite (zrange_cons m) by lia. cbn [filter].
    replace (m + Z.of_nat (S turns)) with (m + 1 + Z.of_nat turns) by lia.
    assert (Hstep : forall s1,
               s1 = (if m <? bitrev p m
                     then run_perm (emit_swap (2 ^ Z.of_nat p) realIn
                                      (mkSWAP m (bitrev p m) 0 0 0)) s
                     else s) ->
               forall i, 0 <= i < 2 ^ Z.of_nat p ->
                 xr s1 i = perm_upto p (m + 1) (xr s0) i /\
                 xi s1 i = if truthy realIn then xi s0 i
                           else perm_upto p (m + 1) (xi s0) i).
    { intros s1 -> i Hi.
      pose proof (perm_upto_step p m (xr s) (xr s0) ltac:(lia)
                    (fun j Hj => proj1 (Hs j Hj)) i Hi) as Hxr.
      destruct (truthy realIn) eqn:Hreal.
      - destruct (m <? bitrev p m).
        + rewrite run_swap_plain, Hreal. cbn [xr xi]. split; [exact Hxr|apply Hs; lia].
        + split; [exact Hxr|apply Hs; lia].
      - pose proof (perm_upto_step p m (xi s) (xi s0) ltac:(lia)
                      (fun j Hj => proj2 (Hs j Hj)) i Hi) as Hxi.
        destruct (m <? bitrev p m).
        + rewrite run_swap_plain, Hreal. cbn [xr xi]. split; assumption.
        + split; assumption. }
    destruct (m <? bitrev p m) eqn:E.
    + cbn [map flat_map]. rewrite run_perm_app.
      apply IH; [lia|lia|]. apply Hstep. reflexivity.
    + apply IH; [lia|lia|]. apply Hstep. reflexivity.
Qed.

Lemma perm_upto_all (p : nat) (a : Z -> R) (i : Z) :
  0 <= i < 2 ^ Z.of_nat p -> perm_upto p (2 ^ Z.of_nat p) a i = a (bitrev p i).
Proof.
  intros Hi. unfold perm_upto.
  replace (i <? 2 ^ Z.of_nat p) with true by (symmetry; apply Z.ltb_lt; lia).
  reflexivity.
Qed.

Lemma perm_upto_none (p : nat) (a : Z -> R) (i : Z) :
  0 <= i < 2 ^ Z.of_nat p -> perm_upto p 1 a i = a i.
Proof.
  intros Hi. unfold perm_upto.
  pose proof (bitrev_range p i) as Hr.
  destruct (Z.ltb_spec i 1); cbn [orb].
  - assert (i = 0) by lia. subst i. now rewrite bitrev_0.
  - destruct (Z.ltb_spec (bitrev p i) 1); [|reflexivity].
    assert (E : bitrev p i = 0) by lia.
    assert (i = 0) by (rewrite <- (bitrev_involutive p i Hi), E; apply bitrev_0).
    lia.
Qed.


(** ** The source indices of the commands *)

(** C9, as stated, fails: for [n = 4] without [symmIn] the planner stores
    the one command [(m, mr) = (1, 2)]; its flag is 0 and its source fields
    are 0, not 1 and 2. *)
Lemma plain_command_sources_are_not_its_indices :
  ~ (forall st r,
        planner 4 0 0 = Some st -> In r (records st) ->
        swap_symmIn r = 0 ->
        swap_m_new r = swap_m r /\ swap_mr_new r = swap_mr r).
Proof.
  intros H.
  assert (Hp : planner 4 0 0
               = Some (mkPlan 3 1 (mkSWAP 1 2 0 0 0 :: repeat (swap_cell0 0) 3)))
    by (vm_compute; reflexivity).
  specialize (H _ (mkSWAP 1 2 0 0 0) Hp (or_introl eq_refl) eq_refl).
  cbn in H. destruct H as [H _]. discriminate.
Qed.

(** C9, amended.  In every command of the planner whose flag [symmIn] is 0
    the source fields are not assigned: they keep the zero they were
    initialised with, whereas [1 <= m < mr].  The emitter does not read
    them: the lines it prints are those of a command whose sources are [m]
    and [mr]. *)
Theorem plain_command_sources_unset (n symmIn junk : Z) (st : plan_state) (r : SWAP) :
  planner n symmIn junk = Some st ->
  In r (records st) ->
  swap_symmIn r = 0 ->
  swap_m_new r = 0 /\ swap_mr_new r = 0 /\ 1 <= swap_m r < swap_mr r /\
  forall realIn,
    emit_swap n realIn r
    = emit_swap n realIn (mkSWAP (swap_m r) (swap_mr r) (swap_m r) (swap_mr r) 0).
Proof.
  intros Hst Hin Hflag.
  pose proof (planner_shape n symmIn junk st Hst) as HF.
  rewrite Forall_forall in HF. destruct (HF r Hin) as [Hm [H|H]].
  - destruct H as (_ & H1 & H2 & _). repeat split; try assumption; try lia.
    intros realIn. unfold emit_swap. cbn [swap_symmIn swap_m swap_mr].
    rewrite Hflag. reflexivity.
  - destruct H as (H1 & _). congruence.
Qed.

Lemma plain_command_sources_unset_witness :
  swap_m_new (mkSWAP 1 4 0 0 0) = 0 /\ swap_mr_new (mkSWAP 1 4 0 0 0) = 0 /\
  1 <= swap_m (mkSWAP 1 4 0 0 0) < swap_mr (mkSWAP 1 4 0 0 0) /\
  forall realIn,
    emit_swap 8 realIn (mkSWAP 1 4 0 0 0)
    = emit_swap 8 realIn
        (mkSWAP (swap_m (mkSWAP 1 4 0 0 0)) (swap_mr (mkSWAP 1 4 0 0 0))
                (swap_m (mkSWAP 1 4 0 0 0)) (swap_mr (mkSWAP 1 4 0 0 0)) 0).
Proof.
  apply (plain_command_sources_unset 8 1 0
           (mkPlan 7 2 (mkSWAP 1 4 0 0 0 :: mkSWAP 3 6 3 2 1 :: repeat (swap_cell0 0) 6))
           (mkSWAP 1 4 0 0 0)).
  - vm_compute. reflexivity.
  - cbn. left. reflexivity.
  - reflexivity.
Defined.

(** ** Strings and streams *)

Lemma append_nil_r (s : string) : s +++ EmptyString = s.
Proof. induction s as [|c s IH]; cbn; [reflexivity | now rewrite IH]. Qed.

Lemma append_assoc (s1 s2 s3 : string) : (s1 +++ s2) +++ s3 = s1 +++ s2 +++ s3.
Proof. induction s1 as [|c s1 IH]; cbn; [reflexivity | now rewrite IH]. Qed.

Lemma err_only_ret : err_only (ret tt).
Proof. intros [o e]. exists e. reflexivity. Qed.

Lemma err_only_to_stderr (s : string) : err_only (to_stderr s).
Proof. intros w. eexists. reflexivity. Qed.

Lemma err_only_bind (p q : proc unit) :
  err_only p -> err_only q -> err_only (p ;; q).
Proof.
  intros Hp Hq w. unfold bind. destruct (Hp w) as [e ->].
  destruct (Hq (mkStreams (stdout w) e)) as [e' ->]. exists e'. reflexivity.
Qed.

Lemma err_only_when (b : bool) (p : proc unit) : err_only p -> err_only (when b p).
Proof. intros Hp. destruct b; [exact Hp | apply err_only_ret]. Qed.

Lemma err_only_if (b : bool) (p q : proc unit) :
  err_only p -> err_only q -> err_only (if b then p else q).
Proof. destruct b; auto. Qed.

Lemma err_blind_ret {A} (a : A) : err_blind (ret a).
Proof. intros w1 w2 H. cbn. auto. Qed.

Lemma err_blind_exit {A} (s : Z) : err_blind (@exit A s).
Proof. intros w1 w2 H. cbn. auto. Qed.

Lemma err_blind_undef {A} : err_blind (@undef A).
Proof. intros w1 w2 H. exact I. Qed.

Lemma err_blind_to_stdout (s : string) : err_blind (to_stdout s).
Proof. intros w1 w2 H. cbn. now rewrite H. Qed.

Lemma err_blind_to_stderr (s : string) : err_blind (to_stderr s).
Proof. intros w1 w2 H. cbn. auto. Qed.

Lemma err_blind_bind {A B} (p : proc A) (k : A -> proc B) :
  err_blind p -> (forall a, err_blind (k a)) -> err_blind (bind p k).
Proof.
  intros Hp Hk w1 w2 H. unfold bind. specialize (Hp w1 w2 H).
  destruct (p w1) as [a1 v1|s1 v1|], (p w2) as [a2 v2|s2 v2|]; cbn in Hp;
    try contradiction; try exact I.
  - destruct Hp as [<- Hv]. apply Hk. exact Hv.
  - exact Hp.
Qed.

Lemma err_blind_when (b : bool) (p : proc unit) : err_blind p -> err_blind (when b p).
Proof. intros Hp. destruct b; [exact Hp | apply err_blind_ret]. Qed.

Lemma err_blind_info {A} (b : bool) : err_blind (@info A b).
Proof.
  unfold info. destruct b.
  - apply err_blind_bind; [apply err_blind_to_stderr | intros; apply err_blind_exit].
  - apply err_blind_bind; [apply err_blind_to_stdout|]. intros _.
    apply err_blind_bind; [apply err_blind_to_stdout | intros; apply err_blind_exit].
Qed.

Lemma err_blind_fftGen (E : environment) (n : Z) (f : flags) : err_blind (fftGen E n f).
Proof.
  unfold fftGen.
  destruct (negb (nzi_allocated E)).
  { apply err_blind_bind; [apply err_blind_to_stderr | intros; apply err_blind_exit]. }
  destruct (negb (swap_allocated E)).
  { apply err_blind_bind; [apply err_blind_to_stderr | intros; apply err_blind_exit]. }
  destruct (planner n (symmIn f) (heap_junk E)); [|apply err_blind_undef].
  apply err_blind_bind; [apply err_blind_to_stdout|]. intros _.
  apply err_blind_bind; [apply err_blind_to_stdout|]. intros _.
  apply err_blind_to_stdout.
Qed.

(** ** The verbosity and the generated code *)

Lemma report_options_err_only (c : config) : err_only (report_options c).
Proof.
  unfold report_options. apply err_only_when.
  repeat (apply err_only_bind);
    repeat first [ apply err_only_to_stderr | apply err_only_when | apply err_only_if ].
Qed.

Lemma check_points_err_blind (n : Z) : err_blind (check_points n).
Proof.
  unfold check_points.
  apply err_blind_bind; [|intros _]; apply err_blind_when;
    (apply err_blind_bind; [apply err_blind_to_stderr | intros; apply err_blind_info]).
Qed.

Lemma generate_err_blind (E : environment) (c : config) : err_blind (generate E c).
Proof.
  unfold generate.
  apply err_blind_bind; [apply check_points_err_blind|]. intros _.
  apply err_blind_bind; [apply err_blind_when, err_blind_to_stdout|]. intros _.
  apply err_blind_bind; [apply err_blind_to_stdout|]. intros _.
  apply err_blind_bind; [apply err_blind_fftGen|]. intros _.
  apply err_blind_bind; [apply err_blind_to_stdout|]. intros _.
  apply err_blind_exit.
Qed.

Lemma same_but_stderr_observed {A} (o1 o2 : outcome A) :
  same_but_stderr o1 o2 ->
  final_stdout o1 = final_stdout o2 /\ exit_status o1 = exit_status o2.
Proof.
  destruct o1 as [a1 w1|s1 w1|], o2 as [a2 w2|s2 w2|]; cbn; try contradiction.
  - intros [_ ->]. auto.
  - intros [-> ->]. auto.
  - auto.
Qed.

(** C10.  With the number of points, the other flags and everything the
    program gets from outside fixed, what [main] writes to [stdout] and the
    status it ends with are the same for any two values of [verbose]: the
    verbose messages go to [stderr] only. *)
Theorem stdout_independent_of_verbose
    (E : environment) (c : config) (v1 v2 : Z) (w : streams) :
  final_stdout (main_body E (set_var Vverbose v1 c) w)
  = final_stdout (main_body E (set_var Vverbose v2 c) w) /\
  exit_status (main_body E (set_var Vverbose v1 c) w)
  = exit_status (main_body E (set_var Vverbose v2 c) w).
Proof.
  apply same_but_stderr_observed.
  unfold main_body, bind.
  destruct (report_options_err_only (set_var Vverbose v1 c) w) as [e1 ->].
  destruct (report_options_err_only (set_var Vverbose v2 c) w) as [e2 ->].
  change (generate E (set_var Vverbose v1 c)) with (generate E (set_var Vverbose v2 c)).
  apply generate_err_blind. reflexivity.
Qed.

(** ** One point *)

Lemma planner_one (symmIn junk : Z) :
  planner 1 symmIn junk = Some (mkPlan 0 0 [swap_cell0 junk]).
Proof. reflexivity. Qed.

Lemma emit_perm_one (realIn symmIn junk : Z) :
  emit_perm 1 realIn symmIn (mkPlan 0 0 [swap_cell0 junk]) = [].
Proof.
  unfold emit_perm, emit_fill, emit_swaps. cbn [pl_nSwap pl_swap].
  destruct (truthy symmIn); reflexivity.
Qed.

Lemma emit_bfly_one (f : flags) : fst (emit_bfly 1 f) = [].
Proof. reflexivity. Qed.

(** C6, as stated, fails: with [-n 1] and no other option the program
    writes a line feed to [stdout]. *)
Lemma one_point_stdout_is_not_empty :
  final_stdout (main sample_env ["fftGen"; "-n"; "1"]) <> Some EmptyString.
Proof. vm_compute. discriminate. Qed.

(** C6, amended.  With [n = 1], any flags, and both allocations granted,
    [main] runs to its end with the success status, and what it writes to
    [stdout] is the empty line that closes the permutation phase, after
    the license note when that is asked for: no line of code. *)
Theorem one_point_emits_blank_line
    (E : environment) (f : flags) (verbose license : Z) :
  nzi_allocated E = true ->
  swap_allocated E = true ->
  exit_status (main_body E (mkConfig 1 f verbose license)
                 (mkStreams EmptyString EmptyString))
  = Some EXIT_SUCCESS /\
  final_stdout (main_body E (mkConfig 1 f verbose license)
                  (mkStreams EmptyString EmptyString))
  = Some ((if truthy license then licenseText else EmptyString) +++ nl).
Proof.
  intros Hnzi Hswap. unfold main_body, bind.
  destruct (report_options_err_only (mkConfig 1 f verbose license)
              (mkStreams EmptyString EmptyString)) as [e ->].
  unfold generate, check_points, fftGen, bind, when, to_stdout.
  cbn [cfg_n cfg_license cfg_flags Z.eqb stdout stderr].
  change (truthy (Z.land 1 (wrap32 (1 - 1)))) with false.
  rewrite Hnzi, Hswap, planner_one, emit_perm_one, emit_bfly_one.
  cbn [negb map String.concat stdout stderr header footer exit exit_status final_stdout].
  destruct (truthy license);
    cbn [exit_status final_stdout stdout String.append];
    rewrite ?append_nil_r; split; reflexivity.
Qed.

Lemma one_point_emits_blank_line_witness :
  exit_status (main_body sample_env (mkConfig 1 (mkFlags 0 1 0 0 1) 0 1)
                 (mkStreams EmptyString EmptyString))
  = Some EXIT_SUCCESS /\
  final_stdout (main_body sample_env (mkConfig 1 (mkFlags 0 1 0 0 1) 0 1)
                  (mkStreams EmptyString EmptyString))
  = Some ((if truthy 1 then licenseText else EmptyString) +++ nl).
Proof.
  apply (one_point_emits_blank_line sample_env (mkFlags 0 1 0 0 1) 0 1); reflexivity.
Defined.

(** ** The zero-imag vector *)

Lemma list_upd_nth {A} (f : A -> A) (d : A) (l : list A) (j i : nat) :
  (j < List.length l)%nat ->
  nth i (list_upd j f l) d = if Nat.eqb i j then f (nth j l d) else nth i l d.
Proof.
  revert j i; induction l as [|x l IH]; intros [|j] [|i] Hj; cbn in *; try lia; try reflexivity.
  apply IH. lia.
Qed.

Lemma nzi_get_aset (nzi : list Z) (j i v : Z) :
  0 <= j < Z.of_nat (List.length nzi) -> 0 <= i ->
  nzi_get (aset nzi j v) i = if i =? j then v else nzi_get nzi i.
Proof.
  intros Hj Hi. unfold nzi_get, aset, aupd, aget.
  rewrite list_upd_nth by lia.
  destruct (Z.eqb_spec i j) as [->|Hne].
  - now rewrite Nat.eqb_refl.
  - replace (Nat.eqb (Z.to_nat i) (Z.to_nat j)) with false; [reflexivity|].
    symmetry. apply Nat.eqb_neq. lia.
Qed.

Lemma aset_length {A} (a : list A) (j : Z) (v : A) :
  List.length (aset a j v) = List.length a.
Proof. apply list_upd_length. Qed.

Lemma list_upd_Forall {A} (Q : A -> Prop) (f : A -> A) (l : list A) (j : nat) :
  Forall Q l -> (forall x, Q (f x)) -> Forall Q (list_upd j f l).
Proof.
  intros Hl Hf. revert j. induction Hl as [|x l Hx Hl IH]; intros [|j]; cbn;
    constructor; auto.
Qed.

Lemma bits_aset_1 (nzi : list Z) (j : Z) : bits nzi -> bits (aset nzi j 1).
Proof. intros H. apply list_upd_Forall; auto. Qed.

Lemma bits_get (nzi : list Z) (i : Z) : bits nzi -> nzi_get nzi i = 0 \/ nzi_get nzi i = 1.
Proof.
  intros H. unfold nzi_get, aget.
  destruct (Nat.lt_ge_cases (Z.to_nat i) (List.length nzi)) as [Hlt|Hge].
  - unfold bits in H. rewrite Forall_forall in H. apply H. now apply nth_In.
  - left. now apply nth_overflow.
Qed.

Lemma butterfly_nzi (n : Z) (f : flags) (k lastKCycle : Z) (wr wi : R)
    (ii : Z) (nzi : list Z) :
  bits nzi ->
  0 <= ii < Z.of_nat (List.length nzi) ->
  0 <= ii + k < Z.of_nat (List.length nzi) ->
  nzi_step_ok nzi (fst (butterfly n f k lastKCycle wr wi ii nzi))
              (snd (butterfly n f k lastKCycle wr wi ii nzi)).
Proof.
  intros Hbits Hii Hjj. unfold butterfly. cbv zeta.
  set (trz := is_T1Zero (tr_part1 n wr) && _).
  set (t1 := tr_part1 n wr). set (t2 := tr_part2 n wi _ _).
  set (u1 := ti_part1 n wr _). set (u2 := ti_part2 n wi _).
  set (skip := truthy (realOut f) && truthy lastKCycle).
  set (tiz := if skip then false else _).
  set (tr_out := if trz then [] else [TrLine t1 t2 (ii + k)]).
  set (ti_out := if skip || tiz then [] else [TiLine u1 u2 (ii + k)]).
  assert (Htr : forall i, existsb (writes_unknown_xi i) tr_out = false)
    by (intros i; subst tr_out; destruct trz; reflexivity).
  assert (Hti : forall i, existsb (writes_unknown_xi i) ti_out = false)
    by (intros i; subst ti_out; destruct (skip || tiz); reflexivity).
  clearbody tr_out ti_out trz tiz skip. clear t1 t2 u1 u2.
  pose proof (bits_get nzi ii Hbits) as Hbii.
  destruct (negb (truthy (symmOut f) && truthy lastKCycle && negb (ii + k =? Z.quot n 2)));
    destruct (negb skip); destruct (negb tiz); destruct (negb trz);
    try destruct (truthy (nzi_get nzi ii)) eqn:Hnz;
    try destruct (truthy (realIn f) && truthy lastKCycle);
    try destruct (truthy (nzi_get (aset nzi (ii + k) 1) ii)) eqn:Hnz';
    cbn [fst snd];
    (split; [rewrite ?aset_length; reflexivity|]);
    (split; [repeat apply bits_aset_1; exact Hbits|]);
    intros i Hi;
    rewrite ?existsb_app, ?Htr, ?Hti; cbn [existsb writes_unknown_xi orb];
    rewrite ?orb_false_r;
    rewrite ?nzi_get_aset in * by (rewrite ?aset_length; lia);
    unfold truthy in *;
    repeat match goal with
           | H : context [?a =? ?b] |- _ => destruct (Z.eqb_spec a b)
           | |- context [?a =? ?b] => destruct (Z.eqb_spec a b)
           end;
    cbn [negb orb] in *;
    try (split; [intros; try lia; try congruence
                | intros; split; intros; try lia; try congruence; try discriminate ]).
Qed.

Lemma nzi_run_refl (nzi : list Z) : bits nzi -> nzi_run_ok nzi [] nzi.
Proof.
  intros H. split; [reflexivity|]. split; [exact H|].
  intros i Hi. cbn. split; [auto|]. intros [E|E]; [exact E|discriminate].
Qed.

Lemma nzi_run_trans (a b c : list Z) (l1 l2 : list bfly_line) :
  nzi_run_ok a l1 b -> nzi_run_ok b l2 c -> nzi_run_ok a (l1 ++ l2) c.
Proof.
  intros (L1 & B1 & H1) (L2 & B2 & H2).
  split; [congruence|]. split; [exact B2|].
  intros i Hi. rewrite existsb_app, orb_true_iff.
  rewrite H2 by lia. rewrite H1 by lia. tauto.
Qed.

Lemma nzi_step_run (nzi nzi' : list Z) (out : list bfly_line) :
  bits nzi -> nzi_step_ok nzi out nzi' -> nzi_run_ok nzi out nzi'.
Proof.
  intros Hb (L & B & H). split; [exact L|]. split; [exact B|].
  intros i Hi. destruct (H i Hi) as [H1 H0].
  destruct (bits_get nzi i Hb) as [E|E].
  - rewrite (H0 E). split; [auto|]. intros [E'|E']; [congruence|exact E'].
  - split; [auto|]. intros _. auto.
Qed.

Lemma nzi_run_bits (a b : list Z) (l : list bfly_line) : nzi_run_ok a l b -> bits b.
Proof. intros (_ & B & _). exact B. Qed.

Lemma nzi_run_length (a b : list Z) (l : list bfly_line) :
  nzi_run_ok a l b -> List.length b = List.length a.
Proof. intros (L & _). exact L. Qed.

(** The innermost loop: [turns] butterflies from [ii] on, [istep] apart. *)
Lemma point_loop_nzi (n : Z) (f : flags) (k istep lastKCycle : Z) (wr wi : R)
    (turns : list Z) :
  forall (ii : Z) (nzi : list Z),
    bits nzi -> 0 <= k -> 0 <= istep -> 0 <= ii ->
    ii + (Z.of_nat (List.length turns) - 1) * istep + k < Z.of_nat (List.length nzi) ->
    nzi_run_ok nzi
      (fst (emit_for
              (fun _ '(ii, nzi) =>
                 let '(out, nzi') := butterfly n f k lastKCycle wr wi ii nzi in
                 (out, (ii + istep, nzi')))
              turns (ii, nzi)))
      (snd (snd (emit_for
              (fun _ '(ii, nzi) =>
                 let '(out, nzi') := butterfly n f k lastKCycle wr wi ii nzi in
                 (out, (ii + istep, nzi')))
              turns (ii, nzi)))).
Proof.
  induction turns as [|t turns IH]; intros ii nzi Hb Hk Hs Hii Hlt.
  - cbn. now apply nzi_run_refl.
  - cbn [emit_for].
    pose proof (butterfly_nzi n f k lastKCycle wr wi ii nzi Hb) as Hstep.
    destruct (butterfly n f k lastKCycle wr wi ii nzi) as [out nzi1] eqn:Eb.
    cbn [fst snd] in Hstep.
    cbn [List.length] in Hlt.
    assert (Hstep' : nzi_step_ok nzi out nzi1) by (apply Hstep; nia).
    apply nzi_step_run in Hstep'; [|exact Hb].
    specialize (IH (ii + istep) nzi1 (nzi_run_bits _ _ _ Hstep') Hk Hs ltac:(lia)).
    rewrite (nzi_run_length _ _ _ Hstep') in IH.
    specialize (IH ltac:(nia)).
    destruct (emit_for _ turns (ii + istep, nzi1)) as [l2 [ii2 nzi2]].
    cbn [fst snd] in *.
    eapply nzi_run_trans; eassumption.
Qed.

Lemma emit_for_nzi (N : nat) (body : Z -> list Z -> list bfly_line * list Z)
    (turns : list Z) :
  (forall i nzi, In i turns -> bits nzi -> List.length nzi = N ->
                 nzi_run_ok nzi (fst (body i nzi)) (snd (body i nzi))) ->
  forall nzi, bits nzi -> List.length nzi = N ->
    nzi_run_ok nzi (fst (emit_for body turns nzi)) (snd (emit_for body turns nzi)).
Proof.
  induction turns as [|t turns IH]; intros Hbody nzi Hb HN.
  - cbn. now apply nzi_run_refl.
  - cbn [emit_for].
    pose proof (Hbody t nzi (or_introl eq_refl) Hb HN) as H1.
    destruct (body t nzi) as [l1 nzi1]. cbn [fst snd] in H1.
    assert (H2 : nzi_run_ok nzi1 (fst (emit_for body turns nzi1))
                   (snd (emit_for body turns nzi1))).
    { apply IH.
      - intros i a Hi. apply Hbody. now right.
      - eapply nzi_run_bits; eassumption.
      - rewrite (nzi_run_length _ _ _ H1). exact HN. }
    destruct (emit_for body turns nzi1) as [l2 nzi2]. cbn [fst snd] in *.
    eapply nzi_run_trans; eassumption.
Qed.

(** The last butterfly of a group stays inside the arrays. *)
Lemma last_point_index (c k m : Z) :
  1 <= c -> 0 <= m < k ->
  Z.quot (c * (2 * k) - 1 - m) (2 * k) = c - 1.
Proof.
  intros Hc Hm. rewrite Z.quot_div_nonneg by nia.
  symmetry. apply Z.div_unique with (r := 2 * k - 1 - m); nia.
Qed.

Lemma group_nzi (p j : nat) (f : flags) (lastKCycle m : Z) (nzi : list Z) :
  (j < p)%nat ->
  0 <= m < 2 ^ Z.of_nat j ->
  bits nzi -> Z.of_nat (List.length nzi) = 2 ^ Z.of_nat p ->
  nzi_run_ok nzi
    (fst (group (2 ^ Z.of_nat p) f (2 ^ Z.of_nat j) (2 * 2 ^ Z.of_nat j) lastKCycle m nzi))
    (snd (group (2 ^ Z.of_nat p) f (2 ^ Z.of_nat j) (2 * 2 ^ Z.of_nat j) lastKCycle m nzi)).
Proof.
  intros Hj Hm Hb HN. unfold group, point_loop. cbv zeta.
  set (k := 2 ^ Z.of_nat j) in *.
  set (c := 2 ^ Z.of_nat (p - j - 1)).
  assert (Hk : 0 < k) by (apply Z.pow_pos_nonneg; lia).
  assert (Hc : 0 < c) by (apply Z.pow_pos_nonneg; lia).
  assert (Hn : 2 ^ Z.of_nat p = c * (2 * k)).
  { subst c k. rewrite <- (Z.pow_succ_r 2 (Z.of_nat j)) by lia.
    rewrite <- Z.pow_add_r by lia. f_equal. lia. }
  rewrite Hn in *. rewrite last_point_index by lia.
  set (wr := cos _). set (wi := if truthy (inv f) then _ else _).
  pose proof (point_loop_nzi (c * (2 * k)) f k (2 * k) lastKCycle wr wi
                (zrange m (c - 1 + m + 1)) m nzi Hb ltac:(lia) ltac:(lia) ltac:(lia)) as H.
  rewrite zrange_length in H.
  specialize (H ltac:(nia)).
  destruct (emit_for _ (zrange m (c - 1 + m + 1)) (m, nzi)) as [out [ii' nzi']].
  exact H.
Qed.

Lemma stage_loop_nzi (p : nat) (f : flags) (fuel : nat) :
  forall (j : nat) (lastKCycle : Z) (nzi : list Z),
    (j <= p)%nat ->
    bits nzi -> Z.of_nat (List.length nzi) = 2 ^ Z.of_nat p ->
    nzi_run_ok nzi
      (fst (stage_loop (2 ^ Z.of_nat p) f fuel (2 ^ Z.of_nat j) (lastKCycle, nzi)))
      (snd (snd (stage_loop (2 ^ Z.of_nat p) f fuel (2 ^ Z.of_nat j) (lastKCycle, nzi)))).
Proof.
  induction fuel as [|fuel IH]; intros j lastKCycle nzi Hj Hb HN.
  - cbn. now apply nzi_run_refl.
  - cbn [stage_loop].
    destruct (Z.ltb_spec (2 ^ Z.of_nat j) (2 ^ Z.of_nat p)) as [Hlt|Hge];
      [|cbn; now apply nzi_run_refl].
    assert (Hjp : (j < p)%nat).
    { destruct (Nat.lt_ge_cases j p) as [H|H]; [exact H|].
      assert (2 ^ Z.of_nat p <= 2 ^ Z.of_nat j) by (apply Z.pow_le_mono_r; lia). lia. }
    set (last' := if 2 * 2 ^ Z.of_nat j =? 2 ^ Z.of_nat p then 1 else lastKCycle).
    pose proof (emit_for_nzi (List.length nzi)
                  (group (2 ^ Z.of_nat p) f (2 ^ Z.of_nat j) (2 * 2 ^ Z.of_nat j) last')
                  (zrange 0 (2 ^ Z.of_nat j))) as H1.
    specialize (H1 (fun m a Hm Ha HL =>
                      group_nzi p j f last' m a Hjp
                        (proj1 (zrange_In 0 (2 ^ Z.of_nat j) m) Hm) Ha
                        ltac:(rewrite HL; exact HN))
                   nzi Hb eq_refl).
    destruct (emit_for _ (zrange 0 (2 ^ Z.of_nat j)) nzi) as [l1 nzi1].
    cbn [fst snd] in H1.
    specialize (IH (S j) last' nzi1 ltac:(lia) (nzi_run_bits _ _ _ H1)
                  ltac:(rewrite (nzi_run_length _ _ _ H1); exact HN)).
    replace (2 ^ Z.of_nat (S j)) with (2 * 2 ^ Z.of_nat j) in IH
      by (rewrite Nat2Z.inj_succ, Z.pow_succ_r by lia; reflexivity).
    destruct (stage_loop _ f fuel (2 * 2 ^ Z.of_nat j) (last', nzi1)) as [l2 [last2 nzi2]].
    cbn [fst snd] in *.
    eapply nzi_run_trans; eassumption.
Qed.

(** The loop over the stages ends by its test [k < n]: turns beyond
    [stage_fuel] change nothing. *)
Lemma stage_loop_enough (p : nat) (f : flags) (d : nat) :
  forall (j extra : nat) (s : Z * list Z),
    (p - j = d)%nat -> (j <= p)%nat ->
    stage_loop (2 ^ Z.of_nat p) f (S d + extra) (2 ^ Z.of_nat j) s
    = stage_loop (2 ^ Z.of_nat p) f (S d) (2 ^ Z.of_nat j) s.
Proof.
  induction d as [|d IH]; intros j extra s Hd Hj.
  - assert (j = p) by lia. subst j. cbn [Nat.add stage_loop].
    rewrite Z.ltb_irrefl. reflexivity.
  - change (S (S d) + extra)%nat with (S (S d + extra)). cbn [stage_loop].
    destruct (_ <? _); [|reflexivity].
    destruct s as [lastKCycle nzi].
    destruct (emit_for _ (zrange 0 (2 ^ Z.of_nat j)) nzi) as [l1 nzi1].
    replace (2 * 2 ^ Z.of_nat j) with (2 ^ Z.of_nat (S j))
      by (rewrite Nat2Z.inj_succ, Z.pow_succ_r by lia; reflexivity).
    rewrite (IH (S j) extra) by lia. reflexivity.
Qed.

Lemma stage_fuel_pow2 (p : nat) : stage_fuel (2 ^ Z.of_nat p) = S (S p).
Proof. unfold stage_fuel. rewrite Z.log2_pow2 by lia. now rewrite Nat2Z.id. Qed.

Lemma emit_bfly_any_fuel (p : nat) (f : flags) (extra : nat) :
  stage_loop (2 ^ Z.of_nat p) f (stage_fuel (2 ^ Z.of_nat p) + extra) 1
    (0, nzi_init (2 ^ Z.of_nat p) (realIn f))
  = emit_bfly (2 ^ Z.of_nat p) f.
Proof.
  unfold emit_bfly. rewrite stage_fuel_pow2.
  change 1 with (2 ^ Z.of_nat 0).
  transitivity (stage_loop (2 ^ Z.of_nat p) f (S p) (2 ^ Z.of_nat 0)
                  (0, nzi_init (2 ^ Z.of_nat p) (realIn f))).
  - replace (S (S p) + extra)%nat with (S p + S extra)%nat by lia.
    apply stage_loop_enough; lia.
  - symmetry. replace (S (S p)) with (S p + 1)%nat by lia.
    apply stage_loop_enough; lia.
Qed.

Lemma nzi_init_spec (n realIn : Z) :
  nzi_init n realIn = repeat (if truthy realIn then 0 else 1) (Z.to_nat n).
Proof. unfold nzi_init. destruct (truthy realIn); reflexivity. Qed.

Lemma bits_repeat (b : Z) (k : nat) : b = 0 \/ b = 1 -> bits (repeat b k).
Proof.
  intros H. apply Forall_forall. intros x Hx. apply repeat_spec in Hx. now subst.
Qed.

(** C8.  [nzi] starts all-zero under [realIn] and all-one otherwise.  Each
    butterfly keeps it monotone and exact: the cells stay bits, a cell that
    is 1 remains 1, and a cell that is 0 becomes 1 exactly when one of the
    lines the butterfly prints assigns to that [xi] a value not known to be
    zero ([nzi_step_ok]).  Over the whole transform of [n = 2^p] points a
    cell is 1 at the end exactly when it was 1 at the start or such a line
    for it was printed. *)
Theorem nzi_monotone_and_exact (p : nat) (f : flags) :
  nzi_init (2 ^ Z.of_nat p) (realIn f)
  = repeat (if truthy (realIn f) then 0 else 1) (Z.to_nat (2 ^ Z.of_nat p)) /\
  (forall n k lastKCycle wr wi ii nzi,
      bits nzi ->
      0 <= ii < Z.of_nat (List.length nzi) ->
      0 <= ii + k < Z.of_nat (List.length nzi) ->
      nzi_step_ok nzi (fst (butterfly n f k lastKCycle wr wi ii nzi))
                  (snd (butterfly n f k lastKCycle wr wi ii nzi))) /\
  nzi_run_ok (nzi_init (2 ^ Z.of_nat p) (realIn f))
             (fst (emit_bfly (2 ^ Z.of_nat p) f))
             (snd (snd (emit_bfly (2 ^ Z.of_nat p) f))).
Proof.
  split; [apply nzi_init_spec|].
  split; [intros; now apply butterfly_nzi|].
  unfold emit_bfly. change 1 with (2 ^ Z.of_nat 0) at 2.
  assert (Hpos : 0 < 2 ^ Z.of_nat p) by (apply Z.pow_pos_nonneg; lia).
  apply stage_loop_nzi; [lia| |].
  - rewrite nzi_init_spec. apply bits_repeat. destruct (truthy (realIn f)); auto.
  - rewrite nzi_init_spec, repeat_length. lia.
Qed.

(** ** The literals of the butterflies *)

Lemma Rgtb_true (x y : R) : Rgtb x y = true <-> (y < x)%R.
Proof. unfold Rgtb. destruct (Rlt_dec y x); split; intros; auto; discriminate. Qed.

Lemma Rltb_true (x y : R) : Rltb x y = true <-> (x < y)%R.
Proof. unfold Rltb. destruct (Rlt_dec x y); split; intros; auto; discriminate. Qed.

Lemma Rgeb_true (x y : R) : Rgeb x y = true <-> (y <= x)%R.
Proof. unfold Rgeb. destruct (Rle_dec y x); split; intros; auto; discriminate. Qed.

Lemma Rgtb_false (x y : R) : Rgtb x y = false <-> (x <= y)%R.
Proof.
  unfold Rgtb. destruct (Rlt_dec y x); split; intros; try discriminate; try reflexivity; lra.
Qed.

Lemma Rltb_false (x y : R) : Rltb x y = false <-> (y <= x)%R.
Proof.
  unfold Rltb. destruct (Rlt_dec x y); split; intros; try discriminate; try reflexivity; lra.
Qed.

Lemma Rgeb_false (x y : R) : Rgeb x y = false <-> (x < y)%R.
Proof.
  unfold Rgeb. destruct (Rle_dec y x); split; intros; try discriminate; try reflexivity; lra.
Qed.

Lemma epsMOne_opp (n : Z) : epsMOne n = (- epsOne n)%R.
Proof. unfold epsMOne, epsOne. lra. Qed.










(** ** The classes of the sine and cosine values *)

(** The four cascades of [fftGen] are the one of [classify]. *)
Lemma tr_part1_classify (n : Z) (wr : R) :
  tr_part1 n wr =
  match classify n wr with
  | ZERO => T1Zero
  | PLUS_ONE => T1Id
  | MINUS_ONE => T1Neg
  | POS | NEG => T1Lit wr
  end.
Proof.
  unfold tr_part1, classify.
  repeat match goal with |- context [if ?b then _ else _] => destruct b end; reflexivity.
Qed.

Lemma ti_part1_classify (n : Z) (wr : R) (nzi_jj : Z) :
  ti_part1 n wr nzi_jj =
  if truthy nzi_jj then
    match classify n wr with
    | ZERO => T1Zero
    | PLUS_ONE => T1Id
    | MINUS_ONE => T1Neg
    | POS | NEG => T1Lit wr
    end
  else T1Zero.
Proof.
  unfold ti_part1, classify.
  destruct (truthy nzi_jj); destruct (Rgtb (Rabs wr) (eps n)); cbn [andb];
    repeat match goal with |- context [if ?b then _ else _] => destruct b end; reflexivity.
Qed.

Lemma tr_part2_classify (n : Z) (wi : R) (nzi_jj : Z) (firstOpZero : bool) :
  tr_part2 n wi nzi_jj firstOpZero =
  if truthy nzi_jj then
    match classify n wi with
    | ZERO => T2Zero
    | PLUS_ONE => T2Sub
    | MINUS_ONE => if firstOpZero then T2Id else T2Add
    | POS => if firstOpZero then T2Lit (- wi) else T2SubLit wi
    | NEG => if firstOpZero then T2Lit (- wi) else T2AddLit (- wi)
    end
  else T2Zero.
Proof.
  unfold tr_part2, classify.
  destruct (truthy nzi_jj); destruct (Rgtb (Rabs wi) (eps n)); cbn [andb];
    destruct firstOpZero; cbn [negb];
    repeat match goal with |- context [if ?b then _ else _] => destruct b end; reflexivity.
Qed.

Lemma ti_part2_classify (n : Z) (wi : R) (firstOpZero : bool) :
  ti_part2 n wi firstOpZero =
  match classify n wi with
  | ZERO => T2Zero
  | PLUS_ONE => T2Id
  | MINUS_ONE => T2Sub
  | POS => if firstOpZero then T2Lit wi else T2AddLit wi
  | NEG => if firstOpZero then T2Lit wi else T2SubLit (- wi)
  end.
Proof.
  unfold ti_part2, classify.
  destruct firstOpZero; cbn [negb];
    repeat match goal with |- context [if ?b then _ else _] => destruct b end; reflexivity.
Qed.

Lemma classify_in_order (n : Z) (w : R) : classified_in_order n w.
Proof.
  unfold classified_in_order, classify.
  destruct (Rgtb (Rabs w) (eps n)) eqn:H1;
    [apply Rgtb_true in H1 | apply Rgtb_false in H1].
  2:{ repeat split; intros; try discriminate; try lra. }
  destruct (Rltb w (epsOne n)) eqn:H2;
    [apply Rltb_true in H2 | apply Rltb_false in H2].
  2:{ repeat split; intros; try discriminate; try lra. }
  destruct (Rgtb w (epsMOne n)) eqn:H3;
    [apply Rgtb_true in H3 | apply Rgtb_false in H3].
  2:{ repeat split; intros; try discriminate; try lra. }
  destruct (Rgeb w 0.0) eqn:H4;
    [apply Rgeb_true in H4 | apply Rgeb_false in H4];
    repeat split; intros; try discriminate; try lra.
Qed.

(** When [eps] is below [epsOne] and [epsOne] above zero, the order of the
    tests does not matter. *)
Lemma classify_as_stated (n : Z) (w : R) :
  (eps n < epsOne n)%R -> (0 < epsOne n)%R -> classified_as_stated n w.
Proof.
  intros He H1.
  destruct (classify_in_order n w) as (HZ & HP & HM & HPos & HNeg).
  pose proof (epsMOne_opp n) as HMO.
  unfold classified_as_stated.
  split; [exact HZ|].
  split.
  { rewrite HP. split; [tauto|]. intros Hw. split; [|exact Hw].
    rewrite Rabs_right by lra. lra. }
  split.
  { rewrite HM. split; [tauto|]. intros Hw. split; [|split; [lra|exact Hw]].
    rewrite Rabs_left by lra. lra. }
  split.
  { rewrite HPos. split.
    - intros (A & B & C & D). repeat split; lra.
    - intros (A & B & C & D). repeat split; lra. }
  { rewrite HNeg. split.
    - intros (A & B & C & D). repeat split; lra.
    - intros (A & B & C & D). repeat split; lra. }
Qed.

(** From 6 points on, [eps] is below [epsOne]. *)
Lemma eps_below_epsOne (n : Z) :
  3 <= Z.quot n 2 -> (eps n < epsOne n)%R /\ (0 < epsOne n)%R.
Proof.
  intros Hh. unfold eps, epsOne.
  set (h := Z.quot n 2) in *.
  assert (Hh3 : (3 <= IZR h)%R) by (apply IZR_le in Hh; exact Hh).
  pose proof PI_RGT_0 as Hpi.
  assert (Hpos : (0 < PI / IZR h)%R) by (apply Rdiv_lt_0_compat; lra).
  assert (Hlt : (PI / IZR h < PI / 2)%R).
  { unfold Rdiv. apply Rmult_lt_compat_l; [lra|].
    apply Rinv_lt_contravar; lra. }
  assert (Hcos : (0 < cos (PI / IZR h))%R) by (apply cos_gt_0; lra).
  pose proof (SIN_bound (PI / IZR h)) as [_ Hsin].
  split; lra.
Qed.

Lemma Rdiv_1 (x : R) : (x / IZR 1 = x)%R.
Proof. unfold Rdiv. rewrite Rinv_1. lra. Qed.

Lemma tolerances_2 : eps 2 = 0%R /\ epsOne 2 = 0%R /\ epsMOne 2 = 0%R.
Proof.
  unfold eps, epsOne, epsMOne. change (Z.quot 2 2) with 1.
  rewrite Rdiv_1, sin_PI, cos_PI. repeat split; lra.
Qed.

Lemma tolerances_4 : eps 4 = 0.5%R /\ epsOne 4 = 0.5%R /\ epsMOne 4 = (-0.5)%R.
Proof.
  unfold eps, epsOne, epsMOne. change (Z.quot 4 2) with 2.
  rewrite sin_PI2, cos_PI2. repeat split; lra.
Qed.

Lemma zero_is_twiddle_2 : is_twiddle 2 0%R.
Proof.
  exists 0%nat, 0. split; [reflexivity|]. split; [cbn; lia|].
  cbv zeta. right. left. change (- 0) with 0. change (2 ^ Z.of_nat 0) with 1.
  rewrite Rdiv_1, Rmult_0_r, sin_0. reflexivity.
Qed.

(** C4, as stated, fails for [n = 2]: there [eps], [epsOne] and [epsMOne]
    are all zero, the sine of the only butterfly is 0, and the cascade
    makes it ZERO although it is at least [epsOne] and at most
    [epsMOne]. *)
Lemma zero_twiddle_of_two_points_has_one_class_only :
  ~ (forall w, is_twiddle 2 w -> classified_as_stated 2 w).
Proof.
  intros H. specialize (H 0%R zero_is_twiddle_2).
  destruct H as (HZ & HP & _).
  destruct tolerances_2 as (E1 & E2 & _). rewrite E1 in HZ. rewrite E2 in HP.
  assert (HZ' : classify 2 0 = ZERO) by (apply HZ; rewrite Rabs_R0; lra).
  assert (HP' : classify 2 0 = PLUS_ONE) by (apply HP; lra).
  congruence.
Qed.

Lemma twiddles_4 (w : R) : is_twiddle 4 w -> w = 1%R \/ w = 0%R \/ w = (-1)%R.
Proof.
  intros (j & m & Hj & Hm & Hw). cbv zeta in Hw.
  assert (Ha0 : (PI * IZR (Z.opp 0) / IZR 1 = 0)%R)
    by (change (Z.opp 0) with 0; rewrite Rdiv_1; lra).
  destruct j as [|[|j]].
  - change (2 ^ Z.of_nat 0) with 1 in *. assert (m = 0) by lia. subst m.
    rewrite Ha0, cos_0, sin_0 in Hw. destruct Hw as [->|[->| ->]]; [auto|auto|].
    right; left; lra.
  - change (2 ^ Z.of_nat 1) with 2 in *.
    assert (m = 0 \/ m = 1) as [-> | ->] by lia.
    + replace (PI * IZR (Z.opp 0) / IZR 2)%R with 0%R in Hw
        by (change (Z.opp 0) with 0; lra).
      rewrite cos_0, sin_0 in Hw. destruct Hw as [->|[->| ->]]; [auto|auto|].
      right; left; lra.
    + replace (PI * IZR (Z.opp 1) / IZR 2)%R with (- (PI / 2))%R in Hw
        by (change (Z.opp 1) with (-1); lra).
      rewrite cos_neg, sin_neg, cos_PI2, sin_PI2 in Hw.
      destruct Hw as [->|[->| ->]]; [auto|auto|]. left; lra.
  - exfalso.
    assert (2 ^ 2 <= 2 ^ Z.of_nat (S (S j))) by (apply Z.pow_le_mono_r; lia).
    change (2 ^ 2) with 4 in *. lia.
Qed.

Lemma classify_as_stated_4 (w : R) : is_twiddle 4 w -> classified_as_stated 4 w.
Proof.
  intros Hw. apply twiddles_4 in Hw.
  destruct (classify_in_order 4 w) as (HZ & HP & HM & HPos & HNeg).
  destruct tolerances_4 as (E1 & E2 & E3).
  unfold classified_as_stated.
  rewrite HZ, HP, HM, HPos, HNeg, E1, E2, E3.
  assert (HA : Rabs (-1) = 1%R) by (rewrite Rabs_left; lra).
  destruct Hw as [->|[->| ->]];
    rewrite ?Rabs_R1, ?Rabs_R0, ?HA;
    repeat split; intros; try lra;
    repeat match goal with H : _ /\ _ |- _ => destruct H end; try lra.
Qed.

(** C4, amended.  For every power of two [n = 2^p] from 4 on, every sine
    and cosine value [w] of the butterflies of [n] points is ZERO if and
    only if [|w| <= eps], PLUS_ONE if and only if [w >= epsOne], MINUS_ONE
    if and only if [w <= epsMOne], and otherwise POS or NEG by its sign;
    from 8 points on this is so for every real [w].  The tests are made in
    this order and the first that holds decides ([classified_in_order],
    for every [n]), and the four summands of [fftGen] print what this
    class says. *)
Theorem twiddle_classes (p : nat) (w : R) :
  (2 <= p)%nat ->
  is_twiddle (2 ^ Z.of_nat p) w ->
  classified_as_stated (2 ^ Z.of_nat p) w /\
  ((3 <= p)%nat -> forall v, classified_as_stated (2 ^ Z.of_nat p) v) /\
  (forall n v, classified_in_order n v) /\
  (forall n v b z,
      tr_part1 n v = match classify n v with
                     | ZERO => T1Zero | PLUS_ONE => T1Id | MINUS_ONE => T1Neg
                     | POS | NEG => T1Lit v
                     end /\
      ti_part1 n v b = (if truthy b then
                          match classify n v with
                          | ZERO => T1Zero | PLUS_ONE => T1Id | MINUS_ONE => T1Neg
                          | POS | NEG => T1Lit v
                          end
                        else T1Zero) /\
      tr_part2 n v b z = (if truthy b then
                            match classify n v with
                            | ZERO => T2Zero
                            | PLUS_ONE => T2Sub
                            | MINUS_ONE => if z then T2Id else T2Add
                            | POS => if z then T2Lit (- v) else T2SubLit v
                            | NEG => if z then T2Lit (- v) else T2AddLit (- v)
                            end
                          else T2Zero) /\
      ti_part2 n v z = match classify n v with
                       | ZERO => T2Zero
                       | PLUS_ONE => T2Id
                       | MINUS_ONE => T2Sub
                       | POS => if z then T2Lit v else T2AddLit v
                       | NEG => if z then T2Lit v else T2SubLit (- v)
                       end).
Proof.
  intros Hp Hw.
  assert (Hbig : (3 <= p)%nat -> forall v, classified_as_stated (2 ^ Z.of_nat p) v).
  { intros H3 v.
    destruct (eps_below_epsOne (2 ^ Z.of_nat p)) as [He H1].
    - destruct p as [|p]; [lia|]. rewrite quot2_pow2.
      assert (2 ^ 2 <= 2 ^ Z.of_nat p) by (apply Z.pow_le_mono_r; lia).
      change (2 ^ 2) with 4 in *. lia.
    - now apply classify_as_stated. }
  split.
  { destruct (Nat.eq_dec p 2) as [->|Hne].
    - apply classify_as_stated_4. exact Hw.
    - apply Hbig. lia. }
  split; [exact Hbig|].
  split; [intros; apply classify_in_order|].
  intros n v b z.
  split; [apply tr_part1_classify|].
  split; [apply ti_part1_classify|].
  split; [apply tr_part2_classify | apply ti_part2_classify].
Qed.

Lemma twiddle_classes_witness :
  classified_as_stated (2 ^ Z.of_nat 3) (cos (PI * IZR (- 0) / IZR (2 ^ Z.of_nat 0))).
Proof.
  refine (proj1 (twiddle_classes 3 (cos (PI * IZR (- 0) / IZR (2 ^ Z.of_nat 0))) _ _)).
  - lia.
  - exists 0%nat, 0. split; [reflexivity|]. split; [cbn; lia|]. left. reflexivity.
Defined.

(** ** The order of the commands under the input symmetry *)

Lemma bitrev_S (p : nat) (x : Z) :
  bitrev (S p) x = (x mod 2) * 2 ^ Z.of_nat p + bitrev p (x / 2).
Proof. reflexivity. Qed.

(** The top bit of the inversion is the low bit of the number. *)
Lemma bitrev_top (p : nat) (x : Z) :
  (2 ^ Z.of_nat p <= bitrev (S p) x) <-> x mod 2 = 1.
Proof.
  rewrite bitrev_S. pose proof (bitrev_range p (x / 2)) as Hr.
  pose proof (Z.mod_pos_bound x 2 ltac:(lia)) as Hx.
  assert (x mod 2 = 0 \/ x mod 2 = 1) as [E|E] by lia; rewrite E; lia.
Qed.

Lemma bitrev_ones (p : nat) : bitrev p (2 ^ Z.of_nat p - 1) = 2 ^ Z.of_nat p - 1.
Proof.
  induction p as [|p IH]; [reflexivity|].
  rewrite bitrev_S.
  assert (Hpos : 0 < 2 ^ Z.of_nat p) by (apply Z.pow_pos_nonneg; lia).
  replace (2 ^ Z.of_nat (S p) - 1) with (1 + (2 ^ Z.of_nat p - 1) * 2)
    by (rewrite Nat2Z.inj_succ, Z.pow_succ_r by lia; lia).
  rewrite Z.mod_add, Z.div_add by lia.
  change (1 mod 2) with 1. change (1 / 2) with 0. rewrite Z.add_0_l, IH. lia.
Qed.

Lemma bitrev_one (p : nat) : bitrev (S p) 1 = 2 ^ Z.of_nat p.
Proof.
  rewrite bitrev_S. change (1 mod 2) with 1. change (1 / 2) with 0.
  rewrite bitrev_0. lia.
Qed.

Lemma bitrev_inj (p : nat) (x y : Z) :
  0 <= x < 2 ^ Z.of_nat p -> 0 <= y < 2 ^ Z.of_nat p ->
  bitrev p x = bitrev p y -> x = y.
Proof.
  intros Hx Hy E. rewrite <- (bitrev_involutive p x Hx), <- (bitrev_involutive p y Hy).
  now rewrite E.
Qed.

Lemma scan_back_spec (L : list SWAP) (v : Z) (fuel : nat) :
  forall i, fuel = Z.to_nat i ->
    let r := scan_back L v fuel i in
    (0 < r -> r <= i /\ holds (sget L r) v) /\
    (forall j, Z.max r 0 < j <= i -> ~ holds (sget L j) v).
Proof.
  induction fuel as [|fuel IH]; intros i Hf; cbn [scan_back]; cbv zeta.
  - split; [intros; lia|]. intros j Hj. lia.
  - destruct (Z.gtb_spec i 0) as [Hpos|Hle]; [|lia].
    destruct (Z.eqb_spec v (swap_m (sget L i))) as [E1|N1]; cbn [orb].
    { split; [intros _; split; [lia|left; auto]|]. intros j Hj. lia. }
    destruct (Z.eqb_spec v (swap_mr (sget L i))) as [E2|N2].
    { split; [intros _; split; [lia|right; auto]|]. intros j Hj. lia. }
    specialize (IH (i - 1) ltac:(lia)). cbv zeta in IH. destruct IH as [IH1 IH2].
    split.
    + intros Hr. destruct (IH1 Hr) as [Hle Hh]. split; [lia|exact Hh].
    + intros j Hj. destruct (Z.eq_dec j i) as [->|Hne].
      * intros [H|H]; congruence.
      * apply IH2. lia.
Qed.

Lemma In_firstn_sget (L : list SWAP) (k : nat) (y : SWAP) :
  In y (firstn k L) ->
  exists j, 0 <= j < Z.of_nat k /\ j < Z.of_nat (List.length L) /\ y = sget L j.
Proof.
  revert k; induction L as [|x L IH]; intros [|k] H; cbn in H; try contradiction.
  destruct H as [<-|H].
  - exists 0. cbn [List.length]. repeat split; try lia.
  - destruct (IH k H) as (j & Hj & HjL & ->).
    exists (j + 1). cbn [List.length]. repeat split; try lia.
    unfold sget, aget. replace (Z.to_nat (j + 1)) with (S (Z.to_nat j)) by lia.
    reflexivity.
Qed.

(** Where [plan_insert] puts a command that uses the symmetry: after a
    part [L1] of the list in which no command holds one of its mirror
    sources, as long as each index is held by one command at most and the
    first command holds no mirror source. *)
Lemma plan_insert_symm_split (n symmIn m mr : Z) (L : list SWAP) :
  truthy symmIn = true ->
  (m <=? Z.quot n 2) && (mr <=? Z.quot n 2) = false ->
  (forall s i j, 0 <= i < Z.of_nat (List.length L) -> 0 <= j < Z.of_nat (List.length L) ->
                 holds (sget L i) s -> holds (sget L j) s -> i = j) ->
  (forall s, In s (mirror_sources n m mr) -> L <> [] -> ~ holds (sget L 0) s) ->
  exists L1 L2,
    L = L1 ++ L2 /\
    plan_insert n symmIn m mr L
    = L1 ++ mkSWAP m mr (if m >? Z.quot n 2 then n - m else m)
                        (if mr >? Z.quot n 2 then n - mr else mr) 1 :: L2 /\
    (L1 = [] -> L2 = []) /\
    (forall y s, In y L1 -> In s (mirror_sources n m mr) -> ~ holds y s).
Proof.
  intros Hs Hll Huniq Hhead. unfold plan_insert. rewrite Hs, Hll. cbn [negb]. cbv zeta.
  set (nSwap := Z.of_nat (List.length L)).
  set (m_new := if m >? Z.quot n 2 then n - m else m).
  set (mr_new := if mr >? Z.quot n 2 then n - mr else mr).
  set (new := mkSWAP m mr m_new mr_new 1).
  pose proof (scan_back_spec L m_new (Z.to_nat (nSwap - 1)) (nSwap - 1) eq_refl) as Sm.
  pose proof (scan_back_spec L mr_new (Z.to_nat (nSwap - 1)) (nSwap - 1) eq_refl) as Smr.
  cbv zeta in Sm, Smr.
  set (i_m := if m >? Z.quot n 2 then scan_back L m_new _ _ else 0).
  set (i_mr0 := if mr >? Z.quot n 2 then scan_back L mr_new _ _ else 0).
  set (k := if (i_mr0 >? 0) && (i_m >? 0) then _ else _).
  (* what the two scans say about every mirror source *)
  assert (Hsrc : forall s, In s (mirror_sources n m mr) ->
            exists r, (r = i_m \/ r = i_mr0) /\
              (0 < r -> r <= nSwap - 1 /\ holds (sget L r) s) /\
              (forall j, Z.max r 0 < j <= nSwap - 1 -> ~ holds (sget L j) s)).
  { intros s Hin. unfold mirror_sources in Hin. apply in_app_or in Hin.
    destruct Hin as [Hin|Hin].
    - subst i_m m_new. destruct (m >? Z.quot n 2); [|contradiction].
      destruct Hin as [<-|[]]. eexists; split; [left; reflexivity|exact Sm].
    - subst i_mr0 mr_new. destruct (mr >? Z.quot n 2); [|contradiction].
      destruct Hin as [<-|[]]. eexists; split; [right; reflexivity|exact Smr]. }
  assert (Hbm : 0 < i_m -> i_m <= nSwap - 1).
  { subst i_m. destruct (m >? Z.quot n 2); [|lia]. intros H. apply Sm in H. lia. }
  assert (Hbmr : 0 < i_mr0 -> i_mr0 <= nSwap - 1).
  { subst i_mr0. destruct (mr >? Z.quot n 2); [|lia]. intros H. apply Smr in H. lia. }
  assert (Hk : (0 < k -> (0 < i_m -> k <= i_m) /\ (0 < i_mr0 -> k <= i_mr0)
                         /\ (0 < i_m \/ 0 < i_mr0)) /\
               (k <= 0 -> i_m <= 0 /\ i_mr0 <= 0)).
  { subst k. destruct (Z.gtb_spec i_mr0 0), (Z.gtb_spec i_m 0); cbn [andb];
      try destruct (Z.gtb_spec i_mr0 i_m); lia. }
  clearbody i_m i_mr0 k. clear Sm Smr.
  destruct (Z.gtb_spec k 0) as [Hpos|Hle].
  - (* inserted at k *)
    destruct Hk as [Hk _]. specialize (Hk Hpos). destruct Hk as (Hkm & Hkmr & Hsome).
    assert (Hkn : k <= nSwap - 1) by (destruct Hsome; lia).
    exists (firstn (Z.to_nat k) L), (skipn (Z.to_nat k) L).
    split; [symmetry; apply firstn_skipn|]. split; [reflexivity|].
    split.
    { intros E. apply (f_equal (@List.length SWAP)) in E.
      rewrite length_firstn in E. cbn in E. subst nSwap. lia. }
    intros y s Hy Hin.
    destruct (In_firstn_sget L (Z.to_nat k) y Hy) as (j & Hj & HjL & ->).
    destruct (Hsrc s Hin) as (r & Hr & Hfound & Hnot).
    destruct (Z_lt_le_dec 0 r) as [Hrpos|Hrneg].
    + destruct (Hfound Hrpos) as [Hrle Hhold].
      assert (Hkr : k <= r) by (destruct Hr; subst r; auto).
      intros Hy'. assert (j = r) by (apply (Huniq s); subst nSwap; try lia; assumption).
      lia.
    + destruct (Z.eq_dec j 0) as [->|Hne].
      * apply Hhead; [exact Hin|]. intros ->. cbn in HjL. lia.
      * apply Hnot. subst nSwap. lia.
  - (* appended *)
    destruct Hk as [_ Hk]. specialize (Hk Hle). destruct Hk as [Hm0 Hmr0].
    exists L, []. split; [now rewrite app_nil_r|]. split; [reflexivity|].
    split; [reflexivity|].
    intros y s Hy Hin.
    apply In_nth with (d := swap_cell0 0) in Hy. destruct Hy as (j & Hj & <-).
    destruct (Hsrc s Hin) as (r & Hr & Hfound & Hnot).
    assert (Hrneg : r <= 0) by (destruct Hr; subst r; auto).
    destruct j as [|j].
    + apply (Hhead s Hin). intros ->. cbn in Hj. lia.
    + replace (nth (S j) L (swap_cell0 0)) with (sget L (Z.of_nat (S j)))
        by (unfold sget, aget; now rewrite Nat2Z.id).
      apply Hnot. subst nSwap. lia.
Qed.

Lemma FOP_insert {A} (Rel : A -> A -> Prop) (L1 L2 : list A) (x : A) :
  ForallOrdPairs Rel (L1 ++ L2) ->
  (forall y, In y L1 -> Rel y x) ->
  (forall y, In y L2 -> Rel x y) ->
  ForallOrdPairs Rel (L1 ++ x :: L2).
Proof.
  induction L1 as [|a L1 IH]; intros HF H1 H2; cbn [app] in *.
  - constructor; [|exact HF]. apply Forall_forall. exact H2.
  - inversion HF as [|a' l' Ha HF']; subst.
    constructor.
    + apply Forall_app in Ha. destruct Ha as [Ha1 Ha2].
      apply Forall_app. split; [exact Ha1|]. constructor; [|exact Ha2].
      apply H1. now left.
    + apply IH; [exact HF'| |exact H2]. intros y Hy. apply H1. now right.
Qed.

Lemma In_insert {A} (L1 L2 : list A) (x y : A) :
  In y (L1 ++ x :: L2) <-> y = x \/ In y (L1 ++ L2).
Proof.
  rewrite !in_app_iff. cbn [In]. split.
  - intros [H|[H|H]]; auto.
  - intros [H|[H|H]]; auto.
Qed.

Lemma NoDup_insert {A} (L1 L2 : list A) (x : A) :
  NoDup (L1 ++ L2) -> ~ In x (L1 ++ L2) -> NoDup (L1 ++ x :: L2).
Proof.
  intros H1 H2. induction L1 as [|a L1 IH]; cbn [app] in *.
  - constructor; assumption.
  - inversion H1 as [|a' l' Ha H1']; subst. constructor.
    + rewrite In_insert. intros [->|H]; [apply H2; now left|contradiction].
    + apply IH; [exact H1'|]. intros H. apply H2. now right.
Qed.

(** Two commands that hold the same index are for the same [m]. *)
Lemma same_holder (p : nat) (symmIn m : Z) (r r' : SWAP) (s : Z) :
  m <= 2 ^ Z.of_nat p ->
  rec_ok p symmIn m r -> rec_ok p symmIn m r' ->
  holds r s -> holds r' s -> swap_m r = swap_m r'.
Proof.
  intros Hm (H1 & H2 & (H3 & _)) (H1' & H2' & (H3' & _)) Hr Hr'.
  assert (Hi : bitrev p (swap_mr r) = swap_m r)
    by (rewrite H2; apply bitrev_involutive; lia).
  assert (Hi' : bitrev p (swap_mr r') = swap_m r')
    by (rewrite H2'; apply bitrev_involutive; lia).
  destruct Hr as [E|E], Hr' as [E'|E'].
  - congruence.
  - assert (swap_mr r = swap_m r') by (rewrite <- Hi', E', <- E, <- H2; reflexivity). lia.
  - assert (swap_mr r' = swap_m r) by (rewrite <- Hi, E, <- E', <- H2'; reflexivity). lia.
  - rewrite <- Hi, <- Hi'. congruence.
Qed.

(** No command stored before the loop comes to [m] holds [m] or its
    inversion, when that is above [m]. *)
Lemma new_indices_free (p : nat) (symmIn m : Z) (y : SWAP) :
  1 <= m < 2 ^ Z.of_nat p -> m < bitrev p m ->
  rec_ok p symmIn m y ->
  ~ holds y m /\ ~ holds y (bitrev p m).
Proof.
  intros Hm Hlt (H1 & H2 & (H3 & _)).
  assert (Hi : bitrev p (swap_mr y) = swap_m y)
    by (rewrite H2; apply bitrev_involutive; lia).
  split; intros [E|E].
  - lia.
  - rewrite E in Hi. lia.
  - lia.
  - assert (swap_m y = m); [|lia].
    apply (bitrev_inj p); lia.
Qed.

Lemma holds_writes (y : SWAP) (x : Z) : In x (record_writes y) <-> holds y x.
Proof.
  unfold record_writes, holds. cbn [In]. split.
  - intros [H|[H|[]]]; auto.
  - intros [H|H]; auto.
Qed.

Lemma quot_pow2_half (p : nat) : Z.quot (2 ^ Z.of_nat (S p)) 2 = 2 ^ Z.of_nat p.
Proof. apply quot2_pow2. Qed.

Lemma pow2_S (p : nat) : 2 ^ Z.of_nat (S p) = 2 * 2 ^ Z.of_nat p.
Proof. rewrite Nat2Z.inj_succ, Z.pow_succ_r by lia. reflexivity. Qed.

(** Each index is held at one place of the list at most. *)
Lemma holder_position (p : nat) (symmIn m : Z) (L : list SWAP) :
  m <= 2 ^ Z.of_nat p ->
  Forall (rec_ok p symmIn m) L -> NoDup (map swap_m L) ->
  forall s i j, 0 <= i < Z.of_nat (List.length L) -> 0 <= j < Z.of_nat (List.length L) ->
                holds (sget L i) s -> holds (sget L j) s -> i = j.
Proof.
  intros Hm Hok Hnd s i j Hi Hj Hhi Hhj.
  rewrite Forall_forall in Hok.
  assert (Ii : In (sget L i) L) by (apply nth_In; lia).
  assert (Ij : In (sget L j) L) by (apply nth_In; lia).
  pose proof (same_holder p symmIn m _ _ s Hm (Hok _ Ii) (Hok _ Ij) Hhi Hhj) as E.
  rewrite (NoDup_nth (map swap_m L) 0) in Hnd.
  assert (Z.to_nat i = Z.to_nat j); [|lia].
  apply Hnd; rewrite ?length_map; try lia.
  change 0 with (swap_m (swap_cell0 0)). rewrite !map_nth. exact E.
Qed.

(** The first command, the one for [m = 1], holds no mirror source of a
    later command. *)
Lemma head_holds_no_mirror (p : nat) (symmIn m : Z) (r0 : SWAP) (s : Z) :
  1 <= m < 2 ^ Z.of_nat (S p) -> m < bitrev (S p) m ->
  rec_ok (S p) symmIn m r0 -> swap_m r0 = 1 ->
  In s (mirror_sources (2 ^ Z.of_nat (S p)) m (bitrev (S p) m)) ->
  ~ holds r0 s.
Proof.
  intros Hm Hlt (_ & Hmr & _) H1 Hin.
  rewrite H1, bitrev_one in Hmr.
  pose proof (bitrev_range (S p) m) as Hr.
  assert (Hpos : 0 < 2 ^ Z.of_nat p) by (apply Z.pow_pos_nonneg; lia).
  pose proof (pow2_S p) as Hn.
  unfold mirror_sources in Hin. rewrite quot_pow2_half in Hin.
  assert (Hones : bitrev (S p) (2 ^ Z.of_nat (S p) - 1) = 2 ^ Z.of_nat (S p) - 1)
    by apply bitrev_ones.
  apply in_app_or in Hin. destruct Hin as [Hin|Hin].
  - destruct (Z.gtb_spec m (2 ^ Z.of_nat p)) as [Hu|Hu]; [|contradiction].
    destruct Hin as [<-|[]]. intros [E|E]; [|lia].
    assert (m = 2 ^ Z.of_nat (S p) - 1) by lia. subst m. lia.
  - destruct (Z.gtb_spec (bitrev (S p) m) (2 ^ Z.of_nat p)) as [Hu|Hu]; [|contradiction].
    destruct Hin as [<-|[]]. intros [E|E]; [|lia].
    assert (E' : bitrev (S p) m = 2 ^ Z.of_nat (S p) - 1) by lia.
    assert (m = 2 ^ Z.of_nat (S p) - 1); [|lia].
    apply (bitrev_inj (S p)); lia.
Qed.

(** No command already stored reads a cell that the new command for [m]
    writes. *)
Lemma stored_reads_clear_of_new (p : nat) (symmIn m : Z) (X y : SWAP) :
  1 <= m < 2 ^ Z.of_nat (S p) -> m < bitrev (S p) m ->
  swap_m X = m -> swap_mr X = bitrev (S p) m ->
  ~ (m <= 2 ^ Z.of_nat p /\ bitrev (S p) m <= 2 ^ Z.of_nat p) ->
  rec_ok (S p) symmIn m y ->
  read_clear X y.
Proof.
  intros Hm Hlt HXm HXmr Hnot Hy x Hx Hw.
  apply holds_writes in Hw. unfold holds in Hw. rewrite HXm, HXmr in Hw.
  destruct (new_indices_free (S p) symmIn m y Hm Hlt Hy) as [Hfm Hfmr].
  destruct Hy as (Hym & Hymr & (Hyord & Hshape)).
  rewrite quot_pow2_half in Hshape.
  pose proof (pow2_S p) as Hn.
  assert (Hpos : 0 < 2 ^ Z.of_nat p) by (apply Z.pow_pos_nonneg; lia).
  pose proof (bitrev_range (S p) m) as Hr.
  assert (Hown : forall x', holds y x' -> x' <> m /\ x' <> bitrev (S p) m).
  { intros x' Hh. split; intros ->; auto. }
  unfold record_reads in Hx.
  destruct Hshape as [(Hf & _)|(Hf & _ & _ & Hmn & Hmrn)]; rewrite Hf in Hx;
    cbn [truthy Z.eqb negb In] in Hx.
  - (* a plain command reads its own cells *)
    destruct Hx as [<-|[<-|[]]].
    + destruct (Hown (swap_m y) (or_introl eq_refl)). destruct Hw; congruence.
    + destruct (Hown (swap_mr y) (or_intror eq_refl)). destruct Hw; congruence.
  - destruct Hx as [<-|[<-|[]]].
    + rewrite Hmn in Hw.
      destruct (Z.gtb_spec (swap_m y) (2 ^ Z.of_nat p)).
      * (* the mirror of an upper m: the new command is above the half *)
        destruct Hw; lia.
      * destruct (Hown (swap_m y) (or_introl eq_refl)). destruct Hw; congruence.
    + rewrite Hmrn in Hw.
      destruct (Z.gtb_spec (swap_mr y) (2 ^ Z.of_nat p)) as [Hu|Hu].
      * destruct Hw as [E|E]; [|lia].
        (* mr of y is n - m with m below the half: m is odd, so is n - m,
           and the m of y would be above the half *)
        assert (Hml : m <= 2 ^ Z.of_nat p) by lia.
        assert (Hmodd : m mod 2 = 1) by (apply (bitrev_top p); lia).
        assert (Hyodd : swap_mr y mod 2 = 1).
        { replace (swap_mr y) with (m + (2 ^ Z.of_nat p - m) * 2) by lia.
          rewrite Z.mod_add by lia. exact Hmodd. }
        apply (bitrev_top p) in Hyodd.
        rewrite Hymr, bitrev_involutive in Hyodd by lia. lia.
      * destruct (Hown (swap_mr y) (or_intror eq_refl)). destruct Hw; congruence.
Qed.

Lemma rec_ok_weaken (p : nat) (symmIn m m' : Z) (r : SWAP) :
  m <= m' -> rec_ok p symmIn m r -> rec_ok p symmIn m' r.
Proof. intros H (H1 & H2 & H3). repeat split; try assumption; try lia; apply H3. Qed.

(** Where [plan_insert] puts the command for [m], under [symmIn]: the list
    is cut in two, no command before the cut is read against by the new
    one, and none after the cut reads what the new one writes. *)
Lemma plan_insert_place (p : nat) (symmIn m : Z) (L : list SWAP) :
  truthy symmIn = true ->
  1 <= m < 2 ^ Z.of_nat (S p) -> m < bitrev (S p) m ->
  plan_inv (S p) symmIn m L ->
  exists L1 L2 X,
    L = L1 ++ L2 /\
    plan_insert (2 ^ Z.of_nat (S p)) symmIn m (bitrev (S p) m) L = L1 ++ X :: L2 /\
    (L1 = [] -> L2 = []) /\
    rec_ok (S p) symmIn (m + 1) X /\ swap_m X = m /\
    (forall y, In y L1 -> read_clear y X) /\
    (forall y, In y L2 -> read_clear X y).
Proof.
  intros Hs Hm Hlt [Hok Hcomplete Hsafe Hhead Hnd].
  pose proof (bitrev_range (S p) m) as Hrange.
  set (n := 2 ^ Z.of_nat (S p)) in *. set (mr := bitrev (S p) m) in *.
  pose proof (quot_pow2_half p) as Hh. fold n in Hh.
  assert (Hfree : forall y, In y L -> ~ holds y m /\ ~ holds y mr).
  { intros y Hy. rewrite Forall_forall in Hok.
    apply (new_indices_free (S p) symmIn m y Hm Hlt (Hok y Hy)). }
  destruct ((m <=? Z.quot n 2) && (mr <=? Z.quot n 2)) eqn:Hll.
  - (* both in the lower half: a plain command, appended *)
    exists L, [], (mkSWAP m mr 0 0 0).
    split; [now rewrite app_nil_r|].
    split; [unfold plan_insert; fold n mr; rewrite Hs, Hll; reflexivity|].
    split; [reflexivity|].
    apply andb_true_iff in Hll. destruct Hll as [H1 H2].
    apply Z.leb_le in H1. apply Z.leb_le in H2.
    split.
    { split; [cbn [swap_m swap_mr]; lia|]. split; [reflexivity|]. split; [cbn [swap_m swap_mr]; lia|].
      left. cbn [swap_m swap_mr swap_m_new swap_mr_new swap_symmIn]. repeat split; auto. }
    split; [reflexivity|].
    split; [|intros y []].
    intros y Hy x Hx Hw. apply holds_writes in Hw.
    destruct (Hfree y Hy) as [F1 F2].
    unfold record_reads in Hx. cbn [swap_symmIn truthy Z.eqb negb swap_m swap_mr In] in Hx.
    destruct Hx as [<-|[<-|[]]]; auto.
  - (* a command that uses the symmetry *)
    assert (Hnot : ~ (m <= 2 ^ Z.of_nat p /\ mr <= 2 ^ Z.of_nat p)).
    { intros [H1 H2]. rewrite Hh in Hll.
      apply Z.leb_le in H1. apply Z.leb_le in H2. rewrite H1, H2 in Hll. discriminate. }
    destruct (plan_insert_symm_split n symmIn m mr L Hs Hll) as (L1 & L2 & HL & HI & Hne & Hmir).
    + apply (holder_position (S p) symmIn m); try assumption. lia.
    + intros s Hin HLne. destruct L as [|r0 L']; [congruence|].
      change (sget (r0 :: L') 0) with r0.
      apply (head_holds_no_mirror p symmIn m r0 s Hm Hlt).
      * inversion Hok; assumption.
      * apply Hhead. reflexivity.
      * exact Hin.
    + exists L1, L2, (mkSWAP m mr (if m >? Z.quot n 2 then n - m else m)
                                    (if mr >? Z.quot n 2 then n - mr else mr) 1).
      split; [exact HL|]. split; [exact HI|]. split; [exact Hne|].
      split.
      { split; [cbn [swap_m swap_mr]; lia|]. split; [reflexivity|]. split; [cbn [swap_m swap_mr]; lia|].
        right. cbn [swap_m swap_mr swap_m_new swap_mr_new swap_symmIn].
        change (2 ^ Z.of_nat (S p)) with n. rewrite Hh. repeat split; auto. }
      split; [reflexivity|].
      split.
      * intros y Hy x Hx Hw. apply holds_writes in Hw.
        assert (HyL : In y L) by (rewrite HL; apply in_or_app; now left).
        destruct (Hfree y HyL) as [F1 F2].
        unfold record_reads in Hx.
        cbn [swap_symmIn truthy Z.eqb negb swap_m_new swap_mr_new In] in Hx.
        destruct Hx as [<-|[<-|[]]].
        -- destruct (m >? Z.quot n 2) eqn:E; [|auto].
           apply (Hmir y (n - m) Hy); [|exact Hw].
           unfold mirror_sources. rewrite E. apply in_or_app. left. now left.
        -- destruct (mr >? Z.quot n 2) eqn:E; [|auto].
           apply (Hmir y (n - mr) Hy); [|exact Hw].
           unfold mirror_sources. rewrite E. apply in_or_app. right. now left.
      * intros y Hy.
        assert (HyL : In y L) by (rewrite HL; apply in_or_app; now right).
        rewrite Forall_forall in Hok.
        apply (stored_reads_clear_of_new p symmIn m _ y Hm Hlt);
          [reflexivity|reflexivity|exact Hnot|apply Hok; exact HyL].
Qed.

(** One turn of the loop keeps what holds of the list. *)
Lemma plan_inv_step (p : nat) (symmIn m : Z) (L : list SWAP) :
  truthy symmIn = true ->
  1 <= m < 2 ^ Z.of_nat (S p) ->
  plan_inv (S p) symmIn m L ->
  plan_inv (S p) symmIn (m + 1)
    (if bitrev (S p) m >? m
     then plan_insert (2 ^ Z.of_nat (S p)) symmIn m (bitrev (S p) m) L else L).
Proof.
  intros Hs Hm HI.
  destruct (Z.gtb_spec (bitrev (S p) m) m) as [Hlt|Hge].
  - destruct (plan_insert_place p symmIn m L Hs Hm Hlt HI)
      as (L1 & L2 & X & HL & Hins & Hne & HX & HXm & HA & HB).
    destruct HI as [Hok Hcomplete Hsafe Hhead Hnd].
    rewrite Hins. subst L. constructor.
    + apply Forall_forall. intros y Hy. apply In_insert in Hy.
      destruct Hy as [->|Hy]; [exact HX|].
      rewrite Forall_forall in Hok. apply (rec_ok_weaken _ _ m); [lia|auto].
    + intros m' Hm' Hlt'. destruct (Z.eq_dec m' m) as [->|Hne'].
      * exists X. split; [apply In_insert; now left|exact HXm].
      * destruct (Hcomplete m' ltac:(lia) Hlt') as (r & Hr & E).
        exists r. split; [apply In_insert; now right|exact E].
    + apply FOP_insert; assumption.
    + intros r Hr. destruct L1 as [|a L1].
      * rewrite (Hne eq_refl) in *. cbn in Hr. injection Hr as <-.
        rewrite HXm. destruct (Z.eq_dec m 1) as [E|E]; [exact E|]. exfalso.
        (* there would have been a command for m = 1 *)
        pose proof (bitrev_range (S p) m) as Hr.
        destruct p as [|p].
        { change (2 ^ Z.of_nat 1) with 2 in *. lia. }
        destruct (Hcomplete 1 ltac:(lia)) as (r & [] & _).
        rewrite bitrev_one.
        assert (2 ^ 1 <= 2 ^ Z.of_nat (S p)) by (apply Z.pow_le_mono_r; lia).
        change (2 ^ 1) with 2 in *. lia.
      * cbn in Hr. apply Hhead. exact Hr.
    + rewrite map_app. cbn [map]. apply NoDup_insert.
      * rewrite <- map_app. exact Hnd.
      * rewrite <- map_app, HXm. intros Hin. apply in_map_iff in Hin.
        destruct Hin as (y & E & Hy). rewrite Forall_forall in Hok.
        destruct (Hok y Hy) as (Hlt' & _). lia.
  - destruct HI as [Hok Hcomplete Hsafe Hhead Hnd]. constructor; try assumption.
    + apply Forall_forall. intros y Hy. rewrite Forall_forall in Hok.
      apply (rec_ok_weaken _ _ m); [lia|auto].
    + intros m' Hm' Hlt'. destruct (Z.eq_dec m' m) as [->|Hne']; [lia|].
      apply Hcomplete; [lia|exact Hlt'].
Qed.

Lemma plan_fold_snoc (p : nat) (symmIn : Z) (ms : list Z) (m : Z) (L : list SWAP) :
  plan_fold p symmIn (ms ++ [m]) L
  = (if bitrev p m >? m
     then plan_insert (2 ^ Z.of_nat p) symmIn m (bitrev p m) (plan_fold p symmIn ms L)
     else plan_fold p symmIn ms L).
Proof. unfold plan_fold. rewrite fold_left_app. reflexivity. Qed.

Lemma plan_inv_fold (p : nat) (symmIn : Z) (turns : nat) :
  truthy symmIn = true ->
  1 + Z.of_nat turns <= 2 ^ Z.of_nat (S p) ->
  plan_inv (S p) symmIn (1 + Z.of_nat turns)
    (plan_fold (S p) symmIn (zrange 1 (1 + Z.of_nat turns)) []).
Proof.
  intros Hs. induction turns as [|turns IH]; intros Hle.
  - cbn. constructor.
    + constructor.
    + intros m' Hm'. lia.
    + constructor.
    + intros r Hr. discriminate.
    + constructor.
  - replace (1 + Z.of_nat (S turns)) with (1 + Z.of_nat turns + 1) by lia.
    rewrite zrange_snoc by lia. rewrite plan_fold_snoc.
    apply plan_inv_step; [exact Hs|lia|]. apply IH. lia.
Qed.

(** What holds of the commands of the planner under [symmIn]. *)
Lemma planner_inv (p : nat) (symmIn junk : Z) :
  truthy symmIn = true ->
  exists st,
    planner (2 ^ Z.of_nat (S p)) symmIn junk = Some st /\
    plan_inv (S p) symmIn (2 ^ Z.of_nat (S p)) (records st) /\
    pl_nSwap st = Z.of_nat (List.length (records st)) /\
    pl_swap st = records st ++
                 repeat (swap_cell0 junk)
                   (Z.to_nat (2 ^ Z.of_nat (S p)) - List.length (records st)).
Proof.
  intros Hs.
  destruct (planner_pow2 (S p) symmIn junk) as (st & Hst & Hrec & HnSwap & Hswap).
  exists st. split; [exact Hst|]. split; [|split; assumption].
  rewrite Hrec.
  assert (Hpos : 0 < 2 ^ Z.of_nat (S p)) by (apply Z.pow_pos_nonneg; lia).
  pose proof (plan_inv_fold p symmIn (Z.to_nat (2 ^ Z.of_nat (S p) - 1)) Hs ltac:(lia)) as H.
  replace (1 + Z.of_nat (Z.to_nat (2 ^ Z.of_nat (S p) - 1))) with (2 ^ Z.of_nat (S p)) in H
    by lia.
  exact H.
Qed.

(** ** What the commands do under the input symmetry *)

Lemma run_swap_symm (n realIn : Z) (r : SWAP) (s : memory) :
  swap_symmIn r = 1 ->
  swap_m r <> swap_mr r -> swap_mr_new r <> swap_mr r ->
  let s' := run_perm (emit_swap n realIn r) s in
  (forall i,
      xr s' i = if i =? swap_m r then xr s (swap_mr_new r)
                else if i =? swap_mr r then xr s (swap_m_new r) else xr s i) /\
  (truthy realIn = true -> forall i, xi s' i = xi s i) /\
  (truthy realIn = false ->
   forall i,
     xi s' i = if i =? swap_m r
               then (if swap_mr r <=? Z.quot n 2
                     then xi s (swap_mr_new r) else - xi s (swap_mr_new r))%R
               else if i =? swap_mr r
               then (if swap_m r <=? Z.quot n 2
                     then xi s (swap_m_new r) else - xi s (swap_m_new r))%R
               else xi s i).
Proof.
  intros Hf Hne Hne'. unfold emit_swap. rewrite Hf. cbn [truthy Z.eqb negb].
  assert (Hself : forall a : Z -> R, fupd a (swap_mr r) (a (swap_m_new r)) (swap_mr_new r)
                                     = a (swap_mr_new r)).
  { intros a. unfold fupd.
    destruct (Z.eqb_spec (swap_mr_new r) (swap_mr r)); [contradiction|reflexivity]. }
  destruct (truthy realIn) eqn:Hreal; cbn [negb app run_perm fold_left exec_perm xr xi].
  - split; [|split; [reflexivity|discriminate]].
    intros i. rewrite Hself. unfold fupd.
    destruct (Z.eqb_spec i (swap_m r)); [reflexivity|]. reflexivity.
  - split; [|split; [discriminate|intros _]].
    + intros i.
      destruct (swap_m r <=? Z.quot n 2), (swap_mr r <=? Z.quot n 2);
        cbn [exec_perm xr xi]; rewrite Hself; unfold fupd;
        destruct (Z.eqb_spec i (swap_m r)); reflexivity.
    + intros i.
      destruct (swap_m r <=? Z.quot n 2), (swap_mr r <=? Z.quot n 2);
        cbn [exec_perm xr xi]; unfold fupd;
        destruct (Z.eqb_spec i (swap_m r)); try reflexivity;
        destruct (Z.eqb_spec (swap_mr_new r) (swap_mr r)); try contradiction; reflexivity.
Qed.

Lemma run_swap_flag0 (n realIn : Z) (r : SWAP) (s : memory) :
  swap_symmIn r = 0 ->
  swap_m r <> swap_mr r ->
  let s' := run_perm (emit_swap n realIn r) s in
  (forall i,
      xr s' i = if i =? swap_m r then xr s (swap_mr r)
                else if i =? swap_mr r then xr s (swap_m r) else xr s i) /\
  (truthy realIn = true -> forall i, xi s' i = xi s i) /\
  (truthy realIn = false ->
   forall i,
     xi s' i = if i =? swap_m r then xi s (swap_mr r)
               else if i =? swap_mr r then xi s (swap_m r) else xi s i).
Proof.
  intros Hf Hne. unfold emit_swap. rewrite Hf. cbn [truthy Z.eqb negb].
  destruct (truthy realIn) eqn:Hreal; cbn [negb app run_perm fold_left exec_perm xr xi tr ti].
  - split; [|split; [reflexivity|discriminate]].
    intros i. unfold fupd.
    destruct (Z.eqb_spec i (swap_mr r)) as [->|]; [|reflexivity].
    destruct (Z.eqb_spec (swap_mr r) (swap_m r)); [congruence|reflexivity].
  - split; [|split; [discriminate|intros _]]; intros i; unfold fupd;
      (destruct (Z.eqb_spec i (swap_mr r)) as [->|]; [|reflexivity]);
      (destruct (Z.eqb_spec (swap_mr r) (swap_m r)); [congruence|reflexivity]).
Qed.

Lemma hermitian_fill_lower (n : Z) (s : memory) (i : Z) :
  i <= Z.quot n 2 ->
  xr (hermitian_fill n s) i = xr s i /\ xi (hermitian_fill n s) i = xi s i.
Proof.
  intros H. cbn [hermitian_fill xr xi].
  replace (Z.quot n 2 <? i) with false by (symmetry; apply Z.ltb_ge; lia).
  split; reflexivity.
Qed.

Lemma hermitian_fill_upper (n : Z) (s : memory) (i : Z) :
  Z.quot n 2 < i < n ->
  xr (hermitian_fill n s) i = xr s (n - i) /\
  xi (hermitian_fill n s) i = (- xi s (n - i))%R.
Proof.
  intros H. cbn [hermitian_fill xr xi].
  replace (Z.quot n 2 <? i) with true by (symmetry; apply Z.ltb_lt; lia).
  replace (i <? n) with true by (symmetry; apply Z.ltb_lt; lia).
  split; reflexivity.
Qed.

(** One command, run on arrays that still hold the input where it reads,
    puts the symmetric completion of the input at [mr] into [m] and that
    at [m] into [mr]. *)
Lemma run_record_hermitian (p : nat) (symmIn realIn : Z) (r : SWAP) (s s0 : memory) :
  truthy symmIn = true ->
  rec_ok (S p) symmIn (2 ^ Z.of_nat (S p)) r ->
  (forall x, In x (record_reads r) -> xr s x = xr s0 x /\ xi s x = xi s0 x) ->
  let n := 2 ^ Z.of_nat (S p) in
  let s' := run_perm (emit_swap n realIn r) s in
  let H := hermitian_fill n s0 in
  xr s' (swap_m r) = xr H (swap_mr r) /\
  xr s' (swap_mr r) = xr H (swap_m r) /\
  (forall i, ~ holds r i -> xr s' i = xr s i /\ xi s' i = xi s i) /\
  (truthy realIn = true -> forall i, xi s' i = xi s i) /\
  (truthy realIn = false ->
   xi s' (swap_m r) = xi H (swap_mr r) /\ xi s' (swap_mr r) = xi H (swap_m r)).
Proof.
  intros Hs (Hlt & Hmr & (Hord & Hshape)) Hreads. cbv zeta.
  set (n := 2 ^ Z.of_nat (S p)) in *.
  pose proof (quot_pow2_half p) as Hh. fold n in Hh.
  pose proof (pow2_S p) as Hn. fold n in Hn.
  pose proof (bitrev_range (S p) (swap_m r)) as Hr. fold n in Hr. rewrite <- Hmr in Hr.
  assert (Hpos : 0 < 2 ^ Z.of_nat p) by (apply Z.pow_pos_nonneg; lia).
  unfold record_reads in Hreads.
  destruct Hshape as [(Hf & _ & _ & Hlow)|(Hf & _ & Hnot & Hmn & Hmrn)].
  - (* a plain command in the lower half *)
    destruct (Hlow Hs) as [Hl1 Hl2].
    rewrite Hf in Hreads. cbn [truthy Z.eqb negb] in Hreads.
    destruct (Hreads (swap_m r) (or_introl eq_refl)) as [Rm Im].
    destruct (Hreads (swap_mr r) (or_intror (or_introl eq_refl))) as [Rmr Imr].
    destruct (run_swap_flag0 n realIn r s Hf ltac:(lia)) as (Hxr & Hxi1 & Hxi0).
    destruct (hermitian_fill_lower n s0 (swap_m r) Hl1) as [HRm HIm].
    destruct (hermitian_fill_lower n s0 (swap_mr r) Hl2) as [HRmr HImr].
    assert (Hother : forall i, ~ holds r i -> (i =? swap_m r) = false /\ (i =? swap_mr r) = false).
    { intros i Hi. split; apply Z.eqb_neq; intros ->; apply Hi; [left|right]; reflexivity. }
    split; [rewrite Hxr, Z.eqb_refl; congruence|].
    split.
    { rewrite Hxr. replace (swap_mr r =? swap_m r) with false
        by (symmetry; apply Z.eqb_neq; lia). rewrite Z.eqb_refl. congruence. }
    split.
    { intros i Hi. destruct (Hother i Hi) as [E1 E2]. rewrite Hxr, E1, E2.
      split; [reflexivity|].
      destruct (truthy realIn) eqn:Hreal; [now apply Hxi1|].
      rewrite (Hxi0 eq_refl), E1, E2. reflexivity. }
    split; [exact Hxi1|].
    intros Hreal. rewrite !(Hxi0 Hreal), Z.eqb_refl.
    replace (swap_mr r =? swap_m r) with false by (symmetry; apply Z.eqb_neq; lia).
    rewrite Z.eqb_refl. split; congruence.
  - (* a command that uses the symmetry: mr is in the upper half *)
    rewrite Hh in Hnot, Hmn, Hmrn.
    assert (Hup : 2 ^ Z.of_nat p < swap_mr r) by lia.
    replace (swap_mr r >? 2 ^ Z.of_nat p) with true in Hmrn
      by (symmetry; apply Z.gtb_lt; lia).
    rewrite Hf in Hreads. cbn [truthy Z.eqb negb] in Hreads.
    destruct (Hreads (swap_m_new r) (or_introl eq_refl)) as [Rm Im].
    destruct (Hreads (swap_mr_new r) (or_intror (or_introl eq_refl))) as [Rmr Imr].
    destruct (run_swap_symm n realIn r s Hf ltac:(lia) ltac:(lia)) as (Hxr & Hxi1 & Hxi0).
    destruct (hermitian_fill_upper n s0 (swap_mr r) ltac:(lia)) as [HRmr HImr].
    assert (HHm : xr (hermitian_fill n s0) (swap_m r) = xr s0 (swap_m_new r) /\
                  xi (hermitian_fill n s0) (swap_m r)
                  = if swap_m r <=? Z.quot n 2
                    then xi s0 (swap_m_new r) else (- xi s0 (swap_m_new r))%R).
    { rewrite Hh, Hmn. destruct (Z.gtb_spec (swap_m r) (2 ^ Z.of_nat p)) as [Hu|Hl].
      - replace (swap_m r <=? 2 ^ Z.of_nat p) with false by (symmetry; apply Z.leb_gt; lia).
        apply hermitian_fill_upper. lia.
      - replace (swap_m r <=? 2 ^ Z.of_nat p) with true by (symmetry; apply Z.leb_le; lia).
        apply hermitian_fill_lower. lia. }
    destruct HHm as [HRm HIm].
    assert (Hother : forall i, ~ holds r i -> (i =? swap_m r) = false /\ (i =? swap_mr r) = false).
    { intros i Hi. split; apply Z.eqb_neq; intros ->; apply Hi; [left|right]; reflexivity. }
    split; [rewrite Hxr, Z.eqb_refl, HRmr, Rmr, Hmrn; reflexivity|].
    split.
    { rewrite Hxr. replace (swap_mr r =? swap_m r) with false
        by (symmetry; apply Z.eqb_neq; lia). rewrite Z.eqb_refl. congruence. }
    split.
    { intros i Hi. destruct (Hother i Hi) as [E1 E2]. rewrite Hxr, E1, E2.
      split; [reflexivity|].
      destruct (truthy realIn) eqn:Hreal; [now apply Hxi1|].
      rewrite (Hxi0 eq_refl), E1, E2. reflexivity. }
    split; [exact Hxi1|].
    intros Hreal. rewrite !(Hxi0 Hreal), Z.eqb_refl.
    replace (swap_mr r =? swap_m r) with false by (symmetry; apply Z.eqb_neq; lia).
    rewrite Z.eqb_refl.
    replace (swap_mr r <=? Z.quot n 2) with false
      by (symmetry; apply Z.leb_gt; rewrite Hh; lia).
    split.
    + rewrite HImr, Imr, Hmrn. reflexivity.
    + rewrite HIm, Im. reflexivity.
Qed.

(** Every cell a command reads is in the lower half. *)
Lemma reads_lower (p : nat) (symmIn m : Z) (r : SWAP) (x : Z) :
  truthy symmIn = true -> m <= 2 ^ Z.of_nat (S p) ->
  rec_ok (S p) symmIn m r ->
  In x (record_reads r) -> 0 <= x <= 2 ^ Z.of_nat p.
Proof.
  intros Hs Hm (Hlt & Hmr & (Hord & Hshape)) Hin.
  pose proof (quot_pow2_half p) as Hh. pose proof (pow2_S p) as Hn.
  unfold record_reads in Hin.
  destruct Hshape as [(Hf & _ & _ & Hlow)|(Hf & _ & Hnot & Hmn & Hmrn)];
    rewrite Hf in Hin; cbn [truthy Z.eqb negb In] in Hin.
  - destruct (Hlow Hs) as [Hl1 Hl2]. rewrite Hh in Hl1, Hl2.
    destruct Hin as [<-|[<-|[]]]; lia.
  - rewrite Hh in Hmn, Hmrn.
    pose proof (bitrev_range (S p) (swap_m r)) as Hr. rewrite <- Hmr in Hr.
    destruct (Z.gtb_spec (swap_m r) (2 ^ Z.of_nat p));
      destruct (Z.gtb_spec (swap_mr r) (2 ^ Z.of_nat p));
      destruct Hin as [<-|[<-|[]]]; lia.
Qed.

(** A command holds two indices that the inversion of the bits exchanges. *)
Lemma holds_bitrev (p : nat) (symmIn m : Z) (r : SWAP) (i : Z) :
  m <= 2 ^ Z.of_nat p -> rec_ok p symmIn m r -> holds r i ->
  bitrev p i <> i /\ 0 <= i < 2 ^ Z.of_nat p /\
  ((i = swap_m r /\ bitrev p i = swap_mr r) \/
   (i = swap_mr r /\ bitrev p i = swap_m r)).
Proof.
  intros Hm (Hlt & Hmr & (Hord & _)) Hh.
  pose proof (bitrev_range p (swap_m r)) as Hr. rewrite <- Hmr in Hr.
  assert (Hi : bitrev p (swap_mr r) = swap_m r)
    by (rewrite Hmr; apply bitrev_involutive; lia).
  destruct Hh as [<-|<-].
  - split; [lia|]. split; [lia|]. left. split; [reflexivity|now symmetry].
  - split; [lia|]. split; [lia|]. right. split; [reflexivity|exact Hi].
Qed.

(** The commands of a safe list, run in order on arrays that hold the input
    where they read: every cell a command holds ends with the symmetric
    completion of the input at the inversion of its index, every other cell
    is left alone. *)
Lemma run_records (p : nat) (symmIn realIn : Z) (s0 : memory) :
  truthy symmIn = true ->
  forall (L : list SWAP) (s : memory),
    Forall (rec_ok (S p) symmIn (2 ^ Z.of_nat (S p))) L ->
    safe_order L -> NoDup (map swap_m L) ->
    (forall r x, In r L -> In x (record_reads r) ->
                 xr s x = xr s0 x /\ xi s x = xi s0 x) ->
    let n := 2 ^ Z.of_nat (S p) in
    let s' := run_perm (flat_map (emit_swap n realIn) L) s in
    let H := hermitian_fill n s0 in
    forall i,
      ((forall r, In r L -> ~ holds r i) -> xr s' i = xr s i /\ xi s' i = xi s i) /\
      (forall r, In r L -> holds r i ->
         xr s' i = xr H (bitrev (S p) i) /\
         (truthy realIn = false -> xi s' i = xi H (bitrev (S p) i)) /\
         (truthy realIn = true -> xi s' i = xi s i)).
Proof.
  intros Hs. induction L as [|r L IH]; intros s Hok Hsafe Hnd Hreads; cbv zeta.
  - intros i. split; [intros _; split; reflexivity|intros r []].
  - cbn [flat_map]. rewrite run_perm_app.
    apply Forall_cons_iff in Hok. destruct Hok as [Hr Hok].
    inversion Hsafe as [|r' L' Hclear Hsafe']; subst r' L'.
    cbn [map] in Hnd. apply NoDup_cons_iff in Hnd. destruct Hnd as [Hnotin Hnd].
    set (n := 2 ^ Z.of_nat (S p)) in *.
    set (s1 := run_perm (emit_swap n realIn r) s).
    pose proof (run_record_hermitian p symmIn realIn r s s0 Hs Hr
                  (fun x Hx => Hreads r x (or_introl eq_refl) Hx)) as Hrun.
    cbv zeta in Hrun. fold n in Hrun. fold s1 in Hrun.
    destruct Hrun as (Hm & Hmr & Hoth & Hreal1 & Hreal0).
    assert (Hreads1 : forall r' x, In r' L -> In x (record_reads r') ->
                                   xr s1 x = xr s0 x /\ xi s1 x = xi s0 x).
    { intros r' x Hr' Hx. rewrite Forall_forall in Hclear.
      pose proof (Hclear r' Hr' x Hx) as Hnw. rewrite holds_writes in Hnw.
      destruct (Hoth x Hnw) as [E1 E2]. rewrite E1, E2.
      apply (Hreads r' x); [now right|exact Hx]. }
    specialize (IH s1 Hok Hsafe' Hnd Hreads1). cbv zeta in IH. fold n in IH.
    assert (Hlater : forall i, holds r i -> forall r', In r' L -> ~ holds r' i).
    { intros i Hi r' Hr' Hi'. rewrite Forall_forall in Hok.
      pose proof (same_holder (S p) symmIn n r r' i ltac:(unfold n; lia) Hr
                    (Hok r' Hr') Hi Hi') as E.
      apply Hnotin. rewrite E. now apply in_map. }
    intros i. destruct (IH i) as [IH1 IH2]. split.
    + intros Hfree.
      destruct (IH1 (fun r' Hr' => Hfree r' (or_intror Hr'))) as [E1 E2].
      destruct (Hoth i (Hfree r (or_introl eq_refl))) as [E3 E4].
      split; congruence.
    + intros r' [<-|Hr'] Hi.
      * destruct (IH1 (Hlater i Hi)) as [E1 E2]. rewrite E1, E2.
        destruct (holds_bitrev (S p) symmIn n r i ltac:(unfold n; lia) Hr Hi)
          as (_ & _ & [[-> ->]|[-> ->]]).
        -- split; [exact Hm|].
           split; [intros Hf; apply (Hreal0 Hf)|intros Hf; apply (Hreal1 Hf)].
        -- split; [exact Hmr|].
           split; [intros Hf; apply (Hreal0 Hf)|intros Hf; apply (Hreal1 Hf)].
      * destruct (IH2 r' Hr' Hi) as (E1 & E2 & E3).
        split; [exact E1|]. split; [exact E2|].
        intros Hf. rewrite (E3 Hf). now apply Hreal1.
Qed.

(** ** The fill-ins *)

(** The scan for [i] from [ii] down ends below 0 exactly when none of the
    cells [0..ii] holds [i]. *)
Lemma scan_listed_spec (a : list SWAP) (i : Z) :
  forall (fuel : nat) (ii : Z),
    -1 <= ii -> ii + 1 <= Z.of_nat fuel ->
    ((scan_listed a i fuel ii <? 0) = true <->
     forall k, 0 <= k <= ii -> ~ holds (sget a k) i).
Proof.
  induction fuel as [|fuel IH]; intros ii Hlo Hhi; cbn [scan_listed].
  - assert (ii = -1) by lia. subst ii. split; [intros _ k Hk; lia|reflexivity].
  - destruct (Z.geb_spec ii 0) as [Hge|Hlt].
    + destruct ((swap_m (sget a ii) =? i) || (swap_mr (sget a ii) =? i)) eqn:E.
      * split.
        -- intros H. apply Z.ltb_lt in H. lia.
        -- intros H. exfalso. apply (H ii ltac:(lia)).
           apply orb_true_iff in E. destruct E as [E|E]; apply Z.eqb_eq in E;
             [left|right]; exact E.
      * apply orb_false_iff in E. destruct E as [E1 E2].
        apply Z.eqb_neq in E1, E2.
        rewrite (IH (ii - 1)) by lia. split.
        -- intros H k Hk. destruct (Z.eq_dec k ii) as [->|Hne].
           ++ intros [E|E]; contradiction.
           ++ apply H. lia.
        -- intros H k Hk. apply H. lia.
    + split; [intros _ k Hk; lia|intros _; apply Z.ltb_lt; lia].
Qed.

(** A fill-in is printed for [i] exactly when no command holds [i]. *)
Lemma fill_body_spec (n : Z) (L rest : list SWAP) (i : Z) :
  (fill_body n (Z.of_nat (List.length L)) (L ++ rest) i
   = [FillXr i (n - i); NegXi i (n - i)] /\
   forall r, In r L -> ~ holds r i)
  \/
  (fill_body n (Z.of_nat (List.length L)) (L ++ rest) i = [] /\
   exists r, In r L /\ holds r i).
Proof.
  unfold fill_body. cbv zeta.
  pose proof (scan_listed_spec (L ++ rest) i (Z.to_nat (Z.of_nat (List.length L)))
                (Z.of_nat (List.length L) - 1) ltac:(lia) ltac:(lia)) as Hspec.
  destruct (scan_listed (L ++ rest) i (Z.to_nat (Z.of_nat (List.length L)))
              (Z.of_nat (List.length L) - 1) <? 0) eqn:E.
  - left. split; [reflexivity|]. intros r Hr Hh.
    destruct (In_nth L r (swap_cell0 0) Hr) as (k & Hk & Hnth).
    apply (proj1 Hspec eq_refl (Z.of_nat k) ltac:(lia)).
    unfold sget. rewrite aget_app_l by lia.
    unfold aget. rewrite Nat2Z.id, Hnth. exact Hh.
  - right. split; [reflexivity|].
    assert (Hex : forall (c : nat),
               (Z.of_nat c <= Z.of_nat (List.length L)) ->
               (forall k, 0 <= k < Z.of_nat c -> ~ holds (sget (L ++ rest) k) i) \/
               exists k, 0 <= k < Z.of_nat c /\ holds (sget (L ++ rest) k) i).
    { induction c as [|c IHc]; intros Hc.
      - left. intros k Hk. lia.
      - destruct (IHc ltac:(lia)) as [Hnone|(k & Hk & Hh)].
        + destruct (Z.eq_dec (swap_m (sget (L ++ rest) (Z.of_nat c))) i) as [E1|E1].
          { right. exists (Z.of_nat c). split; [lia|left; exact E1]. }
          destruct (Z.eq_dec (swap_mr (sget (L ++ rest) (Z.of_nat c))) i) as [E2|E2].
          { right. exists (Z.of_nat c). split; [lia|right; exact E2]. }
          left. intros k Hk. destruct (Z.eq_dec k (Z.of_nat c)) as [->|Hne].
          * intros [H|H]; contradiction.
          * apply Hnone. lia.
        + right. exists k. split; [lia|exact Hh]. }
    destruct (Hex (List.length L) ltac:(lia)) as [Hnone|(k & Hk & Hh)].
    + assert (Hf : false = true); [|discriminate Hf].
      apply Hspec. intros k Hk. apply Hnone. lia.
    + exists (sget (L ++ rest) k). split; [|exact Hh].
      unfold sget. rewrite aget_app_l by lia. unfold aget. apply nth_In. lia.
Qed.

(** The fill-ins for the indices [js] of the upper half: each index that no
    command holds gets the conjugate of its mirror cell, every other cell is
    left alone. *)
Lemma run_fills (n : Z) (L rest : list SWAP) (js : list Z) :
  (forall j, In j js -> n < 2 * j) ->
  forall s : memory,
    let s' := run_perm
                (flat_map (fill_body n (Z.of_nat (List.length L)) (L ++ rest)) js) s in
    forall i,
      ((~ In i js \/ exists r, In r L /\ holds r i) ->
       xr s' i = xr s i /\ xi s' i = xi s i) /\
      (In i js -> (forall r, In r L -> ~ holds r i) ->
       xr s' i = xr s (n - i) /\ xi s' i = (- xi s (n - i))%R).
Proof.
  induction js as [|j js IH]; intros Hup s; cbv zeta.
  - intros i. split; [intros _; split; reflexivity|intros []].
  - cbn [flat_map]. rewrite run_perm_app.
    set (s1 := run_perm (fill_body n (Z.of_nat (List.length L)) (L ++ rest) j) s).
    assert (Hup' : forall j', In j' js -> n < 2 * j') by (intros j' Hj'; apply Hup; now right).
    pose proof (Hup j (or_introl eq_refl)) as Hj.
    specialize (IH Hup' s1). cbv zeta in IH.
    assert (Hs1 : forall i,
               (i <> j \/ (exists r, In r L /\ holds r i) ->
                xr s1 i = xr s i /\ xi s1 i = xi s i) /\
               (i = j -> (forall r, In r L -> ~ holds r i) ->
                xr s1 i = xr s (n - i) /\ xi s1 i = (- xi s (n - i))%R)).
    { intros i. unfold s1.
      destruct (fill_body_spec n L rest j) as [[E Hfree]|[E Hheld]]; rewrite E.
      - cbn [run_perm fold_left exec_perm xr xi]. unfold fupd. split.
        + intros [Hne|(r & Hr & Hh)].
          * replace (i =? j) with false by (symmetry; apply Z.eqb_neq; exact Hne).
            split; reflexivity.
          * destruct (Z.eqb_spec i j) as [->|Hne]; [|split; reflexivity].
            exfalso. exact (Hfree r Hr Hh).
        + intros -> _. rewrite Z.eqb_refl. split; reflexivity.
      - cbn [run_perm fold_left]. split; [intros _; split; reflexivity|].
        intros -> Hfree. destruct Hheld as (r & Hr & Hh). exfalso. exact (Hfree r Hr Hh). }
    intros i. destruct (IH i) as [IH1 IH2]. split.
    + intros Hcase.
      assert (Hc1 : ~ In i js \/ exists r, In r L /\ holds r i).
      { destruct Hcase as [Hn|Hh]; [left; intros Hin; apply Hn; now right|now right]. }
      assert (Hc2 : i <> j \/ exists r, In r L /\ holds r i).
      { destruct Hcase as [Hn|Hh]; [left; intros ->; apply Hn; now left|now right]. }
      destruct (IH1 Hc1) as [E1 E2]. destruct (proj1 (Hs1 i) Hc2) as [E3 E4].
      split; congruence.
    + intros Hin Hfree.
      destruct (in_dec Z.eq_dec i js) as [Hjs|Hjs].
      * destruct (IH2 Hjs Hfree) as [E1 E2]. rewrite E1, E2.
        pose proof (Hup' i Hjs) as Hi.
        assert (Hne : n - i <> j) by lia.
        destruct (proj1 (Hs1 (n - i)) (or_introl Hne)) as [E3 E4].
        rewrite E3, E4. split; reflexivity.
      * destruct Hin as [<-|Hin]; [|contradiction].
        destruct (IH1 (or_introl Hjs)) as [E1 E2]. rewrite E1, E2.
        apply (proj2 (Hs1 j) eq_refl Hfree).
Qed.

(** ** The permutation phase under the input symmetry *)

(** When the planner is through, the indices some command holds are those
    the inversion of the bits moves. *)
Lemma held_iff_moved (p : nat) (symmIn : Z) (L : list SWAP) (i : Z) :
  plan_inv p symmIn (2 ^ Z.of_nat p) L ->
  0 <= i < 2 ^ Z.of_nat p ->
  (bitrev p i <> i -> exists r, In r L /\ holds r i) /\
  (bitrev p i = i -> forall r, In r L -> ~ holds r i).
Proof.
  intros [Hok Hcomplete _ _ _] Hi.
  pose proof (bitrev_range p i) as Hr.
  pose proof (bitrev_involutive p i Hi) as Hinv.
  rewrite Forall_forall in Hok. split.
  - intros Hne.
    assert (H0 : i <> 0) by (intros ->; apply Hne; apply bitrev_0).
    assert (H0' : bitrev p i <> 0) by (intros E; rewrite E, bitrev_0 in Hinv; lia).
    destruct (Z_lt_le_dec i (bitrev p i)) as [Hlt|Hge].
    + destruct (Hcomplete i ltac:(lia) Hlt) as (r & Hr' & Hm).
      exists r. split; [exact Hr'|left; exact Hm].
    + destruct (Hcomplete (bitrev p i) ltac:(lia) ltac:(rewrite Hinv; lia))
        as (r & Hr' & Hm).
      exists r. split; [exact Hr'|]. right.
      destruct (Hok r Hr') as (_ & Hmr & _). rewrite Hmr, Hm. exact Hinv.
  - intros Hfix r Hr' Hh.
    destruct (holds_bitrev p symmIn _ r i (Z.le_refl _) (Hok r Hr') Hh) as (Hne & _).
    contradiction.
Qed.

(** The lines of the permutation phase under [symmIn], run on the input:
    every cell ends with the symmetric completion of the input at the
    inversion of its index.  Without the fill-ins this holds of the lower
    half and of every cell the inversion moves. *)
Lemma symm_perm_result (p : nat) (symmIn realIn : Z) (L rest : list SWAP) (s : memory) :
  truthy symmIn = true ->
  plan_inv (S p) symmIn (2 ^ Z.of_nat (S p)) L ->
  forall i, 0 <= i < 2 ^ Z.of_nat (S p) ->
    let n := 2 ^ Z.of_nat (S p) in
    let nSwap := Z.of_nat (List.length L) in
    let H := hermitian_fill n s in
    let a := run_perm (emit_fill n symmIn nSwap (L ++ rest)
                       ++ emit_swaps n realIn nSwap (L ++ rest)) s in
    let a0 := run_perm (emit_swaps n realIn nSwap (L ++ rest)) s in
    (xr a i = xr H (bitrev (S p) i) /\
     (truthy realIn = false -> xi a i = xi H (bitrev (S p) i)) /\
     (truthy realIn = true ->
      xi a i = if bitrev (S p) i =? i then xi H i else xi s i)) /\
    (i <= Z.quot n 2 \/ bitrev (S p) i <> i ->
     xr a0 i = xr H (bitrev (S p) i) /\
     (truthy realIn = false -> xi a0 i = xi H (bitrev (S p) i))).
Proof.
  intros Hs Hinv i Hi. cbv zeta.
  set (n := 2 ^ Z.of_nat (S p)) in *.
  pose proof (quot_pow2_half p) as Hh. fold n in Hh.
  pose proof (pow2_S p) as Hn. fold n in Hn.
  destruct (held_iff_moved (S p) symmIn L i Hinv Hi) as [Hmoved Hfixed].
  destruct Hinv as [Hok _ Hsafe _ Hnd].
  rewrite run_perm_app, emit_swaps_records.
  unfold emit_fill. rewrite Hs, Hh.
  set (js := zrange (2 ^ Z.of_nat p + 1) n).
  set (s1 := run_perm (flat_map (fill_body n (Z.of_nat (List.length L)) (L ++ rest)) js) s).
  assert (Hup : forall j, In j js -> n < 2 * j).
  { intros j Hj. apply zrange_In in Hj. lia. }
  pose proof (run_fills n L rest js Hup s) as Hfill. cbv zeta in Hfill. fold s1 in Hfill.
  assert (Hreads1 : forall r x, In r L -> In x (record_reads r) ->
                                xr s1 x = xr s x /\ xi s1 x = xi s x).
  { intros r x Hr Hx. rewrite Forall_forall in Hok.
    pose proof (reads_lower p symmIn n r x Hs (Z.le_refl _) (Hok r Hr) Hx) as Hlow.
    apply (proj1 (Hfill x)). left. intros Hin. apply zrange_In in Hin. lia. }
  pose proof (run_records p symmIn realIn s Hs L s1 Hok Hsafe Hnd Hreads1 i) as Hrun.
  pose proof (run_records p symmIn realIn s Hs L s Hok Hsafe Hnd
                (fun r x _ _ => conj eq_refl eq_refl) i) as Hrun0.
  cbv zeta in Hrun, Hrun0. fold n in Hrun, Hrun0.
  destruct Hrun as [Hfree Hheld]. destruct Hrun0 as [Hfree0 Hheld0].
  destruct (Z.eq_dec (bitrev (S p) i) i) as [E|E].
  - (* no command holds [i] *)
    specialize (Hfixed E). rewrite E, Z.eqb_refl.
    destruct (Hfree Hfixed) as [E1 E2]. destruct (Hfree0 Hfixed) as [E3 E4].
    rewrite E1, E2, E3, E4.
    assert (Hs1 : xr s1 i = xr (hermitian_fill n s) i /\
                  xi s1 i = xi (hermitian_fill n s) i).
    { destruct (Z_le_gt_dec i (2 ^ Z.of_nat p)) as [Hlo|Hhi].
      - destruct (hermitian_fill_lower n s i ltac:(lia)) as [-> ->].
        apply (proj1 (Hfill i)). left. intros Hin. apply zrange_In in Hin. lia.
      - destruct (hermitian_fill_upper n s i ltac:(lia)) as [-> ->].
        apply (proj2 (Hfill i)); [apply zrange_In; lia|exact Hfixed]. }
    destruct Hs1 as [-> ->].
    split; [split; [reflexivity|split; intros _; reflexivity]|].
    intros [Hlo|Hne]; [|contradiction].
    destruct (hermitian_fill_lower n s i ltac:(lia)) as [-> ->].
    split; [reflexivity|intros _; reflexivity].
  - (* the command that holds [i] *)
    destruct (Hmoved E) as (r & Hr & Hhold).
    destruct (Hheld r Hr Hhold) as (E1 & E2 & E3).
    destruct (Hheld0 r Hr Hhold) as (E4 & E5 & _).
    replace (bitrev (S p) i =? i) with false by (symmetry; apply Z.eqb_neq; exact E).
    split; [split; [exact E1|split; [exact E2|]]|intros _; split; [exact E4|exact E5]].
    intros Hreal. rewrite (E3 Hreal).
    apply (proj1 (Hfill i)). right. exists r. split; assumption.
Qed.

(** The swaps of the binary inversion by increasing [m], run on any arrays. *)
Lemma plain_pairs_result (p : nat) (realIn : Z) (s0 : memory) (i : Z) :
  0 <= i < 2 ^ Z.of_nat p ->
  let b := run_perm (flat_map (emit_swap (2 ^ Z.of_nat p) realIn) (bitrev_pairs p)) s0 in
  xr b i = xr s0 (bitrev p i) /\
  xi b i = if truthy realIn then xi s0 i else xi s0 (bitrev p i).
Proof.
  intros Hi. cbv zeta. unfold bitrev_pairs.
  pose proof (run_pairs_upto p realIn s0 (Z.to_nat (2 ^ Z.of_nat p - 1)) 1 s0
                ltac:(lia) ltac:(lia)) as H.
  replace (1 + Z.of_nat (Z.to_nat (2 ^ Z.of_nat p - 1))) with (2 ^ Z.of_nat p) in H by lia.
  cbv zeta in H.
  assert (Hstart : forall j, 0 <= j < 2 ^ Z.of_nat p ->
                     xr s0 j = perm_upto p 1 (xr s0) j /\
                     xi s0 j = (if truthy realIn then xi s0 j
                                else perm_upto p 1 (xi s0) j)).
  { intros j Hj. rewrite !perm_upto_none by exact Hj.
    split; [reflexivity|destruct (truthy realIn); reflexivity]. }
  destruct (H Hstart i Hi) as [Hxr Hxi].
  rewrite perm_upto_all in Hxr by exact Hi. split; [exact Hxr|].
  rewrite Hxi. destruct (truthy realIn); [reflexivity|].
  apply perm_upto_all. exact Hi.
Qed.

(** ** The commands under [symmIn] are those of the binary inversion *)

Lemma zrange_NoDup (lo hi : Z) : NoDup (zrange lo hi).
Proof.
  unfold zrange. apply Injective_map_NoDup_in; [|apply seq_NoDup].
  intros x y _ _ H. lia.
Qed.

Lemma bitrev_pairs_In (p : nat) (m mr : Z) :
  In (m, mr) (map swap_pair (bitrev_pairs p)) <->
  1 <= m < 2 ^ Z.of_nat p /\ m < bitrev p m /\ mr = bitrev p m.
Proof.
  unfold bitrev_pairs. rewrite map_map. cbn [swap_pair swap_m swap_mr].
  rewrite in_map_iff. split.
  - intros (x & E & Hx). inversion E; subst. apply filter_In in Hx.
    destruct Hx as [Hx Hlt]. apply zrange_In in Hx. apply Z.ltb_lt in Hlt.
    repeat split; lia.
  - intros (Hm & Hlt & ->). exists m. split; [reflexivity|].
    apply filter_In. split; [apply zrange_In; lia|apply Z.ltb_lt; exact Hlt].
Qed.

(** The list the planner ends with holds the pairs of the binary inversion,
    each once, in an order of its own. *)
Lemma plan_inv_pairs (p : nat) (symmIn : Z) (L : list SWAP) :
  plan_inv p symmIn (2 ^ Z.of_nat p) L ->
  Permutation (map swap_pair L) (map swap_pair (bitrev_pairs p)).
Proof.
  intros [Hok Hcomplete _ _ Hnd]. rewrite Forall_forall in Hok.
  apply NoDup_Permutation.
  - apply (NoDup_map_inv fst). rewrite map_map. exact Hnd.
  - unfold bitrev_pairs. rewrite map_map. cbn [swap_pair swap_m swap_mr].
    apply Injective_map_NoDup_in.
    + intros x y _ _ E. now inversion E.
    + apply NoDup_filter, zrange_NoDup.
  - intros [m mr]. rewrite bitrev_pairs_In, in_map_iff. split.
    + intros (r & E & Hr). inversion E; subst.
      destruct (Hok r Hr) as (Hlt & Hmr & (Hord & _)). repeat split; lia.
    + intros (Hm & Hlt & ->).
      destruct (Hcomplete m Hm Hlt) as (r & Hr & E).
      exists r. split; [|exact Hr].
      destruct (Hok r Hr) as (_ & Hmr & _). unfold swap_pair. now rewrite Hmr, E.
Qed.

(** C2.  For every power of two [n = 2^p] and with [symmIn] set, the planner
    comes to an end; its commands are the pairs [(m, mr)] of the binary
    inversion in another order, each either a plain exchange inside the
    lower half or a pair of copies from the mirror cells [n - m], [n - mr];
    no command reads a cell that an earlier command of the list has written;
    and the lines printed for the list, the fill-ins before them, run on the
    input, leave in every cell [xr[i]] what the exchanges of the binary
    inversion by increasing [m] leave there when they are run on the input
    with its upper half filled in by the symmetry beforehand.  The same
    holds of [xi] when [realIn] is unset, and when [realIn] is set and [xi]
    is zero, as [realIn] says it is.  Without the fill-ins the two agree on
    the lower half and on every cell the inversion moves. *)
Theorem symmetric_order_safe_and_equivalent (p : nat) (symmIn junk : Z) :
  truthy symmIn = true ->
  exists st,
    planner (2 ^ Z.of_nat p) symmIn junk = Some st /\
    Permutation (map swap_pair (records st)) (map swap_pair (bitrev_pairs p)) /\
    Forall (record_shape (2 ^ Z.of_nat p) symmIn) (records st) /\
    safe_order (records st) /\
    forall (realIn : Z) (s : memory) (i : Z),
      0 <= i < 2 ^ Z.of_nat p ->
      let n := 2 ^ Z.of_nat p in
      let b := run_perm (flat_map (emit_swap n realIn) (bitrev_pairs p))
                        (hermitian_fill n s) in
      let a := run_perm (emit_perm n realIn symmIn st) s in
      let a0 := run_perm (emit_swaps n realIn (pl_nSwap st) (pl_swap st)) s in
      xr a i = xr b i /\
      (truthy realIn = false -> xi a i = xi b i) /\
      (truthy realIn = true ->
       (forall j, 0 <= j < n -> xi s j = 0%R) -> xi a i = xi b i) /\
      (i <= Z.quot n 2 \/ bitrev p i <> i ->
       xr a0 i = xr b i /\ (truthy realIn = false -> xi a0 i = xi b i)).
Proof.
  intros Hs. destruct p as [|p].
  - (* one point: no command, no line *)
    change (2 ^ Z.of_nat 0) with 1.
    exists (mkPlan 0 0 [swap_cell0 junk]).
    split; [apply planner_one|].
    split; [apply Permutation_refl|].
    split; [apply Forall_nil|].
    split; [apply FOP_nil|].
    intros realIn s i Hi. cbv zeta. rewrite emit_perm_one.
    assert (i = 0) by lia. subst i.
    change (bitrev_pairs 0) with (@nil SWAP).
    cbn. repeat split; reflexivity.
  - destruct (planner_inv p symmIn junk Hs) as (st & Hst & Hinv & HnSwap & Hswap).
    exists st. split; [exact Hst|].
    split; [apply (plan_inv_pairs (S p) symmIn); exact Hinv|].
    split; [apply (planner_shape _ _ junk); exact Hst|].
    split; [apply (inv_safe _ _ _ _ Hinv)|].
    intros realIn s i Hi. cbv zeta.
    set (n := 2 ^ Z.of_nat (S p)) in *.
    pose proof (plain_pairs_result (S p) realIn (hermitian_fill n s) i Hi) as Hb.
    cbv zeta in Hb. fold n in Hb. destruct Hb as [Hbr Hbi].
    unfold emit_perm. rewrite HnSwap, Hswap.
    pose proof (symm_perm_result p symmIn realIn (records st)
                  (repeat (swap_cell0 junk)
                     (Z.to_nat (2 ^ Z.of_nat (S p)) - List.length (records st)))
                  s Hs Hinv i Hi) as Ha.
    cbv zeta in Ha. fold n in Ha. destruct Ha as ((Har & Hai0 & Hai1) & Ha0).
    rewrite Hbr, Hbi.
    split; [exact Har|].
    split; [intros Hreal; rewrite Hreal; apply Hai0; exact Hreal|].
    split.
    + intros Hreal Hzero. rewrite Hreal, (Hai1 Hreal).
      pose proof (quot_pow2_half p) as Hh. fold n in Hh.
      pose proof (pow2_S p) as Hn. fold n in Hn.
      assert (Hpos : 0 < 2 ^ Z.of_nat p) by (apply Z.pow_pos_nonneg; lia).
      destruct (bitrev (S p) i =? i); [reflexivity|].
      destruct (Z_le_gt_dec i (2 ^ Z.of_nat p)) as [Hlo|Hhi].
      * destruct (hermitian_fill_lower n s i ltac:(lia)) as [_ ->]. reflexivity.
      * destruct (hermitian_fill_upper n s i ltac:(lia)) as [_ ->].
        rewrite !Hzero by lia. lra.
    + intros Hcase. destruct (Ha0 Hcase) as [E1 E2].
      split; [exact E1|]. intros Hreal. rewrite Hreal. apply E2. exact Hreal.
Qed.

Lemma symmetric_order_safe_and_equivalent_witness :
  truthy 1 = true /\
  exists st, planner (2 ^ Z.of_nat 3) 1 0 = Some st /\ safe_order (records st).
Proof.
  split; [reflexivity|].
  destruct (symmetric_order_safe_and_equivalent 3 1 0 eq_refl)
    as (st & Hst & _ & _ & Hsafe & _).
  exists st. split; [exact Hst|exact Hsafe].
Defined.

(** ** The command line, entry by entry *)

(** [checkOption] writes nothing when it returns; it uses up no entry, or
    the one after [arg] when it returns 1; and what comes after the entries
    it looks at does not matter. *)
Lemma checkOption_app (E : environment) (arg : string) (rest more : list string)
    (op : OPTION) (c : config) (w : streams) :
  match checkOption E arg rest op c w with
  | Ret (r, c', rest') w' =>
      w' = w /\
      (rest' = rest \/ (r = 1 /\ exists b, rest = b :: rest')) /\
      checkOption E arg (rest ++ more) op c w = Ret (r, c', rest' ++ more) w
  | _ => True
  end.
Proof.
  unfold checkOption.
  destruct (match fmt op with Some f => is_str_format f | None => false end).
  - destruct (String.prefix (shOpt op) arg || String.prefix (lgOpt op) arg).
    + destruct (String.get _ arg); [exact I|]. destruct rest; exact I.
    + cbn. auto.
  - match goal with |- context [match ?s with Some v => ret _ | None => _ end] =>
      destruct s as [v|] end.
    + cbn. auto.
    + destruct (String.prefix (shOpt op) arg &&
                match fmt op with None => true | Some _ => false end).
      { cbn. auto. }
      destruct (String.eqb arg (shOpt op) || String.eqb arg (lgOpt op)); [|cbn; auto].
      destruct (fmt op) as [f|]; [|cbn; auto].
      destruct rest as [|a rest']; [exact I|].
      cbn [app]. destruct (sscanf E a f); [|exact I].
      cbn. split; [reflexivity|].
      split; [right; split; [reflexivity|eexists; reflexivity]|reflexivity].
Qed.

Lemma checkOptions_app (E : environment) (arg : string) (more : list string)
    (pOp : list OPTION) :
  forall (rest : list string) (po : Z) (c : config) (w : streams),
    match checkOptions E arg rest pOp po c w with
    | Ret (r, o, c', rest') w' =>
        w' = w /\
        (rest' = rest \/ (r = 1 /\ exists b, rest = b :: rest')) /\
        checkOptions E arg (rest ++ more) pOp po c w = Ret (r, o, c', rest' ++ more) w
    | _ => True
    end.
Proof.
  induction pOp as [|op pOp IH]; intros rest po c w; cbn [checkOptions].
  - cbn. auto.
  - unfold bind.
    pose proof (checkOption_app E arg rest more op c w) as H.
    destruct (checkOption E arg rest op c w) as [[[r c'] rest'] w'| |]; try exact I.
    destruct H as (-> & Hrest & ->).
    destruct (r =? 0) eqn:Er.
    + destruct Hrest as [->|(-> & _)]; [apply IH|discriminate Er].
    + cbn. split; [reflexivity|]. split; [exact Hrest|reflexivity].
Qed.

(** The same for the loop over the characters of one entry. *)
Lemma option_loop_app (E : environment) (more : list string) (fuel : nat) :
  forall (cur : string) (rest : list string) (c : config) (w : streams),
    match option_loop E fuel cur rest c w with
    | Ret (c', rest') w' =>
        w' = w /\
        (rest' = rest \/ exists b, rest = b :: rest') /\
        option_loop E fuel cur (rest ++ more) c w = Ret (c', rest' ++ more) w
    | _ => True
    end.
Proof.
  induction fuel as [|fuel IH]; intros cur rest c w; cbn [option_loop]; [exact I|].
  destruct (String.eqb (str_skip 1 cur) EmptyString); [cbn; auto|].
  unfold bind at 1 4.
  pose proof (checkOptions_app E (str_skip 1 cur) more pOptions rest 0 c w) as H.
  destruct (checkOptions E (str_skip 1 cur) rest pOptions 0 c w)
    as [[[[r o] c'] rest'] w'| |]; try exact I.
  destruct H as (-> & Hrest & ->).
  destruct (Z.eqb_spec r 1) as [->|Hr1].
  { cbn. split; [reflexivity|]. split; [|reflexivity].
    destruct Hrest as [->|(_ & Hb)]; [now left|now right]. }
  destruct Hrest as [->|(Hr & _)]; [|contradiction].
  destruct (r =? -1).
  - specialize (IH (str_skip
                      (String.length
                         (shOpt (nth (Z.to_nat o) pOptions (mkOPTION "n" "-points" None Vn)))
                       - 1) (str_skip 1 cur)) rest c' w).
    match goal with |- match ?x with _ => _ end =>
      match type of IH with match ?y with _ => _ end => change x with y end end.
    destruct (option_loop E fuel _ rest c' w) as [[c2 rest2] w2| |]; try exact I.
    destruct IH as (-> & Hrest2 & ->). split; [reflexivity|]. split; [exact Hrest2|reflexivity].
  - destruct (String.eqb (str_skip 1 cur) "-version" || String.prefix "V" (str_skip 1 cur));
      [exact I|].
    destruct (String.eqb (str_skip 1 cur) "h" || String.eqb (str_skip 1 cur) "-help"
              || String.prefix "?" (str_skip 1 cur)); [|exact I].
    exact I.
Qed.

(** The loop over the entries gives the same with any number of turns that
    is at least the number of entries. *)
Lemma arg_loop_fuel (E : environment) :
  forall (fuel1 fuel2 : nat) (args : list string) (c : config) (w : streams),
    (List.length args <= fuel1)%nat -> (List.length args <= fuel2)%nat ->
    arg_loop E fuel1 args c w = arg_loop E fuel2 args c w.
Proof.
  induction fuel1 as [|fuel1 IH]; intros fuel2 args c w H1 H2.
  - destruct args; [|cbn in H1; lia]. destruct fuel2; reflexivity.
  - destruct args as [|a rest]; [destruct fuel2; reflexivity|].
    destruct fuel2 as [|fuel2]; [cbn in H2; lia|].
    cbn [arg_loop List.length] in *.
    destruct (is_option_arg a); [|reflexivity].
    unfold bind.
    pose proof (option_loop_app E [] (String.length a) a rest c w) as H.
    destruct (option_loop E (String.length a) a rest c w) as [[c' rest'] w'| |];
      try reflexivity.
    destruct H as (_ & Hrest & _).
    apply IH; destruct Hrest as [->|(b & ->)]; cbn [List.length] in *; lia.
Qed.

(** Entries that have been read without an exit are read in the same way
    when more entries follow them. *)
Lemma arg_loop_app (E : environment) (more : list string) :
  forall (k : nat) (pre : list string) (c0 : config) (w0 : streams)
         (c : config) (w : streams) (fuel : nat),
    (List.length pre <= k)%nat ->
    arg_loop E (List.length pre) pre c0 w0 = Ret c w ->
    (List.length (pre ++ more) <= fuel)%nat ->
    arg_loop E fuel (pre ++ more) c0 w0 = arg_loop E (List.length more) more c w.
Proof.
  induction k as [|k IH]; intros pre c0 w0 c w fuel Hk Hpre Hfuel.
  - destruct pre; [|cbn in Hk; lia]. cbn in Hpre. inversion Hpre; subst.
    cbn [app] in *. apply arg_loop_fuel; lia.
  - destruct pre as [|a rest].
    + cbn in Hpre. inversion Hpre; subst. cbn [app] in *. apply arg_loop_fuel; lia.
    + cbn [List.length app] in *.
      destruct fuel as [|fuel]; [lia|]. cbn [arg_loop] in *.
      destruct (is_option_arg a); [|discriminate Hpre].
      unfold bind in *.
      pose proof (option_loop_app E more (String.length a) a rest c0 w0) as H.
      destruct (option_loop E (String.length a) a rest c0 w0) as [[c' rest'] w'| |];
        try discriminate Hpre.
      destruct H as (-> & Hrest & ->).
      assert (Hlen : (List.length rest' <= List.length rest)%nat)
        by (destruct Hrest as [->|(b & ->)]; cbn [List.length] in *; lia).
      apply (IH rest' c' w0 c w fuel); [lia| |rewrite length_app in *; lia].
      rewrite <- Hpre. apply arg_loop_fuel; lia.
Qed.


(** [main] when more entries follow. *)
Lemma main_read_more (E : environment) (prog : string) (pre more : list string)
    (c : config) (w : streams) :
  arg_loop E (List.length pre) pre config0 (mkStreams EmptyString EmptyString) = Ret c w ->
  main E (prog :: pre ++ more)
  = (c' <- arg_loop E (List.length more) more c ;; main_body E c') w.
Proof.
  intros H. unfold main. cbn [tl List.length app]. unfold bind.
  rewrite (arg_loop_app E more (List.length pre) pre config0 _ c w _ (le_n _) H) by lia.
  reflexivity.
Qed.

(** ** Strings *)

Lemma prefix_nil (x : string) : String.prefix EmptyString x = true.
Proof. destruct x; reflexivity. Qed.

Lemma prefix_refl (s : string) : String.prefix s s = true.
Proof.
  induction s as [|a s IH]; cbn; [reflexivity|].
  destruct (ascii_dec a a); [exact IH|congruence].
Qed.

Lemma prefix_longer (a b : string) :
  forall x, String.prefix a x = false -> String.prefix (a +++ b) x = false.
Proof.
  induction a as [|ch a IH]; intros x H.
  - rewrite prefix_nil in H. discriminate H.
  - destruct x as [|c0 x]; [reflexivity|]. cbn in *.
    destruct (ascii_dec ch c0); [now apply IH|reflexivity].
Qed.

Lemma prefix_false_neq (s x : string) :
  String.prefix s x = false -> String.eqb x s = false.
Proof.
  intros H. apply String.eqb_neq. intros ->. rewrite prefix_refl in H. discriminate.
Qed.

Lemma substring_full (s : string) : substring 0 (String.length s) s = s.
Proof. induction s as [|a s IH]; cbn; [reflexivity|now rewrite IH]. Qed.

Lemma str_skip_0 (s : string) : str_skip 0 s = s.
Proof. unfold str_skip. rewrite Nat.sub_0_r. apply substring_full. Qed.

Lemma str_skip_1 (a : ascii) (s : string) : str_skip 1 (String a s) = s.
Proof. unfold str_skip. cbn. rewrite Nat.sub_0_r. apply substring_full. Qed.

Lemma length_append (a b : string) :
  String.length (a +++ b) = (String.length a + String.length b)%nat.
Proof. induction a as [|ch a IH]; cbn; [reflexivity|now rewrite IH]. Qed.

Lemma substring_append_l (a b : string) : substring 0 (String.length a) (a +++ b) = a.
Proof. induction a as [|ch a IH]; cbn; [destruct b; reflexivity|now rewrite IH]. Qed.

Lemma str_skip_append (a b : string) : str_skip (String.length a) (a +++ b) = b.
Proof.
  unfold str_skip. rewrite length_append.
  replace (String.length a + String.length b - String.length a)%nat
    with (String.length b) by lia.
  induction a as [|ch a IH]; cbn; [apply substring_full|exact IH].
Qed.

(** [sscanf] with a format made of the plain characters [lit] and "%i". *)
Lemma sscanf_lit (E : environment) (lit x : string) :
  sscanf E x (lit +++ "%i")
  = if String.prefix lit x then scan_i E (str_skip (String.length lit) x) else None.
Proof.
  unfold sscanf. cbv zeta.
  replace (String.length (lit +++ "%i") - 2)%nat with (String.length lit)
    by (rewrite length_append; cbn; lia).
  rewrite str_skip_append, substring_append_l. reflexivity.
Qed.

(** [sscanf] reads nothing when the plain characters of the format are
    not the first ones of the text. *)
Lemma sscanf_points_none (E : environment) (x : string) :
  String.prefix "n" x = false -> String.prefix "-points" x = false ->
  sscanf E x "n=%i" = None /\ sscanf E x "n%i" = None /\
  sscanf E x "-points=%i" = None /\ sscanf E x "-points%i" = None.
Proof.
  intros Hn Hp.
  pose proof (prefix_longer "n" "=" x Hn) as Hn'.
  pose proof (prefix_longer "-points" "=" x Hp) as Hp'.
  change "n=%i" with ("n=" +++ "%i"). change "n%i" with ("n" +++ "%i").
  change "-points=%i" with ("-points=" +++ "%i").
  change "-points%i" with ("-points" +++ "%i").
  rewrite !sscanf_lit.
  change ("n" +++ "=") with "n=" in Hn'. change ("-points" +++ "=") with "-points=" in Hp'.
  rewrite Hn, Hn', Hp, Hp'. repeat split; reflexivity.
Qed.

(** ** An entry that fits no option *)

Lemma checkOption_bool_no_fit (E : environment) (x : string) (rest : list string)
    (op : OPTION) (c : config) (w : streams) :
  fmt op = None ->
  String.prefix (shOpt op) x = false -> String.eqb x (lgOpt op) = false ->
  checkOption E x rest op c w = Ret (0, c, rest) w.
Proof.
  intros Hf Hsh Hlg. unfold checkOption. rewrite Hf, Hsh, Hlg.
  rewrite (prefix_false_neq _ _ Hsh). reflexivity.
Qed.

Lemma checkOption_points_no_fit (E : environment) (x : string) (rest : list string)
    (c : config) (w : streams) :
  String.prefix "n" x = false -> String.prefix "-points" x = false ->
  checkOption E x rest (mkOPTION "n" "-points" (Some "%i") Vn) c w = Ret (0, c, rest) w.
Proof.
  intros Hn Hp.
  destruct (sscanf_points_none E x Hn Hp) as (H1 & H2 & H3 & H4).
  unfold checkOption. cbn [fmt shOpt lgOpt val].
  change (is_str_format "%i") with false. cbv iota.
  change ("n" +++ "=" +++ "%i") with "n=%i". change ("n" +++ "%i") with "n%i".
  change ("-points" +++ "=" +++ "%i") with "-points=%i".
  change ("-points" +++ "%i") with "-points%i".
  rewrite H1, H2, H3, H4, Hn.
  rewrite (prefix_false_neq _ _ Hn), (prefix_false_neq _ _ Hp). reflexivity.
Qed.

Lemma checkOptions_no_fit (E : environment) (x : string) (rest : list string)
    (c : config) (w : streams) (ops : list OPTION) :
  forall po,
    (forall op, In op ops -> checkOption E x rest op c w = Ret (0, c, rest) w) ->
    checkOptions E x rest ops po c w
    = Ret (0, po + Z.of_nat (List.length ops), c, rest) w.
Proof.
  induction ops as [|op ops IH]; intros po H; cbn [checkOptions List.length].
  - unfold ret. now rewrite Z.add_0_r.
  - unfold bind. rewrite (H op (or_introl eq_refl)). cbn [Z.eqb].
    rewrite IH by (intros op' Hop'; apply H; now right).
    replace (po + Z.of_nat (S (List.length ops)))
      with (po + 1 + Z.of_nat (List.length ops)) by lia.
    reflexivity.
Qed.

(** ** The option that takes the number of points *)


(** ** The test of the number of points *)

Lemma wrap32_small (x : Z) : INT_MIN <= x <= INT_MAX -> wrap32 x = x.
Proof.
  unfold INT_MIN, INT_MAX, wrap32. intros H.
  rewrite Z.mod_small by lia. lia.
Qed.

Lemma land_pow2_pred (k : Z) : 0 <= k -> Z.land (2 ^ k) (2 ^ k - 1) = 0.
Proof.
  intros Hk. apply Z.bits_inj'. intros i Hi.
  rewrite Z.land_spec, Z.bits_0, Z.pow2_bits_eqb by lia.
  destruct (Z.eqb_spec k i) as [<-|Hne]; [|reflexivity].
  replace (2 ^ k - 1) with (Z.ones k) by (rewrite Z.ones_equiv; lia).
  rewrite Z.ones_spec_high by lia. reflexivity.
Qed.

Lemma land_pred_not_pow2 (n : Z) :
  0 < n -> ~ power_of_two n -> Z.land n (n - 1) <> 0.
Proof.
  intros Hn Hnp Hz.
  pose proof (Z.log2_spec n Hn) as [Hlo Hhi].
  pose proof (Z.log2_nonneg n) as Hk.
  assert (Hne : n <> 2 ^ Z.log2 n).
  { intros E. apply Hnp. exists (Z.log2 n). split; [exact Hk|exact E]. }
  assert (Hl : Z.log2 (n - 1) = Z.log2 n) by (apply Z.log2_unique; lia).
  assert (Hpos : 0 < 2 ^ Z.log2 n) by (apply Z.pow_pos_nonneg; lia).
  assert (Hb : Z.testbit (Z.land n (n - 1)) (Z.log2 n) = true).
  { rewrite Z.land_spec, Z.bit_log2 by lia.
    rewrite <- Hl. rewrite Z.bit_log2 by lia. reflexivity. }
  rewrite Hz, Z.bits_0 in Hb. discriminate.
Qed.

(** Inside the range of an int the test [n & (n-1)] lets through 0 and
    the powers of two, and nothing else. *)
Lemma points_test (n : Z) :
  INT_MIN < n <= INT_MAX -> n <> 0 ->
  (Z.land n (wrap32 (n - 1)) = 0 <-> power_of_two n).
Proof.
  intros Hr H0. rewrite wrap32_small by (unfold INT_MIN, INT_MAX in *; lia). split.
  - intros Hz. destruct (Z_lt_le_dec 0 n) as [Hpos|Hneg].
    + destruct (Z.log2_spec n Hpos) as [Hlo Hhi].
      destruct (Z.eq_dec n (2 ^ Z.log2 n)) as [E|Hne].
      * exists (Z.log2 n). split; [apply Z.log2_nonneg|exact E].
      * exfalso. revert Hz. apply land_pred_not_pow2; [exact Hpos|].
        intros (k & Hk & E). apply Hne. rewrite E at 2.
        rewrite Z.log2_pow2 by exact Hk. exact E.
    + exfalso. assert (Hl : Z.land n (n - 1) < 0) by (apply Z.land_neg; lia). lia.
  - intros (k & Hk & ->). apply land_pow2_pred. exact Hk.
Qed.

(** ** What [main] does after the command line *)




Lemma check_points_accepts (n : Z) (w : streams) :
  n <> 0 -> Z.land n (wrap32 (n - 1)) = 0 -> check_points n w = Ret tt w.
Proof.
  intros H0 Hl. unfold check_points, when, bind.
  replace (n =? 0) with false by (symmetry; apply Z.eqb_neq; exact H0).
  unfold ret, truthy. rewrite Hl. reflexivity.
Qed.

(** The loop over the entries writes nothing when it comes to its end. *)
Lemma arg_loop_silent (E : environment) :
  forall (fuel : nat) (args : list string) (c0 : config) (w0 : streams)
         (c : config) (w : streams),
    arg_loop E fuel args c0 w0 = Ret c w -> w = w0.
Proof.
  induction fuel as [|fuel IH]; intros args c0 w0 c w H.
  - cbn in H. now inversion H.
  - destruct args as [|a rest]; [cbn in H; now inversion H|].
    cbn [arg_loop] in H. destruct (is_option_arg a); [|discriminate H].
    unfold bind in H.
    pose proof (option_loop_app E [] (String.length a) a rest c0 w0) as Ho.
    destruct (option_loop E (String.length a) a rest c0 w0) as [[c' rest'] w'| |];
      try discriminate H.
    destruct Ho as (-> & _). apply (IH _ _ _ _ _ H).
Qed.



(** ** Sines and cosines of the multiples of [PI / h] *)

Section Multiples.
Variable h : Z.
Hypothesis Hh : 1 <= h.
Let d : R := (PI / IZR h)%R.











(** When [h] is even the quarter turn is a multiple of the step. *)
Section Even.
Variable g : Z.
Hypothesis Hg : h = 2 * g.




End Even.
End Multiples.


(** ** The sines and cosines of the butterflies *)



(** ** The four summands, evaluated *)








(** ** One butterfly *)


Lemma fupd_same (a : Z -> R) (i : Z) (v : R) : fupd a i v i = v.
Proof. unfold fupd. now rewrite Z.eqb_refl. Qed.

Lemma fupd_other (a : Z -> R) (i j : Z) (v : R) : j <> i -> fupd a i v j = a j.
Proof. intros H. unfold fupd. destruct (Z.eqb_spec j i); [contradiction|reflexivity]. Qed.



(** ** The loops over the butterflies *)

Lemma stage_ideal_lower (inv k m t : Z) (V : memory) :
  0 <= m < k ->
  let i := m + t * (2 * k) in
  let W := stage_ideal inv k V in
  xr W i = (xr V i + (twiddle_re k m * xr V (i + k) - twiddle_im inv k m * xi V (i + k)))%R /\
  xi W i = (xi V i + (twiddle_re k m * xi V (i + k) + twiddle_im inv k m * xr V (i + k)))%R.
Proof.
  intros Hm i W. unfold W, stage_ideal. cbn [xr xi].
  assert (E1 : i mod (2 * k) = m) by (unfold i; rewrite Z.mod_add by lia; apply Z.mod_small; lia).
  assert (E2 : i mod k = m).
  { unfold i. replace (m + t * (2 * k)) with (m + (t * 2) * k) by ring.
    rewrite Z.mod_add by lia. apply Z.mod_small; lia. }
  rewrite E1, E2. replace (m <? k) with true by (symmetry; apply Z.ltb_lt; lia).
  split; reflexivity.
Qed.

Lemma stage_ideal_upper (inv k m t : Z) (V : memory) :
  0 <= m < k ->
  let i := m + t * (2 * k) in
  let W := stage_ideal inv k V in
  xr W (i + k)
  = (xr V i - (twiddle_re k m * xr V (i + k) - twiddle_im inv k m * xi V (i + k)))%R /\
  xi W (i + k)
  = (xi V i - (twiddle_re k m * xi V (i + k) + twiddle_im inv k m * xr V (i + k)))%R.
Proof.
  intros Hm i W. unfold W, stage_ideal. cbn [xr xi].
  assert (E1 : (i + k) mod (2 * k) = m + k).
  { unfold i. replace (m + t * (2 * k) + k) with (m + k + t * (2 * k)) by ring.
    rewrite Z.mod_add by lia. apply Z.mod_small; lia. }
  assert (E2 : (i + k) mod k = m).
  { unfold i. replace (m + t * (2 * k) + k) with (m + (t * 2 + 1) * k) by ring.
    rewrite Z.mod_add by lia. apply Z.mod_small; lia. }
  rewrite E1, E2. replace (m + k <? k) with false by (symmetry; apply Z.ltb_ge; lia).
  replace (i + k - k) with i by ring.
  split; reflexivity.
Qed.

Lemma point_index_neq (m k t t' : Z) :
  0 < k -> t <> t' ->
  m + t * (2 * k) <> m + t' * (2 * k) /\
  m + t * (2 * k) <> m + t' * (2 * k) + k /\
  m + t * (2 * k) + k <> m + t' * (2 * k).
Proof. intros Hk Hne. repeat split; nia. Qed.

Lemma point_index_mod (m k t : Z) :
  0 <= m < k -> (m + t * (2 * k)) mod k = m.
Proof.
  intros Hm. replace (m + t * (2 * k)) with (m + (t * 2) * k) by ring.
  rewrite Z.mod_add by lia. apply Z.mod_small; lia.
Qed.


Lemma point_index_mod' (m k t : Z) :
  0 <= m < k -> (m + t * (2 * k) + k) mod k = m.
Proof.
  intros Hm. replace (m + t * (2 * k) + k) with (m + (t * 2 + 1) * k) by ring.
  rewrite Z.mod_add by lia. apply Z.mod_small; lia.
Qed.

Lemma group_index_neq (k m m' t t' : Z) :
  0 <= m < k -> 0 <= m' < k -> m <> m' ->
  m' + t * (2 * k) <> m + t' * (2 * k) /\
  m' + t * (2 * k) <> m + t' * (2 * k) + k /\
  m' + t * (2 * k) + k <> m + t' * (2 * k) /\
  m' + t * (2 * k) + k <> m + t' * (2 * k) + k.
Proof.
  intros Hm Hm' Hne.
  pose proof (point_index_mod m k t' Hm) as A1.
  pose proof (point_index_mod' m k t' Hm) as A2.
  pose proof (point_index_mod m' k t Hm') as B1.
  pose proof (point_index_mod' m' k t Hm') as B2.
  repeat split; intros E; rewrite E in *; congruence.
Qed.

(** The number of points of a group. *)
Lemma points_of_group (p j : nat) :
  (j <= p)%nat ->
  2 ^ Z.of_nat (S p) = 2 ^ Z.of_nat (p - j) * (2 * 2 ^ Z.of_nat j) /\
  0 < 2 ^ Z.of_nat (p - j).
Proof.
  intros Hj. split; [|apply Z.pow_pos_nonneg; lia].
  rewrite <- (Z.pow_succ_r 2 (Z.of_nat j)) by lia.
  rewrite <- Z.pow_add_r by lia. f_equal. lia.
Qed.



(** Every index of the arrays is a cell of one butterfly of the stage. *)
Lemma index_in_stage (p j : nat) (i : Z) :
  (j <= p)%nat ->
  let k := 2 ^ Z.of_nat j in
  let c := 2 ^ Z.of_nat (p - j) in
  0 <= i < 2 ^ Z.of_nat (S p) ->
  exists m t, 0 <= m < k /\ 0 <= t < c /\
              (i = m + t * (2 * k) \/ i = m + t * (2 * k) + k).
Proof.
  intros Hj k c Hi.
  destruct (points_of_group p j Hj) as [Hn Hc]. fold k c in Hn, Hc. rewrite Hn in Hi.
  assert (Hk : 0 < k) by (apply Z.pow_pos_nonneg; lia).
  clearbody k c.
  pose proof (Z.div_mod i (2 * k) ltac:(lia)) as Hdm.
  pose proof (Z.mod_pos_bound i (2 * k) ltac:(lia)) as Hr.
  assert (Ht : 0 <= i / (2 * k) < c).
  { split; [apply Z.div_pos; lia|]. apply Z.div_lt_upper_bound; [lia|nia]. }
  destruct (Z_lt_le_dec (i mod (2 * k)) k) as [Hlo|Hup].
  - exists (i mod (2 * k)), (i / (2 * k)). split; [lia|]. split; [exact Ht|]. left. lia.
  - exists (i mod (2 * k) - k), (i / (2 * k)). split; [lia|]. split; [exact Ht|]. right. lia.
Qed.







(** ** Sums *)

Lemma rsum_ext (g h : Z -> R) (c : nat) :
  (forall u, 0 <= u < Z.of_nat c -> g u = h u) -> rsum g c = rsum h c.
Proof.
  induction c as [|c IH]; intros H; cbn [rsum]; [reflexivity|].
  rewrite IH by (intros u Hu; apply H; lia). rewrite H by lia. reflexivity.
Qed.

Lemma rsum_plus (g h : Z -> R) (c : nat) :
  rsum (fun u => (g u + h u)%R) c = (rsum g c + rsum h c)%R.
Proof. induction c as [|c IH]; cbn [rsum]; [ring|]. rewrite IH. ring. Qed.

Lemma rsum_scale (a : R) (g : Z -> R) (c : nat) :
  rsum (fun u => (a * g u)%R) c = (a * rsum g c)%R.
Proof. induction c as [|c IH]; cbn [rsum]; [ring|]. rewrite IH. ring. Qed.

(** A sum over [2*c] indices, the even ones and the odd ones apart. *)
Lemma rsum_even_odd (g : Z -> R) (c : nat) :
  rsum g (2 * c)
  = (rsum (fun u => g (2 * u)%Z) c + rsum (fun u => g (2 * u + 1)%Z) c)%R.
Proof.
  induction c as [|c IH]; [cbn; ring|].
  replace (2 * S c)%nat with (S (S (2 * c))) by lia. cbn [rsum]. rewrite IH.
  replace (Z.of_nat (2 * c)) with (2 * Z.of_nat c) by lia.
  replace (Z.of_nat (S (2 * c))) with (2 * Z.of_nat c + 1) by lia.
  ring.
Qed.

(** ** Angles *)

Ltac push_IZR :=
  repeat (rewrite opp_IZR || rewrite mult_IZR || rewrite plus_IZR || rewrite minus_IZR).

Lemma cis_im_plus (inv : Z) (a b : R) :
  cis_im inv (a + b) = (cis_im inv a * cos b + cos a * cis_im inv b)%R.
Proof. unfold cis_im. rewrite sin_plus. destruct (truthy inv); ring. Qed.

Lemma cis_im_sq (inv : Z) (a : R) :
  (cis_im inv a * cis_im inv a = sin a * sin a)%R.
Proof. unfold cis_im. destruct (truthy inv); ring. Qed.

Lemma dft_angle_twiddle (k m : Z) :
  0 < k -> dft_angle (2 * k) m = (PI * IZR (- m) / IZR k)%R.
Proof.
  intros Hk. unfold dft_angle. push_IZR.
  assert (IZR k <> 0%R) by (apply not_0_IZR; lia). field. exact H.
Qed.

Lemma cos_turns (a : R) (u : Z) : 0 <= u -> cos (a - 2 * PI * IZR u) = cos a.
Proof.
  intros Hu. rewrite <- (cos_period (a - 2 * PI * IZR u) (Z.to_nat u)).
  f_equal. rewrite INR_IZR_INZ, Z2Nat.id by lia. ring.
Qed.

Lemma sin_turns (a : R) (u : Z) : 0 <= u -> sin (a - 2 * PI * IZR u) = sin a.
Proof.
  intros Hu. rewrite <- (sin_period (a - 2 * PI * IZR u) (Z.to_nat u)).
  f_equal. rewrite INR_IZR_INZ, Z2Nat.id by lia. ring.
Qed.

(** The angles of the even and of the odd terms of a transform of [2*B]
    points. *)
Lemma dft_angle_even (B t u : Z) :
  0 < B -> dft_angle (2 * B) (t * (2 * u)) = dft_angle B (t * u).
Proof.
  intros HB. unfold dft_angle. push_IZR.
  assert (IZR B <> 0%R) by (apply not_0_IZR; lia). field. exact H.
Qed.

Lemma dft_angle_odd (B t u : Z) :
  0 < B ->
  dft_angle (2 * B) (t * (2 * u + 1)) = (dft_angle B (t * u) + dft_angle (2 * B) t)%R.
Proof.
  intros HB. unfold dft_angle. push_IZR.
  assert (IZR B <> 0%R) by (apply not_0_IZR; lia). field. exact H.
Qed.

Lemma dft_angle_even_up (B t u : Z) :
  0 < B ->
  dft_angle (2 * B) ((t + B) * (2 * u)) = (dft_angle B (t * u) - 2 * PI * IZR u)%R.
Proof.
  intros HB. unfold dft_angle. push_IZR.
  assert (IZR B <> 0%R) by (apply not_0_IZR; lia). field. exact H.
Qed.

Lemma dft_angle_odd_up (B t u : Z) :
  0 < B ->
  dft_angle (2 * B) ((t + B) * (2 * u + 1))
  = (dft_angle B (t * u) + dft_angle (2 * B) t - 2 * PI * IZR u - PI)%R.
Proof.
  intros HB. unfold dft_angle. push_IZR.
  assert (IZR B <> 0%R) by (apply not_0_IZR; lia). field. exact H.
Qed.

Lemma rsum_minus (g h : Z -> R) (c : nat) :
  rsum (fun u => (g u - h u)%R) c = (rsum g c - rsum h c)%R.
Proof. induction c as [|c IH]; cbn [rsum]; [ring|]. rewrite IH. ring. Qed.

Lemma rsum_opp (g : Z -> R) (c : nat) :
  rsum (fun u => (- g u)%R) c = (- rsum g c)%R.
Proof. induction c as [|c IH]; cbn [rsum]; [ring|]. rewrite IH. ring. Qed.

Lemma cos_plus_cis (inv : Z) (a b : R) :
  cos (a + b) = (cos a * cos b - cis_im inv a * cis_im inv b)%R.
Proof. rewrite cos_plus. unfold cis_im. destruct (truthy inv); ring. Qed.

Lemma twiddle_dft_angle (inv B t : Z) :
  0 < B ->
  twiddle_re B t = cos (dft_angle (2 * B) t) /\
  twiddle_im inv B t = cis_im inv (dft_angle (2 * B) t).
Proof.
  intros HB. unfold twiddle_re, twiddle_im, cis_im.
  rewrite dft_angle_twiddle by exact HB. split; reflexivity.
Qed.

(** ** The step of Cooley and Tukey

    The transform of [2*B] points from the transforms of the [B] points
    with even and with odd indices. *)
Lemma sub_dft_lower (inv : Z) (x : memory) (B stride r t : Z) :
  0 < B ->
  sub_dft_re inv x (2 * B) stride r t
  = (sub_dft_re inv x B (2 * stride) r t
     + (twiddle_re B t * sub_dft_re inv x B (2 * stride) (stride + r) t
        - twiddle_im inv B t * sub_dft_im inv x B (2 * stride) (stride + r) t))%R /\
  sub_dft_im inv x (2 * B) stride r t
  = (sub_dft_im inv x B (2 * stride) r t
     + (twiddle_re B t * sub_dft_im inv x B (2 * stride) (stride + r) t
        + twiddle_im inv B t * sub_dft_re inv x B (2 * stride) (stride + r) t))%R.
Proof.
  intros HB. destruct (twiddle_dft_angle inv B t HB) as [-> ->].
  unfold sub_dft_re, sub_dft_im.
  replace (Z.to_nat (2 * B)) with (2 * Z.to_nat B)%nat by lia.
  rewrite !rsum_even_odd.
  rewrite <- !rsum_scale, <- rsum_minus, <- !rsum_plus.
  split; apply rsum_ext; intros u Hu;
    rewrite dft_angle_even, dft_angle_odd by exact HB;
    rewrite (cos_plus_cis inv), cis_im_plus;
    replace (2 * u * stride + r) with (u * (2 * stride) + r) by ring;
    replace ((2 * u + 1) * stride + r) with (u * (2 * stride) + (stride + r)) by ring;
    ring.
Qed.

Lemma sub_dft_upper (inv : Z) (x : memory) (B stride r t : Z) :
  0 < B ->
  sub_dft_re inv x (2 * B) stride r (t + B)
  = (sub_dft_re inv x B (2 * stride) r t
     - (twiddle_re B t * sub_dft_re inv x B (2 * stride) (stride + r) t
        - twiddle_im inv B t * sub_dft_im inv x B (2 * stride) (stride + r) t))%R /\
  sub_dft_im inv x (2 * B) stride r (t + B)
  = (sub_dft_im inv x B (2 * stride) r t
     - (twiddle_re B t * sub_dft_im inv x B (2 * stride) (stride + r) t
        + twiddle_im inv B t * sub_dft_re inv x B (2 * stride) (stride + r) t))%R.
Proof.
  intros HB. destruct (twiddle_dft_angle inv B t HB) as [-> ->].
  unfold sub_dft_re, sub_dft_im.
  replace (Z.to_nat (2 * B)) with (2 * Z.to_nat B)%nat by lia.
  rewrite !rsum_even_odd.
  assert (Hc : forall a, cos (a - PI) = (- cos a)%R).
  { intros a. rewrite cos_minus, cos_PI, sin_PI. ring. }
  assert (Hs : forall a, cis_im inv (a - PI) = (- cis_im inv a)%R).
  { intros a. unfold cis_im. rewrite sin_minus, cos_PI, sin_PI.
    destruct (truthy inv); ring. }
  assert (Hturn : forall a u, 0 <= u ->
             cis_im inv (a - 2 * PI * IZR u) = cis_im inv a).
  { intros a u Hu. unfold cis_im. rewrite sin_turns by exact Hu. reflexivity. }
  set (wr := cos (dft_angle (2 * B) t)). set (wi := cis_im inv (dft_angle (2 * B) t)).
  set (g2 := fun u => (xr x (u * (2 * stride) + (stride + r)) * cos (dft_angle B (t * u))
                       - xi x (u * (2 * stride) + (stride + r))
                         * cis_im inv (dft_angle B (t * u)))%R).
  set (g3 := fun u => (xr x (u * (2 * stride) + (stride + r))
                         * cis_im inv (dft_angle B (t * u))
                       + xi x (u * (2 * stride) + (stride + r))
                         * cos (dft_angle B (t * u)))%R).
  split.
  - match goal with |- (rsum ?e _ + rsum ?o _)%R = (rsum ?c _ - _)%R =>
      assert (E1 : rsum e (Z.to_nat B) = rsum c (Z.to_nat B));
      [|assert (E2 : rsum o (Z.to_nat B)
                     = rsum (fun u => (- (wr * g2 u - wi * g3 u))%R) (Z.to_nat B))]
    end.
    + apply rsum_ext. intros u Hu. rewrite dft_angle_even_up by exact HB.
      rewrite cos_turns, Hturn by lia.
      replace (2 * u * stride + r) with (u * (2 * stride) + r) by ring. reflexivity.
    + apply rsum_ext. intros u Hu. rewrite dft_angle_odd_up by exact HB.
      replace (dft_angle B (t * u) + dft_angle (2 * B) t - 2 * PI * IZR u - PI)%R
        with (dft_angle B (t * u) + dft_angle (2 * B) t - PI - 2 * PI * IZR u)%R by ring.
      rewrite cos_turns, Hturn by lia.
      rewrite Hc, Hs, (cos_plus_cis inv), cis_im_plus.
      replace ((2 * u + 1) * stride + r) with (u * (2 * stride) + (stride + r)) by ring.
      unfold g2, g3, wr, wi. ring.
    + rewrite E1, E2, (rsum_opp (fun u => (wr * g2 u - wi * g3 u)%R)),
        (rsum_minus (fun u => (wr * g2 u)%R) (fun u => (wi * g3 u)%R)),
        (rsum_scale wr g2), (rsum_scale wi g3). ring.
  - match goal with |- (rsum ?e _ + rsum ?o _)%R = (rsum ?c _ - _)%R =>
      assert (E1 : rsum e (Z.to_nat B) = rsum c (Z.to_nat B));
      [|assert (E2 : rsum o (Z.to_nat B)
                     = rsum (fun u => (- (wr * g3 u + wi * g2 u))%R) (Z.to_nat B))]
    end.
    + apply rsum_ext. intros u Hu. rewrite dft_angle_even_up by exact HB.
      rewrite cos_turns, Hturn by lia.
      replace (2 * u * stride + r) with (u * (2 * stride) + r) by ring. reflexivity.
    + apply rsum_ext. intros u Hu. rewrite dft_angle_odd_up by exact HB.
      replace (dft_angle B (t * u) + dft_angle (2 * B) t - 2 * PI * IZR u - PI)%R
        with (dft_angle B (t * u) + dft_angle (2 * B) t - PI - 2 * PI * IZR u)%R by ring.
      rewrite cos_turns, Hturn by lia.
      rewrite Hc, Hs, (cos_plus_cis inv), cis_im_plus.
      replace ((2 * u + 1) * stride + r) with (u * (2 * stride) + (stride + r)) by ring.
      unfold g2, g3, wr, wi. ring.
    + rewrite E1, E2, (rsum_opp (fun u => (wr * g3 u + wi * g2 u)%R)),
        (rsum_plus (fun u => (wr * g3 u)%R) (fun u => (wi * g2 u)%R)),
        (rsum_scale wr g3), (rsum_scale wi g2). ring.
Qed.

(** ** The stages as transforms of growing blocks *)

(** Quotient and remainder by [B] of an index of the lower and of the
    upper half of a block of [2*B] cells. *)
Lemma block_halves (B i : Z) :
  0 < B ->
  let q := i / (2 * B) in
  let t := i mod (2 * B) in
  (t < B ->
   i / B = 2 * q /\ i mod B = t /\ (i + B) / B = 2 * q + 1 /\ (i + B) mod B = t) /\
  (B <= t ->
   i / B = 2 * q + 1 /\ i mod B = t - B /\ (i - B) / B = 2 * q /\ (i - B) mod B = t - B).
Proof.
  intros HB q t.
  pose proof (Z.div_mod i (2 * B) ltac:(lia)) as E. fold q t in E.
  pose proof (Z.mod_pos_bound i (2 * B) ltac:(lia)) as Ht. fold t in Ht.
  clearbody q t. split; intros Hc.
  - repeat split.
    + symmetry. apply (Z.div_unique i B (2 * q) t); lia.
    + symmetry. apply (Z.mod_unique i B (2 * q) t); lia.
    + symmetry. apply (Z.div_unique (i + B) B (2 * q + 1) t); lia.
    + symmetry. apply (Z.mod_unique (i + B) B (2 * q + 1) t); lia.
  - repeat split.
    + symmetry. apply (Z.div_unique i B (2 * q + 1) (t - B)); lia.
    + symmetry. apply (Z.mod_unique i B (2 * q + 1) (t - B)); lia.
    + symmetry. apply (Z.div_unique (i - B) B (2 * q) (t - B)); lia.
    + symmetry. apply (Z.mod_unique (i - B) B (2 * q) (t - B)); lia.
Qed.

Lemma bitrev_even (c : nat) (q : Z) : bitrev (S c) (2 * q) = bitrev c q.
Proof.
  cbn [bitrev]. replace (2 * q) with (q * 2) by ring.
  rewrite Z.mod_mul, Z.div_mul by lia. lia.
Qed.

Lemma bitrev_odd (c : nat) (q : Z) :
  bitrev (S c) (2 * q + 1) = 2 ^ Z.of_nat c + bitrev c q.
Proof.
  cbn [bitrev]. replace (2 * q + 1) with (1 + q * 2) by ring.
  rewrite Z.mod_add, Z.div_add by lia.
  change (1 mod 2) with 1. change (1 / 2) with 0. f_equal; lia.
Qed.

(** One stage doubles the blocks: before it every block of [B = 2^j] cells
    holds the transform of the [B] points of [x] with a stride of
    [2^(S c)], after it every block of [2*B] cells holds the one of the
    [2*B] points with a stride of [2^c]. *)
Lemma stage_ideal_dft (inv : Z) (x : memory) (j c : nat) (V : memory) :
  (forall i, 0 <= i < 2 ^ Z.of_nat (j + S c) ->
     xr V i = sub_dft_re inv x (2 ^ Z.of_nat j) (2 ^ Z.of_nat (S c))
                (bitrev (S c) (i / 2 ^ Z.of_nat j)) (i mod 2 ^ Z.of_nat j) /\
     xi V i = sub_dft_im inv x (2 ^ Z.of_nat j) (2 ^ Z.of_nat (S c))
                (bitrev (S c) (i / 2 ^ Z.of_nat j)) (i mod 2 ^ Z.of_nat j)) ->
  forall i, 0 <= i < 2 ^ Z.of_nat (S j + c) ->
    let V' := stage_ideal inv (2 ^ Z.of_nat j) V in
    xr V' i = sub_dft_re inv x (2 ^ Z.of_nat (S j)) (2 ^ Z.of_nat c)
                (bitrev c (i / 2 ^ Z.of_nat (S j))) (i mod 2 ^ Z.of_nat (S j)) /\
    xi V' i = sub_dft_im inv x (2 ^ Z.of_nat (S j)) (2 ^ Z.of_nat c)
                (bitrev c (i / 2 ^ Z.of_nat (S j))) (i mod 2 ^ Z.of_nat (S j)).
Proof.
  intros HV i Hi. cbv zeta.
  rewrite !(pow2_S j). rewrite !(pow2_S c) in HV.
  replace (2 ^ Z.of_nat (S j + c)) with (2 * 2 ^ Z.of_nat j * 2 ^ Z.of_nat c) in Hi
    by (rewrite Nat2Z.inj_add, Z.pow_add_r, pow2_S by lia; ring).
  replace (2 ^ Z.of_nat (j + S c)) with (2 * 2 ^ Z.of_nat j * 2 ^ Z.of_nat c) in HV
    by (rewrite Nat2Z.inj_add, Z.pow_add_r, pow2_S by lia; ring).
  assert (HB : 0 < 2 ^ Z.of_nat j) by (apply Z.pow_pos_nonneg; lia).
  assert (HC : 0 < 2 ^ Z.of_nat c) by (apply Z.pow_pos_nonneg; lia).
  set (B := 2 ^ Z.of_nat j) in *. set (C := 2 ^ Z.of_nat c) in *.
  destruct (block_halves B i HB) as [Hlow Hup]. cbv zeta in Hlow, Hup.
  pose proof (Z.div_mod i (2 * B) ltac:(lia)) as E.
  pose proof (Z.mod_pos_bound i (2 * B) ltac:(lia)) as Ht.
  set (q := i / (2 * B)) in *. set (t := i mod (2 * B)) in *.
  assert (Hq : 0 <= q < C).
  { split.
    - apply Z.div_pos; lia.
    - apply Z.div_lt_upper_bound; [lia|]. lia. }
  unfold stage_ideal. cbn [xr xi]. fold t.
  destruct (Z.ltb_spec t B) as [Hc|Hc].
  - destruct (Hlow Hc) as (Ed & Em & Ed' & Em').
    assert (Hi' : 0 <= i + B < 2 * B * C) by nia.
    destruct (HV i Hi) as [Hr Hi0]. destruct (HV (i + B) Hi') as [Hr' Hi0'].
    rewrite Ed, Em, bitrev_even in Hr, Hi0.
    rewrite Ed', Em', bitrev_odd in Hr', Hi0'. fold C in Hr', Hi0'.
    rewrite Hr, Hi0, Hr', Hi0', Em.
    destruct (sub_dft_lower inv x B C (bitrev c q) t HB) as [-> ->].
    split; reflexivity.
  - destruct (Hup Hc) as (Ed & Em & Ed' & Em').
    assert (Hi' : 0 <= i - B < 2 * B * C) by nia.
    destruct (HV i Hi) as [Hr Hi0]. destruct (HV (i - B) Hi') as [Hr' Hi0'].
    rewrite Ed, Em, bitrev_odd in Hr, Hi0. fold C in Hr, Hi0.
    rewrite Ed', Em', bitrev_even in Hr', Hi0'.
    rewrite Hr, Hi0, Hr', Hi0', Em.
    destruct (sub_dft_upper inv x B C (bitrev c q) (t - B) HB) as [Er Ei].
    replace (t - B + B) with t in Er, Ei by ring.
    rewrite Er, Ei. split; reflexivity.
Qed.

Lemma sub_dft_whole (inv : Z) (x : memory) (n t : Z) :
  sub_dft_re inv x n 1 0 t = dft_re inv n x t /\
  sub_dft_im inv x n 1 0 t = dft_im inv n x t.
Proof.
  unfold sub_dft_re, sub_dft_im, dft_re, dft_im.
  split; apply rsum_ext; intros u Hu;
    replace (u * 1 + 0) with u by ring; reflexivity.
Qed.

(** All the stages: from the points in binary inverted order to the
    transform. *)
Lemma stages_ideal_dft (inv : Z) (x : memory) (c : nat) :
  forall (j : nat) (V : memory),
    (forall i, 0 <= i < 2 ^ Z.of_nat (j + c) ->
       xr V i = sub_dft_re inv x (2 ^ Z.of_nat j) (2 ^ Z.of_nat c)
                  (bitrev c (i / 2 ^ Z.of_nat j)) (i mod 2 ^ Z.of_nat j) /\
       xi V i = sub_dft_im inv x (2 ^ Z.of_nat j) (2 ^ Z.of_nat c)
                  (bitrev c (i / 2 ^ Z.of_nat j)) (i mod 2 ^ Z.of_nat j)) ->
    forall i, 0 <= i < 2 ^ Z.of_nat (j + c) ->
      xr (stages_ideal inv j c V) i = dft_re inv (2 ^ Z.of_nat (j + c)) x i /\
      xi (stages_ideal inv j c V) i = dft_im inv (2 ^ Z.of_nat (j + c)) x i.
Proof.
  induction c as [|c IH]; intros j V HV i Hi.
  - cbn [stages_ideal]. destruct (HV i Hi) as [Hr Hx].
    replace (j + 0)%nat with j in * by lia.
    rewrite Z.mod_small in Hr, Hx by lia.
    cbn [bitrev] in Hr, Hx. change (2 ^ Z.of_nat 0) with 1 in Hr, Hx.
    destruct (sub_dft_whole inv x (2 ^ Z.of_nat j) i) as [E1 E2].
    rewrite Hr, Hx, E1, E2. split; reflexivity.
  - cbn [stages_ideal].
    replace (j + S c)%nat with (S j + c)%nat in Hi |- * by lia.
    apply IH; [|exact Hi].
    intros i' Hi'. apply (stage_ideal_dft inv x j c V HV i' Hi').
Qed.

(** From the points in binary inverted order, the stages give the
    transform. *)
Lemma stages_ideal_transform (inv : Z) (x : memory) (p : nat) (V : memory) :
  (forall i, 0 <= i < 2 ^ Z.of_nat p ->
     xr V i = xr x (bitrev p i) /\ xi V i = xi x (bitrev p i)) ->
  forall i, 0 <= i < 2 ^ Z.of_nat p ->
    xr (stages_ideal inv 0 p V) i = dft_re inv (2 ^ Z.of_nat p) x i /\
    xi (stages_ideal inv 0 p V) i = dft_im inv (2 ^ Z.of_nat p) x i.
Proof.
  intros HV i Hi.
  apply (stages_ideal_dft inv x p 0 V); [|exact Hi].
  intros i' Hi'. cbn [Nat.add] in Hi'.
  change (2 ^ Z.of_nat 0) with 1. rewrite Z.div_1_r, Z.mod_1_r.
  destruct (HV i' Hi') as [-> ->].
  unfold sub_dft_re, sub_dft_im. change (Z.to_nat 1) with 1%nat. cbn [rsum].
  change (Z.of_nat 0) with 0.
  replace (0 * 2 ^ Z.of_nat p + bitrev p i') with (bitrev p i') by ring.
  replace (0 * 0) with 0 by ring.
  unfold dft_angle. cbn [Z.opp].
  replace (2 * PI * 0 / 1)%R with 0%R by field.
  unfold cis_im. rewrite cos_0, sin_0. destruct (truthy inv); split; ring.
Qed.

(** ** The permutation phase and the transform together *)

Lemma truthy_false (x : Z) : truthy x = false -> x = 0.
Proof. unfold truthy. destruct (Z.eqb_spec x 0); [auto|discriminate]. Qed.



(** ** The inverse of the transform *)


















(** The radix-2 transform is the discrete Fourier transform. *)
Lemma radix2_fft_dft (inv : Z) (p : nat) (x : memory) (i : Z) :
  0 <= i < 2 ^ Z.of_nat p ->
  xr (radix2_fft inv p x) i = dft_re inv (2 ^ Z.of_nat p) x i /\
  xi (radix2_fft inv p x) i = dft_im inv (2 ^ Z.of_nat p) x i.
Proof.
  intros Hi. unfold radix2_fft.
  apply stages_ideal_transform; [|exact Hi].
  intros i' _. split; reflexivity.
Qed.



(** What [fftGen] prints when it gets its memory. *)
Lemma fftGen_prints (E : environment) (n : Z) (f : flags) (st : plan_state) (w : streams) :
  nzi_allocated E = true -> swap_allocated E = true ->
  planner n (symmIn f) (heap_junk E) = Some st ->
  fftGen E n f w = Ret tt (mkStreams (stdout w +++ code_text E n f st) (stderr w)).
Proof.
  intros Hn Hs Hst. unfold fftGen. rewrite Hn, Hs, Hst. cbn [negb].
  unfold bind, to_stdout, code_text. cbn [stdout stderr].
  rewrite !append_assoc. reflexivity.
Qed.


(** ** The generated code stays inside its arrays *)

Lemma emit_for_Forall_in {S L} (Q : L -> Prop) (body : Z -> S -> list L * S)
    (turns : list Z) :
  (forall i s, In i turns -> Forall Q (fst (body i s))) ->
  forall s, Forall Q (fst (emit_for body turns s)).
Proof.
  induction turns as [|t turns IH]; intros Hbody s; cbn [emit_for].
  - constructor.
  - pose proof (Hbody t s (or_introl eq_refl)) as H1. destruct (body t s) as [l1 s1].
    pose proof (IH (fun i s' Hi => Hbody i s' (or_intror Hi)) s1) as H2.
    destruct (emit_for body turns s1) as [l2 s2].
    cbn [fst] in *. apply Forall_app. split; assumption.
Qed.

(** A butterfly names the cells [ii] and [ii+k] only. *)
Lemma butterfly_cells (n : Z) (f : flags) (k lastKCycle : Z) (wr wi : R)
    (ii : Z) (nzi : list Z) :
  Forall (fun l => forall i, In i (bfly_cells l) -> i = ii \/ i = ii + k)
         (fst (butterfly n f k lastKCycle wr wi ii nzi)).
Proof.
  unfold butterfly. cbv zeta.
  set (t1 := tr_part1 n wr). set (t2 := tr_part2 n wi _ _).
  set (u1 := ti_part1 n wr _). set (u2 := ti_part2 n wi _).
  clearbody t1 t2 u1 u2.
  repeat match goal with
         | |- context [if ?b then _ else _] => destruct b
         end;
    cbn [fst app];
    repeat (constructor;
            try (cbn [bfly_cells In]; intros i Hi; intuition)).
Qed.

Lemma point_loop_cells (n : Z) (f : flags) (k istep lastKCycle : Z) (wr wi : R)
    (turns : list Z) :
  forall (ii : Z) (nzi : list Z),
    0 <= k -> 0 <= istep -> 0 <= ii ->
    Forall (fun l => cells_within
                       (ii + (Z.of_nat (List.length turns) - 1) * istep + k + 1)
                       (bfly_cells l))
      (fst (emit_for
              (fun _ '(ii, nzi) =>
                 let '(out, nzi') := butterfly n f k lastKCycle wr wi ii nzi in
                 (out, (ii + istep, nzi')))
              turns (ii, nzi))).
Proof.
  induction turns as [|t turns IH]; intros ii nzi Hk Hs Hii.
  - cbn. constructor.
  - cbn [emit_for].
    pose proof (butterfly_cells n f k lastKCycle wr wi ii nzi) as Hstep.
    destruct (butterfly n f k lastKCycle wr wi ii nzi) as [out nzi1].
    cbn [fst] in Hstep.
    specialize (IH (ii + istep) nzi1 Hk Hs ltac:(lia)).
    destruct (emit_for _ turns (ii + istep, nzi1)) as [l2 [ii2 nzi2]].
    cbn [fst List.length] in *. apply Forall_app. split.
    + eapply Forall_impl; [|exact Hstep]. intros l Hl.
      apply Forall_forall. intros i Hi. destruct (Hl i Hi) as [->| ->]; nia.
    + eapply Forall_impl; [|exact IH]. intros l Hl.
      eapply Forall_impl; [|exact Hl]. intros i Hi. cbv beta in Hi. nia.
Qed.

Lemma group_cells (p j : nat) (f : flags) (lastKCycle m : Z) (nzi : list Z) :
  (j < p)%nat ->
  0 <= m < 2 ^ Z.of_nat j ->
  Forall (fun l => cells_within (2 ^ Z.of_nat p) (bfly_cells l))
    (fst (group (2 ^ Z.of_nat p) f (2 ^ Z.of_nat j) (2 * 2 ^ Z.of_nat j) lastKCycle m nzi)).
Proof.
  intros Hj Hm. unfold group, point_loop. cbv zeta.
  set (k := 2 ^ Z.of_nat j) in *.
  set (c := 2 ^ Z.of_nat (p - j - 1)).
  assert (Hk : 0 < k) by (apply Z.pow_pos_nonneg; lia).
  assert (Hc : 0 < c) by (apply Z.pow_pos_nonneg; lia).
  assert (Hn : 2 ^ Z.of_nat p = c * (2 * k)).
  { subst c k. rewrite <- (Z.pow_succ_r 2 (Z.of_nat j)) by lia.
    rewrite <- Z.pow_add_r by lia. f_equal. lia. }
  rewrite Hn in *. rewrite last_point_index by lia.
  set (wr := cos _). set (wi := if truthy (inv f) then _ else _).
  pose proof (point_loop_cells (c * (2 * k)) f k (2 * k) lastKCycle wr wi
                (zrange m (c - 1 + m + 1)) m nzi ltac:(lia) ltac:(lia) ltac:(lia)) as H.
  rewrite zrange_length in H.
  destruct (emit_for _ (zrange m (c - 1 + m + 1)) (m, nzi)) as [out [ii' nzi']].
  cbn [fst] in *.
  eapply Forall_impl; [|exact H]. intros l Hl.
  eapply Forall_impl; [|exact Hl]. intros i Hi. cbv beta in Hi. nia.
Qed.

Lemma stage_loop_cells (p : nat) (f : flags) (fuel : nat) :
  forall (j : nat) (s : Z * list Z),
    (j <= p)%nat ->
    Forall (fun l => cells_within (2 ^ Z.of_nat p) (bfly_cells l))
      (fst (stage_loop (2 ^ Z.of_nat p) f fuel (2 ^ Z.of_nat j) s)).
Proof.
  induction fuel as [|fuel IH]; intros j [lastKCycle nzi] Hj.
  - cbn. constructor.
  - cbn [stage_loop].
    destruct (Z.ltb_spec (2 ^ Z.of_nat j) (2 ^ Z.of_nat p)) as [Hlt|Hge];
      [|cbn; constructor].
    assert (Hjp : (j < p)%nat).
    { destruct (Nat.lt_ge_cases j p) as [H|H]; [exact H|].
      assert (2 ^ Z.of_nat p <= 2 ^ Z.of_nat j) by (apply Z.pow_le_mono_r; lia). lia. }
    set (last' := if 2 * 2 ^ Z.of_nat j =? 2 ^ Z.of_nat p then 1 else lastKCycle).
    pose proof (emit_for_Forall_in
                  (fun l => cells_within (2 ^ Z.of_nat p) (bfly_cells l))
                  (group (2 ^ Z.of_nat p) f (2 ^ Z.of_nat j) (2 * 2 ^ Z.of_nat j) last')
                  (zrange 0 (2 ^ Z.of_nat j))
                  (fun m a Hm => group_cells p j f last' m a Hjp
                                   (proj1 (zrange_In 0 (2 ^ Z.of_nat j) m) Hm))
                  nzi) as H1.
    destruct (emit_for _ (zrange 0 (2 ^ Z.of_nat j)) nzi) as [l1 nzi1].
    specialize (IH (S j) (last', nzi1) ltac:(lia)).
    replace (2 ^ Z.of_nat (S j)) with (2 * 2 ^ Z.of_nat j) in IH
      by (rewrite Nat2Z.inj_succ, Z.pow_succ_r by lia; reflexivity).
    destruct (stage_loop _ f fuel (2 * 2 ^ Z.of_nat j) (last', nzi1)) as [l2 s2].
    cbn [fst] in *. apply Forall_app. split; assumption.
Qed.

(** No line of the butterflies names a cell outside the arrays of [n]
    cells, whatever the flags. *)
Lemma butterfly_lines_cells (p : nat) (f : flags) :
  Forall (fun l => cells_within (2 ^ Z.of_nat p) (bfly_cells l))
         (fst (emit_bfly (2 ^ Z.of_nat p) f)).
Proof.
  unfold emit_bfly. change 1 with (2 ^ Z.of_nat 0).
  apply stage_loop_cells. lia.
Qed.

Lemma emit_swap_cells (n realIn : Z) (r : SWAP) :
  0 <= swap_m r < n -> 0 <= swap_mr r < n ->
  (truthy (swap_symmIn r) = true -> 0 <= swap_m_new r < n /\ 0 <= swap_mr_new r < n) ->
  Forall (fun l => cells_within n (perm_cells l)) (emit_swap n realIn r).
Proof.
  intros Hm Hmr Hnew. unfold emit_swap, cells_within.
  destruct (truthy (swap_symmIn r)); cbn [negb].
  - destruct (Hnew eq_refl) as [H1 H2].
    destruct (truthy realIn); cbn [negb app];
      repeat match goal with
             | |- context [if ?b then _ else _] => destruct b
             end;
      repeat (constructor; cbn [perm_cells]; try assumption).
  - destruct (truthy realIn); cbn [negb app];
      repeat (constructor; cbn [perm_cells]; try assumption).
Qed.

Lemma emit_fill_cells (n symmIn nSwap : Z) (swap : list SWAP) :
  0 < n ->
  Forall (fun l => cells_within n (perm_cells l)) (emit_fill n symmIn nSwap swap).
Proof.
  intros Hn. unfold emit_fill. destruct (truthy symmIn); [|constructor].
  apply Forall_flat_map. apply Forall_forall. intros i Hi.
  apply zrange_In in Hi. unfold fill_body. cbv zeta.
  assert (0 <= Z.quot n 2) by (apply Z.quot_pos; lia).
  destruct (_ <? 0); [|constructor].
  unfold cells_within.
  repeat (constructor; cbn [perm_cells]; try lia).
Qed.

(** No line of the permutation phase names a cell outside the arrays of
    [n] cells: neither the fill-ins nor the commands, with or without the
    input symmetry. *)
Lemma permutation_lines_cells (p : nat) (realIn symmIn junk : Z) :
  exists st,
    planner (2 ^ Z.of_nat p) symmIn junk = Some st /\
    Forall (fun l => cells_within (2 ^ Z.of_nat p) (perm_cells l))
           (emit_perm (2 ^ Z.of_nat p) realIn symmIn st).
Proof.
  assert (Hpos : 0 < 2 ^ Z.of_nat p) by (apply Z.pow_pos_nonneg; lia).
  destruct (planner_pow2 p symmIn junk) as (st & Hst & Hrec & HnSwap & Hswap).
  exists st. split; [exact Hst|].
  unfold emit_perm. apply Forall_app. split; [apply emit_fill_cells; exact Hpos|].
  rewrite HnSwap, Hswap, emit_swaps_records.
  apply Forall_flat_map. apply Forall_forall. intros r Hr.
  pose proof (planner_shape _ _ junk st Hst) as Hshape.
  rewrite Forall_forall in Hshape. specialize (Hshape r Hr).
  assert (Hmr : swap_m r < 2 ^ Z.of_nat p /\ swap_mr r < 2 ^ Z.of_nat p).
  { destruct (truthy symmIn) eqn:Hs.
    - destruct p as [|p].
      + rewrite planner_one in Hst. injection Hst as <-. destruct Hr.
      + destruct (planner_inv p symmIn junk Hs) as (st' & Hst' & Hinv & _).
        rewrite Hst in Hst'. injection Hst' as <-.
        pose proof (inv_ok _ _ _ _ Hinv) as Hok. rewrite Forall_forall in Hok.
        destruct (Hok r Hr) as (H1 & H2 & _). split; [exact H1|].
        rewrite H2. apply bitrev_range.
    - apply truthy_false in Hs. subst symmIn.
      rewrite Hrec, plan_fold_plain in Hr. cbn [app] in Hr.
      apply in_map_iff in Hr. destruct Hr as (m & <- & Hm).
      apply filter_In in Hm. destruct Hm as [Hm _]. apply zrange_In in Hm.
      cbn [swap_m swap_mr]. split; [lia|apply bitrev_range]. }
  destruct Hshape as [Hlt Hkind]. destruct Hmr as [Hm Hmr].
  apply emit_swap_cells; [lia|lia|].
  intros Hflag.
  destruct Hkind as [(H0 & _)|(_ & _ & _ & Hmn & Hmrn)].
  - rewrite H0 in Hflag. discriminate Hflag.
  - rewrite Hmn, Hmrn.
    assert (0 <= Z.quot (2 ^ Z.of_nat p) 2) by (apply Z.quot_pos; lia).
    destruct (swap_m r >? _) eqn:E1; destruct (swap_mr r >? _) eqn:E2;
      rewrite ?Z.gtb_ltb in *;
      try apply Z.ltb_lt in E1; try apply Z.ltb_lt in E2; lia.
Qed.

(** X1.  No line of the generated code names a cell outside the arrays of
    [n] cells, for every power of two [n = 2^p] and all flags: neither
    the fill-ins and the commands of the permutation phase, with or
    without the input symmetry, nor the butterflies. *)
Theorem generated_code_within_arrays (p : nat) (f : flags) (junk : Z) :
  exists st,
    planner (2 ^ Z.of_nat p) (symmIn f) junk = Some st /\
    Forall (fun l => cells_within (2 ^ Z.of_nat p) (perm_cells l))
           (emit_perm (2 ^ Z.of_nat p) (realIn f) (symmIn f) st) /\
    Forall (fun l => cells_within (2 ^ Z.of_nat p) (bfly_cells l))
           (fst (emit_bfly (2 ^ Z.of_nat p) f)).
Proof.
  destruct (permutation_lines_cells p (realIn f) (symmIn f) junk) as (st & Hst & Hperm).
  exists st. split; [exact Hst|]. split; [exact Hperm|].
  apply butterfly_lines_cells.
Qed.

(** ** The size of the generated code *)

Lemma flat_map_length_le {A B} (f : A -> list B) (b : nat) (l : list A) :
  (forall x, In x l -> (List.length (f x) <= b)%nat) ->
  (List.length (flat_map f l) <= b * List.length l)%nat.
Proof.
  induction l as [|x l IH]; intros H; cbn [flat_map List.length]; [lia|].
  rewrite length_app.
  pose proof (H x (or_introl eq_refl)).
  pose proof (IH (fun y Hy => H y (or_intror Hy))). lia.
Qed.

(** The pairs of the binary inversion are made of different indices
    between 1 and [n-2]. *)
Lemma bitrev_pairs_count (p : nat) :
  (2 * List.length (bitrev_pairs (S p)) + 2 <= Z.to_nat (2 ^ Z.of_nat (S p)))%nat.
Proof.
  set (n := 2 ^ Z.of_nat (S p)).
  assert (Hpos : 0 < 2 ^ Z.of_nat p) by (apply Z.pow_pos_nonneg; lia).
  assert (Hn : n = 2 * 2 ^ Z.of_nat p) by apply pow2_S.
  unfold bitrev_pairs. rewrite length_map. fold n.
  set (F := filter (fun m => m <? bitrev (S p) m) (zrange 1 n)).
  assert (HF : forall m, In m F -> 1 <= m < n /\ m < bitrev (S p) m).
  { intros m Hm. apply filter_In in Hm. destruct Hm as [Hm Hlt].
    apply zrange_In in Hm. apply Z.ltb_lt in Hlt. split; assumption. }
  assert (Hnd : NoDup (F ++ map (bitrev (S p)) F)).
  { apply NoDup_app.
    - apply NoDup_filter, zrange_NoDup.
    - apply Injective_map_NoDup_in.
      + intros x y Hx Hy E. destruct (HF x Hx) as [Hxr _]. destruct (HF y Hy) as [Hyr _].
        apply (bitrev_inj (S p)); [fold n; lia|fold n; lia|exact E].
      + apply NoDup_filter, zrange_NoDup.
    - intros m Hm Hm'. apply in_map_iff in Hm'. destruct Hm' as (m' & E & Hin').
      destruct (HF m Hm) as [Hr Hlt]. destruct (HF m' Hin') as [Hr' Hlt'].
      rewrite <- E in Hlt. rewrite bitrev_involutive in Hlt by (fold n; lia). lia. }
  assert (Hincl : incl (F ++ map (bitrev (S p)) F) (zrange 1 (n - 1))).
  { intros x Hx. apply zrange_In. apply in_app_or in Hx. destruct Hx as [Hx|Hx].
    - destruct (HF x Hx) as [Hr Hlt].
      pose proof (bitrev_range (S p) x) as Hb. fold n in Hb. lia.
    - apply in_map_iff in Hx. destruct Hx as (m & <- & Hm).
      destruct (HF m Hm) as [Hr Hlt].
      pose proof (bitrev_range (S p) m) as Hb. fold n in Hb.
      assert (bitrev (S p) m <> n - 1).
      { intros E. pose proof (bitrev_ones (S p)) as Ho. fold n in Ho.
        assert (m = n - 1).
        { apply (bitrev_inj (S p)); [fold n; lia|fold n; lia|]. rewrite Ho. exact E. }
        lia. }
      lia. }
  pose proof (NoDup_incl_length Hnd Hincl) as Hlen.
  rewrite length_app, length_map, zrange_length in Hlen. lia.
Qed.

(** The planner stores as many commands as the binary inversion has
    pairs. *)
Lemma planner_count (p : nat) (symmIn junk : Z) :
  exists st,
    planner (2 ^ Z.of_nat (S p)) symmIn junk = Some st /\
    pl_nSwap st = Z.of_nat (List.length (records st)) /\
    pl_swap st = records st ++
                 repeat (swap_cell0 junk)
                   (Z.to_nat (2 ^ Z.of_nat (S p)) - List.length (records st)) /\
    List.length (records st) = List.length (bitrev_pairs (S p)).
Proof.
  destruct (planner_pow2 (S p) symmIn junk) as (st & Hst & Hrec & HnSwap & Hswap).
  exists st. split; [exact Hst|]. split; [exact HnSwap|]. split; [exact Hswap|].
  destruct (truthy symmIn) eqn:Hs.
  - destruct (planner_inv p symmIn junk Hs) as (st' & Hst' & Hinv & _).
    rewrite Hst in Hst'. injection Hst' as <-.
    pose proof (plan_inv_pairs (S p) symmIn (records st) Hinv) as Hperm.
    apply Permutation_length in Hperm. rewrite !length_map in Hperm. exact Hperm.
  - apply truthy_false in Hs. subst symmIn.
    rewrite Hrec, plan_fold_plain. reflexivity.
Qed.

Lemma emit_swap_length (n realIn : Z) (r : SWAP) :
  (List.length (emit_swap n realIn r) <= 6)%nat.
Proof.
  unfold emit_swap.
  destruct (negb (truthy (swap_symmIn r))), (negb (truthy realIn)); cbn; lia.
Qed.

Lemma butterfly_length (n : Z) (f : flags) (k lastKCycle : Z) (wr wi : R)
    (ii : Z) (nzi : list Z) :
  (List.length (fst (butterfly n f k lastKCycle wr wi ii nzi)) <= 6)%nat.
Proof.
  unfold butterfly. cbv zeta.
  set (t1 := tr_part1 n wr). set (t2 := tr_part2 n wi _ _).
  set (u1 := ti_part1 n wr _). set (u2 := ti_part2 n wi _).
  clearbody t1 t2 u1 u2.
  repeat match goal with
         | |- context [if ?b then _ else _] => destruct b
         end;
    cbn [fst app List.length]; lia.
Qed.

Lemma emit_for_length {S L} (body : Z -> S -> list L * S) (b : nat) (turns : list Z) :
  (forall i s, In i turns -> (List.length (fst (body i s)) <= b)%nat) ->
  forall s, (List.length (fst (emit_for body turns s)) <= b * List.length turns)%nat.
Proof.
  induction turns as [|t turns IH]; intros Hbody s; cbn [emit_for List.length].
  - cbn. lia.
  - pose proof (Hbody t s (or_introl eq_refl)) as H1. destruct (body t s) as [l1 s1].
    pose proof (IH (fun i s' Hi => Hbody i s' (or_intror Hi)) s1) as H2.
    destruct (emit_for body turns s1) as [l2 s2].
    cbn [fst] in *. rewrite length_app. lia.
Qed.

Lemma group_length (p j : nat) (f : flags) (lastKCycle m : Z) (nzi : list Z) :
  (j < p)%nat ->
  0 <= m < 2 ^ Z.of_nat j ->
  (List.length
     (fst (group (2 ^ Z.of_nat p) f (2 ^ Z.of_nat j) (2 * 2 ^ Z.of_nat j) lastKCycle m nzi))
   <= 6 * Z.to_nat (2 ^ Z.of_nat (p - j - 1)))%nat.
Proof.
  intros Hj Hm. unfold group, point_loop. cbv zeta.
  set (k := 2 ^ Z.of_nat j) in *.
  set (c := 2 ^ Z.of_nat (p - j - 1)).
  assert (Hk : 0 < k) by (apply Z.pow_pos_nonneg; lia).
  assert (Hc : 0 < c) by (apply Z.pow_pos_nonneg; lia).
  assert (Hn : 2 ^ Z.of_nat p = c * (2 * k)).
  { subst c k. rewrite <- (Z.pow_succ_r 2 (Z.of_nat j)) by lia.
    rewrite <- Z.pow_add_r by lia. f_equal. lia. }
  rewrite Hn in *. rewrite last_point_index by lia.
  set (wr := cos _). set (wi := if truthy (inv f) then _ else _).
  pose proof (emit_for_length
                (fun (_ : Z) '(ii, nzi) =>
                   let '(out, nzi') := butterfly (c * (2 * k)) f k lastKCycle wr wi ii nzi in
                   (out, (ii + 2 * k, nzi')))
                6 (zrange m (c - 1 + m + 1))) as H.
  rewrite zrange_length in H.
  replace (Z.to_nat (c - 1 + m + 1 - m)) with (Z.to_nat c) in H by lia.
  assert (Hbody : forall (i : Z) (s : Z * list Z), In i (zrange m (c - 1 + m + 1)) ->
            (List.length
               (fst ((fun (_ : Z) '(ii, nzi) =>
                        let '(out, nzi') :=
                          butterfly (c * (2 * k))%Z f k lastKCycle wr wi ii nzi in
                        (out, ((ii + 2 * k)%Z, nzi'))) i s)) <= 6)%nat).
  { intros i [ii a] _.
    pose proof (butterfly_length (c * (2 * k)) f k lastKCycle wr wi ii a) as Hb.
    destruct (butterfly (c * (2 * k)) f k lastKCycle wr wi ii a) as [out a'].
    exact Hb. }
  specialize (H Hbody (m, nzi)).
  destruct (emit_for _ (zrange m (c - 1 + m + 1)) (m, nzi)) as [out [ii' nzi']].
  exact H.
Qed.

Lemma stage_loop_length (p : nat) (f : flags) (fuel : nat) :
  forall (j : nat) (s : Z * list Z),
    (j <= p)%nat ->
    (List.length (fst (stage_loop (2 ^ Z.of_nat p) f fuel (2 ^ Z.of_nat j) s))
     <= 3 * Z.to_nat (2 ^ Z.of_nat p) * (p - j))%nat.
Proof.
  induction fuel as [|fuel IH]; intros j [lastKCycle nzi] Hj.
  - cbn [stage_loop fst List.length]. apply Nat.le_0_l.
  - cbn [stage_loop].
    destruct (Z.ltb_spec (2 ^ Z.of_nat j) (2 ^ Z.of_nat p)) as [Hlt|Hge];
      [|cbn [fst List.length]; apply Nat.le_0_l].
    assert (Hjp : (j < p)%nat).
    { destruct (Nat.lt_ge_cases j p) as [H|H]; [exact H|].
      assert (2 ^ Z.of_nat p <= 2 ^ Z.of_nat j) by (apply Z.pow_le_mono_r; lia). lia. }
    set (last' := if 2 * 2 ^ Z.of_nat j =? 2 ^ Z.of_nat p then 1 else lastKCycle).
    pose proof (emit_for_length
                  (group (2 ^ Z.of_nat p) f (2 ^ Z.of_nat j) (2 * 2 ^ Z.of_nat j) last')
                  (6 * Z.to_nat (2 ^ Z.of_nat (p - j - 1)))
                  (zrange 0 (2 ^ Z.of_nat j))
                  (fun m a Hm => group_length p j f last' m a Hjp
                                   (proj1 (zrange_In 0 (2 ^ Z.of_nat j) m) Hm))
                  nzi) as H1.
    rewrite zrange_length in H1.
    destruct (emit_for _ (zrange 0 (2 ^ Z.of_nat j)) nzi) as [l1 nzi1].
    specialize (IH (S j) (last', nzi1) ltac:(lia)).
    replace (2 ^ Z.of_nat (S j)) with (2 * 2 ^ Z.of_nat j) in IH
      by (rewrite Nat2Z.inj_succ, Z.pow_succ_r by lia; reflexivity).
    destruct (stage_loop _ f fuel (2 * 2 ^ Z.of_nat j) (last', nzi1)) as [l2 s2].
    cbn [fst] in *. rewrite length_app.
    assert (Hk : 0 < 2 ^ Z.of_nat j) by (apply Z.pow_pos_nonneg; lia).
    assert (Hc : 0 < 2 ^ Z.of_nat (p - j - 1)) by (apply Z.pow_pos_nonneg; lia).
    assert (Hn : 2 ^ Z.of_nat p = 2 ^ Z.of_nat (p - j - 1) * (2 * 2 ^ Z.of_nat j)).
    { rewrite <- (Z.pow_succ_r 2 (Z.of_nat j)) by lia.
      rewrite <- Z.pow_add_r by lia. f_equal. lia. }
    assert (Hstage : (6 * Z.to_nat (2 ^ Z.of_nat (p - j - 1))
                      * Z.to_nat (2 ^ Z.of_nat j - 0)
                      = 3 * Z.to_nat (2 ^ Z.of_nat p))%nat).
    { rewrite Hn. rewrite Z.sub_0_r.
      rewrite !Z2Nat.inj_mul by lia. change (Z.to_nat 2) with 2%nat. lia. }
    replace (p - j)%nat with (S (p - S j)) by lia.
    rewrite Nat.mul_succ_r. lia.
Qed.

(** X2.  The generated code has no more lines than this, for every power of
    two [n = 2^(p+1)] and all flags: the planner ends with at most
    [n/2 - 1] commands, so that the table of [n] commands that [fftGen]
    allocates is never full; the permutation phase, fill-ins and commands
    together, has at most [4*n] lines; and the butterflies have at most
    six lines for each of the [n/2] butterflies of each of the [log2 n]
    stages. *)
Theorem code_size (p : nat) (f : flags) (junk : Z) :
  let n := 2 ^ Z.of_nat (S p) in
  exists st,
    planner n (symmIn f) junk = Some st /\
    2 * pl_nSwap st + 2 <= n /\
    Z.of_nat (List.length (emit_perm n (realIn f) (symmIn f) st)) <= 4 * n /\
    Z.of_nat (List.length (fst (emit_bfly n f))) <= 3 * n * Z.of_nat (S p).
Proof.
  intros n.
  assert (Hpos : 0 < 2 ^ Z.of_nat p) by (apply Z.pow_pos_nonneg; lia).
  assert (Hn : n = 2 * 2 ^ Z.of_nat p) by apply pow2_S.
  destruct (planner_count p (symmIn f) junk) as (st & Hst & HnSwap & Hswap & Hlen).
  fold n in Hst, Hswap.
  pose proof (bitrev_pairs_count p) as Hcount. fold n in Hcount.
  exists st. split; [exact Hst|].
  split; [rewrite HnSwap, Hlen; lia|].
  split.
  - unfold emit_perm. rewrite length_app.
    rewrite HnSwap, Hswap, emit_swaps_records.
    pose proof (flat_map_length_le (emit_swap n (realIn f)) 6 (records st)
                  (fun r _ => emit_swap_length n (realIn f) r)) as Hsw.
    assert (Hfill : (List.length
                       (emit_fill n (symmIn f) (Z.of_nat (List.length (records st)))
                          (records st ++
                           repeat (swap_cell0 junk)
                             (Z.to_nat n - List.length (records st))))
                     <= Z.to_nat n)%nat).
    { unfold emit_fill. destruct (truthy (symmIn f)); [|cbn [List.length]; apply Nat.le_0_l].
      etransitivity.
      - apply (flat_map_length_le _ 2). intros i _. unfold fill_body. cbv zeta.
        destruct (_ <? 0); cbn; lia.
      - rewrite zrange_length.
        pose proof (quot_pow2_half p) as Hh. fold n in Hh. rewrite Hh. lia. }
    lia.
  - unfold emit_bfly.
    pose proof (stage_loop_length (S p) f (stage_fuel n) 0
                  (0, nzi_init n (realIn f)) ltac:(lia)) as H.
    change (2 ^ Z.of_nat 0) with 1 in H. fold n in H.
    replace (S p - 0)%nat with (S p) in H by lia.
    nia.
Qed.
(** ** The reference algorithm of the test program *)

(** The first loop of [fftRef] is the binary inversion. *)
Lemma ref_inversion_upto (p : nat) (s0 : memory) (turns : nat) :
  forall (m : Z) (s : memory),
    1 <= m -> m + Z.of_nat turns <= 2 ^ Z.of_nat p ->
    (forall i, 0 <= i < 2 ^ Z.of_nat p ->
       xr s i = perm_upto p m (xr s0) i /\ xi s i = perm_upto p m (xi s0) i) ->
    exists s',
      ref_inversion (2 ^ Z.of_nat p) turns m (bitrev p (m - 1)) s = Some s' /\
      forall i, 0 <= i < 2 ^ Z.of_nat p ->
        xr s' i = perm_upto p (m + Z.of_nat turns) (xr s0) i /\
        xi s' i = perm_upto p (m + Z.of_nat turns) (xi s0) i.
Proof.
  induction turns as [|turns IH]; intros m s Hm Hle Hs.
  - exists s. split; [reflexivity|]. rewrite Z.add_0_r. exact Hs.
  - cbn [ref_inversion]. rewrite next_mr_bitrev by lia.
    replace (m - 1 + 1) with m by ring.
    replace (m + Z.of_nat (S turns)) with (m + 1 + Z.of_nat turns) by lia.
    specialize (IH (m + 1) (if bitrev p m >? m then ref_swap m (bitrev p m) s else s)
                  ltac:(lia) ltac:(lia)).
    replace (m + 1 - 1) with m in IH by ring.
    apply IH.
    intros i Hi. rewrite Z.gtb_ltb.
    pose proof (perm_upto_step p m (xr s) (xr s0) ltac:(lia)
                  (fun j Hj => proj1 (Hs j Hj)) i Hi) as Hr.
    pose proof (perm_upto_step p m (xi s) (xi s0) ltac:(lia)
                  (fun j Hj => proj2 (Hs j Hj)) i Hi) as Hx.
    destruct (m <? bitrev p m); cbn [ref_swap xr xi]; split; assumption.
Qed.

Lemma ref_inversion_result (p : nat) (s : memory) :
  exists s',
    ref_inversion (2 ^ Z.of_nat p) (Z.to_nat (2 ^ Z.of_nat p - 1)) 1 0 s = Some s' /\
    forall i, 0 <= i < 2 ^ Z.of_nat p ->
      xr s' i = xr s (bitrev p i) /\ xi s' i = xi s (bitrev p i).
Proof.
  assert (Hpos : 0 < 2 ^ Z.of_nat p) by (apply Z.pow_pos_nonneg; lia).
  destruct (ref_inversion_upto p s (Z.to_nat (2 ^ Z.of_nat p - 1)) 1 s
              ltac:(lia) ltac:(lia)) as (s' & Hrun & Hres).
  - intros i Hi. rewrite !perm_upto_none by exact Hi. split; reflexivity.
  - exists s'. change (1 - 1) with 0 in Hrun. rewrite bitrev_0 in Hrun.
    split; [exact Hrun|]. intros i Hi. destruct (Hres i Hi) as [E1 E2].
    replace (1 + Z.of_nat (Z.to_nat (2 ^ Z.of_nat p - 1))) with (2 ^ Z.of_nat p)
      in E1, E2 by lia.
    rewrite perm_upto_all in E1, E2 by exact Hi. split; assumption.
Qed.

(** One butterfly of [fftRef] changes the cells [ii] and [ii+k] only. *)
Lemma ref_butterfly_cells (k : Z) (wr wi : R) (ii : Z) (s : memory) :
  0 < k ->
  let s' := ref_butterfly k wr wi ii s in
  xr s' ii = (xr s ii + (wr * xr s (ii + k) - wi * xi s (ii + k)))%R /\
  xi s' ii = (xi s ii + (wr * xi s (ii + k) + wi * xr s (ii + k)))%R /\
  xr s' (ii + k) = (xr s ii - (wr * xr s (ii + k) - wi * xi s (ii + k)))%R /\
  xi s' (ii + k) = (xi s ii - (wr * xi s (ii + k) + wi * xr s (ii + k)))%R /\
  forall i, i <> ii -> i <> ii + k -> xr s' i = xr s i /\ xi s' i = xi s i.
Proof.
  intros Hk. cbv zeta. unfold ref_butterfly. cbn [xr xi].
  rewrite !fupd_same.
  rewrite !(fupd_other _ (ii + k) ii) by lia.
  rewrite !(fupd_other _ ii (ii + k)) by lia. rewrite !fupd_same.
  repeat split; try reflexivity.
  - rewrite !fupd_other by assumption. reflexivity.
  - rewrite !fupd_other by assumption. reflexivity.
Qed.

Lemma ref_points_cons (k istep : Z) (wr wi : R) (u : Z) (turns : list Z)
    (ii : Z) (s : memory) :
  ref_points k istep wr wi (u :: turns) (ii, s)
  = ref_points k istep wr wi turns (ii + istep, ref_butterfly k wr wi ii s).
Proof. reflexivity. Qed.

(** The points of one group of [fftRef], against one stage of the plain
    algorithm. *)
Lemma ref_points_sim (k m : Z) (V : memory) :
  0 < k -> 0 <= m < k ->
  let wr := twiddle_re k m in
  let wi := twiddle_im 0 k m in
  let W := stage_ideal 0 k V in
  forall (turns : list Z) (t0 : Z) (s : memory),
    (forall t, t0 <= t < t0 + Z.of_nat (List.length turns) ->
       let i := m + t * (2 * k) in
       xr s i = xr V i /\ xi s i = xi V i /\
       xr s (i + k) = xr V (i + k) /\ xi s (i + k) = xi V (i + k)) ->
    let s' := snd (ref_points k (2 * k) wr wi turns (m + t0 * (2 * k), s)) in
    (forall i,
       (forall t, t0 <= t < t0 + Z.of_nat (List.length turns) ->
          i <> m + t * (2 * k) /\ i <> m + t * (2 * k) + k) ->
       xr s' i = xr s i /\ xi s' i = xi s i) /\
    (forall t, t0 <= t < t0 + Z.of_nat (List.length turns) ->
       let i := m + t * (2 * k) in
       xr s' i = xr W i /\ xi s' i = xi W i /\
       xr s' (i + k) = xr W (i + k) /\ xi s' (i + k) = xi W (i + k)).
Proof.
  intros Hk Hm wr wi W.
  induction turns as [|u turns IH]; intros t0 s Hpre; cbv zeta.
  - cbn [ref_points fold_left snd List.length]. split.
    + intros i _. split; reflexivity.
    + intros t Ht. lia.
  - rewrite ref_points_cons.
    set (ii := m + t0 * (2 * k)).
    destruct (ref_butterfly_cells k wr wi ii s Hk) as (B1 & B2 & B3 & B4 & Bframe).
    set (s1 := ref_butterfly k wr wi ii s) in *.
    replace (ii + 2 * k) with (m + (t0 + 1) * (2 * k)) by (unfold ii; ring).
    cbn [List.length] in Hpre |- *.
    assert (Hpre1 : forall t, t0 + 1 <= t < t0 + 1 + Z.of_nat (List.length turns) ->
               let i := m + t * (2 * k) in
               xr s1 i = xr V i /\ xi s1 i = xi V i /\
               xr s1 (i + k) = xr V (i + k) /\ xi s1 (i + k) = xi V (i + k)).
    { intros t Ht. cbv zeta.
      destruct (point_index_neq m k t t0 Hk ltac:(lia)) as (N1 & N2 & N3).
      fold ii in N1, N2, N3.
      destruct (Bframe (m + t * (2 * k)) N1 N2) as [-> ->].
      destruct (Bframe (m + t * (2 * k) + k) N3 ltac:(unfold ii; nia)) as [-> ->].
      apply Hpre. lia. }
    destruct (IH (t0 + 1) s1 Hpre1) as [IHframe IHcells]. cbv zeta in IHframe, IHcells.
    set (s' := snd (ref_points k (2 * k) wr wi turns (m + (t0 + 1) * (2 * k), s1))) in *.
    split.
    + intros i Hi.
      destruct (IHframe i) as [-> ->].
      { intros t Ht. apply Hi. lia. }
      destruct (Hi t0 ltac:(lia)) as [N1 N2]. fold ii in N1, N2.
      apply Bframe; assumption.
    + intros t Ht. cbv zeta.
      destruct (Z.eq_dec t t0) as [->|Hne].
      * fold ii.
        destruct (IHframe ii) as [-> ->].
        { intros t Ht'. destruct (point_index_neq m k t0 t Hk ltac:(lia)) as (N1 & N2 & N3).
          fold ii in N1, N2, N3. split; assumption. }
        destruct (IHframe (ii + k)) as [-> ->].
        { intros t Ht'. destruct (point_index_neq m k t t0 Hk ltac:(lia)) as (N1 & N2 & N3).
          fold ii in N1, N2, N3. split; [auto|unfold ii; nia]. }
        destruct (Hpre t0 ltac:(lia)) as (P1 & P2 & P3 & P4). fold ii in P1, P2, P3, P4.
        destruct (stage_ideal_lower 0 k m t0 V Hm) as [L1 L2].
        destruct (stage_ideal_upper 0 k m t0 V Hm) as [U1 U2].
        cbv zeta in L1, L2, U1, U2. fold ii W in L1, L2, U1, U2.
        rewrite B1, B2, B3, B4, P1, P2, P3, P4, L1, L2, U1, U2.
        repeat split; reflexivity.
      * apply IHcells. lia.
Qed.

(** One group of [fftRef]. *)
Lemma ref_group_sim (p j : nat) (m : Z) (V s : memory) :
  (j <= p)%nat ->
  let n := 2 ^ Z.of_nat (S p) in
  let k := 2 ^ Z.of_nat j in
  let c := 2 ^ Z.of_nat (p - j) in
  0 <= m < k ->
  (forall t, 0 <= t < c ->
     let i := m + t * (2 * k) in
     xr s i = xr V i /\ xi s i = xi V i /\
     xr s (i + k) = xr V (i + k) /\ xi s (i + k) = xi V (i + k)) ->
  let W := stage_ideal 0 k V in
  let s' := ref_group n k (2 * k) s m in
  (forall i,
     (forall t, 0 <= t < c -> i <> m + t * (2 * k) /\ i <> m + t * (2 * k) + k) ->
     xr s' i = xr s i /\ xi s' i = xi s i) /\
  (forall t, 0 <= t < c ->
     let i := m + t * (2 * k) in
     xr s' i = xr W i /\ xi s' i = xi W i /\
     xr s' (i + k) = xr W (i + k) /\ xi s' (i + k) = xi W (i + k)).
Proof.
  intros Hj n k c Hm Hpre W.
  destruct (points_of_group p j Hj) as [Hn Hc]. fold n k c in Hn, Hc.
  assert (Hk : 0 < k) by (apply Z.pow_pos_nonneg; lia).
  clearbody c.
  unfold ref_group. cbv zeta.
  rewrite Hn, last_point_index by lia.
  pose proof (ref_points_sim k m V Hk Hm (zrange m (c - 1 + m + 1)) 0 s) as H.
  cbv zeta in H. rewrite zrange_length in H.
  replace (Z.of_nat (Z.to_nat (c - 1 + m + 1 - m))) with c in H by lia.
  rewrite Z.add_0_l, Z.mul_0_l, Z.add_0_r in H.
  specialize (H Hpre).
  unfold twiddle_re, twiddle_im in H. cbn [truthy Z.eqb negb] in H.
  exact H.
Qed.

(** The groups of one stage of [fftRef]. *)
Lemma ref_groups_sim (p j : nat) (V : memory) :
  (j <= p)%nat ->
  let n := 2 ^ Z.of_nat (S p) in
  let k := 2 ^ Z.of_nat j in
  let c := 2 ^ Z.of_nat (p - j) in
  let W := stage_ideal 0 k V in
  forall (ms : list Z) (s : memory),
    NoDup ms -> (forall m, In m ms -> 0 <= m < k) ->
    (forall m t, In m ms -> 0 <= t < c ->
       let i := m + t * (2 * k) in
       xr s i = xr V i /\ xi s i = xi V i /\
       xr s (i + k) = xr V (i + k) /\ xi s (i + k) = xi V (i + k)) ->
    let s' := fold_left (ref_group n k (2 * k)) ms s in
    (forall i,
       (forall m t, In m ms -> 0 <= t < c ->
          i <> m + t * (2 * k) /\ i <> m + t * (2 * k) + k) ->
       xr s' i = xr s i /\ xi s' i = xi s i) /\
    (forall m t, In m ms -> 0 <= t < c ->
       let i := m + t * (2 * k) in
       xr s' i = xr W i /\ xi s' i = xi W i /\
       xr s' (i + k) = xr W (i + k) /\ xi s' (i + k) = xi W (i + k)).
Proof.
  intros Hj n k c W.
  induction ms as [|m ms IH]; intros s Hnd Hms Hpre; cbv zeta.
  - cbn [fold_left]. split.
    + intros i _. split; reflexivity.
    + intros m t [].
  - cbn [fold_left].
    assert (Hm : 0 <= m < k) by (apply Hms; now left).
    inversion Hnd as [|? ? Hnotin Hnd']; subst.
    destruct (ref_group_sim p j m V s Hj Hm
                (fun t Ht => Hpre m t (or_introl eq_refl) Ht)) as [Gframe Gcells].
    fold n k c W in Gframe, Gcells. cbv zeta in Gframe, Gcells.
    set (s1 := ref_group n k (2 * k) s m) in *.
    assert (Hpre1 : forall m' t, In m' ms -> 0 <= t < c ->
               let i := m' + t * (2 * k) in
               xr s1 i = xr V i /\ xi s1 i = xi V i /\
               xr s1 (i + k) = xr V (i + k) /\ xi s1 (i + k) = xi V (i + k)).
    { intros m' t Hin Ht. cbv zeta.
      assert (Hm' : 0 <= m' < k) by (apply Hms; now right).
      assert (Hne : m <> m') by (intros ->; contradiction).
      destruct (Gframe (m' + t * (2 * k))) as [-> ->].
      { intros t' Ht'.
        destruct (group_index_neq k m m' t t' Hm Hm' Hne) as (N1 & N2 & _). auto. }
      destruct (Gframe (m' + t * (2 * k) + k)) as [-> ->].
      { intros t' Ht'.
        destruct (group_index_neq k m m' t t' Hm Hm' Hne) as (_ & _ & N3 & N4). auto. }
      apply Hpre; [now right|exact Ht]. }
    destruct (IH s1 Hnd' (fun x Hx => Hms x (or_intror Hx)) Hpre1) as [IHframe IHcells].
    cbv zeta in IHframe, IHcells.
    set (s' := fold_left (ref_group n k (2 * k)) ms s1) in *.
    split.
    + intros i Hi.
      destruct (IHframe i) as [-> ->].
      { intros m' t Hin Ht. apply Hi; [now right|exact Ht]. }
      apply Gframe. intros t Ht. apply Hi; [now left|exact Ht].
    + intros m' t [<-|Hin] Ht; cbv zeta.
      * destruct (Gcells t Ht) as (C1 & C2 & C3 & C4).
        destruct (IHframe (m + t * (2 * k))) as [-> ->].
        { intros m' t' Hin Ht'.
          assert (Hm' : 0 <= m' < k) by (apply Hms; now right).
          assert (Hne : m' <> m) by (intros ->; contradiction).
          destruct (group_index_neq k m' m t t' Hm' Hm Hne) as (N1 & N2 & _). auto. }
        destruct (IHframe (m + t * (2 * k) + k)) as [-> ->].
        { intros m' t' Hin Ht'.
          assert (Hm' : 0 <= m' < k) by (apply Hms; now right).
          assert (Hne : m' <> m) by (intros ->; contradiction).
          destruct (group_index_neq k m' m t t' Hm' Hm Hne) as (_ & _ & N3 & N4). auto. }
        repeat split; assumption.
      * apply IHcells; assumption.
Qed.

(** One stage of [fftRef], on all of the array. *)
Lemma ref_stage_sim (p j : nat) (V s : memory) :
  (j <= p)%nat ->
  let n := 2 ^ Z.of_nat (S p) in
  let k := 2 ^ Z.of_nat j in
  (forall i, 0 <= i < n -> xr s i = xr V i /\ xi s i = xi V i) ->
  let W := stage_ideal 0 k V in
  let s' := fold_left (ref_group n k (2 * k)) (zrange 0 k) s in
  forall i, 0 <= i < n -> xr s' i = xr W i /\ xi s' i = xi W i.
Proof.
  intros Hj n k Hpre W s' i Hi.
  destruct (points_of_group p j Hj) as [Hn Hc].
  set (c := 2 ^ Z.of_nat (p - j)) in *. fold n k in Hn.
  assert (Hk : 0 < k) by (apply Z.pow_pos_nonneg; lia).
  destruct (ref_groups_sim p j V Hj (zrange 0 k) s (zrange_NoDup 0 k)
              (fun m Hin => proj1 (zrange_In 0 k m) Hin)) as [_ Hcells].
  - intros m t Hin Ht. cbv zeta. apply zrange_In in Hin.
    fold k c in Ht |- *.
    destruct (Hpre (m + t * (2 * k)) ltac:(nia)) as [E1 E2].
    destruct (Hpre (m + t * (2 * k) + k) ltac:(nia)) as [E3 E4].
    repeat split; assumption.
  - cbv zeta in Hcells. fold n k c W s' in Hcells.
    destruct (index_in_stage p j i Hj Hi) as (m & t & Hm & Ht & Hcase).
    fold k c in Hm, Ht, Hcase.
    destruct (Hcells m t (proj2 (zrange_In 0 k m) Hm) Ht) as (C1 & C2 & C3 & C4).
    destruct Hcase as [->| ->]; split; assumption.
Qed.

(** The stages of [fftRef] from [k = 2^j] on. *)
Lemma ref_stages_sim (p : nat) :
  forall (d j : nat) (s V : memory),
    (j + d = p)%nat ->
    (forall i, 0 <= i < 2 ^ Z.of_nat p -> xr s i = xr V i /\ xi s i = xi V i) ->
    let s' := ref_stages (2 ^ Z.of_nat p) (S (S d)) (2 ^ Z.of_nat j) s in
    let W := stages_ideal 0 j d V in
    forall i, 0 <= i < 2 ^ Z.of_nat p -> xr s' i = xr W i /\ xi s' i = xi W i.
Proof.
  induction d as [|d IH]; intros j s V Hjd Hpre; cbv zeta.
  - assert (j = p) by lia. subst j. cbn [ref_stages stages_ideal].
    rewrite Z.ltb_irrefl. exact Hpre.
  - destruct p as [|p]; [lia|].
    assert (Hj : (j <= p)%nat) by lia.
    change (ref_stages (2 ^ Z.of_nat (S p)) (S (S (S d))) (2 ^ Z.of_nat j) s)
      with (if 2 ^ Z.of_nat j <? 2 ^ Z.of_nat (S p)
            then ref_stages (2 ^ Z.of_nat (S p)) (S (S d)) (2 * 2 ^ Z.of_nat j)
                   (fold_left (ref_group (2 ^ Z.of_nat (S p)) (2 ^ Z.of_nat j)
                                 (2 * 2 ^ Z.of_nat j))
                              (zrange 0 (2 ^ Z.of_nat j)) s)
            else s).
    assert (Hlt : 2 ^ Z.of_nat j < 2 ^ Z.of_nat (S p)) by (apply Z.pow_lt_mono_r; lia).
    replace (2 ^ Z.of_nat j <? 2 ^ Z.of_nat (S p)) with true
      by (symmetry; apply Z.ltb_lt; exact Hlt).
    cbn [stages_ideal].
    pose proof (IH (S j)
                  (fold_left (ref_group (2 ^ Z.of_nat (S p)) (2 ^ Z.of_nat j)
                                (2 * 2 ^ Z.of_nat j))
                             (zrange 0 (2 ^ Z.of_nat j)) s)
                  (stage_ideal 0 (2 ^ Z.of_nat j) V) ltac:(lia)
                  (ref_stage_sim p j V s Hj Hpre)) as H.
    cbv zeta in H. rewrite (pow2_S j) in H. exact H.
Qed.

(** ** The test program *)

(** What [fftRef] leaves in the array. *)
Lemma fftRef_dft (p : nat) (s : memory) :
  exists s',
    fftRef (2 ^ Z.of_nat p) s = Some s' /\
    forall i, 0 <= i < 2 ^ Z.of_nat p ->
      xr s' i = dft_re 0 (2 ^ Z.of_nat p) s i /\
      xi s' i = dft_im 0 (2 ^ Z.of_nat p) s i.
Proof.
  destruct (ref_inversion_result p s) as (s1 & Hrun & Hperm).
  exists (ref_stages (2 ^ Z.of_nat p) (stage_fuel (2 ^ Z.of_nat p)) 1 s1).
  split; [unfold fftRef; rewrite Hrun; reflexivity|].
  intros i Hi. rewrite stage_fuel_pow2.
  change 1 with (2 ^ Z.of_nat 0).
  destruct (ref_stages_sim p p 0 s1 s1 ltac:(lia)
              (fun i' _ => conj eq_refl eq_refl) i Hi) as [-> ->].
  apply (stages_ideal_transform 0 s p s1 Hperm i Hi).
Qed.


(** *** The verdict of the test program *)

(** The loops that compare leave in [failed] whether a component is
    further than [EPS] from the reference. *)
Lemma compare_verdict (N : Z) (with_imag : bool) (s ref : memory) (failed : Z) :
  failed = 0 \/ failed = 1 ->
  let r := compare N with_imag s ref failed in
  (r = 0 \/ r = 1) /\
  (r = 0 <->
   failed = 0 /\
   forall i, 0 <= i < N ->
     (Rabs (xr s i - xr ref i) <= EPS)%R /\
     (with_imag = true -> (Rabs (xi s i - xi ref i) <= EPS)%R)).
Proof.
  intros Hf. cbv zeta. unfold compare.
  assert (Hall : forall l failed0, failed0 = 0 \/ failed0 = 1 ->
            let r := fold_left
              (fun failed i =>
                 let failed := if Rgtb (Rabs (xr s i - xr ref i)) EPS then 1 else failed in
                 if with_imag && Rgtb (Rabs (xi s i - xi ref i)) EPS then 1 else failed)
              l failed0 in
            (r = 0 \/ r = 1) /\
            (r = 0 <->
             failed0 = 0 /\
             forall i, In i l ->
               (Rabs (xr s i - xr ref i) <= EPS)%R /\
               (with_imag = true -> (Rabs (xi s i - xi ref i) <= EPS)%R))).
  { induction l as [|i l IH]; intros failed0 Hf0; cbn [fold_left].
    - cbv zeta. split; [exact Hf0|]. split.
      + intros E. split; [exact E|]. intros i [].
      + intros [E _]. exact E.
    - set (f1 := if Rgtb (Rabs (xr s i - xr ref i)) EPS then 1 else failed0).
      set (f2 := if with_imag && Rgtb (Rabs (xi s i - xi ref i)) EPS then 1 else f1).
      assert (Hf2 : f2 = 0 \/ f2 = 1).
      { unfold f2, f1. destruct (with_imag && _); [now right|].
        destruct (Rgtb _ EPS); [now right|exact Hf0]. }
      destruct (IH f2 Hf2) as [Hr Hiff]. cbv zeta in Hr, Hiff |- *.
      split; [exact Hr|]. rewrite Hiff. clear Hiff IH Hr.
      assert (Hstep : f2 = 0 <->
                failed0 = 0 /\ (Rabs (xr s i - xr ref i) <= EPS)%R /\
                (with_imag = true -> (Rabs (xi s i - xi ref i) <= EPS)%R)).
      { unfold f2, f1.
        destruct (Rgtb (Rabs (xr s i - xr ref i)) EPS) eqn:E1;
          destruct with_imag;
          destruct (Rgtb (Rabs (xi s i - xi ref i)) EPS) eqn:E2; cbn [andb];
          try apply Rgtb_true in E1; try apply Rgtb_false in E1;
          try apply Rgtb_true in E2; try apply Rgtb_false in E2;
          split; try (intros H; discriminate H);
          try (intros (H1 & H2 & H3); try specialize (H3 eq_refl); exfalso; lra);
          try (intros H; repeat split; try assumption; intros; try discriminate; lra);
          try (intros (H1 & H2 & H3); assumption). }
      rewrite Hstep. split.
      + intros ((H0 & H1 & H2) & Hl). split; [exact H0|].
        intros j [<-|Hj]; [split; assumption|apply Hl; exact Hj].
      + intros (H0 & Hl). split.
        * split; [exact H0|]. apply Hl. now left.
        * intros j Hj. apply Hl. now right. }
  destruct (Hall (zrange 0 N) failed Hf) as [Hr Hiff]. cbv zeta in Hr, Hiff.
  split; [exact Hr|]. rewrite Hiff. split.
  - intros [H0 H]. split; [exact H0|]. intros i Hi. apply H, zrange_In, Hi.
  - intros [H0 H]. split; [exact H0|]. intros i Hi. apply H, zrange_In, Hi.
Qed.

(** X5.  The test program accepts exactly the code that is right to
    within [EPS]: for [N = 2^p] points, any input and any two functions in
    the place of [fft] and [ffti], [main] returns 0 or 1, and it returns 0
    exactly when every real and every imaginary part after [fft], and after
    the completion by symmetry under [SYMM_OUT_OPTIMIZED], is at most [EPS]
    away from the discrete Fourier transform of the input, and every real
    part after [ffti] and the division by [N], with every imaginary part
    unless [REAL_OUT_OPTIMIZED] is set, is at most [EPS] away from the
    input.  The arithmetic of the test program itself, [fftRef] included,
    is that of the real numbers. *)
Theorem test_verdict (p : nat) (mac : test_macros) (fft ffti : memory -> memory)
    (rnd rnd_r rnd_i : Z -> R) (x : memory) :
  let N := 2 ^ Z.of_nat p in
  let s1 := if REAL_IN_OPTIMIZED mac then arbitrary_imag N rnd x else x in
  let s2 := fft s1 in
  let s3 := if SYMM_OUT_OPTIMIZED mac then reconstruct_upper N s2 else s2 in
  let s4 := if SYMM_IN_OPTIMIZED mac then arbitrary_upper N rnd_r rnd_i s3 else s3 in
  let s6 := scale_down N (ffti s4) in
  exists r,
    test_main N mac fft ffti rnd rnd_r rnd_i x = Some r /\
    (r = 0 \/ r = 1) /\
    (r = 0 <->
     (forall i, 0 <= i < N ->
        (Rabs (xr s3 i - dft_re 0 N x i) <= EPS)%R /\
        (Rabs (xi s3 i - dft_im 0 N x i) <= EPS)%R) /\
     (forall i, 0 <= i < N ->
        (Rabs (xr s6 i - xr x i) <= EPS)%R /\
        (REAL_OUT_OPTIMIZED mac = false -> (Rabs (xi s6 i - xi x i) <= EPS)%R))).
Proof.
  intros N s1 s2 s3 s4 s6.
  destruct (fftRef_dft p x) as (xRef & Href & HxRef). fold N in Href, HxRef.
  unfold test_main. rewrite Href. fold s1 s2 s3 s4 s6.
  destruct (compare_verdict N true s3 xRef 0 (or_introl eq_refl)) as [Hr1 Hiff1].
  cbv zeta in Hr1, Hiff1.
  set (f1 := compare N true s3 xRef 0) in *.
  destruct (compare_verdict N (negb (REAL_OUT_OPTIMIZED mac)) s6 x f1 Hr1) as [Hr2 Hiff2].
  cbv zeta in Hr2, Hiff2.
  set (f2 := compare N (negb (REAL_OUT_OPTIMIZED mac)) s6 x f1) in *.
  exists (if truthy f2 then 1 else 0).
  split; [reflexivity|].
  split; [destruct (truthy f2); [now right|now left]|].
  assert (Ht : (if truthy f2 then 1 else 0) = 0 <-> f2 = 0).
  { destruct Hr2 as [-> | ->]; cbn; split; congruence. }
  rewrite Ht, Hiff2, Hiff1. split.
  - intros ((_ & H1) & H2). split.
    + intros i Hi. destruct (H1 i Hi) as [A B]. destruct (HxRef i Hi) as [E1 E2].
      rewrite <- E1, <- E2. split; [exact A|exact (B eq_refl)].
    + intros i Hi. destruct (H2 i Hi) as [A B]. split; [exact A|].
      intros Hm. apply B. rewrite Hm. reflexivity.
  - intros [H1 H2]. split; [split; [reflexivity|]|].
    + intros i Hi. destruct (H1 i Hi) as [A B]. destruct (HxRef i Hi) as [E1 E2].
      rewrite E1, E2. split; [exact A|intros _; exact B].
    + intros i Hi. destruct (H2 i Hi) as [A B]. split; [exact A|].
      intros Hm. apply B. destruct (REAL_OUT_OPTIMIZED mac); [discriminate Hm|reflexivity].
Qed.

(** X3.  [fftRef] comes to an end for every power of two [n = 2^p], [n = 1]
    included, and leaves in every cell of the array the discrete Fourier
    transform [sum_u x[u] exp (- 2 PI I t u / n)] of what the array held,
    which is what the stages of the plain algorithm give on the points in
    binary inverted order.  Nothing is rounded in this arithmetic. *)
Theorem fftRef_computes_dft (p : nat) (x : memory) :
  exists r,
    fftRef (2 ^ Z.of_nat p) x = Some r /\
    (forall i, 0 <= i < 2 ^ Z.of_nat p ->
       xr r i = dft_re 0 (2 ^ Z.of_nat p) x i /\
       xi r i = dft_im 0 (2 ^ Z.of_nat p) x i /\
       xr r i = xr (radix2_fft 0 p x) i /\
       xi r i = xi (radix2_fft 0 p x) i).
Proof.
  destruct (fftRef_dft p x) as (r & Hrun & Hr).
  exists r. split; [exact Hrun|].
  intros i Hi. destruct (Hr i Hi) as [E1 E2].
  destruct (radix2_fft_dft 0 p x i Hi) as [F1 F2].
  rewrite F1, F2. repeat split; assumption.
Qed.



(** ** From cartesian to polar coordinates *)

Lemma Reqb_true (x y : R) : Reqb x y = true <-> x = y.
Proof. unfold Reqb. destruct (Req_dec_T x y); split; congruence. Qed.

Lemma Reqb_false (x y : R) : Reqb x y = false <-> x <> y.
Proof. unfold Reqb. destruct (Req_dec_T x y); split; congruence. Qed.

(** The length of the hypotenuse over one side. *)
Lemma sqrt_ratio (a b : R) :
  a <> 0%R ->
  sqrt (1 + (b / a)²) = (sqrt (a * a + b * b) / Rabs a)%R.
Proof.
  intros Ha.
  assert (Hsq : (0 < a * a)%R) by nra.
  replace (1 + (b / a)²)%R with ((a * a + b * b) / (a * a))%R
    by (unfold Rsqr; field; exact Ha).
  rewrite sqrt_div_alt by exact Hsq.
  replace (a * a)%R with (a²)%R by reflexivity.
  rewrite sqrt_Rsqr_abs. reflexivity.
Qed.

(** The cosine and the sine of the arc tangent of a quotient. *)
Lemma atan_ratio (a b : R) :
  a <> 0%R ->
  let h := sqrt (a * a + b * b) in
  (0 < h)%R /\
  (h * cos (atan (b / a)) = Rabs a)%R /\
  (h * sin (atan (b / a)) = b / a * Rabs a)%R.
Proof.
  intros Ha h.
  assert (Hh : (0 < h)%R) by (apply sqrt_lt_R0; nra).
  assert (Habs : (0 < Rabs a)%R) by (apply Rabs_pos_lt; exact Ha).
  rewrite cos_atan, sin_atan, (sqrt_ratio a b Ha). fold h.
  split; [exact Hh|]. split; field; split; lra.
Qed.

(** X6.  [conv] gives polar coordinates of the point, scaled by [2/N]: a radius
    that is not negative and an angle from [-PI] up to, but not, [PI], with
    [r*cos phi] and [r*sin phi] the two coordinates times [2/N].  The
    angle of the origin is 0. *)
Theorem conv_polar (N : Z) (x_r x_i : R) :
  0 < N ->
  let r := fst (conv N x_r x_i) in
  let phi := snd (conv N x_r x_i) in
  (0 <= r)%R /\ (- PI <= phi < PI)%R /\
  (r * cos phi = x_r * (2 / IZR N))%R /\
  (r * sin phi = x_i * (2 / IZR N))%R /\
  (x_r = 0%R -> x_i = 0%R -> r = 0%R /\ phi = 0%R).
Proof.
  intros HN. cbv zeta. unfold conv. cbn [fst snd].
  assert (HN' : (0 < IZR N)%R) by (apply IZR_lt; exact HN).
  assert (Hs : (0 < 2 / IZR N)%R) by (apply Rdiv_lt_0_compat; lra).
  set (h := sqrt (x_r * x_r + x_i * x_i)).
  set (c := (2 / IZR N)%R) in *.
  assert (Hh0 : (0 <= h)%R) by apply sqrt_pos.
  pose proof PI_RGT_0 as Hpi.
  split; [nra|].
  destruct (Rltb (Rabs x_i) (Rabs x_r)) eqn:Ecmp.
  - apply Rltb_true in Ecmp.
    assert (Hr0 : x_r <> 0%R).
    { intros ->. rewrite Rabs_R0 in Ecmp. pose proof (Rabs_pos x_i). lra. }
    replace (Reqb x_r 0) with false by (symmetry; apply Reqb_false; exact Hr0).
    destruct (atan_ratio x_r x_i Hr0) as (Hh & Hc & Hsn). fold h in Hh, Hc, Hsn.
    pose proof (atan_bound (x_i / x_r)) as Hb.
    destruct (Rltb x_r 0) eqn:Eneg.
    + apply Rltb_true in Eneg.
      rewrite (Rabs_left x_r Eneg) in Hc, Hsn.
      destruct (Rgtb x_i 0) eqn:Epos.
      * apply Rgtb_true in Epos.
        assert (Hu : (x_i / x_r < 0)%R).
        { unfold Rdiv. apply Rmult_pos_neg; [exact Epos|apply Rinv_lt_0_compat; exact Eneg]. }
        pose proof (atan_increasing _ _ Hu) as Hat. rewrite atan_0 in Hat.
        split; [lra|].
        rewrite cos_plus, sin_plus, cos_PI, sin_PI.
        split; [|split; [|intros E; contradiction]].
        -- replace (h * c * (cos (atan (x_i / x_r)) * -1 - sin (atan (x_i / x_r)) * 0))%R
             with (- c * (h * cos (atan (x_i / x_r))))%R by ring.
           rewrite Hc. ring.
        -- replace (h * c * (sin (atan (x_i / x_r)) * -1 + cos (atan (x_i / x_r)) * 0))%R
             with (- c * (h * sin (atan (x_i / x_r))))%R by ring.
           rewrite Hsn. field. exact Hr0.
      * apply Rgtb_false in Epos.
        assert (Hu : (0 <= x_i / x_r)%R).
        { unfold Rdiv. replace (x_i * / x_r)%R with ((- x_i) * (- / x_r))%R by ring.
          apply Rmult_le_pos; [lra|].
          pose proof (Rinv_lt_0_compat x_r Eneg). lra. }
        assert (Hat : (0 <= atan (x_i / x_r))%R).
        { destruct Hu as [Hu|Hu].
          - pose proof (atan_increasing _ _ Hu) as H. rewrite atan_0 in H. lra.
          - rewrite <- Hu, atan_0. lra. }
        split; [lra|].
        replace (atan (x_i / x_r) + - PI)%R with (atan (x_i / x_r) - PI)%R by ring.
        rewrite cos_minus, sin_minus, cos_PI, sin_PI.
        split; [|split; [|intros E; contradiction]].
        -- replace (h * c * (cos (atan (x_i / x_r)) * -1 + sin (atan (x_i / x_r)) * 0))%R
             with (- c * (h * cos (atan (x_i / x_r))))%R by ring.
           rewrite Hc. ring.
        -- replace (h * c * (sin (atan (x_i / x_r)) * -1 - cos (atan (x_i / x_r)) * 0))%R
             with (- c * (h * sin (atan (x_i / x_r))))%R by ring.
           rewrite Hsn. field. exact Hr0.
    + apply Rltb_false in Eneg.
      assert (Hpos : (0 < x_r)%R) by lra.
      rewrite (Rabs_right x_r) in Hc, Hsn by lra.
      split; [lra|].
      split; [|split; [|intros E; contradiction]].
      * replace (h * c * cos (atan (x_i / x_r)))%R
          with (c * (h * cos (atan (x_i / x_r))))%R by ring.
        rewrite Hc. ring.
      * replace (h * c * sin (atan (x_i / x_r)))%R
          with (c * (h * sin (atan (x_i / x_r))))%R by ring.
        rewrite Hsn. field. exact Hr0.
  - apply Rltb_false in Ecmp.
    destruct (Reqb x_i 0) eqn:Ezero.
    + apply Reqb_true in Ezero. subst x_i.
      assert (Hr0 : x_r = 0%R).
      { rewrite Rabs_R0 in Ecmp. pose proof (Rabs_pos x_r).
        destruct (Req_dec x_r 0) as [E|E]; [exact E|].
        pose proof (Rabs_pos_lt x_r E). lra. }
      subst x_r.
      assert (Hhz : h = 0%R).
      { unfold h. replace (0 * 0 + 0 * 0)%R with 0%R by ring. apply sqrt_0. }
      rewrite Hhz, cos_0, sin_0.
      split; [lra|]. split; [ring|]. split; [ring|]. intros _ _. split; ring.
    + apply Reqb_false in Ezero.
      destruct (atan_ratio x_i x_r Ezero) as (Hh & Hc & Hsn).
      replace (x_i * x_i + x_r * x_r)%R with (x_r * x_r + x_i * x_i)%R in Hh, Hc, Hsn by ring.
      fold h in Hh, Hc, Hsn.
      pose proof (atan_bound (x_r / x_i)) as Hb.
      destruct (Rgeb x_i 0) eqn:Epos.
      * apply Rgeb_true in Epos.
        rewrite (Rabs_right x_i) in Hc, Hsn by lra.
        split; [lra|].
        rewrite cos_shift, sin_shift.
        split; [|split; [|intros _ E; contradiction]].
        -- replace (h * c * sin (atan (x_r / x_i)))%R
             with (c * (h * sin (atan (x_r / x_i))))%R by ring.
           rewrite Hsn. field. exact Ezero.
        -- replace (h * c * cos (atan (x_r / x_i)))%R
             with (c * (h * cos (atan (x_r / x_i))))%R by ring.
           rewrite Hc. ring.
      * apply Rgeb_false in Epos.
        rewrite (Rabs_left x_i Epos) in Hc, Hsn.
        split; [lra|].
        replace (- PI / 2 - atan (x_r / x_i))%R
          with (- (PI / 2 + atan (x_r / x_i)))%R by field.
        rewrite cos_neg, sin_neg.
        rewrite cos_plus, sin_plus, cos_PI2, sin_PI2.
        split; [|split; [|intros _ E; contradiction]].
        -- replace (h * c * (0 * cos (atan (x_r / x_i)) - 1 * sin (atan (x_r / x_i))))%R
             with (- c * (h * sin (atan (x_r / x_i))))%R by ring.
           rewrite Hsn. field. exact Ezero.
        -- replace (h * c * - (1 * cos (atan (x_r / x_i)) + 0 * sin (atan (x_r / x_i))))%R
             with (- c * (h * cos (atan (x_r / x_i))))%R by ring.
           rewrite Hc. ring.
Qed.

Lemma conv_polar_witness :
  let r := fst (conv 8 1 0) in
  let phi := snd (conv 8 1 0) in
  (0 <= r)%R /\ (- PI <= phi < PI)%R /\
  (r * cos phi = 1 * (2 / IZR 8))%R /\
  (r * sin phi = 0 * (2 / IZR 8))%R /\
  (1%R = 0%R -> 0%R = 0%R -> r = 0%R /\ phi = 0%R).
Proof. exact (conv_polar 8 1 0 eq_refl). Defined.
(** ** The options of the command line *)

Lemma prefix_app (a b : string) : String.prefix a (a +++ b) = true.
Proof.
  induction a as [|ch a IH]; cbn; [apply prefix_nil|].
  destruct (ascii_dec ch ch); [exact IH|congruence].
Qed.

Lemma prefix_app_more (a b x : string) :
  String.prefix (a +++ b) (a +++ x) = String.prefix b x.
Proof.
  induction a as [|ch a IH]; cbn; [reflexivity|].
  destruct (ascii_dec ch ch); [exact IH|congruence].
Qed.

(** One turn of the loop over the entries, for an entry that is read. *)
Lemma arg_loop_step (E : environment) (fuel : nat) (a : string) (rest rest' : list string)
    (c c' : config) (w : streams) :
  is_option_arg a = true ->
  option_loop E (String.length a) a rest c w = Ret (c', rest') w ->
  arg_loop E (S fuel) (a :: rest) c w = arg_loop E fuel rest' c' w.
Proof.
  intros Ha Ho. cbn [arg_loop]. rewrite Ha. unfold bind. rewrite Ho. reflexivity.
Qed.

(** [main] when the entries [pre] are read and one more entry, or two,
    change the settings to [c']. *)
Lemma main_after (E : environment) (prog : string) (pre sp post : list string)
    (c c' : config) (w : streams) :
  arg_loop E (List.length pre) pre config0 (mkStreams EmptyString EmptyString) = Ret c w ->
  (forall fuel, (List.length sp + List.length post <= fuel)%nat ->
     arg_loop E fuel (sp ++ post) c w = arg_loop E (fuel - List.length sp) post c' w) ->
  main E (prog :: pre ++ sp ++ post) = main_from E post c' w.
Proof.
  intros Hpre Hsp.
  rewrite (main_read_more E prog pre (sp ++ post) c w Hpre).
  unfold main_from, bind.
  rewrite Hsp by (rewrite length_app; lia).
  rewrite (arg_loop_fuel E _ (List.length post)); [reflexivity| |lia].
  rewrite length_app. lia.
Qed.

(** *** The number of points *)

Lemma checkOption_points_reads (E : environment) (arg x : string) (rest : list string)
    (c : config) (w : streams) (v : Z) :
  scan_i E x = Some v ->
  arg = "n=" +++ x \/ arg = "-points=" +++ x \/
  (String.prefix "=" x = false /\ (arg = "n" +++ x \/ arg = "-points" +++ x)) ->
  checkOption E arg rest points_option c w = Ret (1, set_var Vn v c, rest) w.
Proof.
  intros Hv Harg. unfold checkOption, points_option. cbn [fmt shOpt lgOpt val].
  change (is_str_format "%i") with false. cbv iota.
  change ("n" +++ "=" +++ "%i") with ("n=" +++ "%i").
  change ("-points" +++ "=" +++ "%i") with ("-points=" +++ "%i").
  rewrite !sscanf_lit.
  destruct Harg as [->|[->|(Heq & [->| ->])]].
  - rewrite prefix_app, str_skip_append, Hv. reflexivity.
  - change (String.prefix "n=" ("-points=" +++ x)) with false.
    change (String.prefix "n" ("-points=" +++ x)) with false.
    cbv iota. rewrite prefix_app, str_skip_append, Hv. reflexivity.
  - change "n=" with ("n" +++ "=").
    rewrite (prefix_app_more "n" "=" x), Heq.
    rewrite prefix_app, str_skip_append, Hv. reflexivity.
  - change (String.prefix "n=" ("-points" +++ x)) with false.
    change (String.prefix "n" ("-points" +++ x)) with false.
    cbv iota. change "-points=" with ("-points" +++ "=").
    rewrite (prefix_app_more "-points" "=" x), Heq.
    rewrite prefix_app, str_skip_append, Hv. reflexivity.
Qed.

(** The entry holds the number. *)
Lemma option_loop_points_joined (E : environment) (fuel : nat) (arg x : string)
    (rest : list string) (c : config) (w : streams) (v : Z) :
  scan_i E x = Some v ->
  arg = "n=" +++ x \/ arg = "-points=" +++ x \/
  (String.prefix "=" x = false /\ (arg = "n" +++ x \/ arg = "-points" +++ x)) ->
  option_loop E (S fuel) ("-" +++ arg) rest c w = Ret (set_var Vn v c, rest) w.
Proof.
  intros Hv Harg. cbn [option_loop]. change ("-" +++ arg) with (String "-" arg).
  rewrite str_skip_1.
  assert (Hne : String.eqb arg EmptyString = false)
    by (destruct Harg as [->|[->|(_ & [->| ->])]]; reflexivity).
  rewrite Hne. unfold pOptions. cbn [checkOptions]. unfold bind at 1 2.
  fold points_option. rewrite (checkOption_points_reads E arg x rest c w v Hv Harg).
  reflexivity.
Qed.

(** The number is the next entry. *)
Lemma option_loop_points_apart (E : environment) (fuel : nat) (a x : string)
    (rest : list string) (c : config) (w : streams) (v : Z) :
  scan_i E EmptyString = None ->
  scan_i E x = Some v ->
  a = "-n" \/ a = "--points" ->
  option_loop E (S fuel) a (x :: rest) c w = Ret (set_var Vn v c, rest) w.
Proof.
  intros Hempty Hv Ha.
  assert (Hscan : forall b, sscanf E b "%i" = scan_i E b).
  { intros b. change "%i" with (EmptyString +++ "%i"). rewrite sscanf_lit, prefix_nil.
    cbn [String.length]. now rewrite str_skip_0. }
  destruct Ha as [-> | ->].
  - cbn [option_loop]. rewrite str_skip_1. cbn [String.eqb Ascii.eqb Bool.eqb].
    unfold pOptions. cbn [checkOptions]. unfold bind at 1 2.
    unfold checkOption at 1. cbn [fmt shOpt lgOpt val].
    change (is_str_format "%i") with false. cbv iota.
    change ("n" +++ "=" +++ "%i") with ("n=" +++ "%i").
    change ("-points" +++ "=" +++ "%i") with ("-points=" +++ "%i").
    rewrite !sscanf_lit.
    change (String.prefix "n=" "n") with false.
    change (String.prefix "n" "n") with true.
    change (String.prefix "-points=" "n") with false.
    change (String.prefix "-points" "n") with false.
    cbv iota. change (str_skip (String.length "n") "n") with EmptyString.
    rewrite Hempty. cbn [andb orb String.prefix].
    change (String.eqb "n" "n") with true. cbn [orb].
    rewrite Hscan, Hv. reflexivity.
  - cbn [option_loop]. rewrite str_skip_1. cbn [String.eqb Ascii.eqb Bool.eqb].
    unfold pOptions. cbn [checkOptions]. unfold bind at 1 2.
    unfold checkOption at 1. cbn [fmt shOpt lgOpt val].
    change (is_str_format "%i") with false. cbv iota.
    change ("n" +++ "=" +++ "%i") with ("n=" +++ "%i").
    change ("-points" +++ "=" +++ "%i") with ("-points=" +++ "%i").
    rewrite !sscanf_lit.
    change (String.prefix "n=" "-points") with false.
    change (String.prefix "n" "-points") with false.
    change (String.prefix "-points=" "-points") with false.
    change (String.prefix "-points" "-points") with true.
    cbv iota. change (str_skip (String.length "-points") "-points") with EmptyString.
    rewrite Hempty. cbn [andb orb].
    change (String.eqb "-points" "n") with false.
    change (String.eqb "-points" "-points") with true. cbn [orb].
    rewrite Hscan, Hv. reflexivity.
Qed.

(** Each of the six ways to give the number of points is one turn of the
    loop over the entries, or two, and stores the number. *)
Lemma arg_loop_points (E : environment) (post : list string) (c : config) (w : streams)
    (x : string) (v : Z) :
  scan_i E EmptyString = None ->
  String.prefix "=" x = false ->
  scan_i E x = Some v ->
  forall sp, In sp (points_spellings x) ->
  forall fuel, (List.length sp + List.length post <= fuel)%nat ->
    arg_loop E fuel (sp ++ post) c w
    = arg_loop E (fuel - List.length sp) post (set_var Vn v c) w.
Proof.
  intros Hempty Heq Hv sp Hsp fuel Hfuel.
  unfold points_spellings in Hsp. cbn [In] in Hsp.
  destruct Hsp as [<-|[<-|[<-|[<-|[<-|[<-|[]]]]]]]; cbn [List.length app] in *.
  - destruct fuel as [|[|fuel]]; [lia|lia|].
    rewrite (arg_loop_step E (S fuel) "-n" (x :: post) post c (set_var Vn v c) w eq_refl)
      by (apply option_loop_points_apart; auto).
    apply arg_loop_fuel; cbn; lia.
  - destruct fuel as [|fuel]; [lia|].
    rewrite (arg_loop_step E fuel ("-n" +++ x) post post c (set_var Vn v c) w).
    + f_equal. lia.
    + reflexivity.
    + change ("-n" +++ x) with ("-" +++ ("n" +++ x)). cbn [String.length].
      apply (option_loop_points_joined E _ ("n" +++ x) x); auto.
  - destruct fuel as [|fuel]; [lia|].
    rewrite (arg_loop_step E fuel ("-n=" +++ x) post post c (set_var Vn v c) w).
    + f_equal. lia.
    + reflexivity.
    + change ("-n=" +++ x) with ("-" +++ ("n=" +++ x)). cbn [String.length].
      apply (option_loop_points_joined E _ ("n=" +++ x) x); auto.
  - destruct fuel as [|[|fuel]]; [lia|lia|].
    rewrite (arg_loop_step E (S fuel) "--points" (x :: post) post c (set_var Vn v c) w eq_refl)
      by (apply option_loop_points_apart; auto).
    apply arg_loop_fuel; cbn; lia.
  - destruct fuel as [|fuel]; [lia|].
    rewrite (arg_loop_step E fuel ("--points" +++ x) post post c (set_var Vn v c) w).
    + f_equal. lia.
    + reflexivity.
    + change ("--points" +++ x) with ("-" +++ ("-points" +++ x)). cbn [String.length].
      apply (option_loop_points_joined E _ ("-points" +++ x) x); auto.
  - destruct fuel as [|fuel]; [lia|].
    rewrite (arg_loop_step E fuel ("--points=" +++ x) post post c (set_var Vn v c) w).
    + f_equal. lia.
    + reflexivity.
    + change ("--points=" +++ x) with ("-" +++ ("-points=" +++ x)). cbn [String.length].
      apply (option_loop_points_joined E _ ("-points=" +++ x) x); auto.
Qed.

(** X7.  The six ways to give the number of points come to the same: after
    entries that are read, each of them stores the number read by "%i" in
    [n], whatever [n] was, and [main] goes on with the entries after it. *)
Theorem points_option_spellings (E : environment) (prog : string)
    (pre post : list string) (c : config) (w : streams) (x : string) (v : Z) :
  arg_loop E (List.length pre) pre config0 (mkStreams EmptyString EmptyString) = Ret c w ->
  scan_i E EmptyString = None ->
  String.prefix "=" x = false ->
  scan_i E x = Some v ->
  forall sp, In sp (points_spellings x) ->
    main E (prog :: pre ++ sp ++ post) = main_from E post (set_var Vn v c) w.
Proof.
  intros Hpre Hempty Heq Hv sp Hsp.
  apply (main_after E prog pre sp post c _ w Hpre).
  apply (arg_loop_points E post c w x v); assumption.
Qed.

Lemma points_option_spellings_witness :
  main sample_env ["fftGen"; "-n=8"]
  = main_from sample_env [] (set_var Vn 8 config0) (mkStreams EmptyString EmptyString).
Proof.
  exact (points_option_spellings sample_env "fftGen" [] [] config0
           (mkStreams EmptyString EmptyString) "8" 8
           eq_refl eq_refl eq_refl eq_refl
           ["-n=8"] (or_intror (or_intror (or_introl eq_refl)))).
Defined.

(** *** The options without a parameter *)

Lemma checkOptions_skip (E : environment) (x : string) (rest : list string)
    (op : OPTION) (ops : list OPTION) (po : Z) (c : config) (w : streams) :
  checkOption E x rest op c w = Ret (0, c, rest) w ->
  checkOptions E x rest (op :: ops) po c w = checkOptions E x rest ops (po + 1) c w.
Proof. intros H. cbn [checkOptions]. unfold bind. rewrite H. reflexivity. Qed.

Lemma checkOptions_hit (E : environment) (x : string) (rest rest' : list string)
    (op : OPTION) (ops : list OPTION) (po r : Z) (c c' : config) (w : streams) :
  checkOption E x rest op c w = Ret (r, c', rest') w -> r <> 0 ->
  checkOptions E x rest (op :: ops) po c w = Ret (r, po, c', rest') w.
Proof.
  intros H Hr. cbn [checkOptions]. unfold bind. rewrite H.
  replace (r =? 0) with false by (symmetry; apply Z.eqb_neq; exact Hr). reflexivity.
Qed.

(** The short name, with anything after it. *)
Lemma checkOption_flag_short (E : environment) (tail : string) (rest : list string)
    (op : OPTION) (c : config) (w : streams) :
  fmt op = None ->
  checkOption E (shOpt op +++ tail) rest op c w = Ret (-1, bump (val op) c, rest) w.
Proof.
  intros Hf. unfold checkOption. rewrite Hf, prefix_app. reflexivity.
Qed.

(** The long name, alone. *)
Lemma checkOption_flag_long (E : environment) (rest : list string)
    (op : OPTION) (c : config) (w : streams) :
  fmt op = None ->
  String.prefix (shOpt op) (lgOpt op) = false ->
  checkOption E (lgOpt op) rest op c w = Ret (1, bump (val op) c, rest) w.
Proof.
  intros Hf Hsh. unfold checkOption. rewrite Hf, Hsh, String.eqb_refl, orb_true_r.
  reflexivity.
Qed.

Ltac skip_options :=
  repeat (rewrite checkOptions_skip;
          [|first [apply checkOption_points_no_fit; reflexivity
                  |apply checkOption_bool_no_fit; reflexivity]]).

Lemma checkOptions_flag_short (E : environment) (tail : string) (rest : list string)
    (op : OPTION) (c : config) (w : streams) :
  In op flag_options ->
  exists o,
    checkOptions E (shOpt op +++ tail) rest pOptions 0 c w
    = Ret (-1, o, bump (val op) c, rest) w /\
    shOpt (nth (Z.to_nat o) pOptions (mkOPTION "n" "-points" None Vn)) = shOpt op.
Proof.
  unfold flag_options, pOptions. cbn [tl In].
  intros [<-|[<-|[<-|[<-|[<-|[<-|[<-|[]]]]]]]]; cbn [shOpt val];
    eexists; (split;
      [skip_options;
       match goal with
       | |- checkOptions _ _ _ (?o :: _) _ _ _ = _ =>
           apply (checkOptions_hit E _ rest rest o);
           [apply (checkOption_flag_short E tail rest o c w); reflexivity|lia]
       end
      |reflexivity]).
Qed.

Lemma checkOptions_flag_long (E : environment) (rest : list string)
    (op : OPTION) (c : config) (w : streams) :
  In op flag_options ->
  exists o,
    checkOptions E (lgOpt op) rest pOptions 0 c w = Ret (1, o, bump (val op) c, rest) w.
Proof.
  unfold flag_options, pOptions. cbn [tl In].
  intros [<-|[<-|[<-|[<-|[<-|[<-|[<-|[]]]]]]]]; cbn [lgOpt val];
    eexists;
      (skip_options;
       match goal with
       | |- checkOptions _ _ _ (?o :: _) _ _ _ = _ =>
           apply (checkOptions_hit E _ rest rest o);
           [apply (checkOption_flag_long E rest o c w); reflexivity|lia]
       end).
Qed.

Lemma flag_option_names (op : OPTION) :
  In op flag_options ->
  (exists ch, shOpt op = String ch EmptyString) /\
  (exists l, lgOpt op = String "-" l /\ String.eqb l EmptyString = false).
Proof.
  unfold flag_options, pOptions. cbn [tl In].
  intros [<-|[<-|[<-|[<-|[<-|[<-|[<-|[]]]]]]]]; cbn [shOpt lgOpt];
    (split; [eexists; reflexivity|eexists; split; reflexivity]).
Qed.

(** The loop over the characters of an entry looks at them from the second
    one on. *)
Lemma option_loop_head (E : environment) (fuel : nat) (a b : ascii) (x : string)
    (rest : list string) (c : config) (w : streams) :
  option_loop E fuel (String a x) rest c w = option_loop E fuel (String b x) rest c w.
Proof. destruct fuel; cbn [option_loop]; [reflexivity|]. rewrite !str_skip_1. reflexivity. Qed.

Lemma option_loop_end (E : environment) (fuel : nat) (a : ascii)
    (rest : list string) (c : config) (w : streams) :
  option_loop E (S fuel) (String a EmptyString) rest c w = Ret (c, rest) w.
Proof. cbn [option_loop]. rewrite str_skip_1. reflexivity. Qed.

(** After a short name the loop goes on with what follows it. *)
Lemma option_loop_flag_short (E : environment) (fuel : nat) (a : ascii) (tail : string)
    (rest : list string) (op : OPTION) (c : config) (w : streams) :
  In op flag_options ->
  option_loop E (S fuel) (String a (shOpt op +++ tail)) rest c w
  = option_loop E fuel (shOpt op +++ tail) rest (bump (val op) c) w.
Proof.
  intros Hop. cbn [option_loop]. rewrite str_skip_1.
  destruct (flag_option_names op Hop) as [(ch & Hch) _].
  destruct (checkOptions_flag_short E tail rest op c w Hop) as (o & Hrun & Hsh).
  rewrite Hch in *. cbn [String.append] in *. cbn [String.eqb].
  unfold bind at 1. rewrite Hrun. cbn [Z.eqb]. rewrite Hsh.
  cbn [String.length Nat.sub]. rewrite str_skip_0. reflexivity.
Qed.

(** A long name ends the loop. *)
Lemma option_loop_flag_long (E : environment) (fuel : nat) (a : ascii)
    (rest : list string) (op : OPTION) (c : config) (w : streams) :
  In op flag_options ->
  option_loop E (S fuel) (String a (lgOpt op)) rest c w = Ret (bump (val op) c, rest) w.
Proof.
  intros Hop. cbn [option_loop]. rewrite str_skip_1.
  destruct (flag_option_names op Hop) as [_ (l & Hl & _)].
  destruct (checkOptions_flag_long E rest op c w Hop) as (o & Hrun).
  rewrite Hl in *. cbn [String.eqb].
  unfold bind at 1. rewrite Hrun. reflexivity.
Qed.

(** An entry that is the short or the long name of an option without a
    parameter is one turn of the loop over the entries. *)
Lemma arg_loop_flag (E : environment) (fuel : nat) (rest : list string)
    (c : config) (w : streams) (op : OPTION) :
  In op flag_options ->
  arg_loop E (S fuel) (("-" +++ shOpt op) :: rest) c w
  = arg_loop E fuel rest (bump (val op) c) w /\
  arg_loop E (S fuel) (("-" +++ lgOpt op) :: rest) c w
  = arg_loop E fuel rest (bump (val op) c) w.
Proof.
  intros Hop.
  destruct (flag_option_names op Hop) as [(ch & Hch) (l & Hl & Hne)].
  split.
  - apply arg_loop_step.
    + rewrite Hch. reflexivity.
    + change ("-" +++ shOpt op) with (String "-" (shOpt op)).
      rewrite <- (append_nil_r (shOpt op)) at 2.
      rewrite Hch at 1. cbn [String.length].
      rewrite option_loop_flag_short by exact Hop.
      rewrite append_nil_r, Hch. apply option_loop_end.
  - apply arg_loop_step.
    + rewrite Hl. reflexivity.
    + change ("-" +++ lgOpt op) with (String "-" (lgOpt op)). cbn [String.length].
      apply option_loop_flag_long. exact Hop.
Qed.

Lemma flag_option_not_points (op : OPTION) : In op flag_options -> val op <> Vn.
Proof.
  unfold flag_options, pOptions. cbn [tl In].
  intros [<-|[<-|[<-|[<-|[<-|[<-|[<-|[]]]]]]]]; discriminate.
Qed.

(** X8.  An option without a parameter, by its short or by its long name, adds
    one to its int and touches nothing else; [main] goes on with the
    entries after it. *)
Theorem flag_option_counts (E : environment) (prog : string)
    (pre post : list string) (c : config) (w : streams) (op : OPTION) :
  arg_loop E (List.length pre) pre config0 (mkStreams EmptyString EmptyString) = Ret c w ->
  In op flag_options ->
  main E (prog :: pre ++ ["-" +++ shOpt op] ++ post) = main_from E post (bump (val op) c) w /\
  main E (prog :: pre ++ ["-" +++ lgOpt op] ++ post) = main_from E post (bump (val op) c) w.
Proof.
  intros Hpre Hop.
  split; apply (main_after E prog pre _ post c _ w Hpre); intros fuel Hfuel;
    cbn [List.length app] in *; (destruct fuel as [|fuel]; [lia|]);
    replace (S fuel - 1)%nat with fuel by lia;
    apply (arg_loop_flag E fuel post c w op Hop).
Qed.

(** X9.  Short names of options without a parameter written together in
    one entry are read as the first short name alone, followed by an entry
    with the others: the two command lines give the same run. *)
Theorem short_options_split (E : environment) (prog : string)
    (pre post : list string) (c : config) (w : streams) (op : OPTION) (more : string) :
  arg_loop E (List.length pre) pre config0 (mkStreams EmptyString EmptyString) = Ret c w ->
  In op flag_options ->
  more <> EmptyString ->
  main E (prog :: pre ++ ["-" +++ shOpt op +++ more] ++ post)
  = main E (prog :: pre ++ ["-" +++ shOpt op; "-" +++ more] ++ post).
Proof.
  intros Hpre Hop Hmore.
  destruct (flag_option_names op Hop) as [(ch & Hch) _].
  destruct more as [|m0 more]; [congruence|].
  rewrite !(main_read_more E prog pre _ c w Hpre). unfold bind.
  cbn [List.length app].
  replace (arg_loop E (S (S (List.length post)))
             (("-" +++ shOpt op) :: ("-" +++ String m0 more) :: post) c w)
    with (arg_loop E (S (List.length post)) (("-" +++ String m0 more) :: post)
            (bump (val op) c) w).
  - cbn [arg_loop]. rewrite Hch. cbn [String.append is_option_arg String.get Ascii.eqb
                                       Bool.eqb andb].
    unfold bind. cbn [String.length].
    change (String ch (String m0 more)) with (String ch EmptyString +++ String m0 more).
    rewrite <- Hch. rewrite option_loop_flag_short by exact Hop.
    rewrite Hch. cbn [String.append].
    rewrite (option_loop_head E _ ch "-"). reflexivity.
  - symmetry.
    apply (arg_loop_step E (S (List.length post)) _ _ _ c (bump (val op) c) w).
    + rewrite Hch. reflexivity.
    + change ("-" +++ shOpt op) with (String "-" (shOpt op)).
      rewrite <- (append_nil_r (shOpt op)) at 2.
      rewrite Hch at 1. cbn [String.length].
      rewrite option_loop_flag_short by exact Hop.
      rewrite append_nil_r, Hch. apply option_loop_end.
Qed.

Lemma flag_option_counts_witness :
  main sample_env ["fftGen"; "-i"]
  = main_from sample_env [] (bump Vinv config0) (mkStreams EmptyString EmptyString) /\
  main sample_env ["fftGen"; "--inverse"]
  = main_from sample_env [] (bump Vinv config0) (mkStreams EmptyString EmptyString).
Proof.
  exact (flag_option_counts sample_env "fftGen" [] [] config0
           (mkStreams EmptyString EmptyString) (mkOPTION "i" "-inverse" None Vinv)
           eq_refl (or_introl eq_refl)).
Defined.

Lemma short_options_split_witness :
  main sample_env ["fftGen"; "-n"; "8"; "-ir"]
  = main sample_env ["fftGen"; "-n"; "8"; "-i"; "-r"].
Proof.
  exact (short_options_split sample_env "fftGen" ["-n"; "8"] []
           (set_var Vn 8 config0) (mkStreams EmptyString EmptyString)
           (mkOPTION "i" "-inverse" None Vinv) "r"
           eq_refl (or_introl eq_refl) ltac:(discriminate)).
Defined.

(** *** Help and version *)

Lemma checkOptions_standard (E : environment) (x : string) (rest : list string)
    (c : config) (w : streams) :
  x = "-version" \/ x = "h" \/ x = "-help" \/
  (exists t, x = "V" +++ t) \/ (exists t, x = "?" +++ t) ->
  checkOptions E x rest pOptions 0 c w = Ret (0, 8, c, rest) w.
Proof.
  intros Hx.
  apply (checkOptions_no_fit E x rest c w pOptions 0).
  intros op Hin. unfold pOptions in Hin. cbn [In] in Hin.
  destruct Hx as [->|[->|[->|[(t & ->)|(t & ->)]]]];
    (destruct Hin as [<-|Hin]; [apply checkOption_points_no_fit; reflexivity|]);
    repeat (destruct Hin as [<-|Hin];
            [apply checkOption_bool_no_fit; reflexivity|]);
    destruct Hin.
Qed.

Lemma option_loop_version (E : environment) (fuel : nat) (a : ascii) (x : string)
    (rest : list string) (c : config) (w : streams) :
  x = "-version" \/ (exists t, x = "V" +++ t) ->
  option_loop E (S fuel) (String a x) rest c w
  = Exit EXIT_SUCCESS (mkStreams (stdout w +++ version_text) (stderr w)).
Proof.
  intros Hx. cbn [option_loop]. rewrite str_skip_1.
  assert (Hne : String.eqb x EmptyString = false)
    by (destruct Hx as [->|(t & ->)]; reflexivity).
  rewrite Hne. unfold bind at 1. rewrite checkOptions_standard by tauto.
  destruct Hx as [->|(t & ->)]; [reflexivity|].
  cbn [Z.eqb]. rewrite (prefix_app "V" t), orb_true_r. reflexivity.
Qed.

Lemma option_loop_help (E : environment) (fuel : nat) (a : ascii) (x : string)
    (rest : list string) (c : config) (w : streams) :
  x = "h" \/ x = "-help" \/ (exists t, x = "?" +++ t) ->
  option_loop E (S fuel) (String a x) rest c w
  = Exit EXIT_SUCCESS (mkStreams (stdout w +++ help_text) (stderr w)).
Proof.
  intros Hx. cbn [option_loop]. rewrite str_skip_1.
  assert (Hne : String.eqb x EmptyString = false)
    by (destruct Hx as [->|[->|(t & ->)]]; reflexivity).
  rewrite Hne. unfold bind at 1. rewrite checkOptions_standard by tauto.
  assert (Hout : forall w0 : streams,
            @info (config * list string) false w0
            = Exit EXIT_SUCCESS (mkStreams (stdout w0 +++ help_text) (stderr w0))).
  { intros w0. unfold info, bind, to_stdout, exit, help_text. cbn [stdout stderr].
    rewrite !append_assoc. reflexivity. }
  destruct Hx as [->|[->|(t & ->)]]; [apply Hout|apply Hout|].
  cbn [Z.eqb].
  change (String.eqb ("?" +++ t) "-version") with false.
  change (String.prefix "V" ("?" +++ t)) with false.
  rewrite (prefix_app "?" t), orb_true_r. apply Hout.
Qed.

(** X10.  After entries that are read, [-V], with anything written after it,
    and [--version] print the name and the version on [stdout], and [-h],
    [--help] and [-?], with anything written after it, print the usage
    there; [main] ends with [EXIT_SUCCESS], nothing is on [stderr], the
    entries after the option are not looked at, and no number of points has
    to be given. *)
Theorem help_and_version (E : environment) (prog : string)
    (pre post : list string) (c : config) (w : streams) (a : string) :
  arg_loop E (List.length pre) pre config0 (mkStreams EmptyString EmptyString) = Ret c w ->
  (a = "--version" \/ (exists t, a = "-V" +++ t) ->
   main E (prog :: pre ++ a :: post)
   = Exit EXIT_SUCCESS (mkStreams version_text EmptyString)) /\
  (a = "-h" \/ a = "--help" \/ (exists t, a = "-?" +++ t) ->
   main E (prog :: pre ++ a :: post)
   = Exit EXIT_SUCCESS (mkStreams help_text EmptyString)).
Proof.
  intros Hpre.
  pose proof (arg_loop_silent E _ _ _ _ _ _ Hpre) as Hw. subst w.
  rewrite (main_read_more E prog pre (a :: post) c _ Hpre).
  unfold bind. cbn [List.length arg_loop]. split.
  - intros Ha.
    assert (Hopt : is_option_arg a = true)
      by (destruct Ha as [->|(t & ->)]; reflexivity).
    rewrite Hopt. unfold bind.
    assert (Hrun : option_loop E (String.length a) a post c (mkStreams EmptyString EmptyString)
                   = Exit EXIT_SUCCESS (mkStreams version_text EmptyString)).
    { destruct Ha as [->|(t & ->)].
      - apply (option_loop_version E _ "-" "-version"). now left.
      - apply (option_loop_version E _ "-" ("V" +++ t)). right. now exists t. }
    rewrite Hrun. reflexivity.
  - intros Ha.
    assert (Hopt : is_option_arg a = true)
      by (destruct Ha as [->|[->|(t & ->)]]; reflexivity).
    rewrite Hopt. unfold bind.
    assert (Hrun : option_loop E (String.length a) a post c (mkStreams EmptyString EmptyString)
                   = Exit EXIT_SUCCESS (mkStreams help_text EmptyString)).
    { destruct Ha as [->|[->|(t & ->)]].
      - apply (option_loop_help E _ "-" "h"). now left.
      - apply (option_loop_help E _ "-" "-help"). right. now left.
      - apply (option_loop_help E _ "-" ("?" +++ t)). right. right. now exists t. }
    rewrite Hrun. reflexivity.
Qed.

Lemma help_and_version_witness :
  main sample_env ["fftGen"; "-V"; "-n"; "3"]
  = Exit EXIT_SUCCESS (mkStreams version_text EmptyString) /\
  main sample_env ["fftGen"; "--help"]
  = Exit EXIT_SUCCESS (mkStreams help_text EmptyString).
Proof.
  split.
  - exact (proj1 (help_and_version sample_env "fftGen" [] ["-n"; "3"] config0
                    (mkStreams EmptyString EmptyString) "-V" eq_refl)
                 (or_intror (ex_intro _ EmptyString eq_refl))).
  - exact (proj2 (help_and_version sample_env "fftGen" [] [] config0
                    (mkStreams EmptyString EmptyString) "--help" eq_refl)
                 (or_intror (or_introl eq_refl))).
Defined.

(** *** The flags count as zero or not zero *)

Lemma plan_record_truth (n s s' m mr nSwap : Z) (swap : list SWAP) :
  truthy s = truthy s' ->
  plan_record n s m mr nSwap swap = plan_record n s' m mr nSwap swap.
Proof. intros H. unfold plan_record. rewrite H. reflexivity. Qed.

Lemma plan_loop_truth (n s s' : Z) (turns : nat) :
  truthy s = truthy s' ->
  forall m st, plan_loop n s turns m st = plan_loop n s' turns m st.
Proof.
  intros H. induction turns as [|turns IH]; intros m st; cbn [plan_loop]; [reflexivity|].
  unfold plan_body.
  destruct (next_mr n (pl_mr st)) as [mr|]; [|reflexivity].
  rewrite (plan_record_truth n s s' m mr _ _ H).
  destruct (mr >? m); apply IH.
Qed.

Lemma emit_perm_truth (n r r' s s' : Z) (st : plan_state) :
  truthy r = truthy r' -> truthy s = truthy s' ->
  emit_perm n r s st = emit_perm n r' s' st.
Proof.
  intros Hr Hs. unfold emit_perm, emit_fill, emit_swaps. rewrite Hs. f_equal.
  apply flat_map_ext. intros k. unfold emit_swap. rewrite Hr. reflexivity.
Qed.

Lemma butterfly_truth (n : Z) (f f' : flags) (k lastKCycle : Z) (wr wi : R)
    (ii : Z) (nzi : list Z) :
  same_flags f f' ->
  butterfly n f k lastKCycle wr wi ii nzi = butterfly n f' k lastKCycle wr wi ii nzi.
Proof.
  intros (_ & Hri & Hro & _ & Hso). unfold butterfly. rewrite Hri, Hro, Hso. reflexivity.
Qed.

Lemma emit_for_ext {S L} (body body' : Z -> S -> list L * S) (turns : list Z) :
  (forall i s, body i s = body' i s) ->
  forall s, emit_for body turns s = emit_for body' turns s.
Proof.
  intros H. induction turns as [|t turns IH]; intros s; cbn [emit_for]; [reflexivity|].
  rewrite H. destruct (body' t s) as [l1 s1]. rewrite IH. reflexivity.
Qed.

Lemma group_truth (n : Z) (f f' : flags) (k istep lastKCycle m : Z) (nzi : list Z) :
  same_flags f f' ->
  group n f k istep lastKCycle m nzi = group n f' k istep lastKCycle m nzi.
Proof.
  intros H. pose proof H as (Hinv & _). unfold group, point_loop. rewrite Hinv. cbv zeta.
  rewrite (emit_for_ext _
             (fun (_ : Z) '(ii, nzi) =>
                let '(out, nzi') :=
                  butterfly n f' k lastKCycle (cos (PI * IZR (- m) / IZR k))
                    (if truthy (inv f') then (- sin (PI * IZR (- m) / IZR k))%R
                     else sin (PI * IZR (- m) / IZR k)) ii nzi in
                (out, (ii + istep, nzi')))).
  - reflexivity.
  - intros i [ii a]. rewrite (butterfly_truth n f f' _ _ _ _ _ _ H). reflexivity.
Qed.

Lemma stage_loop_truth (n : Z) (f f' : flags) (fuel : nat) :
  same_flags f f' ->
  forall k s, stage_loop n f fuel k s = stage_loop n f' fuel k s.
Proof.
  intros H. induction fuel as [|fuel IH]; intros k [lastKCycle nzi]; cbn [stage_loop];
    [reflexivity|].
  destruct (k <? n); [|reflexivity].
  rewrite (emit_for_ext _ (group n f' k (2 * k) (if 2 * k =? n then 1 else lastKCycle)))
    by (intros m a; apply group_truth; exact H).
  destruct (emit_for _ (zrange 0 k) nzi) as [l1 nzi1]. rewrite IH. reflexivity.
Qed.

Lemma fftGen_truth (E : environment) (n : Z) (f f' : flags) :
  same_flags f f' -> forall w, fftGen E n f w = fftGen E n f' w.
Proof.
  intros H w. pose proof H as (_ & Hri & _ & Hsi & _).
  unfold fftGen, planner, emit_bfly, nzi_init.
  rewrite (plan_loop_truth n _ _ _ Hsi), Hri.
  rewrite (stage_loop_truth n f f' _ H).
  destruct (negb (nzi_allocated E)); [reflexivity|].
  destruct (negb (swap_allocated E)); [reflexivity|].
  destruct (plan_loop n (symmIn f') _ 1 _) as [st|]; [|reflexivity].
  rewrite (emit_perm_truth n _ _ _ _ st Hri Hsi). reflexivity.
Qed.

(** [main] after the command line is read, for settings it cannot tell
    apart. *)
Lemma main_body_truth (E : environment) (c c' : config) (w : streams) :
  same_settings c c' -> main_body E c w = main_body E c' w.
Proof.
  intros (Hn & Hf & Hl & Hv). pose proof Hf as (Hinv & Hri & Hro & Hsi & Hso).
  unfold main_body, generate, report_options, bind.
  rewrite Hn, Hl, Hv, Hinv, Hri, Hro, Hsi, Hso.
  destruct (when (cfg_verbose c' >? 0) _ w) as [[] w1| |]; try reflexivity.
  destruct (check_points (cfg_n c') w1) as [[] w2| |]; try reflexivity.
  destruct (when (truthy (cfg_license c')) _ w2) as [[] w3| |]; try reflexivity.
  destruct (to_stdout header w3) as [[] w4| |]; try reflexivity.
  rewrite (fftGen_truth E _ _ _ Hf). reflexivity.
Qed.

(** X11.  [main] and [fftGen] look at the flags only to see whether they are
    zero, and at the verbosity only to see whether it is above 0: settings
    that agree in this and in the number of points give the same run, with
    the same text on both streams and the same exit. *)
Theorem settings_count_as_zero_or_not (E : environment) (c c' : config) (w : streams) :
  same_settings c c' -> main_body E c w = main_body E c' w.
Proof. exact (main_body_truth E c c' w). Qed.

Lemma settings_count_as_zero_or_not_witness :
  main_body sample_env (mkConfig 8 (mkFlags 1 0 0 0 0) 1 0)
    (mkStreams EmptyString EmptyString)
  = main_body sample_env (mkConfig 8 (mkFlags 3 0 0 0 0) 2 0)
      (mkStreams EmptyString EmptyString).
Proof.
  apply settings_count_as_zero_or_not.
  unfold same_settings, same_flags. cbn. repeat split.
Defined.

(** *** What a run leaves on [stdout] *)

(** X12.  For a power of two that an int holds, [main] writes the note of the
    license, when it is asked for, and then the generated code, and ends
    with [EXIT_SUCCESS]; nothing else is written to [stdout], and [stderr]
    is left as it is.  When one of the two [malloc] gives no memory the
    note has been written all the same, no line of code follows it, and
    [main] ends with [EXIT_FAILURE] after one line on [stderr]. *)
Theorem run_output (E : environment) (c : config) (w : streams) :
  power_of_two (cfg_n c) -> cfg_n c <= INT_MAX ->
  let banner := if truthy (cfg_license c) then licenseText else EmptyString in
  exists st,
    planner (cfg_n c) (symmIn (cfg_flags c)) (heap_junk E) = Some st /\
    (nzi_allocated E = true -> swap_allocated E = true ->
     generate E c w
     = Exit EXIT_SUCCESS
         (mkStreams ((stdout w +++ banner) +++ code_text E (cfg_n c) (cfg_flags c) st)
                    (stderr w))) /\
    (nzi_allocated E = false \/ swap_allocated E = false ->
     generate E c w
     = Exit EXIT_FAILURE
         (mkStreams (stdout w +++ banner)
                    (stderr w +++ nl +++ LOGO +++ ": Error allocating memory: "
                     +++ strerror_errno E +++ nl))).
Proof.
  intros Hp Hmax banner.
  assert (Hpass : check_points (cfg_n c) w = Ret tt w).
  { assert (Hpos : 0 < cfg_n c).
    { destruct Hp as (k & Hk & ->). apply Z.pow_pos_nonneg; lia. }
    apply check_points_accepts; [lia|].
    apply points_test; [unfold INT_MIN; lia|lia|exact Hp]. }
  destruct Hp as (k & Hk & Hn).
  destruct (planner_pow2 (Z.to_nat k) (symmIn (cfg_flags c)) (heap_junk E))
    as (st & Hst & _).
  rewrite Z2Nat.id in Hst by exact Hk. rewrite <- Hn in Hst.
  exists st. split; [exact Hst|].
  assert (Hb : forall w0 : streams,
            when (truthy (cfg_license c)) (to_stdout licenseText) w0
            = Ret tt (mkStreams (stdout w0 +++ banner) (stderr w0))).
  { intros [o e]. unfold banner, when. destruct (truthy (cfg_license c)).
    - reflexivity.
    - unfold ret. cbn [stdout stderr]. rewrite append_nil_r. reflexivity. }
  split.
  - intros Hnzi Hswap. unfold generate, bind. rewrite Hpass, Hb.
    unfold to_stdout at 1. unfold header. cbn [stdout stderr]. rewrite append_nil_r.
    rewrite (fftGen_prints E (cfg_n c) (cfg_flags c) st _ Hnzi Hswap Hst).
    unfold to_stdout, footer, exit. cbn [stdout stderr]. rewrite append_nil_r.
    reflexivity.
  - intros Halloc. unfold generate, bind. rewrite Hpass, Hb.
    unfold to_stdout at 1. unfold header. cbn [stdout stderr]. rewrite append_nil_r.
    unfold fftGen, bind, to_stderr, exit.
    destruct Halloc as [-> | ->]; [|destruct (nzi_allocated E)]; cbn [negb stdout stderr];
      reflexivity.
Qed.

Lemma run_output_witness :
  exists st,
    planner 2 0 0 = Some st /\
    generate sample_env (mkConfig 2 (mkFlags 0 0 0 0 0) 0 1)
      (mkStreams EmptyString EmptyString)
    = Exit EXIT_SUCCESS
        (mkStreams (licenseText +++ code_text sample_env 2 (mkFlags 0 0 0 0 0) st)
                   EmptyString).
Proof.
  destruct (run_output sample_env (mkConfig 2 (mkFlags 0 0 0 0 0) 0 1)
              (mkStreams EmptyString EmptyString)
              (ex_intro (fun k => 0 <= k /\ 2 = 2 ^ k) 1 (conj Z.le_0_1 eq_refl))
              ltac:(cbv; discriminate))
    as (st & Hst & Hok & _).
  exists st. split; [exact Hst|].
  exact (Hok eq_refl eq_refl).
Defined.

(** ** An option given again *)

Lemma counts_alike_set_n (c c' : config) (x : Z) :
  counts_alike c c' -> counts_alike (set_var Vn x c) (set_var Vn x c').
Proof.
  unfold counts_alike, alike. destruct c as [n [] vb lic], c' as [n' [] vb' lic'].
  cbn. intros H. repeat split; try lia.
Qed.

Lemma counts_alike_bump (v : var) (c c' : config) :
  counts_alike c c' -> counts_alike (bump v c) (bump v c').
Proof.
  unfold counts_alike, alike, bump. destruct c as [n [] vb lic], c' as [n' [] vb' lic'].
  destruct v; cbn; intros H; repeat split; try lia.
Qed.

Lemma counts_alike_again (v : var) (c : config) :
  v <> Vn -> counts_alike c c -> 0 < get_var v c -> counts_alike (bump v c) c.
Proof.
  unfold counts_alike, alike, bump. destruct c as [n [] vb lic].
  destruct v; cbn; intros Hv H Hpos; try congruence; repeat split; try lia.
Qed.

Lemma counts_alike_same_settings (c c' : config) :
  counts_alike c c' -> same_settings c c'.
Proof.
  unfold counts_alike, alike, same_settings, same_flags, truthy.
  destruct c as [n [] vb lic], c' as [n' [] vb' lic']. cbn.
  intros H. repeat split; try tauto;
    repeat match goal with
           | |- context [?x =? 0] => destruct (Z.eqb_spec x 0)
           | |- context [?x >? 0] => destruct (Z.gtb_spec x 0)
           end; try reflexivity; lia.
Qed.

Lemma outcomes_alike_bind {A B : Type} (RA : A -> A -> Prop) (RB : B -> B -> Prop)
    (p p' : proc A) (k k' : A -> proc B) (w : streams) :
  outcomes_alike RA (p w) (p' w) ->
  (forall a a' w1, RA a a' -> outcomes_alike RB (k a w1) (k' a' w1)) ->
  outcomes_alike RB (bind p k w) (bind p' k' w).
Proof.
  unfold bind. intros Hp Hk.
  destruct (p w) as [a w1|s w1|], (p' w) as [a' w1'|s' w1'|]; cbn in Hp |- *;
    try contradiction; try exact I.
  - destruct Hp as [Ha <-]. apply Hk. exact Ha.
  - exact Hp.
Qed.

Lemma outcomes_alike_same {A : Type} (RA : A -> A -> Prop) (o : outcome A) :
  (forall a w, o = Ret a w -> RA a a) -> outcomes_alike RA o o.
Proof.
  intros H. destruct o as [a w|s w|]; cbn; [split; [apply (H a w eq_refl)|reflexivity]|split; reflexivity|exact I].
Qed.

Lemma checkOption_alike (E : environment) (arg : string) (rest : list string)
    (op : OPTION) (c c' : config) (w : streams) :
  option_fits op -> counts_alike c c' ->
  outcomes_alike checked_alike (checkOption E arg rest op c w)
                               (checkOption E arg rest op c' w).
Proof.
  intros Hfit Hc.
  assert (Hret : forall (r : Z) (c1 c1' : config) (l : list string),
            counts_alike c1 c1' ->
            outcomes_alike checked_alike (ret (r, c1, l) w) (ret (r, c1', l) w)).
  { intros r c1 c1' l H. exact (conj (conj eq_refl (conj H eq_refl)) eq_refl). }
  assert (Hsame : forall p : proc (Z * config * list string),
            (forall a w1, p w <> Ret a w1) -> outcomes_alike checked_alike (p w) (p w)).
  { intros p Hp. apply outcomes_alike_same. intros a w1 H. destruct (Hp a w1 H). }
  unfold checkOption.
  destruct (fmt op) as [f|] eqn:Ef.
  - destruct Hfit as [Hfit|Hfit]; [congruence|]. rewrite Hfit.
    destruct (is_str_format f).
    + destruct (String.prefix (shOpt op) arg || String.prefix (lgOpt op) arg).
      * apply Hsame. intros a w1. destruct (String.get _ arg), rest; discriminate.
      * apply Hret, Hc.
    + set (scanned := match sscanf E arg (shOpt op +++ "=" +++ f) with
                      | Some v => Some v | None => _ end).
      destruct scanned as [v|].
      * apply Hret, counts_alike_set_n, Hc.
      * rewrite andb_false_r.
        destruct (String.eqb arg (shOpt op) || String.eqb arg (lgOpt op)).
        -- destruct rest as [|a rest']; [apply Hsame; discriminate|].
           destruct (sscanf E a f) as [v|]; [|apply Hsame; discriminate].
           apply Hret, counts_alike_set_n, Hc.
        -- apply Hret, Hc.
  - cbn [andb]. rewrite andb_true_r.
    destruct (String.prefix (shOpt op) arg).
    + apply Hret, (counts_alike_bump (val op)), Hc.
    + destruct (String.eqb arg (shOpt op) || String.eqb arg (lgOpt op)).
      * apply Hret, (counts_alike_bump (val op)), Hc.
      * apply Hret, Hc.
Qed.

Lemma checkOptions_alike (E : environment) (arg : string) (rest : list string) :
  forall (pOp : list OPTION) (po : Z) (c c' : config) (w : streams),
    Forall option_fits pOp -> counts_alike c c' ->
    outcomes_alike options_alike (checkOptions E arg rest pOp po c w)
                                 (checkOptions E arg rest pOp po c' w).
Proof.
  induction pOp as [|op pOp IH]; intros po c c' w Hfit Hc.
  - exact (conj (conj eq_refl (conj eq_refl (conj Hc eq_refl))) eq_refl).
  - inversion Hfit as [|? ? Hop Hrest]; subst. cbn [checkOptions].
    apply (outcomes_alike_bind checked_alike).
    + apply checkOption_alike; assumption.
    + intros [[r c1] rest1] [[r' c1'] rest1'] w1 (Hr & Hc1 & Hrest1). cbn in Hr, Hc1, Hrest1.
      subst r' rest1'. destruct (r =? 0).
      * apply IH; assumption.
      * exact (conj (conj eq_refl (conj eq_refl (conj Hc1 eq_refl))) eq_refl).
Qed.

Lemma pOptions_fit : Forall option_fits pOptions.
Proof.
  unfold pOptions, option_fits.
  repeat (apply Forall_cons; [first [left; reflexivity|right; reflexivity]|]).
  apply Forall_nil.
Qed.

Lemma option_loop_alike (E : environment) :
  forall (fuel : nat) (cur : string) (rest : list string) (c c' : config) (w : streams),
    counts_alike c c' ->
    outcomes_alike entries_alike (option_loop E fuel cur rest c w)
                                 (option_loop E fuel cur rest c' w).
Proof.
  induction fuel as [|fuel IH]; intros cur rest c c' w Hc; [exact I|].
  cbn [option_loop].
  destruct (String.eqb (str_skip 1 cur) EmptyString);
    [exact (conj (conj Hc eq_refl) eq_refl)|].
  apply (outcomes_alike_bind options_alike).
  - apply checkOptions_alike; [exact pOptions_fit|exact Hc].
  - intros [[[r o] c1] rest1] [[[r' o'] c1'] rest1'] w1 (Hr & Ho & Hc1 & Hrest1).
    cbn in Hr, Ho, Hc1, Hrest1. subst r' o' rest1'.
    destruct (r =? 1); [exact (conj (conj Hc1 eq_refl) eq_refl)|].
    destruct (r =? -1); [apply IH; exact Hc1|].
    apply outcomes_alike_same.
    intros a w2 H. exfalso. revert H.
    destruct (_ || _); [discriminate|].
    destruct (_ || _); discriminate.
Qed.

Lemma arg_loop_alike (E : environment) :
  forall (fuel : nat) (args : list string) (c c' : config) (w : streams),
    counts_alike c c' ->
    outcomes_alike counts_alike (arg_loop E fuel args c w) (arg_loop E fuel args c' w).
Proof.
  induction fuel as [|fuel IH]; intros args c c' w Hc; [exact (conj Hc eq_refl)|].
  cbn [arg_loop]. destruct args as [|a rest]; [exact (conj Hc eq_refl)|].
  destruct (is_option_arg a).
  - apply (outcomes_alike_bind entries_alike).
    + apply option_loop_alike. exact Hc.
    + intros [c1 rest1] [c1' rest1'] w1 (Hc1 & Hrest1). cbn in Hc1, Hrest1. subst rest1'.
      apply IH. exact Hc1.
  - apply outcomes_alike_same. discriminate.
Qed.

(** The entries that follow are read in the same way, and [main] goes on
    in the same way, from settings that are alike. *)
Lemma main_from_alike (E : environment) (post : list string) (c c' : config)
    (w : streams) (fuel fuel' : nat) :
  counts_alike c c' ->
  (List.length post <= fuel)%nat -> (List.length post <= fuel')%nat ->
  (c1 <- arg_loop E fuel post c ;; main_body E c1) w
  = (c1 <- arg_loop E fuel' post c' ;; main_body E c1) w.
Proof.
  intros Hc Hfuel Hfuel'.
  unfold bind.
  rewrite (arg_loop_fuel E fuel fuel' post c w) by assumption.
  pose proof (arg_loop_alike E fuel' post c c' w Hc) as H.
  destruct (arg_loop E fuel' post c w) as [c1 w1|s w1|],
           (arg_loop E fuel' post c' w) as [c1' w1'|s' w1'|];
    cbn in H; try contradiction; try reflexivity.
  - destruct H as [H <-]. apply main_body_truth, counts_alike_same_settings, H.
  - destruct H as [<- <-]. reflexivity.
Qed.

(** X13.  An option without a parameter that has been given counts once:
    after entries that are read and have left its int above 0, one more
    entry with its short or its long name changes nothing in the run,
    neither the text on the two streams nor the exit, whatever entries
    follow. *)
Theorem flag_given_again (E : environment) (prog : string)
    (pre post : list string) (c : config) (w : streams) (op : OPTION) :
  arg_loop E (List.length pre) pre config0 (mkStreams EmptyString EmptyString) = Ret c w ->
  In op flag_options ->
  0 < get_var (val op) c ->
  main E (prog :: pre ++ ["-" +++ shOpt op] ++ post) = main E (prog :: pre ++ post) /\
  main E (prog :: pre ++ ["-" +++ lgOpt op] ++ post) = main E (prog :: pre ++ post).
Proof.
  intros Hpre Hop Hpos.
  assert (Hcc : counts_alike c c).
  { assert (H0 : counts_alike config0 config0)
      by (unfold counts_alike, alike; cbn; repeat split; lia).
    pose proof (arg_loop_alike E (List.length pre) pre config0 config0
                  (mkStreams EmptyString EmptyString) H0) as H.
    rewrite Hpre in H. exact (proj1 H). }
  pose proof (counts_alike_again (val op) c (flag_option_not_points op Hop) Hcc Hpos)
    as Hagain.
  destruct (arg_loop_flag E (List.length post) post c w op Hop) as [Hsh Hlg].
  rewrite !(main_read_more E prog pre _ c w Hpre).
  cbn [List.length app]. unfold bind at 1 3. rewrite Hsh, Hlg.
  split; apply (main_from_alike E post (bump (val op) c) c w _ _ Hagain); lia.
Qed.

Lemma flag_given_again_witness :
  main sample_env ["fftGen"; "-i"; "-i"; "-n"; "8"]
  = main sample_env ["fftGen"; "-i"; "-n"; "8"] /\
  main sample_env ["fftGen"; "-i"; "--inverse"; "-n"; "8"]
  = main sample_env ["fftGen"; "-i"; "-n"; "8"].
Proof.
  exact (flag_given_again sample_env "fftGen" ["-i"] ["-n"; "8"]
           (bump Vinv config0) (mkStreams EmptyString EmptyString)
           (mkOPTION "i" "-inverse" None Vinv)
           eq_refl (or_introl eq_refl) eq_refl).
Defined.

(** ** The order of the options *)

Lemma arg_loop_flag_spelling (E : environment) (post : list string)
    (c : config) (w : streams) (op : OPTION) (o : string) :
  In op flag_options -> In o (flag_spellings op) ->
  forall fuel, (List.length [o] + List.length post <= fuel)%nat ->
    arg_loop E fuel ([o] ++ post) c w
    = arg_loop E (fuel - List.length [o]) post (bump (val op) c) w.
Proof.
  intros Hop Ho fuel Hfuel. cbn [List.length app] in *.
  destruct fuel as [|fuel]; [lia|].
  replace (S fuel - 1)%nat with fuel by lia.
  destruct (arg_loop_flag E fuel post c w op Hop) as [Hsh Hlg].
  destruct Ho as [<-|[<-|[]]]; assumption.
Qed.

(** [main_from] when the first entries change the settings to [c']. *)
Lemma main_from_after (E : environment) (sp post : list string) (c c' : config)
    (w : streams) :
  (forall fuel, (List.length sp + List.length post <= fuel)%nat ->
     arg_loop E fuel (sp ++ post) c w = arg_loop E (fuel - List.length sp) post c' w) ->
  main_from E (sp ++ post) c w = main_from E post c' w.
Proof.
  intros H. unfold main_from, bind.
  rewrite H by (rewrite length_app; lia).
  rewrite (arg_loop_fuel E _ (List.length post) post c' w); [reflexivity| |lia].
  rewrite length_app. lia.
Qed.

Lemma bump_bump (u v : var) (c : config) : bump u (bump v c) = bump v (bump u c).
Proof. destruct c as [n [] vb lic]. destruct u, v; reflexivity. Qed.

Lemma set_n_bump (u : var) (x : Z) (c : config) :
  u <> Vn -> set_var Vn x (bump u c) = bump u (set_var Vn x c).
Proof. destruct c as [n [] vb lic]. destruct u; intros H; try reflexivity. congruence. Qed.

(** X14.  The options may be given in any order: after entries that are
    read, two options without a parameter, each by its short or its long
    name, give the same run in both orders, and so do such an option and
    the number of points in any of its six spellings, whatever entries
    follow. *)
Theorem options_in_any_order (E : environment) (prog : string)
    (pre post : list string) (c : config) (w : streams)
    (op op' : OPTION) (x : string) (v : Z) :
  arg_loop E (List.length pre) pre config0 (mkStreams EmptyString EmptyString) = Ret c w ->
  In op flag_options -> In op' flag_options ->
  scan_i E EmptyString = None ->
  String.prefix "=" x = false ->
  scan_i E x = Some v ->
  forall o o' sp,
    In o (flag_spellings op) -> In o' (flag_spellings op') -> In sp (points_spellings x) ->
    main E (prog :: pre ++ [o] ++ [o'] ++ post) = main E (prog :: pre ++ [o'] ++ [o] ++ post) /\
    main E (prog :: pre ++ [o] ++ sp ++ post) = main E (prog :: pre ++ sp ++ [o] ++ post).
Proof.
  intros Hpre Hop Hop' Hempty Heq Hv o o' sp Ho Ho' Hsp.
  split.
  - rewrite (main_after E prog pre [o] ([o'] ++ post) c (bump (val op) c) w Hpre)
      by (apply arg_loop_flag_spelling; assumption).
    rewrite (main_after E prog pre [o'] ([o] ++ post) c (bump (val op') c) w Hpre)
      by (apply arg_loop_flag_spelling; assumption).
    rewrite (main_from_after E [o'] post _ (bump (val op') (bump (val op) c)))
      by (apply arg_loop_flag_spelling; assumption).
    rewrite (main_from_after E [o] post _ (bump (val op) (bump (val op') c)))
      by (apply arg_loop_flag_spelling; assumption).
    rewrite bump_bump. reflexivity.
  - rewrite (main_after E prog pre [o] (sp ++ post) c (bump (val op) c) w Hpre)
      by (apply arg_loop_flag_spelling; assumption).
    rewrite (main_after E prog pre sp ([o] ++ post) c (set_var Vn v c) w Hpre)
      by (apply (arg_loop_points E _ c w x v); assumption).
    rewrite (main_from_after E sp post _ (set_var Vn v (bump (val op) c)))
      by (apply (arg_loop_points E _ _ w x v); assumption).
    rewrite (main_from_after E [o] post _ (bump (val op) (set_var Vn v c)))
      by (apply arg_loop_flag_spelling; assumption).
    rewrite (set_n_bump (val op) v c (flag_option_not_points op Hop)). reflexivity.
Qed.

Lemma options_in_any_order_witness :
  main sample_env ["fftGen"; "-i"; "--real-in-opt"; "-v"]
  = main sample_env ["fftGen"; "--real-in-opt"; "-i"; "-v"] /\
  main sample_env ["fftGen"; "-i"; "-n"; "8"; "-v"]
  = main sample_env ["fftGen"; "-n"; "8"; "-i"; "-v"].
Proof.
  exact (options_in_any_order sample_env "fftGen" [] ["-v"] config0
           (mkStreams EmptyString EmptyString)
           (mkOPTION "i" "-inverse" None Vinv) (mkOPTION "r" "-real-in-opt" None VrealIn)
           "8" 8 eq_refl (or_introl eq_refl) (or_intror (or_introl eq_refl))
           eq_refl eq_refl eq_refl
           "-i" "--real-in-opt" ["-n"; "8"]
           (or_introl eq_refl) (or_intror (or_introl eq_refl)) (or_introl eq_refl)).
Defined.

(** ** The inversion of [xi] under [realIn] *)


(** ** Entries that fit no option *)








(** ** The least int as the number of points *)






(** ** The exits of [main] *)




(** ** The code of two points, and its round trip in double precision *)



(** ** A literal that is printed as 1 *)








(** ** The generated text read back *)

(** ** The decimal text of an index *)



Lemma all_chars_app (P : ascii -> bool) (a b : string) :
  all_chars P (a +++ b) = all_chars P a && all_chars P b.
Proof.
  induction a as [|c a IH]; cbn; [reflexivity|]. rewrite IH. apply andb_assoc.
Qed.

Lemma all_chars_weaken (P Q : ascii -> bool) (s : string) :
  (forall c, P c = true -> Q c = true) -> all_chars P s = true -> all_chars Q s = true.
Proof.
  intros H. induction s as [|c s IH]; cbn; [reflexivity|].
  intros Hs. apply andb_true_iff in Hs. destruct Hs as [H1 H2].
  rewrite (H c H1), (IH H2). reflexivity.
Qed.






(** ** The reader on the pieces of a line *)










(** ** The lines read back *)







(** ** The statements of the lines *)





(** ** The whole text *)




(** ** A property of every butterfly is one of every line *)


(** ** The lines of the butterflies are C statements *)



(** ** The text run is the lines run *)













(** ** The text of the literals up to [2^27] points *)





















(** ** The claims about the generated text *)




